(** * ProjectContour: terrain and route meshes from a GPS track

    A shallow embedding of the numerical core of ProjectContour
    (coordinate_transform.py, route.py, parameters.py, terrain_data.py,
    mesh_builder.py, mesh_generator.py, tile_client.py, heightmap.py)
    together with the properties of its specification and further
    properties of the code.

    Conventions of the embedding.
    - A Python [float] is an exact rational ([Q]); equality of computed
      values is [Qeq].  Python [int]s are [Z] (tile indices, zoom levels)
      or [nat] (array indices, lengths).
    - The elementary functions of numpy/math that have no rational value
      ([sqrt], [cos], [tan], [arcsinh], ...) are the operations of the
      class [NumLib]; the code is embedded over an arbitrary instance.
    - pymap3d's [geodetic2enu] is the class [Geodesy], scipy's [cKDTree]
      nearest-neighbour query is the class [KDTree].
    - A 2-D numpy array is its shape together with its row-major buffer
      ([ndarray]); [a[i, j]] is the entry [i * ncols + j] of the buffer.
    - A Python exception is a value of [PyError] in the error monad
      [result]; the exceptions of Python's own arithmetic and of the tile
      client have types of their own.
    - numpy's float32, in which the tiles are decoded, is rounded after
      every operation ([float32]).
    - [bytes] are lists of [Byte.byte].
    - Not embedded: the GPX parser, the command line, the plots, the mesh
      decimation of trimesh and the HTTP session. *)

From Stdlib Require Import ZArith QArith Qround Qabs Qpower List Lia Bool Arith PeanoNat.
From Stdlib Require Import Setoid Morphisms Lqa Sorted ZifyBool.
From Stdlib Require Strings.Byte.
Import ListNotations.

Open Scope Q_scope.

(* ===================================================================== *)
(** ** Python and numpy primitives *)
(* ===================================================================== *)

(** Exceptions raised on the paths that are modelled. *)
Inductive PyError : Type :=
  | ValueError
  | IndexError
  | TypeError.

Inductive result (A : Type) : Type :=
  | Ok (a : A)
  | Err (e : PyError).
Arguments Ok {A} a.
Arguments Err {A} e.

Definition bind {A B : Type} (m : result A) (k : A -> result B) : result B :=
  match m with
  | Ok a => k a
  | Err e => Err e
  end.

Notation "x <- m ;; k" := (bind m (fun x => k))
  (at level 61, m at next level, right associativity).

Definition is_ok {A : Type} (m : result A) : bool :=
  match m with Ok _ => true | Err _ => false end.

(** The transcendental part of numpy / math. *)
Class NumLib : Type := {
  np_pi : Q;
  np_sqrt : Q -> Q;
  np_cos : Q -> Q;
  np_tan : Q -> Q;
  np_sinh : Q -> Q;
  np_arcsinh : Q -> Q;
  np_arctan : Q -> Q;
  np_radians : Q -> Q;
  np_degrees : Q -> Q
}.

(** [int(x)] on a float: truncation toward zero. *)
Definition py_int (q : Q) : Z :=
  if Qle_bool 0 q then Qfloor q else Qceiling q.

(** [2**zoom] for an [int] exponent. *)
Definition pow2 (zoom : Z) : Q := Qpower 2 zoom.

Definition Qlt_bool (a b : Q) : bool := negb (Qle_bool b a).

Definition Qmin (a b : Q) : Q := if Qle_bool a b then a else b.
Definition Qmax (a b : Q) : Q := if Qle_bool a b then b else a.

(** [range(a, b)] over [int]. *)
Definition range (a b : Z) : list Z :=
  map (fun k => (a + Z.of_nat k)%Z) (seq 0 (Z.to_nat (b - a))).

(** [a.min()] / [a.max()] on a flat buffer; numpy raises [ValueError] on a
    zero-size array. *)
Definition np_min (l : list Q) : result Q :=
  match l with
  | [] => Err ValueError
  | v :: t => Ok (fold_left Qmin t v)
  end.

Definition np_max (l : list Q) : result Q :=
  match l with
  | [] => Err ValueError
  | v :: t => Ok (fold_left Qmax t v)
  end.

(** A 2-D array: shape and row-major buffer. *)
Record ndarray : Type := mk_ndarray {
  nrows : nat;
  ncols : nat;
  ravel : list Q
}.

Definition wf_ndarray (a : ndarray) : Prop :=
  length (ravel a) = (nrows a * ncols a)%nat.

(** [a[i, j]] *)
Definition get2 (a : ndarray) (i j : nat) : Q :=
  nth (i * ncols a + j) (ravel a) 0.

(** [flat.reshape(height, width)] *)
Definition reshape (flat : list Q) (height width : nat) : ndarray :=
  mk_ndarray height width flat.

(** In-place store into a buffer; out of range leaves it unchanged (the
    loops below never index out of range). *)
Fixpoint set_nth {A : Type} (k : nat) (v : A) (l : list A) : list A :=
  match l, k with
  | [], _ => []
  | _ :: t, O => v :: t
  | h :: t, S k' => h :: set_nth k' v t
  end.

(** The index pairs of [for i in range(h): for j in range(w)], in order. *)
Definition cells (h w : nat) : list (nat * nat) :=
  flat_map (fun i => map (fun j => (i, j)) (seq 0 w)) (seq 0 h).

(** [a[::step]] on a 1-D array, [step >= 1]: keep the entries at indexes
    0, step, 2*step, ...  [skip] counts down to the next kept entry. *)
Fixpoint stride_from {A : Type} (skip step : nat) (l : list A) : list A :=
  match l with
  | [] => []
  | v :: t =>
      match skip with
      | O => v :: stride_from (step - 1) step t
      | S k => stride_from k step t
      end
  end.

Definition slice_step {A : Type} (l : list A) (step : nat) : list A :=
  stride_from 0 step l.

(* ===================================================================== *)
(** ** parameters.py *)
(* ===================================================================== *)

Record GlobalParameters : Type := {
  SIZE_MM : Q;
  PRINT_RESOLUTION_MM : Q;
  EARTH_CIRCUMFERENCE_M : Q;
  M_PER_DEG_LAT : Q
}.

(** The dataclass defaults. *)
Definition mk_GlobalParameters (size_mm print_resolution_mm : Q) : GlobalParameters :=
  {| SIZE_MM := size_mm;
     PRINT_RESOLUTION_MM := print_resolution_mm;
     EARTH_CIRCUMFERENCE_M := 40075017;
     M_PER_DEG_LAT := 111320 |}.

Record ModelResolution : Type := { meters : Q }.

(* ===================================================================== *)
(** ** coordinate_transform.py *)
(* ===================================================================== *)

Record RasterTile : Type := mk_RasterTile {
  tile_zoom : Z;
  tile_x : Z;
  tile_y : Z
}.

Section CoordinateTransform.
Context `{NumLib}.

(** [LonLatToRasterTile.lonlat_to_tile] *)
Definition lonlat_to_tile (lon lat : Q) (zoom : Z) : RasterTile :=
  let n := pow2 zoom in
  let x_tile := py_int ((lon + 180) / 360 * n) in
  let lat_rad := np_radians lat in
  let y_tile := py_int ((1 - np_arcsinh (np_tan lat_rad) / np_pi) / 2 * n) in
  mk_RasterTile zoom x_tile y_tile.

End CoordinateTransform.

(** pymap3d: geodetic to local East-North-Up about an origin.  The law is
    the defining property of the Up axis: a point on the vertical of the
    origin has East = North = 0 and Up = its height above the origin. *)
Class Geodesy : Type := {
  geodetic2enu : Q -> Q -> Q -> Q -> Q -> Q -> Q * Q * Q;
  geodetic2enu_vertical : forall lat0 lon0 h h0,
    fst (fst (geodetic2enu lat0 lon0 h lat0 lon0 h0)) == 0 /\
    snd (fst (geodetic2enu lat0 lon0 h lat0 lon0 h0)) == 0 /\
    snd (geodetic2enu lat0 lon0 h lat0 lon0 h0) == h - h0
}.

Record LonLatToENU : Type := {
  lat0 : Q;
  lon0 : Q;
  h0 : Q
}.

Section LonLatToENU.
Context `{Geodesy}.

(** [LonLatToENU.lonlat_to_enu]: the rows of the returned (N, 3) array.
    The three inputs are flat arrays of one length. *)
Fixpoint lonlat_to_enu (t : LonLatToENU) (lat lon ele : list Q) : list (Q * Q * Q) :=
  match lat, lon, ele with
  | la :: lat', lo :: lon', el :: ele' =>
      geodetic2enu la lo el (lat0 t) (lon0 t) (h0 t) :: lonlat_to_enu t lat' lon' ele'
  | _, _, _ => []
  end.

End LonLatToENU.

(* ===================================================================== *)
(** ** route.py *)
(* ===================================================================== *)

Record BBox_LL : Type := {
  min_longitude : Q;
  min_latitude : Q;
  max_longitude : Q;
  max_latitude : Q
}.

Definition central_latitude (b : BBox_LL) : Q :=
  (min_latitude b + max_latitude b) / 2.

Section Route.
Context `{NumLib}.

(** [BBox_LL.tiles_to_cover] *)
Definition tiles_to_cover (b : BBox_LL) (zoom : Z) : list RasterTile :=
  let min_tile := lonlat_to_tile (min_longitude b) (min_latitude b) zoom in
  let max_tile := lonlat_to_tile (max_longitude b) (max_latitude b) zoom in
  let min_x := Z.min (tile_x min_tile) (tile_x max_tile) in
  let max_x := Z.max (tile_x min_tile) (tile_x max_tile) in
  let min_y := Z.min (tile_y min_tile) (tile_y max_tile) in
  let max_y := Z.max (tile_y min_tile) (tile_y max_tile) in
  flat_map (fun x => map (fun y => mk_RasterTile zoom x y) (range min_y (max_y + 1)))
           (range min_x (max_x + 1)).

Definition meters_per_pixel (params : GlobalParameters) (b : BBox_LL) (zoom : Z) : Q :=
  (EARTH_CIRCUMFERENCE_M params * np_cos (np_radians (central_latitude b)))
  / (256 * pow2 zoom).

(** The body of the [for zoom in range(1, 16)] loop of
    [ZoomLevel._compute_auto_zoom], with its [break]. *)
Fixpoint auto_zoom_scan (b : BBox_LL) (params : GlobalParameters)
    (model_res : ModelResolution) (max_tiles : nat)
    (zooms : list Z) (optimum_zoom : Z) : Z :=
  match zooms with
  | [] => optimum_zoom
  | zoom :: rest =>
      let mpp := meters_per_pixel params b zoom in
      let num_tiles := length (tiles_to_cover b zoom) in
      if (max_tiles <? num_tiles)%nat then optimum_zoom
      else if Qle_bool mpp (meters model_res) && (num_tiles <=? max_tiles)%nat
           then auto_zoom_scan b params model_res max_tiles rest zoom
           else auto_zoom_scan b params model_res max_tiles rest optimum_zoom
  end.

(** [ZoomLevel._compute_auto_zoom] *)
Definition _compute_auto_zoom (b : BBox_LL) (params : GlobalParameters)
    (model_res : ModelResolution) (max_tiles : nat) : Z :=
  auto_zoom_scan b params model_res max_tiles (range 1 16) 15%Z.

(** [ZoomLevel.new] *)
Definition ZoomLevel_new (params : GlobalParameters) (b : BBox_LL)
    (manual_zoom : option Z) (model_res : ModelResolution) : Z :=
  match manual_zoom with
  | Some z => z
  | None => _compute_auto_zoom b params model_res 1000
  end.

End Route.

(* ===================================================================== *)
(** ** More array primitives *)
(* ===================================================================== *)

(** [min(xs)] on a Python list of ints; [ValueError] on an empty list. *)
Definition py_min_Z (l : list Z) : result Z :=
  match l with
  | [] => Err ValueError
  | v :: t => Ok (fold_left Z.min t v)
  end.

(** [a[k]] on a 1-D array, [k >= 0]. *)
Definition getitem (a : list Q) (k : nat) : result Q :=
  match nth_error a k with
  | Some v => Ok v
  | None => Err IndexError
  end.

(** [a[i, j]], [i, j >= 0]. *)
Definition getitem2 (a : ndarray) (i j : nat) : result Q :=
  if (i <? nrows a)%nat && (j <? ncols a)%nat
  then getitem (ravel a) (i * ncols a + j)
  else Err IndexError.

(** [a[indices]] with an integer index array. *)
Fixpoint take (a : list Q) (indices : list nat) : result (list Q) :=
  match indices with
  | [] => Ok []
  | k :: rest =>
      v <- getitem a k ;;
      vs <- take a rest ;;
      Ok (v :: vs)
  end.

(** [np.column_stack([a, b])] of two 1-D arrays: the rows [(a[k], b[k])]. *)
Definition column_stack (a b : list Q) : result (list (Q * Q)) :=
  if (length a =? length b)%nat then Ok (combine a b) else Err ValueError.

(** Element-wise binary operation on two 1-D arrays with numpy's
    broadcasting: equal lengths, or one of the two of length one. *)
Definition broadcast2 (f : Q -> Q -> Q) (a b : list Q) : result (list Q) :=
  if (length a =? length b)%nat then Ok (map (fun p => f (fst p) (snd p)) (combine a b))
  else match a, b with
       | [u], _ => Ok (map (fun v => f u v) b)
       | _, [v] => Ok (map (fun u => f u v) a)
       | _, _ => Err ValueError
       end.

(** Number of entries of [a[::step]] along an axis of length [len]. *)
Definition strided_len (len step : nat) : nat := ((len + step - 1) / step)%nat.

(** [a[::step, ::step]] on a 2-D array. *)
Definition slice2 (a : ndarray) (step : nat) : ndarray :=
  let h := strided_len (nrows a) step in
  let w := strided_len (ncols a) step in
  mk_ndarray h w (map (fun ij => get2 a (fst ij * step) (snd ij * step)) (cells h w)).

(* ===================================================================== *)
(** ** terrain_data.py *)
(* ===================================================================== *)

(** scipy.spatial.cKDTree over 2-D points: [tree.query(q)] returns the
    index of a data point nearest to [q] (ties are not specified).
    Distances are compared by their squares. *)
Definition dist2 (p q : Q * Q) : Q :=
  (fst p - fst q) * (fst p - fst q) + (snd p - snd q) * (snd p - snd q).

Class KDTree : Type := {
  kd_query : list (Q * Q) -> Q * Q -> nat;
  kd_query_nearest : forall pts q,
    pts <> [] ->
    (kd_query pts q < length pts)%nat /\
    forall m, (m < length pts)%nat ->
      dist2 (nth (kd_query pts q) pts (0, 0)) q <= dist2 (nth m pts (0, 0)) q
}.

Record Terrain_ENU : Type := {
  e_grid : ndarray;
  n_grid : ndarray;
  u_grid : ndarray
}.

(** [Terrain_ENU.shape] *)
Definition Terrain_ENU_shape (t : Terrain_ENU) : nat * nat :=
  (nrows (e_grid t), ncols (e_grid t)).

(** [Terrain_ENU.bounds] *)
Definition Terrain_ENU_bounds (t : Terrain_ENU)
  : result ((Q * Q) * (Q * Q) * (Q * Q)) :=
  e_min <- np_min (ravel (e_grid t)) ;;
  e_max <- np_max (ravel (e_grid t)) ;;
  n_min <- np_min (ravel (n_grid t)) ;;
  n_max <- np_max (ravel (n_grid t)) ;;
  u_min <- np_min (ravel (u_grid t)) ;;
  u_max <- np_max (ravel (u_grid t)) ;;
  Ok ((e_min, e_max), (n_min, n_max), (u_min, u_max)).

Section TerrainData.
Context `{NumLib} `{Geodesy} `{KDTree}.

(** [Terrain_ENU.sample_at_points] *)
Definition sample_at_points (t : Terrain_ENU) (e_points n_points : list Q)
  : result (list Q) :=
  terrain_points <- column_stack (ravel (e_grid t)) (ravel (n_grid t)) ;;
  query_points <- column_stack e_points n_points ;;
  let indices := map (kd_query terrain_points) query_points in
  take (ravel (u_grid t)) indices.

(** The inverse Web-Mercator tile formula of [Terrain_ENU.new], for a
    fractional tile coordinate and [n = 2**zoom]. *)
Definition tile_to_lon (tile_x_frac n : Q) : Q :=
  tile_x_frac / n * 360 - 180.

Definition tile_to_lat (tile_y_frac n : Q) : Q :=
  np_degrees (np_arctan (np_sinh (np_pi * (1 - 2 * tile_y_frac / n)))).

(** [Terrain_ENU.new].  The bounds are computed for the message that the
    method prints; on a heightmap with no pixel they raise. *)
Definition Terrain_ENU_new (heightmap : ndarray) (tiles : list RasterTile)
    (zoom : Z) (transform : LonLatToENU) : result Terrain_ENU :=
  let height := nrows heightmap in
  let width := ncols heightmap in
  tile_x_min <- py_min_Z (map tile_x tiles) ;;
  tile_y_min <- py_min_Z (map tile_y tiles) ;;
  (* rows, cols = np.meshgrid(np.arange(height), np.arange(width), indexing="ij") *)
  let rows := map fst (cells height width) in
  let cols := map snd (cells height width) in
  let tile_x_grid := map (fun c => inject_Z tile_x_min + inject_Z (Z.of_nat c) / 256) cols in
  let tile_y_grid := map (fun r => inject_Z tile_y_min + inject_Z (Z.of_nat r) / 256) rows in
  let n := pow2 zoom in
  let lon_grid := map (fun tx => tile_to_lon tx n) tile_x_grid in
  let lat_grid := map (fun ty => tile_to_lat ty n) tile_y_grid in
  let lat_flat := lat_grid in
  let lon_flat := lon_grid in
  let ele_flat := ravel heightmap in
  let enu_coords := lonlat_to_enu transform lat_flat lon_flat ele_flat in
  let e_grid := reshape (map (fun p => fst (fst p)) enu_coords) height width in
  let n_grid := reshape (map (fun p => snd (fst p)) enu_coords) height width in
  let u_grid := mk_ndarray height width (ravel heightmap) in
  (* e_bounds, n_bounds, _ = cls(e_grid, n_grid, u_grid).bounds *)
  printed_bounds <-
    Terrain_ENU_bounds {| e_grid := e_grid; n_grid := n_grid; u_grid := u_grid |} ;;
  Ok {| e_grid := e_grid; n_grid := n_grid; u_grid := u_grid |}.

End TerrainData.

(* ===================================================================== *)
(** ** trimesh *)
(* ===================================================================== *)

Definition vertex : Type := (Q * Q * Q)%type.
Definition face : Type := (nat * nat * nat)%type.
Definition edge : Type := (nat * nat)%type.

Record Trimesh : Type := {
  vertices : list vertex;
  faces : list face
}.

Definition vertex_eqb (p q : vertex) : bool :=
  Qeq_bool (fst (fst p)) (fst (fst q)) &&
  Qeq_bool (snd (fst p)) (snd (fst q)) &&
  Qeq_bool (snd p) (snd q).

(** Index of the first vertex of [vs] coincident with [p]. *)
Fixpoint first_index (p : vertex) (vs : list vertex) : nat :=
  match vs with
  | [] => O
  | v :: t => if vertex_eqb p v then O else S (first_index p t)
  end.

(** [Trimesh.merge_vertices]: coincident vertices become one vertex and
    the faces are re-indexed.  A vertex is kept when it is the first of its
    coordinates; its new index is the number of kept vertices before it.
    (trimesh compares coordinates up to 1e-8 and orders the kept vertices
    its own way; the incidence of faces and vertices is the same.) *)
Definition merge_vertices (m : Trimesh) : Trimesh :=
  let vs := vertices m in
  let canon := map (fun v => first_index v vs) vs in
  let kept := map (fun p => Nat.eqb (fst p) (snd p)) (combine (seq 0 (length vs)) canon) in
  let new_index (k : nat) : nat :=
    let c := nth k canon k in
    length (filter (fun b => b) (firstn c kept)) in
  {| vertices := map snd (filter (fun p => fst p) (combine kept vs));
     faces := map (fun f => (new_index (fst (fst f)), new_index (snd (fst f)), new_index (snd f)))
                  (faces m) |}.

(** [trimesh.Trimesh(vertices=..., faces=..., process=True)] *)
Definition Trimesh_new (vs : list vertex) (fs : list face) : Trimesh :=
  merge_vertices {| vertices := vs; faces := fs |}.

(** The directed edges of the faces, three per face. *)
Definition face_edges (f : face) : list edge :=
  let '(a, b, c) := f in [(a, b); (b, c); (c, a)].

Definition edges (fs : list face) : list edge := flat_map face_edges fs.

Definition edge_sorted (e : edge) : edge :=
  (Nat.min (fst e) (snd e), Nat.max (fst e) (snd e)).

Definition edge_eqb (e1 e2 : edge) : bool :=
  Nat.eqb (fst e1) (fst e2) && Nat.eqb (snd e1) (snd e2).

Definition count_edge (e : edge) (es : list edge) : nat :=
  length (filter (edge_eqb e) es).

(** Number of faces using the edge, whatever its direction. *)
Definition edge_use (fs : list face) (e : edge) : nat :=
  count_edge (edge_sorted e) (map edge_sorted (edges fs)).

(** [mesh.is_watertight]: every edge is shared by exactly two faces. *)
Definition is_watertight (m : Trimesh) : bool :=
  forallb (fun e => Nat.eqb (edge_use (faces m) e) 2) (edges (faces m)).

(** [mesh.is_winding_consistent]: watertight, and two faces sharing an edge
    traverse it in opposite directions. *)
Definition is_winding_consistent (m : Trimesh) : bool :=
  is_watertight m &&
  forallb (fun e => Nat.eqb (count_edge e (edges (faces m))) 1 &&
                    Nat.eqb (count_edge (snd e, fst e) (edges (faces m))) 1)
          (edges (faces m)).

(** [mesh.bounds]: per-axis minimum and maximum of the vertices (all of
    them are referenced by faces in the meshes built here).  For a mesh
    without vertices it is [None], and subscripting it raises. *)
Definition bounds (m : Trimesh) : result (vertex * vertex) :=
  let xs := map (fun v => fst (fst v)) (vertices m) in
  let ys := map (fun v => snd (fst v)) (vertices m) in
  let zs := map (fun v => snd v) (vertices m) in
  match vertices m with
  | [] => Err TypeError
  | _ =>
      x0 <- np_min xs ;; y0 <- np_min ys ;; z0 <- np_min zs ;;
      x1 <- np_max xs ;; y1 <- np_max ys ;; z1 <- np_max zs ;;
      Ok ((x0, y0, z0), (x1, y1, z1))
  end.

(** [mesh.apply_scale(s)] *)
Definition apply_scale (m : Trimesh) (s : Q) : Trimesh :=
  {| vertices := map (fun v => (fst (fst v) * s, snd (fst v) * s, snd v * s)) (vertices m);
     faces := faces m |}.

(** Cross product of two edge vectors of a face: its (unnormalised) normal. *)
Definition vsub (p q : vertex) : vertex :=
  (fst (fst p) - fst (fst q), snd (fst p) - snd (fst q), snd p - snd q).

Definition cross (a b : vertex) : vertex :=
  let '(ax, ay, az) := a in
  let '(bx, by_, bz) := b in
  (ay * bz - az * by_, az * bx - ax * bz, ax * by_ - ay * bx).

Definition dot (a b : vertex) : Q :=
  fst (fst a) * fst (fst b) + snd (fst a) * snd (fst b) + snd a * snd b.

Definition face_normal (vs : list vertex) (f : face) : vertex :=
  let '(a, b, c) := f in
  let p := nth a vs (0, 0, 0) in
  let q := nth b vs (0, 0, 0) in
  let r := nth c vs (0, 0, 0) in
  cross (vsub q p) (vsub r p).

(* ===================================================================== *)
(** ** mesh_builder.py *)
(* ===================================================================== *)

(** The optional route arguments of [create_terrain_mesh]; the carving
    runs when all three arrays are given. *)
Record RouteArgs : Type := {
  route_e : list Q;
  route_n : list Q;
  route_u : list Q
}.

Section MeshBuilder.
Context `{NumLib}.

(** The distance of the grid point (i, j) to the nearest route sample:
    [distances = np.sqrt((route_e - te) ** 2 + (route_n - tn) ** 2)] and
    [distances.min()]. *)
Definition cell_min_dist (terrain_e terrain_n : ndarray) (r : RouteArgs)
    (i j : nat) : result Q :=
  te <- getitem2 terrain_e i j ;;
  tn <- getitem2 terrain_n i j ;;
  let de2 := map (fun re => (re - te) ^ 2) (route_e r) in
  let dn2 := map (fun rn => (rn - tn) ^ 2) (route_n r) in
  sums <- broadcast2 Qplus de2 dn2 ;;
  let distances := map np_sqrt sums in
  np_min distances.

(** One iteration of the carving loop at the cell (i, j), on the buffer
    [u] of the caller's [terrain_u]. *)
Definition carve_cell (terrain_e terrain_n : ndarray) (width : nat)
    (r : RouteArgs) (route_width route_depth : Q)
    (u : list Q) (ij : nat * nat) : result (list Q) :=
  let '(i, j) := ij in
  min_dist <- cell_min_dist terrain_e terrain_n r i j ;;
  if Qlt_bool min_dist (route_width / 2) then
    let factor := 1 - (min_dist / (route_width / 2)) in
    Ok (set_nth (i * width + j) (nth (i * width + j) u 0 - route_depth * factor) u)
  else Ok u.

(** The carving loops: the buffer after the loops and the exception that
    ended them, if any. *)
Fixpoint carve_loop (terrain_e terrain_n : ndarray) (width : nat)
    (r : RouteArgs) (route_width route_depth : Q)
    (todo : list (nat * nat)) (u : list Q) : list Q * option PyError :=
  match todo with
  | [] => (u, None)
  | ij :: rest =>
      match carve_cell terrain_e terrain_n width r route_width route_depth u ij with
      | Ok u' => carve_loop terrain_e terrain_n width r route_width route_depth rest u'
      | Err e => (u, Some e)
      end
  end.

(** Faces of the top surface. *)
Definition top_faces (height width : nat) : list face :=
  flat_map (fun i =>
    flat_map (fun j =>
      let idx := (i * width + j)%nat in
      [ (idx, idx + width, idx + 1);
        (idx + 1, idx + width, idx + width + 1) ]%nat)
      (seq 0 (width - 1)))
    (seq 0 (height - 1)).

(** [faces[:, ::-1] + len(vertices)] *)
Definition bottom_faces (fs : list face) (nv : nat) : list face :=
  map (fun f => let '(a, b, c) := f in (c + nv, b + nv, a + nv)%nat) fs.

(** The four walls.  "Top edge (j=width-1)": *)
Definition side_top_edge (height width nv : nat) : list face :=
  flat_map (fun i =>
    let top_idx1 := (i * width + (width - 1))%nat in
    let top_idx2 := ((i + 1) * width + (width - 1))%nat in
    let bot_idx1 := (top_idx1 + nv)%nat in
    let bot_idx2 := (top_idx2 + nv)%nat in
    [ (top_idx1, bot_idx1, top_idx2); (top_idx2, bot_idx1, bot_idx2) ])
    (seq 0 (height - 1)).

(** "Right edge (i=height-1)": *)
Definition side_right_edge (height width nv : nat) : list face :=
  flat_map (fun j =>
    let top_idx1 := ((height - 1) * width + j)%nat in
    let top_idx2 := ((height - 1) * width + (j + 1))%nat in
    let bot_idx1 := (top_idx1 + nv)%nat in
    let bot_idx2 := (top_idx2 + nv)%nat in
    [ (top_idx1, top_idx2, bot_idx1); (top_idx2, bot_idx2, bot_idx1) ])
    (seq 0 (width - 1)).

(** "Bottom edge (j=0)": *)
Definition side_bottom_edge (height width nv : nat) : list face :=
  flat_map (fun i =>
    let top_idx1 := (i * width)%nat in
    let top_idx2 := ((i + 1) * width)%nat in
    let bot_idx1 := (top_idx1 + nv)%nat in
    let bot_idx2 := (top_idx2 + nv)%nat in
    [ (top_idx1, top_idx2, bot_idx1); (top_idx2, bot_idx2, bot_idx1) ])
    (seq 0 (height - 1)).

(** "Left edge (i=0)": *)
Definition side_left_edge (width nv : nat) : list face :=
  flat_map (fun j =>
    let top_idx1 := j in
    let top_idx2 := (j + 1)%nat in
    let bot_idx1 := (top_idx1 + nv)%nat in
    let bot_idx2 := (top_idx2 + nv)%nat in
    [ (top_idx1, bot_idx1, top_idx2); (top_idx2, bot_idx1, bot_idx2) ])
    (seq 0 (width - 1)).

(** [side_faces], in the order of the source. *)
Definition side_faces (height width nv : nat) : list face :=
  side_top_edge height width nv ++ side_right_edge height width nv
  ++ side_bottom_edge height width nv ++ side_left_edge width nv.

(** The face array handed to trimesh: [np.vstack([faces, bottom_faces,
    side_faces])]. *)
Definition all_faces (height width : nat) : list face :=
  let nv := (height * width)%nat in
  top_faces height width ++ bottom_faces (top_faces height width) nv
  ++ side_faces height width nv.

(** The vertex loop: [[terrain_e[i, j], terrain_n[i, j], terrain_u[i, j]]]. *)
Fixpoint top_vertices (terrain_e terrain_n terrain_u : ndarray)
    (todo : list (nat * nat)) : result (list vertex) :=
  match todo with
  | [] => Ok []
  | (i, j) :: rest =>
      e <- getitem2 terrain_e i j ;;
      n <- getitem2 terrain_n i j ;;
      u <- getitem2 terrain_u i j ;;
      vs <- top_vertices terrain_e terrain_n terrain_u rest ;;
      Ok ((e, n, u) :: vs)
  end.

(** The part of [create_terrain_mesh] after the carving (vertices, faces,
    base, walls, mesh), on the elevation array as the carving left it.  The
    intermediate [top_mesh] is built and not used. *)
Definition build_mesh (terrain_e terrain_n terrain_u : ndarray) (base_height : Q)
  : result Trimesh :=
  let height := nrows terrain_u in
  let width := ncols terrain_u in
  vs <- top_vertices terrain_e terrain_n terrain_u (cells height width) ;;
  let fs := top_faces height width in
  min_u <- np_min (ravel terrain_u) ;;
  let base_z := min_u - base_height in
  let base_vertices := map (fun v => (fst (fst v), snd (fst v), base_z)) vs in
  (* faces[:, ::-1] on the 1-D array that np.array([]) is *)
  bfs <- match fs with
         | [] => Err IndexError
         | _ => Ok (bottom_faces fs (length vs))
         end ;;
  let sfs := side_faces height width (length vs) in
  Ok (Trimesh_new (vs ++ base_vertices) (fs ++ bfs ++ sfs)).

(** [create_terrain_mesh]: the caller's [terrain_u] after the call, and the
    returned mesh or the exception raised.  The carving runs when the three
    route arrays are given; it stores into the caller's array. *)
Definition create_terrain_mesh (terrain_e terrain_n terrain_u : ndarray)
    (base_height : Q) (route : option RouteArgs) (route_width route_depth : Q)
  : ndarray * result Trimesh :=
  let height := nrows terrain_u in
  let width := ncols terrain_u in
  let '(buf, raised) :=
    match route with
    | Some r => carve_loop terrain_e terrain_n width r route_width route_depth
                           (cells height width) (ravel terrain_u)
    | None => (ravel terrain_u, None)
    end in
  let terrain_u' := mk_ndarray height width buf in
  (terrain_u',
   match raised with
   | Some e => Err e
   | None => build_mesh terrain_e terrain_n terrain_u' base_height
   end).

(** The scale factor of [scale_mesh_for_printing].  (For a mesh of zero
    extent numpy divides to [inf]; the rational quotient is then 0.) *)
Definition print_scale_factor (size : vertex) (target_size_mm : Q) : Q :=
  let max_size_m := Qmax (Qmax (fst (fst size)) (snd (fst size))) (snd size) in
  target_size_mm / (max_size_m * 1000).

(** [scale_mesh_for_printing]: the scaled mesh, and the factor applied. *)
Definition scale_mesh_for_printing (mesh : Trimesh) (target_size_mm : Q)
  : result (Trimesh * Q) :=
  b <- bounds mesh ;;
  let size := vsub (snd b) (fst b) in
  let scale_factor := print_scale_factor size target_size_mm in
  Ok (apply_scale mesh scale_factor, scale_factor).

(** The route after the downsampling of [create_route_ribbon_mesh]. *)
Definition ribbon_step (len : nat) : nat := Nat.max 1 (len / 500).

Definition ribbon_downsample (route : list Q) (len_route_e : nat) : list Q :=
  slice_step route (ribbon_step len_route_e).

(** Vertices of the cross-section at sample [i]. *)
Definition ribbon_section (re rn ru : list Q) (n_points i : nat)
    (width height thickness : Q) : result (list vertex) :=
  e_i <- getitem re i ;; n_i <- getitem rn i ;; u_i <- getitem ru i ;;
  fwd <- (if Nat.eqb i 0 then
            e1 <- getitem re 1 ;; e0 <- getitem re 0 ;;
            n1 <- getitem rn 1 ;; n0 <- getitem rn 0 ;;
            Ok (e1 - e0, n1 - n0)
          else if Nat.eqb i (n_points - 1) then
            ep <- getitem re (i - 1) ;; np_ <- getitem rn (i - 1) ;;
            Ok (e_i - ep, n_i - np_)
          else
            en <- getitem re (i + 1) ;; ep <- getitem re (i - 1) ;;
            nn <- getitem rn (i + 1) ;; np_ <- getitem rn (i - 1) ;;
            Ok (en - ep, nn - np_)) ;;
  let forward_len := np_sqrt (fst fwd * fst fwd + snd fwd * snd fwd + 0 * 0) in
  let forward := if Qlt_bool 0 forward_len
                 then (fst fwd / forward_len, snd fwd / forward_len)
                 else (1, 0) in
  let perpendicular := (- snd forward, fst forward) in
  let pos := (e_i, n_i, u_i + height) in
  let top_left := (fst (fst pos) - fst perpendicular * (width / 2),
                   snd (fst pos) - snd perpendicular * (width / 2),
                   snd pos - 0 * (width / 2)) in
  let top_right := (fst (fst pos) + fst perpendicular * (width / 2),
                    snd (fst pos) + snd perpendicular * (width / 2),
                    snd pos + 0 * (width / 2)) in
  let bottom_left := (fst (fst top_left) - 0, snd (fst top_left) - 0, snd top_left - thickness) in
  let bottom_right := (fst (fst top_right) - 0, snd (fst top_right) - 0, snd top_right - thickness) in
  Ok [top_left; top_right; bottom_left; bottom_right].

(** Faces joining the cross-sections [i - 1] and [i]. *)
Definition ribbon_segment_faces (i : nat) : list face :=
  if Nat.ltb 0 i then
    let prev_base := ((i - 1) * 4)%nat in
    let curr_base := (i * 4)%nat in
    [ (prev_base, curr_base, prev_base + 1);
      (prev_base + 1, curr_base, curr_base + 1);
      (prev_base + 2, prev_base + 3, curr_base + 2);
      (prev_base + 3, curr_base + 3, curr_base + 2);
      (prev_base, prev_base + 2, curr_base);
      (prev_base + 2, curr_base + 2, curr_base);
      (prev_base + 1, curr_base + 1, prev_base + 3);
      (prev_base + 3, curr_base + 1, curr_base + 3) ]%nat
  else [].

Fixpoint ribbon_loop (re rn ru : list Q) (n_points : nat)
    (width height thickness : Q) (todo : list nat)
  : result (list vertex * list face) :=
  match todo with
  | [] => Ok ([], [])
  | i :: rest =>
      sec <- ribbon_section re rn ru n_points i width height thickness ;;
      more <- ribbon_loop re rn ru n_points width height thickness rest ;;
      Ok (sec ++ fst more, ribbon_segment_faces i ++ snd more)
  end.

(** [create_route_ribbon_mesh] *)
Definition create_route_ribbon_mesh (route_e route_n route_u : list Q)
    (width height thickness : Q) : result Trimesh :=
  let re := ribbon_downsample route_e (length route_e) in
  let rn := ribbon_downsample route_n (length route_e) in
  let ru := ribbon_downsample route_u (length route_e) in
  let n_points := length re in
  if (n_points <? 2)%nat then Err ValueError
  else
    vf <- ribbon_loop re rn ru n_points width height thickness (seq 0 n_points) ;;
    let last_base := ((n_points - 1) * 4)%nat in
    let caps := [ (0, 2, 1); (1, 2, 3);
                  (last_base, last_base + 1, last_base + 2);
                  (last_base + 1, last_base + 3, last_base + 2) ]%nat in
    Ok (merge_vertices (Trimesh_new (fst vf) (snd vf ++ caps))).

End MeshBuilder.

(* ===================================================================== *)
(** ** mesh_generator.py *)
(* ===================================================================== *)

Record Route_ENU : Type := {
  e : list Q;
  n : list Q;
  u : list Q
}.

Record MeshGenerator : Type := {
  terrain : Terrain_ENU;
  route_enu : Route_ENU;
  route_terrain_elevation : list Q
}.

(** What [export_meshes] writes out, with the two scale factors applied. *)
Record Exported : Type := {
  terrain_mesh : Trimesh;
  terrain_scale_factor : Q;
  route_mesh : Trimesh;
  route_scale_factor : Q
}.

Section MeshGeneratorMethods.
Context `{NumLib} `{KDTree}.

(** [MeshGenerator.create_terrain_mesh] *)
Definition MeshGenerator_create_terrain_mesh (self : MeshGenerator)
    (base_height : Q) (max_resolution : nat) : result Trimesh :=
  let '(height, width) := Terrain_ENU_shape (terrain self) in
  let mesh_step := Nat.max 1 (Nat.max height width / max_resolution) in
  let terrain_e_mesh := slice2 (e_grid (terrain self)) mesh_step in
  let terrain_n_mesh := slice2 (n_grid (terrain self)) mesh_step in
  let terrain_u_mesh := slice2 (u_grid (terrain self)) mesh_step in
  snd (create_terrain_mesh terrain_e_mesh terrain_n_mesh terrain_u_mesh
         base_height None 2 1).

(** [MeshGenerator.create_route_mesh] *)
Definition MeshGenerator_create_route_mesh (self : MeshGenerator)
    (width height_ratio thickness base_height : Q) : result Trimesh :=
  let height := base_height * height_ratio in
  create_route_ribbon_mesh (e (route_enu self)) (n (route_enu self))
    (route_terrain_elevation self) width height thickness.

(** The scale factor that [export_meshes] computes for the route mesh
    ("Calculate scale factor from terrain mesh"). *)
Definition export_route_scale_factor (self : MeshGenerator) (target_size_mm : Q)
  : result Q :=
  e_min <- np_min (ravel (e_grid (terrain self))) ;;
  n_min <- np_min (ravel (n_grid (terrain self))) ;;
  u_min <- np_min (ravel (u_grid (terrain self))) ;;
  e_max <- np_max (ravel (e_grid (terrain self))) ;;
  n_max <- np_max (ravel (n_grid (terrain self))) ;;
  u_max <- np_max (ravel (u_grid (terrain self))) ;;
  let terrain_size_m := vsub (e_max, n_max, u_max) (e_min, n_min, u_min) in
  let terrain_max_m := Qmax (Qmax (fst (fst terrain_size_m)) (snd (fst terrain_size_m)))
                            (snd terrain_size_m) in
  Ok (target_size_mm / (terrain_max_m * 1000)).

(** [MeshGenerator.export_meshes] *)
Definition export_meshes (self : MeshGenerator)
    (target_size_mm base_height route_height_ratio : Q) : result Exported :=
  terrain_mesh <- MeshGenerator_create_terrain_mesh self base_height 500 ;;
  scaled <- scale_mesh_for_printing terrain_mesh target_size_mm ;;
  route_mesh <- MeshGenerator_create_route_mesh self 20 route_height_ratio 20 base_height ;;
  scale_factor <- export_route_scale_factor self target_size_mm ;;
  Ok {| terrain_mesh := fst scaled;
        terrain_scale_factor := snd scaled;
        route_mesh := apply_scale route_mesh scale_factor;
        route_scale_factor := scale_factor |}.

(** [MeshGenerator.new] *)
Definition MeshGenerator_new (terrain : Terrain_ENU) (route_enu : Route_ENU)
  : result MeshGenerator :=
  route_terrain_u <- sample_at_points terrain (e route_enu) (n route_enu) ;;
  Ok {| terrain := terrain; route_enu := route_enu;
        route_terrain_elevation := route_terrain_u |}.

End MeshGeneratorMethods.

(* ===================================================================== *)
(** ** parameters.py, route.py, coordinate_transform.py: the rest *)
(* ===================================================================== *)

(** Exceptions of the arithmetic of Python's own numbers. *)
Inductive ArithmeticError : Type :=
  | ZeroDivisionError.

Section ModelResolutionNew.
Context `{NumLib}.

(** [ModelResolution.new].  The quotient is a division of Python floats,
    which raises on a zero divisor. *)
Definition ModelResolution_new (params : GlobalParameters)
    (latitude_span longitude_span central_latitude : Q)
  : ArithmeticError + ModelResolution :=
  let world_height_m := latitude_span * M_PER_DEG_LAT params in
  let world_width_m :=
    longitude_span * (M_PER_DEG_LAT params * np_cos (np_radians central_latitude)) in
  let world_max_dimension := Qmax world_height_m world_width_m in
  if Qeq_bool (SIZE_MM params) 0 then inl ZeroDivisionError
  else
    let world_to_model_ratio := world_max_dimension / SIZE_MM params in
    let model_res_m := PRINT_RESOLUTION_MM params * world_to_model_ratio in
    inr {| meters := model_res_m |}.

End ModelResolutionNew.

(** [BBox_LL.longitude_span], [BBox_LL.latitude_span] *)
Definition longitude_span (b : BBox_LL) : Q := max_longitude b - min_longitude b.
Definition latitude_span (b : BBox_LL) : Q := max_latitude b - min_latitude b.

Record Bounds : Type := {
  bounds_min_latitude : Q;
  bounds_max_latitude : Q;
  bounds_min_longitude : Q;
  bounds_max_longitude : Q
}.

(** [BBox_LL.new] *)
Definition BBox_LL_new (bounds : Bounds) : BBox_LL :=
  {| min_longitude := bounds_min_longitude bounds;
     max_longitude := bounds_max_longitude bounds;
     min_latitude := bounds_min_latitude bounds;
     max_latitude := bounds_max_latitude bounds |}.

Record Coordinate : Type := {
  latitude : Q;
  longitude : Q
}.

Record Route_LL : Type := {
  latitudes : list Q;
  longitudes : list Q;
  elevations : list Q;
  route_min_longitude : Q;
  route_max_longitude : Q;
  route_min_latitude : Q;
  route_max_latitude : Q
}.

(** [Route_LL.origin] *)
Definition Route_LL_origin (r : Route_LL) : result (Q * Q * Q) :=
  la <- getitem (latitudes r) 0 ;;
  lo <- getitem (longitudes r) 0 ;;
  el <- getitem (elevations r) 0 ;;
  Ok (la, lo, el).

(** [Route_LL.centroid] *)
Definition Route_LL_centroid (r : Route_LL) : Coordinate :=
  let center_lat := (route_min_latitude r + route_max_latitude r) / 2 in
  let center_lon := (route_min_longitude r + route_max_longitude r) / 2 in
  {| latitude := center_lat; longitude := center_lon |}.

(** [Route_LL.bounds] *)
Definition Route_LL_bounds (r : Route_LL) : result Bounds :=
  min_lat <- np_min (latitudes r) ;;
  min_lon <- np_min (longitudes r) ;;
  max_lat <- np_max (latitudes r) ;;
  max_lon <- np_max (longitudes r) ;;
  Ok {| bounds_min_latitude := min_lat;
        bounds_min_longitude := min_lon;
        bounds_max_latitude := max_lat;
        bounds_max_longitude := max_lon |}.

(** The part of [Route_LL.new] after the GPX file is parsed: the route of
    the points (lat, lon, ele) of the first segment of the first track.
    A point without elevation (a [nan] in the array) is not modelled. *)
Definition Route_LL_of_points (points : list (Q * Q * Q)) : result Route_LL :=
  let lats := map (fun p => fst (fst p)) points in
  let lons := map (fun p => snd (fst p)) points in
  let ele := map (fun p => snd p) points in
  min_lon <- np_min lons ;;
  max_lon <- np_max lons ;;
  min_lat <- np_min lats ;;
  max_lat <- np_max lats ;;
  Ok {| latitudes := lats; longitudes := lons; elevations := ele;
        route_min_longitude := min_lon; route_max_longitude := max_lon;
        route_min_latitude := min_lat; route_max_latitude := max_lat |}.

(** [LonLatToENU.new] *)
Definition LonLatToENU_new (origin : Q * Q * Q) : LonLatToENU :=
  let '(lat0, lon0, h0) := origin in
  {| lat0 := lat0; lon0 := lon0; h0 := h0 |}.

Section RouteENU.
Context `{Geodesy}.

(** [Route_ENU.new] *)
Definition Route_ENU_new (route : Route_LL) (transform : LonLatToENU) : Route_ENU :=
  let enu_coords :=
    lonlat_to_enu transform (latitudes route) (longitudes route) (elevations route) in
  {| e := map (fun p => fst (fst p)) enu_coords;
     n := map (fun p => snd (fst p)) enu_coords;
     u := map (fun p => snd p) enu_coords |}.

End RouteENU.

(* ===================================================================== *)
(** ** terrain_data.py: the rest *)
(* ===================================================================== *)

(** [Terrain_ENU.downsample].  [//] is the floor division of Python's
    ints, which raises on a zero divisor. *)
Definition Terrain_ENU_downsample (t : Terrain_ENU) (target_size : Z)
  : ArithmeticError + Terrain_ENU :=
  let '(height, width) := Terrain_ENU_shape t in
  if (target_size =? 0)%Z then inl ZeroDivisionError
  else
    let step := Z.to_nat (Z.max 1 (Z.of_nat (Nat.max height width) / target_size)) in
    inr {| e_grid := slice2 (e_grid t) step;
           n_grid := slice2 (n_grid t) step;
           u_grid := slice2 (u_grid t) step |}.

(* ===================================================================== *)
(** ** tile_client.py: the cache and the client *)
(* ===================================================================== *)

Definition Bytes : Type := list Byte.byte.

(** The cache directory, as the files [<root>/<z>/<x>/<y>.png] that it
    holds, by (z, x, y).  The directories that [_path] creates on the way
    and the errors of the file system are not modelled. *)
Definition TileCache : Type := Z * Z * Z -> option Bytes.

Definition tile_key_eqb (k k' : Z * Z * Z) : bool :=
  (fst (fst k) =? fst (fst k'))%Z && (snd (fst k) =? snd (fst k'))%Z
  && (snd k =? snd k')%Z.

(** [TileCache.get] *)
Definition TileCache_get (cache : TileCache) (z x y : Z) : option Bytes :=
  cache (z, x, y).

(** [TileCache.set] *)
Definition TileCache_set (cache : TileCache) (z x y : Z) (data : Bytes) : TileCache :=
  fun k => if tile_key_eqb k (z, x, y) then Some data else cache k.

(** The answer of the server to a request.  [retry_after] is the header
    Retry-After: [None] when it is absent, [Some None] when [int] does not
    accept it, [Some (Some n)] when it reads as the int [n]. *)
Record Response : Type := {
  status_code : Z;
  content : Bytes;
  retry_after : option (option Z)
}.

(** What [self.http.get] does: it returns a response or raises (a
    connection error, the retries of the adapter exhausted). *)
Inductive Reply : Type :=
  | Responds (r : Response)
  | RequestRaises.

Inductive ClientError : Type :=
  | RuntimeError        (* the status is neither 200 nor 429 *)
  | RequestError        (* raised by [self.http.get] *)
  | RetryAfterError.    (* ValueError of [int] or of [time.sleep] *)

Inductive FetchOutcome : Type :=
  | Returns (data : Bytes)
  | Raises (e : ClientError)
  | NoReply.            (* the replies listed for the server ran out *)

(** [if cached:] on bytes: an empty file counts as a miss. *)
Definition cache_hit (cache : option TileCache) (z x y : Z) : option Bytes :=
  match cache with
  | Some c =>
      match TileCache_get c z x y with
      | Some (b :: data) => Some (b :: data)
      | _ => None
      end
  | None => None
  end.

(** [MapboxTileClient.fetch_tile], on the cache of the client (if any) and
    the replies of the server to the requests to come: the outcome, the
    cache and the replies left.  The method calls itself after a reply of
    status 429; the recursion limit of the interpreter is not modelled. *)
Fixpoint fetch_tile (cache : option TileCache) (z x y : Z) (replies : list Reply)
  : FetchOutcome * option TileCache * list Reply :=
  match cache_hit cache z x y with
  | Some cached => (Returns cached, cache, replies)
  | None =>
      match replies with
      | [] => (NoReply, cache, replies)
      | RequestRaises :: rest => (Raises RequestError, cache, rest)
      | Responds response :: rest =>
          if (status_code response =? 429)%Z then
            match retry_after response with
            | Some None => (Raises RetryAfterError, cache, rest)
            | Some (Some seconds) =>
                if (seconds <? 0)%Z then (Raises RetryAfterError, cache, rest)
                else fetch_tile cache z x y rest
            | None => fetch_tile cache z x y rest
            end
          else if negb (status_code response =? 200)%Z then
            (Raises RuntimeError, cache, rest)
          else
            let data := content response in
            (Returns data,
             match cache with
             | Some c => Some (TileCache_set c z x y data)
             | None => None
             end,
             rest)
      end
  end.

(* ===================================================================== *)
(** ** tile_client.py (decoding), heightmap.py *)
(* ===================================================================== *)

(** [max(xs)] on a Python list of ints; [ValueError] on an empty list. *)
Definition py_max_Z (l : list Z) : result Z :=
  match l with
  | [] => Err ValueError
  | v :: t => Ok (fold_left Z.max t v)
  end.

(** [np.zeros((height, width))] *)
Definition zeros (height width : nat) : ndarray :=
  mk_ndarray height width (map (fun _ => 0) (cells height width)).

(** An image as PIL hands it over after [convert("RGB")]: rows, columns
    and the three 8-bit channels of every pixel, row by row. *)
Record RGBImage : Type := {
  img_rows : nat;
  img_cols : nat;
  img_pixels : list (Byte.byte * Byte.byte * Byte.byte)
}.

Definition channel (c : Byte.byte) : Q := inject_Z (Z.of_N (Byte.to_N c)).

(** *** numpy's float32 *)

(** Rounding to the nearest integer, ties to the even one. *)
Definition round_half_even (q : Q) : Z :=
  let f := Qfloor q in
  let r := q - inject_Z f in
  if Qlt_bool r (1 # 2) then f
  else if Qlt_bool (1 # 2) r then (f + 1)%Z
  else if Z.even f then f else (f + 1)%Z.

(** The binary exponent [e] of a number other than 0:
    [2 ** e <= |q| < 2 ** (e + 1)]. *)
Definition binade (q : Q) : Z :=
  let e := (Z.log2 (Z.abs (Qnum q)) - Z.log2 (Zpos (Qden q)))%Z in
  if Qle_bool (pow2 e) (Qabs q) then e else (e - 1)%Z.

(** Rounding to 24 significant bits at the exponent [e]. *)
Definition round_at (e : Z) (q : Q) : Q :=
  inject_Z (round_half_even (q / pow2 (e - 23))) * pow2 (e - 23).

(** The exponent of the float32 format: at least -126 (below, the numbers
    are subnormal). *)
Definition f32_exponent (q : Q) : Z := Z.max (binade q) (-126).

(** The float32 nearest to [q] (IEEE 754 binary32, round to nearest, ties
    to even).  The overflow to infinity, from 2 ** 128 on, is not
    modelled. *)
Definition float32 (q : Q) : Q :=
  if Qeq_bool q 0 then 0 else round_at (f32_exponent q) q.

(** [a + b] and [a * b] on float32 operands. *)
Definition f32_add (a b : Q) : Q := float32 (a + b).
Definition f32_mul (a b : Q) : Q := float32 (a * b).

(** The elevation of a pixel:
    [-10000 + (R * 256 * 256 + G * 256 + B) * 0.1] on the channels cast to
    float32.  numpy takes the Python scalars as float32 too, and every
    operation rounds its result to float32. *)
Definition decode_pixel (p : Byte.byte * Byte.byte * Byte.byte) : Q :=
  let '(R, G, B) := p in
  let R := float32 (channel R) in
  let G := float32 (channel G) in
  let B := float32 (channel B) in
  f32_add (-10000)
    (f32_mul (f32_add (f32_add (f32_mul (f32_mul R 256) 256) (f32_mul G 256)) B)
       (float32 (1 # 10))).

(** [decode_terrain_rgb], on the image that PIL decoded from the PNG
    bytes. *)
Definition decode_terrain_rgb (img : RGBImage) : ndarray :=
  mk_ndarray (img_rows img) (img_cols img) (map decode_pixel (img_pixels img)).

(** The tile client with the PNG decoder: what
    [Image.open(io.BytesIO(client.fetch_tile(z, x, y))).convert("RGB")]
    evaluates to, the image or the exception of the request or of PIL.
    The client answers a tile the same way each time it is asked. *)
Inductive TileError : Type :=
  | TileRequestFailed.

Definition TileSource : Type := Z -> Z -> Z -> TileError + RGBImage.

(** The outcome of [create_heightmap_from_tiles]: the heightmap, an
    exception of its own, or the exception of the client passed on. *)
Inductive HeightmapResult : Type :=
  | Heightmap (a : ndarray)
  | HeightmapRaises (e : PyError)
  | TileRaises (e : TileError).

(** A Python dict keyed by [(x, y)], in insertion order. *)
Definition TileDict : Type := list ((Z * Z) * ndarray).

Definition key_eqb (k k' : Z * Z) : bool :=
  (fst k =? fst k')%Z && (snd k =? snd k')%Z.

(** [d[k] = v] *)
Fixpoint dict_set (k : Z * Z) (v : ndarray) (d : TileDict) : TileDict :=
  match d with
  | [] => [(k, v)]
  | (k', v') :: rest =>
      if key_eqb k k' then (k', v) :: rest else (k', v') :: dict_set k v rest
  end.

(** The loop that fetches and decodes the tiles. *)
Fixpoint fetch_tiles (client : TileSource) (tile_coords : list RasterTile)
    (tiles : TileDict) : TileError + TileDict :=
  match tile_coords with
  | [] => inr tiles
  | tile :: rest =>
      match client (tile_zoom tile) (tile_x tile) (tile_y tile) with
      | inl err => inl err
      | inr img =>
          fetch_tiles client rest
            (dict_set (tile_x tile, tile_y tile) (decode_terrain_rgb img) tiles)
      end
  end.

(** numpy broadcasting of a 2-D array to a 256 x 256 block: an axis of
    length 1 is repeated. *)
Definition fits_block (a : ndarray) : bool :=
  ((nrows a =? 256) || (nrows a =? 1))%nat && ((ncols a =? 256) || (ncols a =? 1))%nat.

Definition broadcast_get (a : ndarray) (i j : nat) : Q :=
  get2 a (if (nrows a =? 1)%nat then 0 else i) (if (ncols a =? 1)%nat then 0 else j).

Definition in_block (row col : nat) (ij : nat * nat) : bool :=
  ((row * 256 <=? fst ij) && (fst ij <? (row + 1) * 256)
   && (col * 256 <=? snd ij) && (snd ij <? (col + 1) * 256))%nat.

(** [heightmap[row * 256 : (row + 1) * 256, col * 256 : (col + 1) * 256]
    = tile_data], for a block inside the heightmap. *)
Definition set_block (heightmap : ndarray) (row col : nat) (tile_data : ndarray)
  : result ndarray :=
  if fits_block tile_data then
    Ok (mk_ndarray (nrows heightmap) (ncols heightmap)
          (map (fun ij =>
                  if in_block row col ij
                  then broadcast_get tile_data (fst ij - row * 256) (snd ij - col * 256)
                  else get2 heightmap (fst ij) (snd ij))
               (cells (nrows heightmap) (ncols heightmap))))
  else Err ValueError.

(** The loop that stitches the tiles together. *)
Fixpoint stitch (items : TileDict) (min_x min_y : Z) (heightmap : ndarray)
  : result ndarray :=
  match items with
  | [] => Ok heightmap
  | ((x, y), tile_data) :: rest =>
      let row := Z.to_nat (y - min_y) in
      let col := Z.to_nat (x - min_x) in
      heightmap' <- set_block heightmap row col tile_data ;;
      stitch rest min_x min_y heightmap'
  end.

(** [create_heightmap_from_tiles] *)
Definition create_heightmap_from_tiles (client : TileSource)
    (tile_coords : list RasterTile) : HeightmapResult :=
  match tile_coords with
  | [] => HeightmapRaises ValueError
  | _ =>
      let z_values := nodup Z.eq_dec (map tile_zoom tile_coords) in
      if (1 <? length z_values)%nat then HeightmapRaises ValueError
      else
        match fetch_tiles client tile_coords [] with
        | inl err => TileRaises err
        | inr tiles =>
            let xs := map (fun item => fst (fst item)) tiles in
            let ys := map (fun item => snd (fst item)) tiles in
            match py_min_Z xs, py_max_Z xs, py_min_Z ys, py_max_Z ys with
            | Ok min_x, Ok max_x, Ok min_y, Ok max_y =>
                let height := Z.to_nat ((max_y - min_y + 1) * 256) in
                let width := Z.to_nat ((max_x - min_x + 1) * 256) in
                let heightmap := zeros height width in
                match stitch tiles min_x min_y heightmap with
                | Ok heightmap' => Heightmap heightmap'
                | Err e => HeightmapRaises e
                end
            | _, _, _, _ => HeightmapRaises ValueError
            end
        end
  end.

(* ===================================================================== *)
(** ** Instances used to run the code on concrete inputs *)
(* ===================================================================== *)

(** Square root, exact on the squares of rationals (integer square roots
    of the reduced numerator and denominator). *)
Definition Qsqrt_exact (q : Q) : Q :=
  let r := Qred q in
  Qmake (Z.sqrt (Qnum r)) (Z.to_pos (Z.sqrt (Zpos (Qden r)))).

(** A rational stand-in for the elementary functions: the square root is
    exact on squares, degrees and radians are proportional with
    pi = 355/113; the remaining functions only occur in places where the
    properties below do not depend on their values. *)
Definition rational_numlib : NumLib := {|
  np_pi := 355 # 113;
  np_sqrt := Qsqrt_exact;
  np_cos := fun _ => 1;
  np_tan := fun x => x;
  np_sinh := fun x => x;
  np_arcsinh := fun x => x;
  np_arctan := fun x => x;
  np_radians := fun d => d * (355 # 113) / 180;
  np_degrees := fun r => r * 180 / (355 # 113)
|}.

(** Nearest neighbour by linear scan; the first of several nearest. *)
Fixpoint nearest_from (pts : list (Q * Q)) (q : Q * Q) (k best : nat) (bestd : Q) : nat :=
  match pts with
  | [] => best
  | p :: t =>
      if Qlt_bool (dist2 p q) bestd
      then nearest_from t q (S k) k (dist2 p q)
      else nearest_from t q (S k) best bestd
  end.

Definition linear_query (pts : list (Q * Q)) (q : Q * Q) : nat :=
  match pts with
  | [] => O
  | p :: t => nearest_from t q 1 0 (dist2 p q)
  end.

(* ===================================================================== *)
(** ** Vocabulary of the properties *)
(* ===================================================================== *)

(** The three arrays of a terrain grid: one shape, buffers of that size. *)
Definition same_shape (a b : ndarray) : Prop :=
  nrows a = nrows b /\ ncols a = ncols b.

Definition grid_ok (terrain_e terrain_n terrain_u : ndarray) : Prop :=
  wf_ndarray terrain_e /\ wf_ndarray terrain_n /\ wf_ndarray terrain_u /\
  same_shape terrain_e terrain_u /\ same_shape terrain_n terrain_u.

(** The route arrays the carving can take distances to: one length, at
    least one sample. *)
Definition route_samples_ok (r : RouteArgs) : Prop :=
  route_e r <> [] /\ length (route_e r) = length (route_n r).

(** What the carving leaves in a cell of elevation [elevation] whose
    distance to the nearest route sample is [min_dist]. *)
Definition carve_value (route_width route_depth min_dist elevation : Q) : Q :=
  if Qlt_bool min_dist (route_width / 2) then
    let factor := 1 - (min_dist / (route_width / 2)) in
    elevation - route_depth * factor
  else elevation.

(** The grid points have pairwise different horizontal positions. *)
Definition regular_grid (terrain_e terrain_n : ndarray) : Prop :=
  forall c c', In c (cells (nrows terrain_e) (ncols terrain_e)) ->
    In c' (cells (nrows terrain_e) (ncols terrain_e)) ->
    get2 terrain_e (fst c) (snd c) == get2 terrain_e (fst c') (snd c') ->
    get2 terrain_n (fst c) (snd c) == get2 terrain_n (fst c') (snd c') ->
    c = c'.

(** No two vertices of the list coincide. *)
Definition distinct_vertices (vs : list vertex) : Prop :=
  forall i j, (i < length vs)%nat -> (j < length vs)%nat ->
    vertex_eqb (nth i vs (0, 0, 0)) (nth j vs (0, 0, 0)) = true -> i = j.

(** The vertices handed to trimesh: the top surface, then the base. *)
Definition mesh_vertices (terrain_e terrain_n terrain_u : ndarray) (base_z : Q)
  : list vertex :=
  let vs := map (fun ij => (get2 terrain_e (fst ij) (snd ij), get2 terrain_n (fst ij) (snd ij),
                            get2 terrain_u (fst ij) (snd ij)))
                (cells (nrows terrain_u) (ncols terrain_u)) in
  vs ++ map (fun v => (fst (fst v), snd (fst v), base_z)) vs.

Section ZoomConditions.
Context `{NumLib}.

(** The two conditions on a zoom level. *)
Definition within_budget (b : BBox_LL) (max_tiles : nat) (zoom : Z) : Prop :=
  (length (tiles_to_cover b zoom) <= max_tiles)%nat.

Definition fine_enough (b : BBox_LL) (params : GlobalParameters)
    (model_res : ModelResolution) (zoom : Z) : Prop :=
  meters_per_pixel params b zoom <= meters model_res.

Definition zoom_ok (b : BBox_LL) (params : GlobalParameters)
    (model_res : ModelResolution) (max_tiles : nat) (zoom : Z) : Prop :=
  fine_enough b params model_res zoom /\ within_budget b max_tiles zoom.

(** The bounding box whose corners are the corners of a tile, by the
    inverse tile formula: west and east edges at [x] and [x + 1], north
    and south edges at [y] and [y + 1]. *)
Definition tile_corner_bbox (t : RasterTile) : BBox_LL :=
  let n := pow2 (tile_zoom t) in
  {| min_longitude := tile_to_lon (inject_Z (tile_x t)) n;
     min_latitude := tile_to_lat (inject_Z (tile_y t + 1)) n;
     max_longitude := tile_to_lon (inject_Z (tile_x t + 1)) n;
     max_latitude := tile_to_lat (inject_Z (tile_y t)) n |}.

End ZoomConditions.

Section PixelProjection.
Context `{NumLib} `{Geodesy}.

(** The geodetic position of the pixel (row, col), from the top-left tile
    index and the sub-tile pixel fraction, projected with the elevation
    [ele]. *)
Definition pixel_enu (tile_x_min tile_y_min : Z) (zoom : Z) (transform : LonLatToENU)
    (row col : nat) (ele : Q) : Q * Q * Q :=
  let lon := tile_to_lon (inject_Z tile_x_min + inject_Z (Z.of_nat col) / 256) (pow2 zoom) in
  let lat := tile_to_lat (inject_Z tile_y_min + inject_Z (Z.of_nat row) / 256) (pow2 zoom) in
  geodetic2enu lat lon ele (lat0 transform) (lon0 transform) (h0 transform).

End PixelProjection.

(** *** The face list in grid coordinates *)

(** The face list is analysed in grid coordinates: a vertex is a layer (0
    the top surface, 1 the base), a row and a column; its index in the
    vertex array is [flat]. *)
Definition cvertex : Type := (nat * nat * nat)%type.
Definition cedge : Type := (cvertex * cvertex)%type.

Definition flat (height width : nat) (v : cvertex) : nat :=
  (fst (fst v) * (height * width) + snd (fst v) * width + snd v)%nat.

Definition flat2 (height width : nat) (x : cedge) : edge :=
  (flat height width (fst x), flat height width (snd x)).

Definition cvertex_ok (height width : nat) (v : cvertex) : Prop :=
  (fst (fst v) < 2)%nat /\ (snd (fst v) < height)%nat /\ (snd v < width)%nat.

Definition cedge_ok (height width : nat) (x : cedge) : Prop :=
  cvertex_ok height width (fst x) /\ cvertex_ok height width (snd x).

Definition cvertex_eqb (p q : cvertex) : bool :=
  Nat.eqb (fst (fst p)) (fst (fst q)) && Nat.eqb (snd (fst p)) (snd (fst q))
  && Nat.eqb (snd p) (snd q).

Definition cedge_eqb (a b : cedge) : bool :=
  cvertex_eqb (fst a) (fst b) && cvertex_eqb (snd a) (snd b).

Definition count_cedge (x : cedge) (l : list cedge) : nat :=
  length (filter (cedge_eqb x) l).

(** A family of edges: the edge whose end points are the cell (i, j)
    shifted by [lo] and by [hi], for the cells of a [rows] x [cols] block. *)
Definition fam : Type := (cvertex * cvertex * (nat * nat))%type.

Definition gen (lo hi : cvertex) (ij : nat * nat) : cedge :=
  ((fst (fst lo), fst ij + snd (fst lo), snd ij + snd lo),
   (fst (fst hi), fst ij + snd (fst hi), snd ij + snd hi))%nat.

Definition fam_gen (f : fam) : nat * nat -> cedge := gen (fst (fst f)) (snd (fst f)).

Definition fam_cells (f : fam) : list (nat * nat) := cells (fst (snd f)) (snd (snd f)).

(** Whether the edge [x] belongs to the family. *)
Definition hit (lo hi : cvertex) (rows cols : nat) (x : cedge) : bool :=
  Nat.eqb (fst (fst lo)) (fst (fst (fst x)))
  && Nat.eqb (fst (fst hi)) (fst (fst (snd x)))
  && (snd (fst lo) <=? snd (fst (fst x)))%nat
  && (snd (fst (fst x)) <? snd (fst lo) + rows)%nat
  && (snd lo <=? snd (fst x))%nat && (snd (fst x) <? snd lo + cols)%nat
  && Nat.eqb (snd (fst (snd x)) + snd (fst lo)) (snd (fst (fst x)) + snd (fst hi))
  && Nat.eqb (snd (snd x) + snd lo) (snd (fst x) + snd hi).

Definition fam_hit (x : cedge) (f : fam) : nat :=
  Nat.b2n (hit (fst (fst f)) (snd (fst f)) (fst (snd f)) (snd (snd f)) x).

(** The six edges of the two triangles of a grid cell, on layer [l]:
    left side, diagonal, upper side; diagonal, lower side, right side. *)
Definition cell_fams (l height width : nat) : list fam :=
  let r := (height - 1)%nat in
  let c := (width - 1)%nat in
  [ ((l, 0, 0), (l, 1, 0), (r, c)); ((l, 0, 1), (l, 1, 0), (r, c));
    ((l, 0, 0), (l, 0, 1), (r, c)); ((l, 0, 1), (l, 1, 0), (r, c));
    ((l, 1, 0), (l, 1, 1), (r, c)); ((l, 0, 1), (l, 1, 1), (r, c)) ]%nat.

(** The same six edges in the order of the reversed triangles. *)
Definition cell_fams_flipped (l height width : nat) : list fam :=
  let r := (height - 1)%nat in
  let c := (width - 1)%nat in
  [ ((l, 0, 1), (l, 1, 0), (r, c)); ((l, 0, 0), (l, 1, 0), (r, c));
    ((l, 0, 0), (l, 0, 1), (r, c)); ((l, 1, 0), (l, 1, 1), (r, c));
    ((l, 0, 1), (l, 1, 0), (r, c)); ((l, 0, 1), (l, 1, 1), (r, c)) ]%nat.

(** The six edges of a wall quad along the column [j0], from the row i to
    the row i + 1, in the order of the triangles (t1, b1, t2), (t2, b1, b2):
    post, diagonal, upper side; diagonal, lower side, post. *)
Definition col_wall_fams (j0 height : nat) : list fam :=
  let r := (height - 1)%nat in
  [ ((0, 0, j0), (1, 0, j0), (r, 1)); ((0, 1, j0), (1, 0, j0), (r, 1));
    ((0, 0, j0), (0, 1, j0), (r, 1)); ((0, 1, j0), (1, 0, j0), (r, 1));
    ((1, 0, j0), (1, 1, j0), (r, 1)); ((0, 1, j0), (1, 1, j0), (r, 1)) ]%nat.

(** The same in the order of the triangles (t1, t2, b1), (t2, b2, b1). *)
Definition col_wall_fams_flipped (j0 height : nat) : list fam :=
  let r := (height - 1)%nat in
  [ ((0, 0, j0), (0, 1, j0), (r, 1)); ((0, 1, j0), (1, 0, j0), (r, 1));
    ((0, 0, j0), (1, 0, j0), (r, 1)); ((0, 1, j0), (1, 1, j0), (r, 1));
    ((1, 0, j0), (1, 1, j0), (r, 1)); ((0, 1, j0), (1, 0, j0), (r, 1)) ]%nat.

(** The six edges of a wall quad along the row [i0], from the column j to
    the column j + 1, in the order of the triangles (t1, t2, b1),
    (t2, b2, b1). *)
Definition row_wall_fams (i0 width : nat) : list fam :=
  let c := (width - 1)%nat in
  [ ((0, i0, 0), (0, i0, 1), (1, c)); ((0, i0, 1), (1, i0, 0), (1, c));
    ((0, i0, 0), (1, i0, 0), (1, c)); ((0, i0, 1), (1, i0, 1), (1, c));
    ((1, i0, 0), (1, i0, 1), (1, c)); ((0, i0, 1), (1, i0, 0), (1, c)) ]%nat.

(** The same in the order of the triangles (t1, b1, t2), (t2, b1, b2). *)
Definition row_wall_fams_flipped (i0 width : nat) : list fam :=
  let c := (width - 1)%nat in
  [ ((0, i0, 0), (1, i0, 0), (1, c)); ((0, i0, 1), (1, i0, 0), (1, c));
    ((0, i0, 0), (0, i0, 1), (1, c)); ((0, i0, 1), (1, i0, 0), (1, c));
    ((1, i0, 0), (1, i0, 1), (1, c)); ((0, i0, 1), (1, i0, 1), (1, c)) ]%nat.

Definition all_fams (height width : nat) : list fam :=
  cell_fams 0 height width ++ cell_fams_flipped 1 height width
  ++ col_wall_fams (width - 1) height ++ row_wall_fams (height - 1) width
  ++ col_wall_fams_flipped 0 height ++ row_wall_fams_flipped 0 width.

(** The edges of a group of families over their common block of cells, in
    the order of the loops. *)
Definition group (fs : list fam) (cs : list (nat * nat)) : list cedge :=
  flat_map (fun c => map (fun f => fam_gen f c) fs) cs.

(** Nested loops over a block of cells. *)
Definition grid_flat_map {A : Type} (F : nat -> nat -> list A) (a b : nat) : list A :=
  flat_map (fun i => flat_map (fun j => F i j) (seq 0 b)) (seq 0 a).

(** All the edges of the face list, in grid coordinates. *)
Definition all_groups (height width : nat) : list cedge :=
  group (cell_fams 0 height width) (cells (height - 1) (width - 1))
  ++ group (cell_fams_flipped 1 height width) (cells (height - 1) (width - 1))
  ++ group (col_wall_fams (width - 1) height) (cells (height - 1) 1)
  ++ group (row_wall_fams (height - 1) width) (cells 1 (width - 1))
  ++ group (col_wall_fams_flipped 0 height) (cells (height - 1) 1)
  ++ group (row_wall_fams_flipped 0 width) (cells 1 (width - 1)).


Section MercatorVocabulary.
Context `{NumLib}.

(** The Mercator ordinate of a latitude, as [lonlat_to_tile] computes it. *)
Definition mercator (lat : Q) : Q := np_arcsinh (np_tan (np_radians lat)).

(** The ordinate does not decrease with the latitude between two bounds. *)
Definition mercator_monotone (lat_lo lat_hi : Q) : Prop :=
  forall a c, lat_lo <= a -> a <= c -> c <= lat_hi -> mercator a <= mercator c.

End MercatorVocabulary.

(** The tile lies in the inclusive rectangle spanned by two tiles. *)
Definition in_tile_rectangle (t0 t1 t : RasterTile) : Prop :=
  (Z.min (tile_x t0) (tile_x t1) <= tile_x t <= Z.max (tile_x t0) (tile_x t1))%Z /\
  (Z.min (tile_y t0) (tile_y t1) <= tile_y t <= Z.max (tile_y t0) (tile_y t1))%Z.

(** *** The route ribbon *)

(** The faces joining the cross-sections [i] and [i + 1]. *)
Definition ribbon_faces_between (i : nat) : list face :=
  ribbon_segment_faces (S i).

(** The end caps of a ribbon of [n_points] cross-sections. *)
Definition ribbon_caps (n_points : nat) : list face :=
  let last_base := ((n_points - 1) * 4)%nat in
  [ (0, 2, 1); (1, 2, 3);
    (last_base, last_base + 1, last_base + 2);
    (last_base + 1, last_base + 3, last_base + 2) ]%nat.

(** The face array handed to trimesh by [create_route_ribbon_mesh]. *)
Definition ribbon_faces (n_points : nat) : list face :=
  flat_map ribbon_segment_faces (seq 0 n_points) ++ ribbon_caps n_points.

Section RibbonVertices.
Context `{NumLib}.

(** The vertex array handed to trimesh by [create_route_ribbon_mesh]. *)
Definition ribbon_vertices (route_e route_n route_u : list Q)
    (width height thickness : Q) : result (list vertex) :=
  let re := ribbon_downsample route_e (length route_e) in
  let rn := ribbon_downsample route_n (length route_e) in
  let ru := ribbon_downsample route_u (length route_e) in
  vf <- ribbon_loop re rn ru (length re) width height thickness (seq 0 (length re)) ;;
  Ok (fst vf).

End RibbonVertices.

(** The ribbon's face list in grid coordinates: the row of a vertex is its
    cross-section, the column its corner (0 top-left, 1 top-right,
    2 bottom-left, 3 bottom-right); its index is [flat n_points 4].  The
    sorted edges of the eight triangles between the cross-sections [i] and
    [i + 1], in the order of the faces: *)
Definition ribbon_segment_fams (n_points : nat) : list fam :=
  let r := (n_points - 1)%nat in
  [ ((0, 0, 0), (0, 1, 0), (r, 1)); ((0, 0, 1), (0, 1, 0), (r, 1)); ((0, 0, 0), (0, 0, 1), (r, 1));
    ((0, 0, 1), (0, 1, 0), (r, 1)); ((0, 1, 0), (0, 1, 1), (r, 1)); ((0, 0, 1), (0, 1, 1), (r, 1));
    ((0, 0, 2), (0, 0, 3), (r, 1)); ((0, 0, 3), (0, 1, 2), (r, 1)); ((0, 0, 2), (0, 1, 2), (r, 1));
    ((0, 0, 3), (0, 1, 3), (r, 1)); ((0, 1, 2), (0, 1, 3), (r, 1)); ((0, 0, 3), (0, 1, 2), (r, 1));
    ((0, 0, 0), (0, 0, 2), (r, 1)); ((0, 0, 2), (0, 1, 0), (r, 1)); ((0, 0, 0), (0, 1, 0), (r, 1));
    ((0, 0, 2), (0, 1, 2), (r, 1)); ((0, 1, 0), (0, 1, 2), (r, 1)); ((0, 0, 2), (0, 1, 0), (r, 1));
    ((0, 0, 1), (0, 1, 1), (r, 1)); ((0, 0, 3), (0, 1, 1), (r, 1)); ((0, 0, 1), (0, 0, 3), (r, 1));
    ((0, 0, 3), (0, 1, 1), (r, 1)); ((0, 1, 1), (0, 1, 3), (r, 1)); ((0, 0, 3), (0, 1, 3), (r, 1))
  ]%nat.

(** The sorted edges of the two triangles of the start cap and of the two
    of the end cap. *)
Definition ribbon_cap_fams (n_points : nat) : list fam :=
  let r := (n_points - 1)%nat in
  [ ((0, 0, 0), (0, 0, 2), (1, 1)); ((0, 0, 1), (0, 0, 2), (1, 1)); ((0, 0, 0), (0, 0, 1), (1, 1));
    ((0, 0, 1), (0, 0, 2), (1, 1)); ((0, 0, 2), (0, 0, 3), (1, 1)); ((0, 0, 1), (0, 0, 3), (1, 1));
    ((0, r, 0), (0, r, 1), (1, 1)); ((0, r, 1), (0, r, 2), (1, 1)); ((0, r, 0), (0, r, 2), (1, 1));
    ((0, r, 1), (0, r, 3), (1, 1)); ((0, r, 2), (0, r, 3), (1, 1)); ((0, r, 1), (0, r, 2), (1, 1))
  ]%nat.

Definition ribbon_fams (n_points : nat) : list fam :=
  ribbon_segment_fams n_points ++ ribbon_cap_fams n_points.

Definition ribbon_groups (n_points : nat) : list cedge :=
  group (ribbon_segment_fams n_points) (cells (n_points - 1) 1)
  ++ group (ribbon_cap_fams n_points) (cells 1 1).

(** The longest side of a bounding box. *)
Definition longest_side (b : vertex * vertex) : Q :=
  let size := vsub (snd b) (fst b) in
  Qmax (Qmax (fst (fst size)) (snd (fst size))) (snd size).

(** The three grids of a terrain have one shape and buffers of that size. *)
Definition terrain_ok (t : Terrain_ENU) : Prop :=
  grid_ok (e_grid t) (n_grid t) (u_grid t).

(** [lo] and [hi] are the least and the greatest entry of the buffer. *)
Definition encloses (b : Q * Q) (l : list Q) : Prop :=
  In (fst b) l /\ In (snd b) l /\ forall x, In x l -> fst b <= x /\ x <= snd b.

(** [a'] is the view [a[::step, ::step]] of [a]. *)
Definition strided_view (a' a : ndarray) (step : nat) : Prop :=
  nrows a' = strided_len (nrows a) step
  /\ ncols a' = strided_len (ncols a) step
  /\ forall i j, (i < nrows a')%nat -> (j < ncols a')%nat ->
       (i * step < nrows a)%nat /\ (j * step < ncols a)%nat
       /\ get2 a' i j = get2 a (i * step) (j * step).

(** *** The heightmap *)

(** The 24-bit value that the three channels of a pixel encode. *)
Definition pixel_value (p : Byte.byte * Byte.byte * Byte.byte) : Z :=
  let '(R, G, B) := p in
  (Z.of_N (Byte.to_N R) * 65536 + Z.of_N (Byte.to_N G) * 256 + Z.of_N (Byte.to_N B))%Z.

(** A decoded tile image of 256 x 256 pixels. *)
Definition tile_image_ok (img : RGBImage) : Prop :=
  img_rows img = 256%nat /\ img_cols img = 256%nat
  /\ length (img_pixels img) = (256 * 256)%nat.

(** The client delivers an image for every tile of the list. *)
Definition tiles_fetched (client : TileSource) (tile_coords : list RasterTile) : Prop :=
  forall t, In t tile_coords ->
    exists img, client (tile_zoom t) (tile_x t) (tile_y t) = inr img.

(** The client delivers a 256 x 256 image for every tile of the list. *)
Definition tiles_available (client : TileSource) (tile_coords : list RasterTile) : Prop :=
  forall t, In t tile_coords ->
    exists img, client (tile_zoom t) (tile_x t) (tile_y t) = inr img /\ tile_image_ok img.

(** The decoded tile at a dict key, for the zoom of the list. *)
Definition tile_data_at (client : TileSource) (zoom : Z) (k : Z * Z) : ndarray :=
  match client zoom (fst k) (snd k) with
  | inr img => decode_terrain_rgb img
  | inl _ => zeros 0 0
  end.

(** The keys and the blocks of a dict. *)
Definition dict_keys (d : TileDict) : list (Z * Z) := map fst d.

Definition block_row (min_y : Z) (k : Z * Z) : nat := Z.to_nat (snd k - min_y).
Definition block_col (min_x : Z) (k : Z * Z) : nat := Z.to_nat (fst k - min_x).

(* ===================================================================== *)
(** ** Concrete inputs *)
(* ===================================================================== *)

(** A 1 x 3 strip of flat terrain at 100 m, grid points 1 m apart. *)
Definition strip_e : ndarray := mk_ndarray 1 3 [0; 1; 2].
Definition strip_n : ndarray := mk_ndarray 1 3 [0; 0; 0].
Definition strip_u : ndarray := mk_ndarray 1 3 [100; 100; 100].

(** A 2 x 3 patch of flat terrain at 100 m: columns 1 m apart going east,
    the second row 3 m south of the first. *)
Definition patch_e : ndarray := mk_ndarray 2 3 [0; 1; 2; 0; 1; 2].
Definition patch_n : ndarray := mk_ndarray 2 3 [0; 0; 0; -3; -3; -3].
Definition patch_u : ndarray := mk_ndarray 2 3 [100; 100; 100; 100; 100; 100].

(** A route with its one sample on the grid point (0, 0). *)
Definition route_at_origin : RouteArgs :=
  {| route_e := [0]; route_n := [0]; route_u := [100] |}.


(** A flat-earth stand-in for pymap3d: East and North proportional to the
    differences of longitude and latitude, Up the height above the
    origin. *)
Definition tangent_plane_enu (lat lon h lat0 lon0 h0 : Q) : Q * Q * Q :=
  ((lon - lon0) * 111320, (lat - lat0) * 111320, h - h0).

(** A 2 x 2 heightmap on the tile (zoom 1, x 0, y 0), and an origin 50 m
    above the ellipsoid. *)
Definition heightmap_2x2 : ndarray := mk_ndarray 2 2 [100; 110; 120; 130].
Definition tile_1_0_0 : RasterTile := mk_RasterTile 1 0 0.
Definition origin_at_50m : LonLatToENU := {| lat0 := 0; lon0 := -180; h0 := 50 |}.

(** A terrain on the patch, and two query points: one over the patch, one
    far outside its extent. *)
Definition patch_terrain : Terrain_ENU :=
  {| e_grid := patch_e; n_grid := patch_n;
     u_grid := mk_ndarray 2 3 [101; 102; 103; 104; 105; 106] |}.
Definition query_e : list Q := [1 # 2; 1000].
Definition query_n : list Q := [-1; 1000].

(** A 2 x 2 terrain of 10 m by 10 m, flat at 100 m, with a route of two
    samples across it. *)
Definition small_terrain : Terrain_ENU :=
  {| e_grid := mk_ndarray 2 2 [0; 10; 0; 10];
     n_grid := mk_ndarray 2 2 [10; 10; 0; 0];
     u_grid := mk_ndarray 2 2 [100; 100; 100; 100] |}.

Definition small_generator : MeshGenerator :=
  {| terrain := small_terrain;
     route_enu := {| e := [2; 8]; n := [1; 9]; u := [0; 0] |};
     route_terrain_elevation := [100; 100] |}.

(** A terrain of 1000 rows and 3 columns (rows 1 m apart going south,
    columns 10 m apart), which the export downsamples with stride 2. *)
Definition tall_terrain : Terrain_ENU :=
  {| e_grid := mk_ndarray 1000 3
                 (map (fun ij => inject_Z (Z.of_nat (snd ij)) * 10) (cells 1000 3));
     n_grid := mk_ndarray 1000 3
                 (map (fun ij => - inject_Z (Z.of_nat (fst ij))) (cells 1000 3));
     u_grid := mk_ndarray 1000 3 (map (fun _ => 100) (cells 1000 3)) |}.

Definition tall_generator : MeshGenerator :=
  {| terrain := tall_terrain;
     route_enu := {| e := [2; 8]; n := [-1; -9]; u := [0; 0] |};
     route_terrain_elevation := [100; 100] |}.


(** A route of two samples, as [Route_LL.new] stores it. *)
Definition two_point_route : Route_LL :=
  {| latitudes := [51; 52]; longitudes := [-3; -2]; elevations := [10; 20];
     route_min_longitude := -3; route_max_longitude := -2;
     route_min_latitude := 51; route_max_latitude := 52 |}.

Definition two_point_bounds : Bounds :=
  {| bounds_min_latitude := 51; bounds_max_latitude := 52;
     bounds_min_longitude := -3; bounds_max_longitude := -2 |}.

(** A straight route of two samples 3 m apart, going east at 100 m. *)
Definition straight_route_e : list Q := [0; 3].
Definition straight_route_n : list Q := [0; 0].
Definition straight_route_u : list Q := [100; 100].

(** A single triangle, 2 m by 1 m. *)
Definition one_triangle : Trimesh :=
  {| vertices := [(0, 0, 0); (2, 0, 0); (0, 1, 0)]; faces := [(0, 1, 2)%nat] |}.

(** The bounding box of a route that stays at one point, and the default
    parameters of the command line. *)
Definition point_bbox : BBox_LL :=
  {| min_longitude := -3; min_latitude := 51; max_longitude := -3; max_latitude := 51 |}.
Definition default_params : GlobalParameters := mk_GlobalParameters 100 (1 # 5).

(** A client that delivers, for every tile, the 256 x 256 image whose
    pixels all encode 0 m (the 24-bit value 100000 = 0x0186A0). *)
Definition sea_level_image : RGBImage :=
  {| img_rows := 256; img_cols := 256;
     img_pixels := repeat (Byte.x01, Byte.x86, Byte.xa0) (256 * 256) |}.

Definition sea_level_client : TileSource := fun _ _ _ => inr sea_level_image.

(** A cache without files, a rate-limit reply and a reply with three
    bytes of content. *)
Definition empty_cache : TileCache := fun _ => None.
Definition too_many_requests : Response :=
  {| status_code := 429; content := []; retry_after := Some (Some 1%Z) |}.
Definition ok_response : Response :=
  {| status_code := 200; content := [Byte.x89; Byte.x50; Byte.x4e]; retry_after := None |}.

(* ===================================================================== *)
(** * Properties *)
(* ===================================================================== *)

(** ** Strided slices *)

Lemma stride_from_length {A : Type} (step : nat) (l : list A) :
  (1 <= step)%nat ->
  forall skip, (skip < step)%nat ->
  length (stride_from skip step l) = ((length l + step - 1 - skip) / step)%nat.
Proof.
  intros Hstep. induction l as [| v t IH]; intros skip Hskip.
  - symmetry. apply Nat.div_small. simpl. lia.
  - destruct skip as [| k]; cbn [stride_from length].
    + rewrite IH by lia.
      replace (S (length t) + step - 1 - 0)%nat
        with (length t + step - 1 - (step - 1) + 1 * step)%nat by lia.
      rewrite Nat.div_add by lia. lia.
    + rewrite IH by lia. f_equal. lia.
Qed.

Lemma slice_step_length {A : Type} (l : list A) (step : nat) :
  (1 <= step)%nat ->
  length (slice_step l step) = strided_len (length l) step.
Proof.
  intros Hstep. unfold slice_step, strided_len.
  rewrite (stride_from_length step l Hstep 0%nat) by lia.
  f_equal. lia.
Qed.

Lemma ribbon_step_pos (len : nat) : (1 <= ribbon_step len)%nat.
Proof. unfold ribbon_step. lia. Qed.

(** C8 (as stated, refuted): a route of 999 samples has stride
    [max 1 (999 // 500) = 1], so all 999 samples are kept. *)
Lemma ribbon_downsample_exceeds_500 :
  ~ (length (ribbon_downsample (repeat 0%Q 999) 999) <= 500)%nat.
Proof.
  unfold ribbon_downsample.
  rewrite slice_step_length by apply ribbon_step_pos.
  rewrite repeat_length. vm_compute. lia.
Qed.

(** C8 (amended): for every route, the downsampling of
    [create_route_ribbon_mesh] keeps [ceil(len / max(1, len // 500))]
    samples, which is at most 999. *)
Theorem ribbon_downsample_at_most_999 (route : list Q) :
  length (ribbon_downsample route (length route))
    = strided_len (length route) (ribbon_step (length route))
  /\ (length (ribbon_downsample route (length route)) <= 999)%nat.
Proof.
  unfold ribbon_downsample.
  rewrite slice_step_length by apply ribbon_step_pos.
  split; [reflexivity |].
  unfold strided_len, ribbon_step.
  set (len := length route).
  destruct (Nat.lt_ge_cases len 500) as [Hlt | Hge].
  - rewrite (Nat.div_small len 500) by lia.
    replace (Nat.max 1 0) with 1%nat by reflexivity.
    rewrite Nat.div_1_r. lia.
  - assert (Hs : (1 <= len / 500)%nat).
    { apply Nat.div_le_lower_bound; lia. }
    rewrite Nat.max_r by lia.
    set (s := (len / 500)%nat) in *.
    assert (Hlen : (len < 500 * (s + 1))%nat).
    { pose proof (Nat.div_mod_eq len 500) as Hdm.
      pose proof (Nat.mod_upper_bound len 500 ltac:(lia)) as Hm.
      unfold s. lia. }
    destruct (Nat.le_gt_cases ((len + s - 1) / s) 999) as [Hok | Hbad]; [exact Hok |].
    exfalso.
    pose proof (Nat.div_mod_eq (len + s - 1) s) as Hdm.
    pose proof (Nat.mod_upper_bound (len + s - 1) s ltac:(lia)) as Hm.
    nia.
Qed.

(** The bound 999 is reached. *)
Lemma ribbon_downsample_999_reached :
  length (ribbon_downsample (repeat 0%Q 999) 999) = 999%nat.
Proof.
  unfold ribbon_downsample.
  rewrite slice_step_length by apply ribbon_step_pos.
  rewrite repeat_length. reflexivity.
Qed.

(** ** Grid index lemmas *)

Lemma cells_S (h w : nat) :
  cells (S h) w = cells h w ++ map (fun j => (h, j)) (seq 0 w).
Proof.
  unfold cells. rewrite seq_S, flat_map_app. simpl. rewrite app_nil_r. reflexivity.
Qed.

Lemma cells_length (h w : nat) : length (cells h w) = (h * w)%nat.
Proof.
  induction h as [| h IH]; [reflexivity |].
  rewrite cells_S, length_app, IH, length_map, length_seq. lia.
Qed.

Lemma in_cells (h w i j : nat) :
  In (i, j) (cells h w) <-> (i < h)%nat /\ (j < w)%nat.
Proof.
  unfold cells. rewrite in_flat_map. split.
  - intros [i' [Hi Hj]]. apply in_map_iff in Hj as [j' [Heq Hj']].
    inversion Heq; subst. apply in_seq in Hi. apply in_seq in Hj'. lia.
  - intros [Hi Hj]. exists i. split; [apply in_seq; lia |].
    apply in_map_iff. exists j. split; [reflexivity | apply in_seq; lia].
Qed.

Lemma map_add_seq (a s n : nat) :
  map (fun j => (a + j)%nat) (seq s n) = seq (a + s) n.
Proof.
  revert s. induction n as [| n IH]; intros s; [reflexivity |].
  simpl. f_equal. rewrite IH. f_equal. lia.
Qed.

(** Row-major order: the flat index of the k-th cell of the loops is k. *)
Lemma cells_index (h w : nat) :
  map (fun ij => (fst ij * w + snd ij)%nat) (cells h w) = seq 0 (h * w).
Proof.
  induction h as [| h IH]; [reflexivity |].
  rewrite cells_S, map_app, IH, map_map. simpl fst. simpl snd.
  replace (S h * w)%nat with (h * w + w)%nat by lia.
  rewrite seq_app. f_equal. rewrite map_add_seq. f_equal. lia.
Qed.

Lemma cells_nth_error (h w i j : nat) :
  (i < h)%nat -> (j < w)%nat ->
  nth_error (cells h w) (i * w + j) = Some (i, j).
Proof.
  intros Hi Hj.
  assert (Hlt : (i * w + j < h * w)%nat) by nia.
  destruct (nth_error (cells h w) (i * w + j)) as [[i' j'] |] eqn:E.
  - pose proof (nth_error_In _ _ E) as Hin. apply in_cells in Hin.
    pose proof (map_nth_error (fun ij => (fst ij * w + snd ij)%nat) _ _ E) as Hm.
    rewrite cells_index in Hm. simpl in Hm.
    rewrite nth_error_seq in Hm.
    destruct (Nat.ltb_spec (i * w + j) (h * w)); [| lia].
    inversion Hm as [Heq].
    assert (i = i') by nia. subst i'. f_equal. f_equal. lia.
  - apply nth_error_None in E. rewrite cells_length in E. lia.
Qed.

(** ** In-place stores *)

Lemma set_nth_length {A : Type} (k : nat) (v : A) (l : list A) :
  length (set_nth k v l) = length l.
Proof.
  revert k. induction l as [| h t IH]; intros [| k]; simpl; auto.
Qed.

Lemma nth_set_nth_same {A : Type} (k : nat) (v d : A) (l : list A) :
  (k < length l)%nat -> nth k (set_nth k v l) d = v.
Proof.
  revert k. induction l as [| h t IH]; intros [| k] Hk; simpl in *; try lia; auto.
  apply IH. lia.
Qed.

Lemma nth_set_nth_other {A : Type} (k m : nat) (v d : A) (l : list A) :
  k <> m -> nth m (set_nth k v l) d = nth m l d.
Proof.
  revert k m. induction l as [| h t IH]; intros [| k] [| m] Hne; simpl; auto; try lia.
Qed.

(** ** Degenerate grids *)

Lemma top_faces_degenerate (height width : nat) :
  (height < 2)%nat \/ (width < 2)%nat -> top_faces height width = [].
Proof.
  intros Hd. unfold top_faces.
  destruct Hd as [Hh | Hw].
  - replace (height - 1)%nat with 0%nat by lia. reflexivity.
  - replace (width - 1)%nat with 0%nat by lia. simpl.
    induction (seq 0 (height - 1)) as [| i l IH]; [reflexivity | exact IH].
Qed.

(** ** Route carving *)

Lemma getitem_nth (a : list Q) (k : nat) :
  (k < length a)%nat -> getitem a k = Ok (nth k a 0).
Proof.
  intros Hk. unfold getitem.
  rewrite (nth_error_nth' a 0 Hk). reflexivity.
Qed.

Lemma getitem2_get2 (a : ndarray) (i j : nat) :
  wf_ndarray a -> (i < nrows a)%nat -> (j < ncols a)%nat ->
  getitem2 a i j = Ok (get2 a i j).
Proof.
  intros Hwf Hi Hj. unfold getitem2, get2.
  destruct (Nat.ltb_spec i (nrows a)); [| lia].
  destruct (Nat.ltb_spec j (ncols a)); [| lia].
  cbn [andb]. apply getitem_nth. rewrite Hwf. nia.
Qed.

Section Carving.
Context `{NumLib}.
Variables (terrain_e terrain_n : ndarray) (width : nat) (r : RouteArgs).
Variables (route_width route_depth : Q).

Lemma cell_min_dist_ok (i j : nat) :
  wf_ndarray terrain_e -> wf_ndarray terrain_n ->
  route_samples_ok r ->
  (i < nrows terrain_e)%nat -> (j < ncols terrain_e)%nat ->
  (i < nrows terrain_n)%nat -> (j < ncols terrain_n)%nat ->
  exists d, cell_min_dist terrain_e terrain_n r i j = Ok d.
Proof.
  intros He Hn [Hne Hlen] Hie Hje Hin Hjn. unfold cell_min_dist.
  rewrite (getitem2_get2 _ _ _ He Hie Hje), (getitem2_get2 _ _ _ Hn Hin Hjn).
  cbn [bind]. unfold broadcast2. rewrite !length_map, Hlen, Nat.eqb_refl.
  cbn [bind].
  destruct (route_e r) as [| e0 re]; [congruence |].
  destruct (route_n r) as [| n0 rn]; [discriminate |].
  simpl. eexists. reflexivity.
Qed.

Lemma carve_cell_effect (u : list Q) (i j : nat) (d : Q) :
  cell_min_dist terrain_e terrain_n r i j = Ok d ->
  (i * width + j < length u)%nat ->
  exists u',
    carve_cell terrain_e terrain_n width r route_width route_depth u (i, j) = Ok u'
    /\ length u' = length u
    /\ nth (i * width + j) u' 0
       = carve_value route_width route_depth d (nth (i * width + j) u 0)
    /\ forall m, m <> (i * width + j)%nat -> nth m u' 0 = nth m u 0.
Proof.
  intros Hd Hlt. unfold carve_cell, carve_value. rewrite Hd. cbn [bind].
  destruct (Qlt_bool d (route_width / 2)).
  - eexists. split; [reflexivity |]. split; [apply set_nth_length |].
    split; [apply nth_set_nth_same; exact Hlt |].
    intros m Hm. apply nth_set_nth_other. congruence.
  - exists u. repeat split; reflexivity.
Qed.

Lemma carve_loop_effect (todo : list (nat * nat)) :
  NoDup (map (fun ij => (fst ij * width + snd ij)%nat) todo) ->
  (forall ij, In ij todo ->
     exists d, cell_min_dist terrain_e terrain_n r (fst ij) (snd ij) = Ok d) ->
  forall u,
  (forall ij, In ij todo -> (fst ij * width + snd ij < length u)%nat) ->
  exists u',
    carve_loop terrain_e terrain_n width r route_width route_depth todo u = (u', None)
    /\ length u' = length u
    /\ (forall ij d, In ij todo ->
          cell_min_dist terrain_e terrain_n r (fst ij) (snd ij) = Ok d ->
          nth (fst ij * width + snd ij) u' 0
          = carve_value route_width route_depth d (nth (fst ij * width + snd ij) u 0))
    /\ (forall m, ~ In m (map (fun ij => (fst ij * width + snd ij)%nat) todo) ->
          nth m u' 0 = nth m u 0).
Proof.
  induction todo as [| [i j] rest IH]; intros Hnd Hok u Hlen.
  - exists u. simpl. repeat split; try reflexivity. intros ij d [].
  - cbn [map fst snd] in Hnd. apply NoDup_cons_iff in Hnd as [Hfresh Hnd].
    destruct (Hok (i, j) (or_introl eq_refl)) as [d0 Hd0]. cbn [fst snd] in Hd0.
    destruct (carve_cell_effect u i j d0 Hd0 (Hlen (i, j) (or_introl eq_refl)))
      as [u1 [Hcell [Hlen1 [Hsame Hother]]]].
    destruct (IH Hnd (fun ij Hin => Hok ij (or_intror Hin)) u1) as [u2 [Hloop [Hlen2 [Hin2 Hout2]]]].
    { intros ij Hin. rewrite Hlen1. apply Hlen. right. exact Hin. }
    exists u2. cbn [carve_loop]. rewrite Hcell. split; [exact Hloop |].
    split; [congruence |]. split.
    + intros ij d [Heq | Hin] Hd.
      * subst ij. cbn [fst snd] in *. rewrite Hout2 by exact Hfresh.
        rewrite Hsame. congruence.
      * rewrite (Hin2 ij d Hin Hd). f_equal. apply Hother.
        intros Heq. apply Hfresh. rewrite <- Heq.
        apply (in_map (fun ij => (fst ij * width + snd ij)%nat)). exact Hin.
    + intros m Hm. cbn [map fst snd] in Hm.
      rewrite Hout2 by (intros Hin; apply Hm; right; exact Hin).
      apply Hother. intros Heq. apply Hm. left. congruence.
Qed.

End Carving.

Section CarvingInPlace.
Context `{NumLib}.

(** The caller's elevation array after [create_terrain_mesh] with a route:
    same shape, and every cell holds what the loop body stored in it. *)
Lemma create_terrain_mesh_carved_array
    (terrain_e terrain_n terrain_u : ndarray) (base_height : Q)
    (r : RouteArgs) (route_width route_depth : Q) :
  grid_ok terrain_e terrain_n terrain_u ->
  route_samples_ok r ->
  let after := fst (create_terrain_mesh terrain_e terrain_n terrain_u base_height
                      (Some r) route_width route_depth) in
  nrows after = nrows terrain_u /\ ncols after = ncols terrain_u /\
  wf_ndarray after /\
  forall i j, (i < nrows terrain_u)%nat -> (j < ncols terrain_u)%nat ->
    exists d, cell_min_dist terrain_e terrain_n r i j = Ok d /\
      get2 after i j = carve_value route_width route_depth d (get2 terrain_u i j).
Proof.
  intros [He [Hn [Hu [[Her Hec] [Hnr Hnc]]]]] Hroute after.
  assert (Hcells : forall ij, In ij (cells (nrows terrain_u) (ncols terrain_u)) ->
            exists d, cell_min_dist terrain_e terrain_n r (fst ij) (snd ij) = Ok d).
  { intros [i j] Hin. apply in_cells in Hin as [Hi Hj]. cbn [fst snd].
    apply cell_min_dist_ok; auto; lia. }
  destruct (carve_loop_effect terrain_e terrain_n (ncols terrain_u) r
              route_width route_depth (cells (nrows terrain_u) (ncols terrain_u)))
    with (u := ravel terrain_u) as [u' [Hloop [Hlen [Hin Hout]]]].
  - rewrite cells_index. apply seq_NoDup.
  - exact Hcells.
  - intros [i j] Hij. apply in_cells in Hij as [Hi Hj]. cbn [fst snd].
    rewrite Hu. nia.
  - subst after. unfold create_terrain_mesh. rewrite Hloop. cbn [fst nrows ncols].
    split; [reflexivity |]. split; [reflexivity |].
    split; [unfold wf_ndarray; cbn [ravel nrows ncols]; rewrite Hlen; exact Hu |].
    intros i j Hi Hj.
    destruct (Hcells (i, j)) as [d Hd]; [apply in_cells; split; assumption |].
    exists d. split; [exact Hd |]. unfold get2. cbn [ravel ncols].
    apply (Hin (i, j) d); [apply in_cells; split; assumption | exact Hd].
Qed.

(** Without a route the array is left as it was. *)
Lemma create_terrain_mesh_no_route_array
    (terrain_e terrain_n terrain_u : ndarray) (base_height : Q)
    (route_width route_depth : Q) :
  fst (create_terrain_mesh terrain_e terrain_n terrain_u base_height
         None route_width route_depth) = terrain_u.
Proof.
  unfold create_terrain_mesh. destruct terrain_u. reflexivity.
Qed.

End CarvingInPlace.

(** C5 (as stated, refuted): carving the flat 2 x 3 patch along a route
    through its grid point (0, 0) leaves 99 in the caller's array where it
    held 100. *)
Lemma carving_mutates_caller_array :
  ~ (get2 (fst (@create_terrain_mesh rational_numlib patch_e patch_n patch_u 10
                  (Some route_at_origin) 2 1)) 0 0
     == get2 patch_u 0 0).
Proof. vm_compute. discriminate. Qed.

(** C5 (amended): [create_terrain_mesh] carves the caller's elevation array
    in place.  After a call with a route, [terrain_u] has its shape and each
    cell holds [carve_value] of its former content and of its distance to
    the nearest route sample: the former content only where that distance
    is at least half the corridor width.  Without a route it is left as it
    was.  [terrain_e] and [terrain_n] are only read. *)
Theorem create_terrain_mesh_carves_in_place `{NumLib}
    (terrain_e terrain_n terrain_u : ndarray) (base_height : Q)
    (r : RouteArgs) (route_width route_depth : Q) :
  grid_ok terrain_e terrain_n terrain_u ->
  route_samples_ok r ->
  let after := fst (create_terrain_mesh terrain_e terrain_n terrain_u base_height
                      (Some r) route_width route_depth) in
  (nrows after = nrows terrain_u /\ ncols after = ncols terrain_u) /\
  (forall i j, (i < nrows terrain_u)%nat -> (j < ncols terrain_u)%nat ->
     exists d, cell_min_dist terrain_e terrain_n r i j = Ok d /\
       get2 after i j = carve_value route_width route_depth d (get2 terrain_u i j) /\
       (route_width / 2 <= d -> get2 after i j = get2 terrain_u i j)) /\
  fst (create_terrain_mesh terrain_e terrain_n terrain_u base_height
         None route_width route_depth) = terrain_u.
Proof.
  intros Hgrid Hroute after.
  destruct (create_terrain_mesh_carved_array terrain_e terrain_n terrain_u base_height
              r route_width route_depth Hgrid Hroute) as [Hr [Hc [_ Hcell]]].
  split; [split; assumption |]. split.
  - intros i j Hi Hj. destruct (Hcell i j Hi Hj) as [d [Hd Hv]].
    exists d. split; [exact Hd |]. split; [exact Hv |].
    intros Hfar. fold after in Hv. rewrite Hv. unfold carve_value, Qlt_bool.
    apply Qle_bool_iff in Hfar. rewrite Hfar. reflexivity.
  - apply create_terrain_mesh_no_route_array.
Qed.

Lemma create_terrain_mesh_carves_in_place_witness :
  grid_ok patch_e patch_n patch_u /\
  route_samples_ok route_at_origin /\
  get2 (fst (@create_terrain_mesh rational_numlib patch_e patch_n patch_u 10
               (Some route_at_origin) 2 1)) 0 2 = get2 patch_u 0 2.
Proof.
  assert (Hg : grid_ok patch_e patch_n patch_u).
  { unfold grid_ok, wf_ndarray, same_shape. simpl. repeat split. }
  assert (Hr : route_samples_ok route_at_origin).
  { unfold route_samples_ok. simpl. split; [discriminate | reflexivity]. }
  split; [exact Hg |]. split; [exact Hr |].
  destruct (@create_terrain_mesh_carves_in_place rational_numlib
              patch_e patch_n patch_u 10 route_at_origin 2 1 Hg Hr)
    as [_ [Hcell _]].
  destruct (Hcell 0%nat 2%nat) as [d [Hd [_ Hfar]]]; [simpl; lia | simpl; lia |].
  apply Hfar. vm_compute in Hd. injection Hd as <-. vm_compute. discriminate.
Defined.

Lemma carve_value_inside (route_width route_depth d elevation : Q) :
  d < route_width / 2 ->
  carve_value route_width route_depth d elevation
  = elevation - route_depth * (1 - d / (route_width / 2)).
Proof.
  intros Hlt. unfold carve_value, Qlt_bool.
  destruct (Qle_bool (route_width / 2) d) eqn:E; [| reflexivity].
  apply Qle_bool_iff in E. exfalso. apply (Qlt_not_le _ _ Hlt E).
Qed.

Lemma carve_value_outside (route_width route_depth d elevation : Q) :
  route_width / 2 <= d ->
  carve_value route_width route_depth d elevation = elevation.
Proof.
  intros Hle. unfold carve_value, Qlt_bool.
  apply Qle_bool_iff in Hle. rewrite Hle. reflexivity.
Qed.

(** C6 (as stated, refuted): with corridor width 2 and depth 1 on the flat
    patch, the grid point (0, 1), 1 m from the route, is not lowered: it
    still holds 100. *)
Lemma carving_leaves_point_at_1m :
  ~ (get2 (fst (@create_terrain_mesh rational_numlib patch_e patch_n patch_u 10
                  (Some route_at_origin) 2 1)) 0 1 < 100).
Proof. vm_compute. discriminate. Qed.

(** C6 (amended): route carving with corridor width 2 m and depth 1 m on a
    grid point of elevation 100 m, by its distance [d] to the nearest
    route sample: on the route ([d = 0]) it drops to 99 m; 2 m away it is
    unchanged; 1 m away, which is the corridor edge (half the width), it is
    unchanged as well, where the linear blend
    [elevation - depth * (1 - d / 1)] gives the elevation itself; strictly
    inside the corridor ([d < 1]) it holds that blend. *)
Theorem carve_width2_depth1_on_flat_100 `{NumLib}
    (terrain_e terrain_n terrain_u : ndarray) (base_height : Q) (r : RouteArgs) :
  grid_ok terrain_e terrain_n terrain_u ->
  route_samples_ok r ->
  let after := fst (create_terrain_mesh terrain_e terrain_n terrain_u base_height
                      (Some r) 2 1) in
  forall i j, (i < nrows terrain_u)%nat -> (j < ncols terrain_u)%nat ->
    get2 terrain_u i j == 100 ->
    exists d, cell_min_dist terrain_e terrain_n r i j = Ok d /\
      (d == 0 -> get2 after i j == 99) /\
      (d == 2 -> get2 after i j == 100) /\
      (d == 1 -> get2 after i j == 100) /\
      (d < 1 -> get2 after i j == 100 - 1 * (1 - d / 1)).
Proof.
  intros Hgrid Hroute after i j Hi Hj Hflat.
  destruct (create_terrain_mesh_carved_array terrain_e terrain_n terrain_u base_height
              r 2 1 Hgrid Hroute) as [_ [_ [_ Hcell]]].
  destruct (Hcell i j Hi Hj) as [d [Hd Hv]]. fold after in Hv.
  exists d. split; [exact Hd |].
  assert (Hhalf : 2 / 2 == 1) by reflexivity.
  assert (Hin : d < 1 -> get2 after i j == 100 - 1 * (1 - d / 1)).
  { intros Hlt. rewrite Hv, carve_value_inside by (rewrite Hhalf; exact Hlt).
    rewrite Hflat, Hhalf. reflexivity. }
  assert (Hout : 1 <= d -> get2 after i j == 100).
  { intros Hle. rewrite Hv, carve_value_outside by (rewrite Hhalf; exact Hle).
    exact Hflat. }
  repeat split.
  - intros H0. rewrite Hin by (rewrite H0; reflexivity). rewrite H0. reflexivity.
  - intros H2. apply Hout. rewrite H2. discriminate.
  - intros H1. apply Hout. rewrite H1. apply Qle_refl.
  - exact Hin.
Qed.

Lemma carve_width2_depth1_on_flat_100_witness :
  grid_ok patch_e patch_n patch_u /\
  route_samples_ok route_at_origin /\
  get2 (fst (@create_terrain_mesh rational_numlib patch_e patch_n patch_u 10
               (Some route_at_origin) 2 1)) 0 0 == 99.
Proof.
  assert (Hg : grid_ok patch_e patch_n patch_u).
  { unfold grid_ok, wf_ndarray, same_shape. simpl. repeat split. }
  assert (Hr : route_samples_ok route_at_origin).
  { unfold route_samples_ok. simpl. split; [discriminate | reflexivity]. }
  split; [exact Hg |]. split; [exact Hr |].
  destruct (@carve_width2_depth1_on_flat_100 rational_numlib
              patch_e patch_n patch_u 10 route_at_origin Hg Hr 0%nat 0%nat)
    as [d [Hd [H0 _]]]; [simpl; lia | simpl; lia | reflexivity |].
  apply H0. vm_compute in Hd. injection Hd as <-. reflexivity.
Defined.

(** The scenario run on the patch: the elevations of the first row after
    the call are 99, 100, 100, and the call returns a mesh. *)
Example carve_patch_run :
  let out := @create_terrain_mesh rational_numlib patch_e patch_n patch_u 10
               (Some route_at_origin) 2 1 in
  get2 (fst out) 0 0 == 99 /\ get2 (fst out) 0 1 == 100 /\ get2 (fst out) 0 2 == 100
  /\ is_ok (snd out) = true.
Proof. vm_compute. repeat split; discriminate. Qed.

(** ** Tile indices *)

#[export] Instance py_int_comp : Proper (Qeq ==> eq) py_int.
Proof.
  intros a b Hab. unfold py_int.
  assert (Hb : Qle_bool 0 a = Qle_bool 0 b).
  { destruct (Qle_bool 0 a) eqn:Ea, (Qle_bool 0 b) eqn:Eb; try reflexivity.
    - apply Qle_bool_iff in Ea. rewrite Hab in Ea. apply Qle_bool_iff in Ea. congruence.
    - apply Qle_bool_iff in Eb. rewrite <- Hab in Eb. apply Qle_bool_iff in Eb. congruence. }
  rewrite Hb. destruct (Qle_bool 0 b); rewrite Hab; reflexivity.
Qed.

Lemma py_int_Z (z : Z) : py_int (inject_Z z) = z.
Proof.
  unfold py_int. destruct (Qle_bool 0 (inject_Z z)).
  - apply Qfloor_Z.
  - apply Qceiling_Z.
Qed.

Lemma Qfloor_double_spread (a b : Q) :
  a <= b ->
  (Qfloor b - Qfloor a <= Qfloor (2 * b) - Qfloor (2 * a))%Z.
Proof.
  intros Hab.
  pose proof (Qfloor_resp_le _ _ Hab) as Hmono.
  assert (H2 : 2 * a <= 2 * b) by lra.
  pose proof (Qfloor_resp_le _ _ H2) as Hmono2.
  assert (Hlow : (2 * Qfloor b <= Qfloor (2 * b))%Z).
  { rewrite <- (Qfloor_Z (2 * Qfloor b)). apply Qfloor_resp_le.
    rewrite inject_Z_mult. pose proof (Qfloor_le b). 
    change (inject_Z 2) with 2. lra. }
  assert (Hup : (Qfloor (2 * a) < 2 * Qfloor a + 2)%Z).
  { rewrite Zlt_Qlt, inject_Z_plus, inject_Z_mult.
    change (inject_Z 2) with 2.
    pose proof (Qfloor_le (2 * a)). pose proof (Qlt_floor a) as Hlt.
    rewrite inject_Z_plus in Hlt. change (inject_Z 1) with 1 in Hlt. lra. }
  lia.
Qed.

Lemma Qceiling_double_spread (a b : Q) :
  a <= b ->
  (Qceiling b - Qceiling a <= Qceiling (2 * b) - Qceiling (2 * a))%Z.
Proof.
  intros Hab. unfold Qceiling.
  assert (Hneg : - b <= - a) by lra.
  pose proof (Qfloor_double_spread _ _ Hneg) as Hs.
  assert (Ea : - (2 * a) == 2 * - a) by ring.
  assert (Eb : - (2 * b) == 2 * - b) by ring.
  rewrite Ea, Eb. lia.
Qed.

Lemma py_int_double_spread (a b : Q) :
  a <= b ->
  (py_int b - py_int a <= py_int (2 * b) - py_int (2 * a))%Z.
Proof.
  intros Hab. unfold py_int.
  destruct (Qle_bool 0 a) eqn:Ea.
  - apply Qle_bool_iff in Ea.
    assert (Hb : Qle_bool 0 b = true) by (apply Qle_bool_iff; lra).
    assert (H2a : Qle_bool 0 (2 * a) = true) by (apply Qle_bool_iff; lra).
    assert (H2b : Qle_bool 0 (2 * b) = true) by (apply Qle_bool_iff; lra).
    rewrite Hb, H2a, H2b. apply Qfloor_double_spread. exact Hab.
  - assert (Ha : a < 0).
    { apply Qnot_le_lt. intros Hle. apply Qle_bool_iff in Hle. congruence. }
    assert (H2a : Qle_bool 0 (2 * a) = false).
    { destruct (Qle_bool 0 (2 * a)) eqn:E; [| reflexivity].
      apply Qle_bool_iff in E. lra. }
    rewrite H2a.
    destruct (Qle_bool 0 b) eqn:Eb.
    + apply Qle_bool_iff in Eb.
      assert (H2b : Qle_bool 0 (2 * b) = true) by (apply Qle_bool_iff; lra).
      rewrite H2b.
      assert (H1 : (Qfloor b <= Qfloor (2 * b))%Z) by (apply Qfloor_resp_le; lra).
      assert (H2 : (Qceiling (2 * a) <= Qceiling a)%Z) by (apply Qceiling_resp_le; lra).
      lia.
    + assert (Hb : b < 0).
      { apply Qnot_le_lt. intros Hle. apply Qle_bool_iff in Hle. congruence. }
      assert (H2b : Qle_bool 0 (2 * b) = false).
      { destruct (Qle_bool 0 (2 * b)) eqn:E; [| reflexivity].
        apply Qle_bool_iff in E. lra. }
      rewrite H2b. apply Qceiling_double_spread. exact Hab.
Qed.

(** Doubling the scale never brings two tile indices closer. *)
Lemma py_int_double_distance (a b : Q) :
  (Z.abs (py_int b - py_int a) <= Z.abs (py_int (2 * b) - py_int (2 * a)))%Z.
Proof.
  destruct (Qlt_le_dec b a) as [Hlt | Hle].
  - pose proof (py_int_double_spread b a (Qlt_le_weak _ _ Hlt)) as Hs.
    assert (Hm : (py_int b <= py_int a)%Z).
    { pose proof (py_int_double_spread b a (Qlt_le_weak _ _ Hlt)).
      unfold py_int.
      destruct (Qle_bool 0 b) eqn:Eb, (Qle_bool 0 a) eqn:Ea.
      - apply Qfloor_resp_le. lra.
      - apply Qle_bool_iff in Eb.
        assert (a < 0) by (apply Qnot_le_lt; intros Hc; apply Qle_bool_iff in Hc; congruence).
        lra.
      - apply Qle_bool_iff in Ea.
        assert (Hb0 : b < 0) by (apply Qnot_le_lt; intros Hc; apply Qle_bool_iff in Hc; congruence).
        assert (Hc1 : (Qceiling b <= Qceiling 0)%Z) by (apply Qceiling_resp_le; lra).
        assert (Hc2 : (Qfloor 0 <= Qfloor a)%Z) by (apply Qfloor_resp_le; exact Ea).
        change (Qceiling 0) with 0%Z in Hc1. change (Qfloor 0) with 0%Z in Hc2. lia.
      - apply Qceiling_resp_le. lra. }
    lia.
  - pose proof (py_int_double_spread a b Hle) as Hs.
    assert (Hm : (py_int a <= py_int b)%Z).
    { unfold py_int.
      destruct (Qle_bool 0 b) eqn:Eb, (Qle_bool 0 a) eqn:Ea.
      - apply Qfloor_resp_le. lra.
      - apply Qle_bool_iff in Eb.
        assert (Ha0 : a < 0) by (apply Qnot_le_lt; intros Hc; apply Qle_bool_iff in Hc; congruence).
        assert (Hc1 : (Qceiling a <= Qceiling 0)%Z) by (apply Qceiling_resp_le; lra).
        assert (Hc2 : (Qfloor 0 <= Qfloor b)%Z) by (apply Qfloor_resp_le; exact Eb).
        change (Qceiling 0) with 0%Z in Hc1. change (Qfloor 0) with 0%Z in Hc2. lia.
      - apply Qle_bool_iff in Ea.
        assert (b < 0) by (apply Qnot_le_lt; intros Hc; apply Qle_bool_iff in Hc; congruence).
        lra.
      - apply Qceiling_resp_le. lra. }
    lia.
Qed.

Lemma pow2_succ (zoom : Z) : pow2 (zoom + 1) == 2 * pow2 zoom.
Proof.
  unfold pow2. rewrite Qpower_plus by discriminate.
  change (2 ^ 1) with 2. ring.
Qed.

Lemma pow2_nonzero (zoom : Z) : ~ pow2 zoom == 0.
Proof.
  unfold pow2. intros Hz.
  assert (Hpos : 0 < 2 ^ zoom) by (apply Qpower_0_lt; reflexivity).
  rewrite Hz in Hpos. discriminate.
Qed.

Lemma range_length (a b : Z) : length (range a b) = Z.to_nat (b - a).
Proof. unfold range. rewrite length_map, length_seq. reflexivity. Qed.

Lemma in_range (a b z : Z) : In z (range a b) <-> (a <= z < b)%Z.
Proof.
  unfold range. rewrite in_map_iff. split.
  - intros [k [Hk Hin]]. apply in_seq in Hin. lia.
  - intros Hz. exists (Z.to_nat (z - a)). split; [lia |]. apply in_seq. lia.
Qed.

Lemma range_split (a m b : Z) :
  (a <= m < b)%Z -> range a b = range a m ++ m :: range (m + 1) b.
Proof.
  intros Hm. unfold range.
  replace (Z.to_nat (b - a)) with (Z.to_nat (m - a) + S (Z.to_nat (b - (m + 1))))%nat by lia.
  rewrite seq_app, map_app. f_equal. cbn [seq map]. f_equal; [lia |].
  replace (S (0 + Z.to_nat (m - a))) with (S (Z.to_nat (m - a)) + 0)%nat by lia.
  rewrite <- map_add_seq, map_map.
  apply map_ext. intros k. lia.
Qed.

Lemma range_sorted (a b : Z) : StronglySorted Z.lt (range a b).
Proof.
  unfold range. generalize (Z.to_nat (b - a)) as len. intros len.
  generalize 0%nat as s. induction len as [| len IH]; intros s; simpl.
  - constructor.
  - constructor; [apply IH |]. apply Forall_forall. intros z Hz.
    apply in_map_iff in Hz as [k [Hk Hin]]. apply in_seq in Hin. lia.
Qed.

Lemma flat_map_grid_length {A B C : Type} (f : A -> B -> C) (l1 : list A) (l2 : list B) :
  length (flat_map (fun x => map (f x) l2) l1) = (length l1 * length l2)%nat.
Proof.
  induction l1 as [| x l1 IH]; simpl; [reflexivity |].
  rewrite length_app, length_map, IH. reflexivity.
Qed.

Section TileCount.
Context `{NumLib}.

Lemma tiles_to_cover_length (b : BBox_LL) (zoom : Z) :
  let t0 := lonlat_to_tile (min_longitude b) (min_latitude b) zoom in
  let t1 := lonlat_to_tile (max_longitude b) (max_latitude b) zoom in
  length (tiles_to_cover b zoom)
  = (Z.to_nat (Z.abs (tile_x t1 - tile_x t0) + 1)
     * Z.to_nat (Z.abs (tile_y t1 - tile_y t0) + 1))%nat.
Proof.
  intros t0 t1. unfold tiles_to_cover. fold t0 t1.
  rewrite (flat_map_grid_length (fun x y => mk_RasterTile zoom x y)).
  rewrite !range_length. f_equal; f_equal; lia.
Qed.

Lemma lonlat_to_tile_succ (lon lat : Q) (zoom : Z) :
  let fx := (lon + 180) / 360 * pow2 zoom in
  let fy := (1 - np_arcsinh (np_tan (np_radians lat)) / np_pi) / 2 * pow2 zoom in
  lonlat_to_tile lon lat zoom = mk_RasterTile zoom (py_int fx) (py_int fy) /\
  lonlat_to_tile lon lat (zoom + 1)
  = mk_RasterTile (zoom + 1) (py_int (2 * fx)) (py_int (2 * fy)).
Proof.
  intros fx fy. split; [reflexivity |]. unfold lonlat_to_tile. f_equal.
  - apply py_int_comp. rewrite pow2_succ. unfold fx. ring.
  - apply py_int_comp. rewrite pow2_succ. unfold fy. ring.
Qed.

(** A finer zoom never needs fewer tiles. *)
Lemma tiles_to_cover_length_succ (b : BBox_LL) (zoom : Z) :
  (length (tiles_to_cover b zoom) <= length (tiles_to_cover b (zoom + 1)))%nat.
Proof.
  rewrite !tiles_to_cover_length.
  destruct (lonlat_to_tile_succ (min_longitude b) (min_latitude b) zoom) as [E0 E0'].
  destruct (lonlat_to_tile_succ (max_longitude b) (max_latitude b) zoom) as [E1 E1'].
  rewrite E0, E0', E1, E1'. cbn [tile_x tile_y].
  apply Nat.mul_le_mono; apply Z2Nat.inj_le; try lia;
    apply Z.add_le_mono_r; apply py_int_double_distance.
Qed.

Lemma tiles_to_cover_length_mono (b : BBox_LL) (z z' : Z) :
  (z <= z')%Z ->
  (length (tiles_to_cover b z) <= length (tiles_to_cover b z'))%nat.
Proof.
  intros Hle. replace z' with (z + Z.of_nat (Z.to_nat (z' - z)))%Z by lia.
  induction (Z.to_nat (z' - z)) as [| k IH].
  - rewrite Z.add_0_r. apply Nat.le_refl.
  - etransitivity; [exact IH |].
    replace (z + Z.of_nat (S k))%Z with (z + Z.of_nat k + 1)%Z by lia.
    apply tiles_to_cover_length_succ.
Qed.

End TileCount.

(** ** Automatic zoom selection *)

Section AutoZoom.
Context `{NumLib}.
Variables (b : BBox_LL) (params : GlobalParameters) (model_res : ModelResolution).
Variable max_tiles : nat.

Lemma over_budget_upward (z z' : Z) :
  (z <= z')%Z -> ~ within_budget b max_tiles z -> ~ within_budget b max_tiles z'.
Proof.
  unfold within_budget. intros Hle Hover Hin. apply Hover.
  pose proof (tiles_to_cover_length_mono b z z' Hle). lia.
Qed.

Lemma auto_zoom_scan_step (zoom : Z) (rest : list Z) (optimum : Z) :
  (~ within_budget b max_tiles zoom /\
    auto_zoom_scan b params model_res max_tiles (zoom :: rest) optimum = optimum)
   \/ (zoom_ok b params model_res max_tiles zoom /\
       auto_zoom_scan b params model_res max_tiles (zoom :: rest) optimum
       = auto_zoom_scan b params model_res max_tiles rest zoom)
   \/ (within_budget b max_tiles zoom /\ ~ fine_enough b params model_res zoom /\
       auto_zoom_scan b params model_res max_tiles (zoom :: rest) optimum
       = auto_zoom_scan b params model_res max_tiles rest optimum).
Proof.
  cbn [auto_zoom_scan]. unfold zoom_ok, within_budget, fine_enough.
  destruct (Nat.ltb_spec max_tiles (length (tiles_to_cover b zoom))) as [Hover | Hin].
  - left. split; [lia | reflexivity].
  - right. destruct (Nat.leb_spec (length (tiles_to_cover b zoom)) max_tiles); [| lia].
    rewrite andb_true_r.
    destruct (Qle_bool (meters_per_pixel params b zoom) (meters model_res)) eqn:E.
    + left. apply Qle_bool_iff in E. auto.
    + right. repeat split; auto. intros Hfine. apply Qle_bool_iff in Hfine. congruence.
Qed.

(** The scan returns the default or one of the scanned zooms that
    satisfies both conditions. *)
Lemma auto_zoom_scan_result (zooms : list Z) (optimum : Z) :
  auto_zoom_scan b params model_res max_tiles zooms optimum = optimum
  \/ (In (auto_zoom_scan b params model_res max_tiles zooms optimum) zooms
      /\ zoom_ok b params model_res max_tiles (auto_zoom_scan b params model_res max_tiles zooms optimum)).
Proof.
  revert optimum. induction zooms as [| zoom rest IH]; intros optimum.
  - left. reflexivity.
  - destruct (auto_zoom_scan_step zoom rest optimum)
      as [[_ E] | [[Hok E] | [_ [_ E]]]]; rewrite E.
    + left. reflexivity.
    + right. destruct (IH zoom) as [E' | [Hin Hok']].
      * rewrite E'. split; [left; reflexivity | exact Hok].
      * split; [right; exact Hin | exact Hok'].
    + destruct (IH optimum) as [E' | [Hin Hok']].
      * left. exact E'.
      * right. split; [right; exact Hin | exact Hok'].
Qed.

Lemma auto_zoom_scan_none (zooms : list Z) (optimum : Z) :
  (forall z, In z zooms -> ~ zoom_ok b params model_res max_tiles z) ->
  auto_zoom_scan b params model_res max_tiles zooms optimum = optimum.
Proof.
  intros Hnone. destruct (auto_zoom_scan_result zooms optimum) as [E | [Hin Hok]].
  - exact E.
  - exfalso. exact (Hnone _ Hin Hok).
Qed.

Lemma auto_zoom_scan_finest (zooms : list Z) :
  StronglySorted Z.lt zooms ->
  forall optimum z, In z zooms -> zoom_ok b params model_res max_tiles z ->
    zoom_ok b params model_res max_tiles (auto_zoom_scan b params model_res max_tiles zooms optimum)
    /\ In (auto_zoom_scan b params model_res max_tiles zooms optimum) zooms
    /\ (z <= auto_zoom_scan b params model_res max_tiles zooms optimum)%Z.
Proof.
  induction 1 as [| zoom rest Hsorted IH Hlt]; intros optimum z Hin Hok.
  - destruct Hin.
  - rewrite Forall_forall in Hlt.
    destruct (auto_zoom_scan_step zoom rest optimum)
      as [[Hover E] | [[Hok0 E] | [Hwithin [Hcoarse E]]]]; rewrite E.
    + exfalso. destruct Hin as [<- | Hin].
      * exact (Hover (proj2 Hok)).
      * apply (over_budget_upward zoom z); [specialize (Hlt z Hin); lia | exact Hover |].
        exact (proj2 Hok).
    + destruct Hin as [<- | Hin].
      * destruct (auto_zoom_scan_result rest zoom) as [E' | [Hin' Hok']].
        -- rewrite E'. split; [exact Hok0 |]. split; [left; reflexivity | lia].
        -- split; [exact Hok' |]. split; [right; exact Hin' |].
           specialize (Hlt _ Hin'). lia.
      * destruct (IH zoom z Hin Hok) as [H1 [H2 H3]].
        split; [exact H1 |]. split; [right; exact H2 | exact H3].
    + destruct Hin as [<- | Hin].
      * exfalso. exact (Hcoarse (proj1 Hok)).
      * destruct (IH optimum z Hin Hok) as [H1 [H2 H3]].
        split; [exact H1 |]. split; [right; exact H2 | exact H3].
Qed.

(** The [break]: nothing from the first over-budget zoom on is looked at. *)
Lemma auto_zoom_scan_break (before after : list Z) (zoom optimum : Z) :
  ~ within_budget b max_tiles zoom ->
  auto_zoom_scan b params model_res max_tiles (before ++ zoom :: after) optimum
  = auto_zoom_scan b params model_res max_tiles before optimum.
Proof.
  intros Hover. revert optimum.
  induction before as [| z0 before IH]; intros optimum.
  - cbn [app]. destruct (auto_zoom_scan_step zoom after optimum)
      as [[_ E] | [[Hok _] | [Hin _]]].
    + rewrite E. reflexivity.
    + exfalso. exact (Hover (proj2 Hok)).
    + exfalso. exact (Hover Hin).
  - cbn [app auto_zoom_scan].
    destruct (max_tiles <? length (tiles_to_cover b z0))%nat; [reflexivity |].
    destruct (Qle_bool _ _ && _); apply IH.
Qed.

End AutoZoom.

(** C3: with the budget of 1000 tiles, [_compute_auto_zoom] always returns
    a zoom in [1, 15].  If some zoom of [1, 15] has a ground resolution of
    at most the required one and needs at most 1000 tiles, the result is
    the finest such zoom; if none has, the result is the fallback 15.  The
    scan stops at an over-budget zoom: the result is that of the scan of
    the zooms before it, and it is the fallback 15 when none of those
    satisfied both conditions. *)
Theorem compute_auto_zoom_finest_within_budget `{NumLib}
    (b : BBox_LL) (params : GlobalParameters) (model_res : ModelResolution) :
  let z := _compute_auto_zoom b params model_res 1000 in
  (1 <= z <= 15)%Z
  /\ (forall z', (1 <= z' <= 15)%Z -> zoom_ok b params model_res 1000 z' ->
        zoom_ok b params model_res 1000 z /\ (z' <= z)%Z)
  /\ ((forall z', (1 <= z' <= 15)%Z -> ~ zoom_ok b params model_res 1000 z') ->
        z = 15%Z)
  /\ (forall z0, (1 <= z0 <= 15)%Z -> ~ within_budget b 1000 z0 ->
        z = auto_zoom_scan b params model_res 1000 (range 1 z0) 15%Z
        /\ ((forall z', (1 <= z' < z0)%Z -> ~ zoom_ok b params model_res 1000 z') ->
            z = 15%Z)).
Proof.
  intros z. unfold z, _compute_auto_zoom.
  split; [| split; [| split]].
  - destruct (auto_zoom_scan_result b params model_res 1000 (range 1 16) 15%Z)
      as [E | [Hin _]]; [rewrite E; lia | apply in_range in Hin; lia].
  - intros z' Hz' Hok.
    destruct (auto_zoom_scan_finest b params model_res 1000 (range 1 16)
                (range_sorted 1 16) 15%Z z') as [Hbest [_ Hle]];
      [apply in_range; lia | exact Hok |].
    split; assumption.
  - intros Hnone. apply auto_zoom_scan_none. intros z' Hin.
    apply Hnone. apply in_range in Hin. lia.
  - intros z0 Hz0 Hover. rewrite (range_split 1 z0 16) by lia.
    rewrite auto_zoom_scan_break by exact Hover.
    split; [reflexivity |].
    intros Hnone. apply auto_zoom_scan_none. intros z' Hin.
    apply Hnone. apply in_range in Hin. lia.
Qed.

(** ** Covering a single tile *)

Section SingleTileCover.
Context `{NumLib}.

(** The longitude of a tile edge maps back to the index of that edge. *)
Lemma lonlat_to_tile_edge_x (k : Z) (lat : Q) (zoom : Z) :
  tile_x (lonlat_to_tile (tile_to_lon (inject_Z k) (pow2 zoom)) lat zoom) = k.
Proof.
  unfold lonlat_to_tile, tile_to_lon. cbn [tile_x].
  rewrite <- (py_int_Z k) at 2. apply py_int_comp.
  field. apply pow2_nonzero.
Qed.

Lemma tiles_to_cover_tile_corners (t : RasterTile) :
  let b := tile_corner_bbox t in
  let t0 := lonlat_to_tile (min_longitude b) (min_latitude b) (tile_zoom t) in
  let t1 := lonlat_to_tile (max_longitude b) (max_latitude b) (tile_zoom t) in
  tiles_to_cover b (tile_zoom t)
  = flat_map (fun x => map (fun y => mk_RasterTile (tile_zoom t) x y)
                         (range (Z.min (tile_y t0) (tile_y t1))
                                (Z.max (tile_y t0) (tile_y t1) + 1)))
             [tile_x t; (tile_x t + 1)%Z].
Proof.
  intros b t0 t1. unfold tiles_to_cover. fold t0 t1.
  assert (E0 : tile_x t0 = tile_x t) by apply lonlat_to_tile_edge_x.
  assert (E1 : tile_x t1 = (tile_x t + 1)%Z) by apply lonlat_to_tile_edge_x.
  rewrite E0, E1. f_equal.
  rewrite Z.min_l, Z.max_r by lia.
  unfold range. replace (Z.to_nat (tile_x t + 1 + 1 - tile_x t)) with 2%nat by lia.
  cbn [seq map]. repeat f_equal; lia.
Qed.

End SingleTileCover.

(** C9 (as stated, refuted): for the tile (zoom 1, x 0, y 0) the covering
    set of its corner bounding box is not that single tile. *)
Lemma single_tile_cover_not_one_tile :
  ~ (@tiles_to_cover rational_numlib
       (@tile_corner_bbox rational_numlib (mk_RasterTile 1 0 0)) 1
     = [mk_RasterTile 1 0 0]).
Proof. vm_compute. discriminate. Qed.

(** C9 (amended): for every tile, the covering set of the bounding box
    whose corners are that tile's corners is the inclusive rectangle
    between the tiles of the two corners; the east corner lies on the west
    edge of the next tile, so the set spans exactly the columns [x] and
    [x + 1]: it has an even number of tiles, at least two, and is never
    the single tile. *)
Theorem tiles_to_cover_single_tile_spans_two_columns `{NumLib} (t : RasterTile) :
  let tiles := tiles_to_cover (tile_corner_bbox t) (tile_zoom t) in
  (forall t', In t' tiles ->
     tile_zoom t' = tile_zoom t /\
     (tile_x t' = tile_x t \/ tile_x t' = (tile_x t + 1)%Z))
  /\ (exists y, In (mk_RasterTile (tile_zoom t) (tile_x t) y) tiles
             /\ In (mk_RasterTile (tile_zoom t) (tile_x t + 1) y) tiles)
  /\ (exists rows, (1 <= rows)%nat /\ length tiles = (2 * rows)%nat)
  /\ length tiles <> 1%nat.
Proof.
  intros tiles. unfold tiles. rewrite tiles_to_cover_tile_corners.
  set (b := tile_corner_bbox t).
  set (t0 := lonlat_to_tile (min_longitude b) (min_latitude b) (tile_zoom t)).
  set (t1 := lonlat_to_tile (max_longitude b) (max_latitude b) (tile_zoom t)).
  set (ys := range (Z.min (tile_y t0) (tile_y t1)) (Z.max (tile_y t0) (tile_y t1) + 1)).
  assert (Hys : (1 <= length ys)%nat) by (unfold ys; rewrite range_length; lia).
  assert (Hlen : length (flat_map (fun x => map (fun y => mk_RasterTile (tile_zoom t) x y) ys)
                           [tile_x t; (tile_x t + 1)%Z]) = (2 * length ys)%nat).
  { rewrite (flat_map_grid_length (fun x y => mk_RasterTile (tile_zoom t) x y)). reflexivity. }
  split; [| split; [| split]].
  - intros t' Hin. apply in_flat_map in Hin as [x [Hx Hin]].
    apply in_map_iff in Hin as [y [<- _]]. cbn [tile_zoom tile_x].
    split; [reflexivity |]. destruct Hx as [<- | [<- | []]]; auto.
  - exists (Z.min (tile_y t0) (tile_y t1)).
    assert (Hy : In (Z.min (tile_y t0) (tile_y t1)) ys) by (apply in_range; lia).
    split; apply in_flat_map.
    + exists (tile_x t). split; [left; reflexivity |].
      apply in_map_iff. eexists. split; [reflexivity | exact Hy].
    + exists (tile_x t + 1)%Z. split; [right; left; reflexivity |].
      apply in_map_iff. eexists. split; [reflexivity | exact Hy].
  - exists (length ys). split; [exact Hys | exact Hlen].
  - rewrite Hlen. lia.
Qed.

(** When the latitude of a tile edge maps back to the index of that edge
    (an exact round trip through the Mercator formula), the covering set
    is the tile with its east, south and south-east neighbours. *)
Lemma tiles_to_cover_single_tile_four `{NumLib} (t : RasterTile) :
  (forall k : Z,
     tile_y (lonlat_to_tile 0 (tile_to_lat (inject_Z k) (pow2 (tile_zoom t))) (tile_zoom t))
     = k) ->
  tiles_to_cover (tile_corner_bbox t) (tile_zoom t)
  = [ mk_RasterTile (tile_zoom t) (tile_x t) (tile_y t);
      mk_RasterTile (tile_zoom t) (tile_x t) (tile_y t + 1);
      mk_RasterTile (tile_zoom t) (tile_x t + 1) (tile_y t);
      mk_RasterTile (tile_zoom t) (tile_x t + 1) (tile_y t + 1) ].
Proof.
  intros Hround. rewrite tiles_to_cover_tile_corners.
  set (b := tile_corner_bbox t).
  assert (E0 : tile_y (lonlat_to_tile (min_longitude b) (min_latitude b) (tile_zoom t))
               = (tile_y t + 1)%Z) by apply (Hround (tile_y t + 1)%Z).
  assert (E1 : tile_y (lonlat_to_tile (max_longitude b) (max_latitude b) (tile_zoom t))
               = tile_y t) by apply (Hround (tile_y t)).
  rewrite E0, E1, Z.min_r, Z.max_l by lia.
  unfold range. replace (Z.to_nat (tile_y t + 1 + 1 - tile_y t)) with 2%nat by lia.
  cbn [seq map flat_map app]. repeat f_equal; lia.
Qed.

Example tiles_to_cover_single_tile_run :
  @tiles_to_cover rational_numlib
    (@tile_corner_bbox rational_numlib (mk_RasterTile 1 0 0)) 1
  = [ mk_RasterTile 1 0 0; mk_RasterTile 1 0 1;
      mk_RasterTile 1 1 0; mk_RasterTile 1 1 1 ].
Proof. vm_compute. reflexivity. Qed.

(** ** Terrain grid *)

Lemma tangent_plane_vertical (lat0 lon0 h h0 : Q) :
  fst (fst (tangent_plane_enu lat0 lon0 h lat0 lon0 h0)) == 0 /\
  snd (fst (tangent_plane_enu lat0 lon0 h lat0 lon0 h0)) == 0 /\
  snd (tangent_plane_enu lat0 lon0 h lat0 lon0 h0) == h - h0.
Proof. unfold tangent_plane_enu. cbn [fst snd]. repeat split; ring. Qed.

Definition tangent_plane_geodesy : Geodesy :=
  {| geodetic2enu := tangent_plane_enu;
     geodetic2enu_vertical := tangent_plane_vertical |}.

Lemma py_min_Z_ok (l : list Z) : l <> [] -> exists m, py_min_Z l = Ok m.
Proof. destruct l as [| v t]; [congruence | intros _; eexists; reflexivity]. Qed.

Section TerrainGrid.
Context `{NumLib} `{Geodesy}.

Lemma lonlat_to_enu_nth_error (t : LonLatToENU) (lat lon ele : list Q) (k : nat)
    (la lo el : Q) :
  nth_error lat k = Some la -> nth_error lon k = Some lo -> nth_error ele k = Some el ->
  nth_error (lonlat_to_enu t lat lon ele) k
  = Some (geodetic2enu la lo el (lat0 t) (lon0 t) (h0 t)).
Proof.
  revert lon ele k. induction lat as [| la' lat IH]; intros lon ele k Hla Hlo Hel.
  - destruct k; discriminate.
  - destruct lon as [| lo' lon]; [destruct k; discriminate |].
    destruct ele as [| el' ele]; [destruct k; discriminate |].
    destruct k as [| k]; simpl in *.
    + congruence.
    + apply IH; assumption.
Qed.

(** The bounds of a terrain whose grids have entries. *)
Lemma Terrain_ENU_bounds_ok (t : Terrain_ENU) :
  ravel (e_grid t) <> [] -> ravel (n_grid t) <> [] -> ravel (u_grid t) <> [] ->
  exists b, Terrain_ENU_bounds t = Ok b.
Proof.
  intros He Hn Hu. unfold Terrain_ENU_bounds.
  destruct (ravel (e_grid t)) as [| e0 es]; [congruence |].
  destruct (ravel (n_grid t)) as [| n0 ns]; [congruence |].
  destruct (ravel (u_grid t)) as [| u0 us]; [congruence |].
  cbn [np_min np_max bind]. eexists. reflexivity.
Qed.

(** What [Terrain_ENU.new] returns for a heightmap with at least one
    pixel: the grids it builds, the bounds being there. *)
Lemma Terrain_ENU_new_grids
    (heightmap : ndarray) (tiles : list RasterTile) (zoom : Z) (transform : LonLatToENU)
    (tile_x_min tile_y_min : Z) :
  wf_ndarray heightmap ->
  (1 <= nrows heightmap)%nat -> (1 <= ncols heightmap)%nat ->
  py_min_Z (map tile_x tiles) = Ok tile_x_min ->
  py_min_Z (map tile_y tiles) = Ok tile_y_min ->
  let height := nrows heightmap in
  let width := ncols heightmap in
  let lat_flat :=
    map (fun ty => tile_to_lat ty (pow2 zoom))
      (map (fun r => inject_Z tile_y_min + inject_Z (Z.of_nat r) / 256)
         (map fst (cells height width))) in
  let lon_flat :=
    map (fun tx => tile_to_lon tx (pow2 zoom))
      (map (fun c => inject_Z tile_x_min + inject_Z (Z.of_nat c) / 256)
         (map snd (cells height width))) in
  let enu_coords := lonlat_to_enu transform lat_flat lon_flat (ravel heightmap) in
  Terrain_ENU_new heightmap tiles zoom transform
  = Ok {| e_grid := reshape (map (fun p => fst (fst p)) enu_coords) height width;
          n_grid := reshape (map (fun p => snd (fst p)) enu_coords) height width;
          u_grid := mk_ndarray height width (ravel heightmap) |}.
Proof.
  intros Hwf Hr Hc Hxm Hym height width lat_flat lon_flat enu_coords.
  unfold Terrain_ENU_new. rewrite Hxm, Hym. cbn [bind].
  fold height width. fold lat_flat lon_flat. fold enu_coords.
  assert (Hk : (0 < length (ravel heightmap))%nat) by (rewrite Hwf; nia).
  pose proof (cells_nth_error height width 0 0 Hr Hc) as Hcell.
  assert (Henu : exists p, nth_error enu_coords 0 = Some p).
  { eexists. apply lonlat_to_enu_nth_error.
    - unfold lat_flat. rewrite !nth_error_map.
      cbn [Nat.mul Nat.add] in Hcell. rewrite Hcell. reflexivity.
    - unfold lon_flat. rewrite !nth_error_map.
      cbn [Nat.mul Nat.add] in Hcell. rewrite Hcell. reflexivity.
    - apply (nth_error_nth' (ravel heightmap) 0). exact Hk. }
  destruct Henu as [p Hp].
  assert (Hne : enu_coords <> []) by (intros E; rewrite E in Hp; discriminate).
  match goal with
  | |- bind (Terrain_ENU_bounds ?t) _ = _ =>
      assert (Hb : exists b, Terrain_ENU_bounds t = Ok b)
  end.
  { apply Terrain_ENU_bounds_ok; cbn [e_grid n_grid u_grid reshape ravel].
    - intros E. apply map_eq_nil in E. exact (Hne E).
    - intros E. apply map_eq_nil in E. exact (Hne E).
    - intros E. rewrite E in Hk. cbn in Hk. lia. }
  destruct Hb as [b Hb]. rewrite Hb. reflexivity.
Qed.

(** On a heightmap with no pixel [Terrain_ENU.new] raises [ValueError]:
    the bounds it prints are those of empty grids. *)
Lemma Terrain_ENU_new_no_pixel
    (heightmap : ndarray) (tiles : list RasterTile) (zoom : Z) (transform : LonLatToENU) :
  ravel heightmap = [] ->
  Terrain_ENU_new heightmap tiles zoom transform = Err ValueError.
Proof.
  intros Hempty. unfold Terrain_ENU_new.
  destruct (py_min_Z (map tile_x tiles)) as [xm | err] eqn:Hxm.
  2: { destruct (map tile_x tiles); [inversion Hxm; reflexivity | discriminate]. }
  destruct (py_min_Z (map tile_y tiles)) as [ym | err] eqn:Hym.
  2: { destruct (map tile_y tiles); [inversion Hym; reflexivity | discriminate]. }
  cbn [bind]. rewrite Hempty. unfold Terrain_ENU_bounds.
  cbn [u_grid n_grid e_grid reshape ravel].
  match goal with
  | |- context [lonlat_to_enu transform ?la ?lo []] =>
      assert (E : lonlat_to_enu transform la lo [] = [])
  end.
  { match goal with |- lonlat_to_enu _ ?la ?lo _ = _ => destruct la, lo; reflexivity end. }
  rewrite E. reflexivity.
Qed.

(** C4 (amended): for every assembled heightmap (a heightmap with at least
    one pixel), [Terrain_ENU.new] returns a grid of the heightmap's shape
    in which, at every index (i, j), the E and N components are those of
    the ENU projection of the pixel's geodetic position with elevation
    [Heightmap[i][j]], and the U component is [Heightmap[i][j]] itself (the
    elevation of the tile data, not the Up coordinate of the
    projection). *)
Theorem terrain_grid_en_projected_u_heightmap
    (heightmap : ndarray) (tiles : list RasterTile) (zoom : Z) (transform : LonLatToENU) :
  wf_ndarray heightmap ->
  (1 <= nrows heightmap)%nat -> (1 <= ncols heightmap)%nat ->
  tiles <> [] ->
  exists t tile_x_min tile_y_min,
    Terrain_ENU_new heightmap tiles zoom transform = Ok t
    /\ py_min_Z (map tile_x tiles) = Ok tile_x_min
    /\ py_min_Z (map tile_y tiles) = Ok tile_y_min
    /\ Terrain_ENU_shape t = (nrows heightmap, ncols heightmap)
    /\ forall i j, (i < nrows heightmap)%nat -> (j < ncols heightmap)%nat ->
         let p := pixel_enu tile_x_min tile_y_min zoom transform i j (get2 heightmap i j) in
         get2 (e_grid t) i j = fst (fst p)
         /\ get2 (n_grid t) i j = snd (fst p)
         /\ get2 (u_grid t) i j = get2 heightmap i j.
Proof.
  intros Hwf Hrows Hcols Htiles.
  destruct (py_min_Z_ok (map tile_x tiles)) as [xm Hxm];
    [destruct tiles; [congruence | discriminate] |].
  destruct (py_min_Z_ok (map tile_y tiles)) as [ym Hym];
    [destruct tiles; [congruence | discriminate] |].
  rewrite (Terrain_ENU_new_grids heightmap tiles zoom transform xm ym
             Hwf Hrows Hcols Hxm Hym).
  eexists. exists xm, ym. split; [reflexivity |].
  split; [exact Hxm |]. split; [exact Hym |]. split; [reflexivity |].
  intros i j Hi Hj.
  set (p := pixel_enu xm ym zoom transform i j (get2 heightmap i j)).
  cbn [e_grid n_grid u_grid].
  unfold reshape, get2. cbn [ravel ncols].
  set (k := (i * ncols heightmap + j)%nat).
  assert (Hk : (k < length (ravel heightmap))%nat) by (rewrite Hwf; unfold k; nia).
  pose proof (cells_nth_error (nrows heightmap) (ncols heightmap) i j Hi Hj) as Hcell.
  fold k in Hcell.
  match goal with
  | |- context [lonlat_to_enu transform ?la ?lo ?el] =>
      assert (Henu : nth_error (lonlat_to_enu transform la lo el) k = Some p)
  end.
  { apply lonlat_to_enu_nth_error.
    - rewrite !nth_error_map, Hcell. reflexivity.
    - rewrite !nth_error_map, Hcell. reflexivity.
    - apply nth_error_nth'. exact Hk. }
  split; [| split; [| reflexivity]].
  - apply nth_error_nth. rewrite nth_error_map, Henu. reflexivity.
  - apply nth_error_nth. rewrite nth_error_map, Henu. reflexivity.
Qed.

End TerrainGrid.

Lemma terrain_grid_en_projected_u_heightmap_witness :
  wf_ndarray heightmap_2x2 /\ (1 <= nrows heightmap_2x2)%nat
  /\ (1 <= ncols heightmap_2x2)%nat /\ [tile_1_0_0] <> [] /\
  exists t, @Terrain_ENU_new rational_numlib tangent_plane_geodesy
              heightmap_2x2 [tile_1_0_0] 1 origin_at_50m = Ok t
            /\ get2 (u_grid t) 1 0 = 120.
Proof.
  assert (Hwf : wf_ndarray heightmap_2x2) by reflexivity.
  assert (Hne : [tile_1_0_0] <> []) by discriminate.
  assert (Hr : (1 <= nrows heightmap_2x2)%nat) by (simpl; lia).
  assert (Hc : (1 <= ncols heightmap_2x2)%nat) by (simpl; lia).
  split; [exact Hwf |]. split; [exact Hr |]. split; [exact Hc |]. split; [exact Hne |].
  destruct (@terrain_grid_en_projected_u_heightmap rational_numlib tangent_plane_geodesy
              heightmap_2x2 [tile_1_0_0] 1 origin_at_50m Hwf Hr Hc Hne)
    as [t [xm [ym [Hnew [_ [_ [_ Hcell]]]]]]].
  exists t. split; [exact Hnew |].
  destruct (Hcell 1%nat 0%nat) as [_ [_ Hu]]; [simpl; lia | simpl; lia |].
  exact Hu.
Defined.

(** C4 (as stated, refuted): the U component of the terrain grid is not
    the Up coordinate of the ENU projection.  With the origin 50 m above
    the ellipsoid, the pixel (0, 0) of elevation 100 has Up = 50 in the
    projection and 100 in the grid. *)
Lemma terrain_grid_u_is_not_enu_up :
  ~ (forall t, @Terrain_ENU_new rational_numlib tangent_plane_geodesy
                 heightmap_2x2 [tile_1_0_0] 1 origin_at_50m = Ok t ->
       get2 (u_grid t) 0 0
       == snd (@pixel_enu rational_numlib tangent_plane_geodesy 0 0 1 origin_at_50m
                 0 0 (get2 heightmap_2x2 0 0))).
Proof.
  intros Hall. specialize (Hall _ eq_refl). vm_compute in Hall. discriminate.
Qed.

(** The same for every law-abiding projection: with the origin on the
    vertical of the pixel (0, 0) and 50 m high, the Up coordinate of that
    pixel at elevation 100 is 50, whatever the library computes elsewhere. *)
Lemma pixel_enu_up_on_origin_vertical `{NumLib} `{Geodesy} (zoom : Z) :
  let transform :=
    {| lat0 := tile_to_lat (inject_Z 0 + inject_Z (Z.of_nat 0) / 256) (pow2 zoom);
       lon0 := tile_to_lon (inject_Z 0 + inject_Z (Z.of_nat 0) / 256) (pow2 zoom);
       h0 := 50 |} in
  snd (pixel_enu 0 0 zoom transform 0 0 100) == 50 /\
  ~ snd (pixel_enu 0 0 zoom transform 0 0 100) == 100.
Proof.
  intros transform. unfold pixel_enu, transform. cbn [lat0 lon0 h0].
  match goal with
  | |- context [geodetic2enu ?la ?lo 100 ?la ?lo 50] =>
      destruct (geodetic2enu_vertical la lo 100 50) as [_ [_ Hup]]
  end.
  split.
  - rewrite Hup. reflexivity.
  - rewrite Hup. discriminate.
Qed.

(** ** Nearest-neighbour sampling *)

Lemma Qlt_bool_iff (a b : Q) : Qlt_bool a b = true <-> a < b.
Proof.
  unfold Qlt_bool. destruct (Qle_bool b a) eqn:E; simpl.
  - apply Qle_bool_iff in E. split; [discriminate | intros Hlt; exfalso; lra].
  - split; [| reflexivity]. intros _. apply Qnot_le_lt. intros Hle.
    apply Qle_bool_iff in Hle. congruence.
Qed.

Lemma nearest_from_spec (q : Q * Q) (pts pre : list (Q * Q)) (best : nat) (bestd : Q) :
  (best < length pre)%nat ->
  bestd = dist2 (nth best pre (0, 0)) q ->
  (forall m, (m < length pre)%nat -> bestd <= dist2 (nth m pre (0, 0)) q) ->
  let r := nearest_from pts q (length pre) best bestd in
  (r < length (pre ++ pts))%nat /\
  forall m, (m < length (pre ++ pts))%nat ->
    dist2 (nth r (pre ++ pts) (0, 0)) q <= dist2 (nth m (pre ++ pts) (0, 0)) q.
Proof.
  revert pre best bestd. induction pts as [| p t IH]; intros pre best bestd Hbest Hd Hmin.
  - cbn [nearest_from]. rewrite app_nil_r. split; [exact Hbest |].
    intros m Hm. rewrite <- Hd. apply Hmin. exact Hm.
  - cbn [nearest_from].
    replace (pre ++ p :: t) with ((pre ++ [p]) ++ t) by (rewrite <- app_assoc; reflexivity).
    replace (S (length pre)) with (length (pre ++ [p])) by (rewrite length_app; simpl; lia).
    destruct (Qlt_bool (dist2 p q) bestd) eqn:E.
    + apply Qlt_bool_iff in E. apply IH.
      * rewrite length_app. simpl. lia.
      * rewrite app_nth2 by lia. rewrite Nat.sub_diag. reflexivity.
      * intros m Hm. rewrite length_app in Hm. simpl in Hm.
        destruct (Nat.eq_dec m (length pre)) as [-> | Hne].
        -- rewrite app_nth2 by lia. rewrite Nat.sub_diag. simpl. apply Qle_refl.
        -- rewrite app_nth1 by lia. specialize (Hmin m ltac:(lia)). lra.
    + assert (Hge : bestd <= dist2 p q).
      { apply Qnot_lt_le. intros Hlt. apply Qlt_bool_iff in Hlt. congruence. }
      apply IH.
      * rewrite length_app. simpl. lia.
      * rewrite app_nth1 by lia. exact Hd.
      * intros m Hm. rewrite length_app in Hm. simpl in Hm.
        destruct (Nat.eq_dec m (length pre)) as [-> | Hne].
        -- rewrite app_nth2 by lia. rewrite Nat.sub_diag. simpl. exact Hge.
        -- rewrite app_nth1 by lia. apply Hmin. lia.
Qed.

Lemma linear_query_nearest (pts : list (Q * Q)) (q : Q * Q) :
  pts <> [] ->
  (linear_query pts q < length pts)%nat /\
  forall m, (m < length pts)%nat ->
    dist2 (nth (linear_query pts q) pts (0, 0)) q <= dist2 (nth m pts (0, 0)) q.
Proof.
  destruct pts as [| p t]; [congruence |]. intros _.
  apply (nearest_from_spec q t [p] 0 (dist2 p q)).
  - simpl. lia.
  - reflexivity.
  - intros m Hm. simpl in Hm. replace m with 0%nat by lia. simpl. apply Qle_refl.
Qed.

(** The nearest-neighbour query by linear scan is a [KDTree]. *)
Definition linear_scan_tree : KDTree :=
  {| kd_query := linear_query; kd_query_nearest := linear_query_nearest |}.

Lemma take_ok (a : list Q) (indices : list nat) :
  Forall (fun k => (k < length a)%nat) indices ->
  take a indices = Ok (map (fun k => nth k a 0) indices).
Proof.
  induction 1 as [| k rest Hk _ IH]; [reflexivity |].
  cbn [take map]. rewrite (getitem_nth a k Hk). cbn [bind]. rewrite IH. reflexivity.
Qed.

(** C10: on a terrain with at least one grid point (the three grids of one
    size), [sample_at_points] returns an elevation for every query point,
    wherever it lies; each returned value is the [u_grid] entry at an index
    whose (E, N) position is nearest to the query point. *)
Theorem sample_at_points_nearest `{KDTree} (t : Terrain_ENU) (e_points n_points : list Q) :
  ravel (e_grid t) <> [] ->
  length (ravel (n_grid t)) = length (ravel (e_grid t)) ->
  length (ravel (u_grid t)) = length (ravel (e_grid t)) ->
  length e_points = length n_points ->
  exists out,
    sample_at_points t e_points n_points = Ok out
    /\ length out = length e_points
    /\ forall k, (k < length e_points)%nat ->
         exists idx, (idx < length (ravel (u_grid t)))%nat
           /\ nth k out 0 = nth idx (ravel (u_grid t)) 0
           /\ In (nth k out 0) (ravel (u_grid t))
           /\ forall m, (m < length (ravel (e_grid t)))%nat ->
                dist2 (nth idx (ravel (e_grid t)) 0, nth idx (ravel (n_grid t)) 0)
                      (nth k e_points 0, nth k n_points 0)
                <= dist2 (nth m (ravel (e_grid t)) 0, nth m (ravel (n_grid t)) 0)
                         (nth k e_points 0, nth k n_points 0).
Proof.
  intros Hne Hn Hu Hq. unfold sample_at_points, column_stack.
  assert (E1 : (length (ravel (e_grid t)) =? length (ravel (n_grid t)))%nat = true)
    by (apply Nat.eqb_eq; lia).
  assert (E2 : (length e_points =? length n_points)%nat = true)
    by (apply Nat.eqb_eq; lia).
  rewrite E1, E2. cbn [bind].
  set (pts := combine (ravel (e_grid t)) (ravel (n_grid t))).
  set (qs := combine e_points n_points).
  assert (Hpts_len : length pts = length (ravel (e_grid t))).
  { unfold pts. rewrite length_combine. lia. }
  assert (Hpts_ne : pts <> []).
  { intros Hnil. apply Hne. apply length_zero_iff_nil.
    rewrite <- Hpts_len, Hnil. reflexivity. }
  assert (Hqs_len : length qs = length e_points).
  { unfold qs. rewrite length_combine. lia. }
  rewrite take_ok.
  2:{ apply Forall_forall. intros k Hk. apply in_map_iff in Hk as [q [<- _]].
      rewrite Hu, <- Hpts_len. apply (kd_query_nearest pts q Hpts_ne). }
  eexists. split; [reflexivity |]. split; [rewrite !length_map; exact Hqs_len |].
  intros k Hk.
  set (q := (nth k e_points 0, nth k n_points 0)).
  assert (Hqk : nth k qs (0, 0) = q).
  { unfold qs, q. apply combine_nth. exact Hq. }
  destruct (kd_query_nearest pts q Hpts_ne) as [Hidx Hnear].
  exists (kd_query pts q).
  assert (Hout : nth k (map (fun i => nth i (ravel (u_grid t)) 0) (map (kd_query pts) qs)) 0
                 = nth (kd_query pts q) (ravel (u_grid t)) 0).
  { rewrite map_map.
    rewrite (nth_indep _ 0 ((fun x => nth (kd_query pts x) (ravel (u_grid t)) 0) (0, 0)))
      by (rewrite length_map; lia).
    rewrite (map_nth (fun x => nth (kd_query pts x) (ravel (u_grid t)) 0)), Hqk.
    reflexivity. }
  split; [rewrite Hu, <- Hpts_len; exact Hidx |].
  split; [exact Hout |].
  split; [rewrite Hout; apply nth_In; rewrite Hu, <- Hpts_len; exact Hidx |].
  intros m Hm.
  assert (Hnth : forall i, nth i pts (0, 0)
                           = (nth i (ravel (e_grid t)) 0, nth i (ravel (n_grid t)) 0)).
  { intros i. unfold pts. apply combine_nth. lia. }
  rewrite <- !Hnth. apply Hnear. lia.
Qed.

Lemma sample_at_points_nearest_witness :
  ravel (e_grid patch_terrain) <> [] /\
  length (ravel (n_grid patch_terrain)) = length (ravel (e_grid patch_terrain)) /\
  length (ravel (u_grid patch_terrain)) = length (ravel (e_grid patch_terrain)) /\
  length query_e = length query_n /\
  exists out,
    @sample_at_points linear_scan_tree patch_terrain query_e query_n = Ok out
    /\ length out = length query_e.
Proof.
  assert (H1 : ravel (e_grid patch_terrain) <> []) by discriminate.
  assert (H2 : length (ravel (n_grid patch_terrain)) = length (ravel (e_grid patch_terrain)))
    by reflexivity.
  assert (H3 : length (ravel (u_grid patch_terrain)) = length (ravel (e_grid patch_terrain)))
    by reflexivity.
  assert (H4 : length query_e = length query_n) by reflexivity.
  repeat (split; [assumption |]).
  destruct (@sample_at_points_nearest linear_scan_tree patch_terrain query_e query_n
              H1 H2 H3 H4) as [out [Hout [Hlen _]]].
  exists out. split; assumption.
Defined.

(** The two queries on the patch: (0.5, -1) is nearest to the grid point
    (0, 0) (the first of the two nearest), the far point (1000, 1000) to
    the corner (0, 2). *)
Example sample_at_points_run :
  @sample_at_points linear_scan_tree patch_terrain query_e query_n = Ok [101; 103].
Proof. vm_compute. reflexivity. Qed.

(** ** Scale factors of the export *)

(** C2 (violated by the code): [export_meshes] scales the terrain mesh by
    the factor of [scale_mesh_for_printing], taken from the bounds of the
    mesh with its base, and the route mesh by a factor computed again from
    the bounds of the terrain grids.  On the 10 m by 10 m terrain with the
    50 m base the mesh is 50 m high: the terrain is scaled by 1/500 and the
    route by 1/100. *)
Theorem export_meshes_scale_factors_differ :
  match @export_meshes rational_numlib small_generator 100 50 (1 # 5) with
  | Ok out =>
      terrain_scale_factor out == 1 # 500
      /\ route_scale_factor out == 1 # 100
      /\ ~ route_scale_factor out == terrain_scale_factor out
  | Err _ => False
  end.
Proof. vm_compute. repeat split; discriminate. Qed.

(** The same divergence through the downsampling alone: the terrain of
    1000 rows is meshed with every second row, so the mesh is 998 m long
    where the grid is 999 m long. *)
Example export_meshes_downsampled_scale_factors_differ :
  match @export_meshes rational_numlib tall_generator 100 50 (1 # 5) with
  | Ok out =>
      terrain_scale_factor out == 100 / (998 * 1000)
      /\ route_scale_factor out == 100 / (999 * 1000)
  | Err _ => False
  end.
Proof. vm_compute. repeat split; discriminate. Qed.

(** ** Orientation of the terrain mesh *)

(** The mesh of the flat 2 x 3 patch, evaluated: it is watertight, every
    edge being used by exactly two faces, and not orientation-consistent.
    The top face (0, 3, 1) and the wall face (0, 3, 6) both run along the
    edge from vertex 0 to vertex 3; the normal of the top face points up,
    out of the solid, and the normal of that west wall points east, into
    the solid (every vertex has a non-negative East coordinate). *)
Example terrain_mesh_patch_walls_inward :
  match snd (@create_terrain_mesh rational_numlib patch_e patch_n patch_u 10 None 2 1) with
  | Ok m =>
      is_watertight m = true
      /\ is_winding_consistent m = false
      /\ In (0, 3, 1)%nat (faces m) /\ In (0, 3, 6)%nat (faces m)
      /\ count_edge (0, 3)%nat (edges (faces m)) = 2%nat
      /\ 0 < snd (face_normal (vertices m) (0, 3, 1)%nat)
      /\ 0 < fst (fst (face_normal (vertices m) (0, 3, 6)%nat))
      /\ Forall (fun v => 0 <= fst (fst v)) (vertices m)
  | Err _ => False
  end.
Proof.
  vm_compute.
  repeat (split; [first [reflexivity | tauto] |]).
  repeat constructor; discriminate.
Qed.

(** ** Topology of the terrain face list *)

(** Every edge of the construction lies in exactly two families. *)
Lemma fams_double_cover (height width : nat) (f : fam) (i j : nat) :
  (2 <= height)%nat -> (2 <= width)%nat -> In f (all_fams height width) ->
  (i < fst (snd f))%nat -> (j < snd (snd f))%nat ->
  list_sum (map (fam_hit (fam_gen f (i, j))) (all_fams height width)) = 2%nat.
Proof.
  intros Hh Hw Hin Hi Hj.
  unfold all_fams, cell_fams, cell_fams_flipped, col_wall_fams, col_wall_fams_flipped,
    row_wall_fams, row_wall_fams_flipped in Hin.
  simpl in Hin.
  repeat (destruct Hin as [<- | Hin]);
    try (exfalso; exact Hin);
    cbn -[Nat.ltb Nat.leb Nat.eqb Nat.add Nat.sub] in *;
    unfold fam_hit, fam_gen, hit, gen; cbn [fst snd]; lia.
Qed.

Lemma cedge_eqb_eq (a b : cedge) : cedge_eqb a b = true <-> a = b.
Proof.
  destruct a as [[[l1 i1] j1] [[l2 i2] j2]], b as [[[l1' i1'] j1'] [[l2' i2'] j2']].
  unfold cedge_eqb, cvertex_eqb. cbn [fst snd].
  rewrite !andb_true_iff, !Nat.eqb_eq. split.
  - intros [[[-> ->] ->] [[-> ->] ->]]. reflexivity.
  - intros Heq. inversion Heq. repeat split.
Qed.

Lemma count_cedge_app (x : cedge) (l1 l2 : list cedge) :
  count_cedge x (l1 ++ l2) = (count_cedge x l1 + count_cedge x l2)%nat.
Proof. unfold count_cedge. rewrite filter_app, length_app. reflexivity. Qed.

Lemma count_cedge_not_in (x : cedge) (l : list cedge) :
  ~ In x l -> count_cedge x l = 0%nat.
Proof.
  unfold count_cedge. induction l as [| y l IH]; intros Hnin; [reflexivity |].
  cbn [filter]. destruct (cedge_eqb x y) eqn:E.
  - apply cedge_eqb_eq in E. subst y. exfalso. apply Hnin. left. reflexivity.
  - apply IH. intros Hin. apply Hnin. right. exact Hin.
Qed.

Lemma count_cedge_nodup (x : cedge) (l : list cedge) :
  NoDup l -> In x l -> count_cedge x l = 1%nat.
Proof.
  induction 1 as [| y l Hnin Hnd IH]; intros Hin; [destruct Hin |].
  unfold count_cedge. cbn [filter]. destruct (cedge_eqb x y) eqn:E.
  - apply cedge_eqb_eq in E. subst y. cbn [length]. f_equal.
    apply (count_cedge_not_in x l Hnin).
  - destruct Hin as [-> | Hin].
    + assert (Ht : cedge_eqb x x = true) by (apply cedge_eqb_eq; reflexivity). congruence.
    + apply IH. exact Hin.
Qed.

Lemma cells_NoDup (h w : nat) : NoDup (cells h w).
Proof.
  apply (NoDup_map_inv (fun ij => (fst ij * w + snd ij)%nat)).
  rewrite cells_index. apply seq_NoDup.
Qed.

Lemma gen_injective (lo hi : cvertex) (c c' : nat * nat) :
  gen lo hi c = gen lo hi c' -> c = c'.
Proof.
  destruct c as [i j], c' as [i' j']. unfold gen. cbn [fst snd].
  intros Heq. inversion Heq. f_equal; lia.
Qed.

Lemma NoDup_map_injective {A B : Type} (f : A -> B) (l : list A) :
  (forall a a', f a = f a' -> a = a') -> NoDup l -> NoDup (map f l).
Proof.
  intros Hinj. induction 1 as [| a l Hnin Hnd IH]; cbn [map]; constructor.
  - intros Hin. apply in_map_iff in Hin as [a' [Heq Hin']].
    apply Hinj in Heq. subst a'. exact (Hnin Hin').
  - exact IH.
Qed.

(** An edge occurs in a family once if it belongs to it, and not at all
    otherwise. *)
Lemma count_family (x : cedge) (f : fam) :
  count_cedge x (map (fam_gen f) (fam_cells f)) = fam_hit x f.
Proof.
  destruct f as [[lo hi] [rows cols]]. unfold fam_hit, fam_gen, fam_cells. cbn [fst snd].
  destruct (hit lo hi rows cols x) eqn:E.
  - cbn [Nat.b2n]. apply count_cedge_nodup.
    + apply NoDup_map_injective; [apply gen_injective | apply cells_NoDup].
    + apply in_map_iff.
      destruct x as [[[l1 x1] y1] [[l2 x2] y2]], lo as [[a1 b1] c1], hi as [[a2 b2] c2].
      unfold hit in E. cbn [fst snd] in E.
      exists ((x1 - b1)%nat, (y1 - c1)%nat). split.
      * unfold gen. cbn [fst snd].
        assert (H1 : a1 = l1) by lia. assert (H2 : a2 = l2) by lia.
        assert (H3 : (x1 - b1 + b1)%nat = x1) by lia.
        assert (H4 : (y1 - c1 + c1)%nat = y1) by lia.
        assert (H5 : (x1 - b1 + b2)%nat = x2) by lia.
        assert (H6 : (y1 - c1 + c2)%nat = y2) by lia.
        rewrite H1, H2, H3, H4, H5, H6. reflexivity.
      * apply in_cells. lia.
  - cbn [Nat.b2n]. apply count_cedge_not_in. intros Hin.
    apply in_map_iff in Hin as [[i j] [Heq Hc]]. apply in_cells in Hc.
    destruct x as [[[l1 x1] y1] [[l2 x2] y2]], lo as [[a1 b1] c1], hi as [[a2 b2] c2].
    unfold gen in Heq. cbn [fst snd] in Heq. inversion Heq. subst.
    unfold hit in E. cbn [fst snd] in E. lia.
Qed.

Lemma map_flat_map {A B C : Type} (g : B -> C) (F : A -> list B) (l : list A) :
  map g (flat_map F l) = flat_map (fun x => map g (F x)) l.
Proof.
  induction l as [| x l IH]; [reflexivity |].
  cbn [flat_map]. rewrite map_app, IH. reflexivity.
Qed.

Lemma flat_map_flat_map {A B C : Type} (f : B -> list C) (g : A -> list B) (l : list A) :
  flat_map f (flat_map g l) = flat_map (fun x => flat_map f (g x)) l.
Proof.
  induction l as [| x l IH]; [reflexivity |].
  cbn [flat_map]. rewrite flat_map_app, IH. reflexivity.
Qed.

Lemma flat_map_ext_seq {A : Type} (f g : nat -> list A) (s n : nat) :
  (forall i, (s <= i < s + n)%nat -> f i = g i) ->
  flat_map f (seq s n) = flat_map g (seq s n).
Proof.
  revert s. induction n as [| n IH]; intros s Hext; [reflexivity |].
  cbn [seq flat_map]. rewrite (Hext s) by lia. f_equal. apply IH.
  intros i Hi. apply Hext. lia.
Qed.

Lemma grid_flat_map_ext {A : Type} (F G : nat -> nat -> list A) (a b : nat) :
  (forall i j, (i < a)%nat -> (j < b)%nat -> F i j = G i j) ->
  grid_flat_map F a b = grid_flat_map G a b.
Proof.
  intros Hext. unfold grid_flat_map. apply flat_map_ext_seq. intros i Hi.
  apply flat_map_ext_seq. intros j Hj. apply Hext; lia.
Qed.

Lemma grid_flat_map_map {A B : Type} (g : A -> B) (F : nat -> nat -> list A) (a b : nat) :
  map g (grid_flat_map F a b) = grid_flat_map (fun i j => map g (F i j)) a b.
Proof.
  unfold grid_flat_map. rewrite map_flat_map. apply flat_map_ext_seq. intros i _.
  apply map_flat_map.
Qed.

Lemma grid_flat_map_flat_map {A B : Type} (f : A -> list B) (F : nat -> nat -> list A)
    (a b : nat) :
  flat_map f (grid_flat_map F a b) = grid_flat_map (fun i j => flat_map f (F i j)) a b.
Proof.
  unfold grid_flat_map. rewrite flat_map_flat_map. apply flat_map_ext_seq. intros i _.
  apply flat_map_flat_map.
Qed.

Lemma flat_map_cells {A : Type} (F : nat * nat -> list A) (a b : nat) :
  flat_map F (cells a b) = grid_flat_map (fun i j => F (i, j)) a b.
Proof.
  unfold cells, grid_flat_map. rewrite flat_map_flat_map.
  apply flat_map_ext_seq. intros i _.
  induction (seq 0 b) as [| j l IH]; [reflexivity |].
  cbn [map flat_map]. rewrite IH. reflexivity.
Qed.

Lemma grid_flat_map_one_col {A : Type} (F : nat -> nat -> list A) (a : nat) :
  grid_flat_map F a 1 = flat_map (fun i => F i 0%nat) (seq 0 a).
Proof.
  unfold grid_flat_map. apply flat_map_ext_seq. intros i _.
  cbn [seq flat_map]. apply app_nil_r.
Qed.

Lemma grid_flat_map_one_row {A : Type} (F : nat -> nat -> list A) (b : nat) :
  grid_flat_map F 1 b = flat_map (fun j => F 0%nat j) (seq 0 b).
Proof. unfold grid_flat_map. cbn [seq flat_map]. apply app_nil_r. Qed.

Lemma cons_eq {A : Type} (x y : A) (l m : list A) : x = y -> l = m -> x :: l = y :: m.
Proof. intros -> ->. reflexivity. Qed.

Lemma pair_eq {A B : Type} (a a' : A) (b b' : B) : a = a' -> b = b' -> (a, b) = (a', b').
Proof. intros -> ->. reflexivity. Qed.

Ltac edge_lists :=
  repeat first [apply cons_eq | apply pair_eq | reflexivity]; lia.

Section FaceListEdges.
Variables height width : nat.
Hypothesis Hheight : (2 <= height)%nat.
Hypothesis Hwidth : (2 <= width)%nat.

Let nv : nat := (height * width)%nat.

Lemma nv_large : (2 * width <= height * width)%nat.
Proof. apply Nat.mul_le_mono_r. exact Hheight. Qed.

(** The sorted edges of each part of the face list, in grid coordinates. *)
Lemma top_edges_group :
  map edge_sorted (edges (top_faces height width))
  = map (flat2 height width)
        (group (cell_fams 0 height width) (cells (height - 1) (width - 1))).
Proof.
  unfold group. rewrite flat_map_cells, grid_flat_map_map.
  change (top_faces height width) with
    (grid_flat_map (fun i j =>
       let idx := (i * width + j)%nat in
       [ (idx, idx + width, idx + 1); (idx + 1, idx + width, idx + width + 1) ]%nat)
       (height - 1) (width - 1)).
  unfold edges. rewrite grid_flat_map_flat_map, grid_flat_map_map.
  apply grid_flat_map_ext. intros i j Hi Hj.
  cbn [flat_map face_edges app map cell_fams fam_gen gen fst snd].
  unfold edge_sorted, flat2, flat, fam_gen, gen. cbn [fst snd]. edge_lists.
Qed.

Lemma bottom_edges_group :
  map edge_sorted (edges (bottom_faces (top_faces height width) nv))
  = map (flat2 height width)
        (group (cell_fams_flipped 1 height width) (cells (height - 1) (width - 1))).
Proof.
  unfold group. rewrite flat_map_cells, grid_flat_map_map.
  change (top_faces height width) with
    (grid_flat_map (fun i j =>
       let idx := (i * width + j)%nat in
       [ (idx, idx + width, idx + 1); (idx + 1, idx + width, idx + width + 1) ]%nat)
       (height - 1) (width - 1)).
  unfold bottom_faces, edges.
  rewrite grid_flat_map_map, grid_flat_map_flat_map, grid_flat_map_map.
  apply grid_flat_map_ext. intros i j Hi Hj.
  cbn [flat_map face_edges app map cell_fams_flipped fam_gen gen fst snd].
  unfold edge_sorted, flat2, flat, fam_gen, gen, nv. cbn [fst snd]. edge_lists.
Qed.

Lemma side_faces_walls :
  side_faces height width nv
  = side_top_edge height width nv ++ side_right_edge height width nv
    ++ side_bottom_edge height width nv ++ side_left_edge width nv.
Proof. reflexivity. Qed.

Lemma side_top_edge_group :
  map edge_sorted (edges (side_top_edge height width nv))
  = map (flat2 height width)
        (group (col_wall_fams (width - 1) height) (cells (height - 1) 1)).
Proof.
  pose proof nv_large as Hnv.
  unfold group. rewrite flat_map_cells, grid_flat_map_map, grid_flat_map_one_col.
  unfold side_top_edge, edges. rewrite flat_map_flat_map, map_flat_map.
  apply flat_map_ext_seq. intros i Hi.
  cbn [flat_map face_edges app map col_wall_fams].
  unfold edge_sorted, flat2, flat, fam_gen, gen, nv. cbn [fst snd]. edge_lists.
Qed.

Lemma side_right_edge_group :
  map edge_sorted (edges (side_right_edge height width nv))
  = map (flat2 height width)
        (group (row_wall_fams (height - 1) width) (cells 1 (width - 1))).
Proof.
  pose proof nv_large as Hnv.
  unfold group. rewrite flat_map_cells, grid_flat_map_map, grid_flat_map_one_row.
  unfold side_right_edge, edges. rewrite flat_map_flat_map, map_flat_map.
  apply flat_map_ext_seq. intros j Hj.
  cbn [flat_map face_edges app map row_wall_fams].
  unfold edge_sorted, flat2, flat, fam_gen, gen, nv. cbn [fst snd Nat.add]. edge_lists.
Qed.

Lemma side_bottom_edge_group :
  map edge_sorted (edges (side_bottom_edge height width nv))
  = map (flat2 height width)
        (group (col_wall_fams_flipped 0 height) (cells (height - 1) 1)).
Proof.
  pose proof nv_large as Hnv.
  unfold group. rewrite flat_map_cells, grid_flat_map_map, grid_flat_map_one_col.
  unfold side_bottom_edge, edges. rewrite flat_map_flat_map, map_flat_map.
  apply flat_map_ext_seq. intros i Hi.
  cbn [flat_map face_edges app map col_wall_fams_flipped].
  unfold edge_sorted, flat2, flat, fam_gen, gen, nv. cbn [fst snd]. edge_lists.
Qed.

Lemma side_left_edge_group :
  map edge_sorted (edges (side_left_edge width nv))
  = map (flat2 height width)
        (group (row_wall_fams_flipped 0 width) (cells 1 (width - 1))).
Proof.
  pose proof nv_large as Hnv.
  unfold group. rewrite flat_map_cells, grid_flat_map_map, grid_flat_map_one_row.
  unfold side_left_edge, edges. rewrite flat_map_flat_map, map_flat_map.
  apply flat_map_ext_seq. intros j Hj.
  cbn [flat_map face_edges app map row_wall_fams_flipped].
  unfold edge_sorted, flat2, flat, fam_gen, gen, nv. cbn [fst snd Nat.add]. edge_lists.
Qed.

End FaceListEdges.

Lemma edges_app (fs gs : list face) : edges (fs ++ gs) = edges fs ++ edges gs.
Proof. unfold edges. apply flat_map_app. Qed.

Lemma all_faces_edges_groups (height width : nat) :
  (2 <= height)%nat -> (2 <= width)%nat ->
  map edge_sorted (edges (all_faces height width))
  = map (flat2 height width) (all_groups height width).
Proof.
  intros Hh Hw. unfold all_faces, all_groups.
  rewrite side_faces_walls, !edges_app, !map_app.
  rewrite (top_edges_group height width), (bottom_edges_group height width),
    (side_top_edge_group height width), (side_right_edge_group height width),
    (side_bottom_edge_group height width), (side_left_edge_group height width);
    try assumption.
  reflexivity.
Qed.

Lemma list_sum_map_add {A : Type} (a b : A -> nat) (l : list A) :
  list_sum (map (fun x => (a x + b x)%nat) l)
  = (list_sum (map a l) + list_sum (map b l))%nat.
Proof. induction l as [| x l IH]; simpl; lia. Qed.

Lemma count_cedge_cons (x y : cedge) (l : list cedge) :
  count_cedge x (y :: l) = (count_cedge x [y] + count_cedge x l)%nat.
Proof. apply (count_cedge_app x [y] l). Qed.

Lemma count_cedge_heads (x : cedge) (fs : list fam) (c : nat * nat) :
  count_cedge x (map (fun f => fam_gen f c) fs)
  = list_sum (map (fun f => count_cedge x [fam_gen f c]) fs).
Proof.
  induction fs as [| f fs IH]; [reflexivity |].
  cbn [map list_sum]. rewrite count_cedge_cons, IH. reflexivity.
Qed.

Lemma count_group (x : cedge) (fs : list fam) (cs : list (nat * nat)) :
  count_cedge x (group fs cs)
  = list_sum (map (fun f => count_cedge x (map (fam_gen f) cs)) fs).
Proof.
  induction cs as [| c cs IH].
  - cbn [group flat_map map]. induction fs as [| f fs IHf]; [reflexivity | exact IHf].
  - unfold group in *. cbn [flat_map]. rewrite count_cedge_app, IH, count_cedge_heads.
    rewrite <- list_sum_map_add. f_equal. apply map_ext. intros f.
    cbn beta. cbn [map]. symmetry. apply count_cedge_cons.
Qed.

Lemma count_group_hits (x : cedge) (fs : list fam) (cs : list (nat * nat)) :
  (forall f, In f fs -> fam_cells f = cs) ->
  count_cedge x (group fs cs) = list_sum (map (fam_hit x) fs).
Proof.
  intros Hcs. rewrite count_group. f_equal. apply map_ext_in. intros f Hf.
  rewrite <- (Hcs f Hf). apply count_family.
Qed.

Ltac fam_cases H :=
  cbn [In] in H; repeat (destruct H as [<- | H]); try (exfalso; exact H).

Lemma count_all_groups (height width : nat) (x : cedge) :
  count_cedge x (all_groups height width)
  = list_sum (map (fam_hit x) (all_fams height width)).
Proof.
  unfold all_groups, all_fams. rewrite !count_cedge_app, !map_app, !list_sum_app.
  repeat f_equal; apply count_group_hits; intros f Hf;
    unfold cell_fams, cell_fams_flipped, col_wall_fams, col_wall_fams_flipped,
      row_wall_fams, row_wall_fams_flipped in Hf;
    fam_cases Hf; reflexivity.
Qed.

(** Every edge of the face list comes from a family at one of its cells. *)
Lemma in_group (x : cedge) (fs : list fam) (cs : list (nat * nat)) :
  In x (group fs cs) -> exists f c, In f fs /\ In c cs /\ x = fam_gen f c.
Proof.
  unfold group. intros Hin. apply in_flat_map in Hin as [c [Hc Hin]].
  apply in_map_iff in Hin as [f [Heq Hf]]. exists f, c. auto.
Qed.

Lemma in_all_groups (height width : nat) (x : cedge) :
  In x (all_groups height width) ->
  exists f i j, In f (all_fams height width)
    /\ (i < fst (snd f))%nat /\ (j < snd (snd f))%nat /\ x = fam_gen f (i, j).
Proof.
  unfold all_groups, all_fams. rewrite !in_app_iff.
  intros Hin.
  repeat (destruct Hin as [Hin | Hin]);
    apply in_group in Hin as [f [[i j] [Hf [Hc ->]]]];
    exists f, i, j; rewrite !in_app_iff;
    (split; [tauto |]);
    apply in_cells in Hc;
    unfold cell_fams, cell_fams_flipped, col_wall_fams, col_wall_fams_flipped,
      row_wall_fams, row_wall_fams_flipped in Hf;
    fam_cases Hf; cbn [fst snd]; tauto.
Qed.

Lemma all_groups_double (height width : nat) (x : cedge) :
  (2 <= height)%nat -> (2 <= width)%nat ->
  In x (all_groups height width) ->
  count_cedge x (all_groups height width) = 2%nat.
Proof.
  intros Hh Hw Hin. rewrite count_all_groups.
  apply in_all_groups in Hin as [f [i [j [Hf [Hi [Hj ->]]]]]].
  apply fams_double_cover; assumption.
Qed.

Lemma all_groups_ok (height width : nat) (x : cedge) :
  (2 <= height)%nat -> (2 <= width)%nat ->
  In x (all_groups height width) -> cedge_ok height width x.
Proof.
  intros Hh Hw Hin.
  apply in_all_groups in Hin as [f [i [j [Hf [Hi [Hj ->]]]]]].
  unfold all_fams, cell_fams, cell_fams_flipped, col_wall_fams, col_wall_fams_flipped,
    row_wall_fams, row_wall_fams_flipped in Hf.
  rewrite !in_app_iff in Hf.
  repeat (destruct Hf as [Hf | Hf]); try (exfalso; exact Hf); subst f;
    unfold cedge_ok, cvertex_ok, fam_gen, gen; cbn [fst snd] in *; lia.
Qed.

(** The vertex index determines the grid coordinates. *)
Lemma flat_injective (height width : nat) (v v' : cvertex) :
  cvertex_ok height width v -> cvertex_ok height width v' ->
  flat height width v = flat height width v' -> v = v'.
Proof.
  destruct v as [[l i] j], v' as [[l' i'] j']. unfold cvertex_ok, flat. cbn [fst snd].
  intros [Hl [Hi Hj]] [Hl' [Hi' Hj']] Heq.
  assert (Hr : (i * width + j < height * width)%nat) by nia.
  assert (Hr' : (i' * width + j' < height * width)%nat) by nia.
  destruct (Nat.div_mod_unique (height * width) l l' (i * width + j) (i' * width + j')
              Hr Hr') as [El Er]; [lia |].
  destruct (Nat.div_mod_unique width i i' j j' Hj Hj') as [Ei Ej]; [lia |].
  subst. reflexivity.
Qed.

Lemma edge_eqb_eq (a b : edge) : edge_eqb a b = true <-> a = b.
Proof.
  destruct a as [a1 a2], b as [b1 b2]. unfold edge_eqb. cbn [fst snd].
  rewrite andb_true_iff, !Nat.eqb_eq. split.
  - intros [-> ->]. reflexivity.
  - intros Heq. inversion Heq. split; reflexivity.
Qed.

Lemma edge_eqb_flat2 (height width : nat) (x y : cedge) :
  cedge_ok height width x -> cedge_ok height width y ->
  edge_eqb (flat2 height width x) (flat2 height width y) = cedge_eqb x y.
Proof.
  intros [Hx1 Hx2] [Hy1 Hy2].
  destruct (cedge_eqb x y) eqn:E.
  - apply cedge_eqb_eq in E. subst y. apply edge_eqb_eq. reflexivity.
  - destruct (edge_eqb (flat2 height width x) (flat2 height width y)) eqn:E'; [| reflexivity].
    apply edge_eqb_eq in E'. unfold flat2 in E'. inversion E' as [[E1 E2]].
    apply (flat_injective _ _ _ _ Hx1 Hy1) in E1.
    apply (flat_injective _ _ _ _ Hx2 Hy2) in E2.
    assert (Hxy : x = y) by (destruct x, y; cbn [fst snd] in *; congruence).
    apply cedge_eqb_eq in Hxy. congruence.
Qed.

Lemma count_edge_flat2 (height width : nat) (x : cedge) (l : list cedge) :
  cedge_ok height width x -> Forall (cedge_ok height width) l ->
  count_edge (flat2 height width x) (map (flat2 height width) l) = count_cedge x l.
Proof.
  intros Hx. induction 1 as [| y l Hy _ IH]; [reflexivity |].
  unfold count_edge, count_cedge in *. cbn [map filter].
  rewrite (edge_eqb_flat2 height width x y Hx Hy).
  destruct (cedge_eqb x y); cbn [length]; rewrite IH; reflexivity.
Qed.

Lemma count_edge_app (x : edge) (l1 l2 : list edge) :
  count_edge x (l1 ++ l2) = (count_edge x l1 + count_edge x l2)%nat.
Proof. unfold count_edge. rewrite filter_app, length_app. reflexivity. Qed.

Lemma count_edge_in (x : edge) (l : list edge) : In x l -> (1 <= count_edge x l)%nat.
Proof.
  unfold count_edge. induction l as [| y l IH]; intros Hin; [destruct Hin |].
  cbn [filter]. destruct (edge_eqb x y) eqn:E; [cbn [length]; lia |].
  destruct Hin as [-> | Hin]; [| apply IH; exact Hin].
  assert (Ht : edge_eqb x x = true) by (apply edge_eqb_eq; reflexivity). congruence.
Qed.

(** Every edge of the face list of a grid with at least 2 rows and 2
    columns is used by exactly two faces. *)
Lemma all_faces_edge_use (height width : nat) (e : edge) :
  (2 <= height)%nat -> (2 <= width)%nat ->
  In e (edges (all_faces height width)) ->
  edge_use (all_faces height width) e = 2%nat.
Proof.
  intros Hh Hw Hin. unfold edge_use. rewrite (all_faces_edges_groups height width Hh Hw).
  assert (Hs : In (edge_sorted e) (map (flat2 height width) (all_groups height width))).
  { rewrite <- (all_faces_edges_groups height width Hh Hw). apply in_map. exact Hin. }
  apply in_map_iff in Hs as [x [Hx Hxin]]. rewrite <- Hx.
  rewrite count_edge_flat2.
  - apply all_groups_double; assumption.
  - apply all_groups_ok; assumption.
  - apply Forall_forall. intros y Hy. apply all_groups_ok; assumption.
Qed.

Lemma top_faces_first (height width : nat) :
  (2 <= height)%nat -> (2 <= width)%nat ->
  In (0, width, 1)%nat (top_faces height width).
Proof.
  intros Hh Hw. unfold top_faces.
  apply in_flat_map. exists 0%nat. split; [apply in_seq; lia |].
  apply in_flat_map. exists 0%nat. split; [apply in_seq; lia |].
  left. reflexivity.
Qed.

(** The top triangle of the first cell and the first triangle of the wall
    along the column 0 both run from vertex 0 to vertex [width]. *)
Lemma all_faces_edge_twice_same_direction (height width : nat) :
  (2 <= height)%nat -> (2 <= width)%nat ->
  In (0, width, 1)%nat (all_faces height width)
  /\ In (0, width, height * width)%nat (all_faces height width)
  /\ (2 <= count_edge (0%nat, width) (edges (all_faces height width)))%nat.
Proof.
  intros Hh Hw.
  pose proof (top_faces_first height width Hh Hw) as Htop.
  assert (Hwall : In (0, width, height * width)%nat (side_bottom_edge height width (height * width))).
  { unfold side_bottom_edge. apply in_flat_map. exists 0%nat. split; [apply in_seq; lia |].
    left. cbn [Nat.mul Nat.add]. rewrite Nat.add_0_r. reflexivity. }
  unfold all_faces. rewrite side_faces_walls.
  split; [apply in_or_app; left; exact Htop |].
  split; [rewrite !in_app_iff; tauto |].
  rewrite !edges_app, !count_edge_app.
  assert (H1 : (1 <= count_edge (0%nat, width) (edges (top_faces height width)))%nat).
  { apply count_edge_in. unfold edges. apply in_flat_map.
    exists (0, width, 1)%nat. split; [exact Htop | left; reflexivity]. }
  assert (H2 : (1 <= count_edge (0%nat, width) (edges (side_bottom_edge height width (height * width))))%nat).
  { apply count_edge_in. unfold edges. apply in_flat_map.
    exists (0, width, height * width)%nat. split; [exact Hwall | left; reflexivity]. }
  lia.
Qed.

(** The face list is watertight and is not winding-consistent, whatever
    the vertices. *)
Lemma all_faces_watertight_not_oriented (height width : nat) (vs : list vertex) :
  (2 <= height)%nat -> (2 <= width)%nat ->
  is_watertight {| vertices := vs; faces := all_faces height width |} = true
  /\ is_winding_consistent {| vertices := vs; faces := all_faces height width |} = false.
Proof.
  intros Hh Hw.
  assert (Hwt : is_watertight {| vertices := vs; faces := all_faces height width |} = true).
  { unfold is_watertight. cbn [faces]. apply forallb_forall. intros e He.
    apply Nat.eqb_eq. apply all_faces_edge_use; assumption. }
  split; [exact Hwt |].
  unfold is_winding_consistent. rewrite Hwt. cbn [andb faces].
  destruct (all_faces_edge_twice_same_direction height width Hh Hw) as [Hin [_ Hcount]].
  destruct (forallb _ (edges (all_faces height width))) eqn:E; [| reflexivity].
  exfalso. rewrite forallb_forall in E.
  specialize (E (0%nat, width)). cbn beta in E.
  assert (He : In (0%nat, width) (edges (all_faces height width))).
  { unfold edges. apply in_flat_map. exists (0, width, 1)%nat.
    split; [exact Hin | left; reflexivity]. }
  specialize (E He). apply andb_true_iff in E as [E1 _].
  apply Nat.eqb_eq in E1. lia.
Qed.

(** ** Vertex merging *)

Lemma vertex_eqb_refl (v : vertex) : vertex_eqb v v = true.
Proof.
  unfold vertex_eqb. rewrite !andb_true_iff. repeat split; apply Qeq_bool_iff; reflexivity.
Qed.

Lemma distinct_vertices_tail (v : vertex) (vs : list vertex) :
  distinct_vertices (v :: vs) -> distinct_vertices vs.
Proof.
  intros Hd i j Hi Hj Heq.
  assert (Hs : S i = S j) by (apply Hd; [cbn [length]; lia | cbn [length]; lia | exact Heq]).
  lia.
Qed.

Lemma first_index_distinct (vs : list vertex) (i : nat) :
  distinct_vertices vs -> (i < length vs)%nat ->
  first_index (nth i vs (0, 0, 0)) vs = i.
Proof.
  revert i. induction vs as [| v vs IH]; intros i Hd Hi; [simpl in Hi; lia |].
  cbn [length] in Hi.
  destruct i as [| i]; cbn [nth first_index].
  - rewrite vertex_eqb_refl. reflexivity.
  - destruct (vertex_eqb (nth i vs (0, 0, 0)) v) eqn:E.
    + exfalso. assert (Hs : S i = 0%nat); [| lia].
      apply Hd; [cbn [length]; lia | cbn [length]; lia | exact E].
    + f_equal. apply IH; [apply (distinct_vertices_tail v); exact Hd | lia].
Qed.

Lemma canon_distinct (vs : list vertex) :
  distinct_vertices vs ->
  map (fun v => first_index v vs) vs = seq 0 (length vs).
Proof.
  intros Hd. apply (nth_ext _ _ 0%nat 0%nat).
  - rewrite length_map, length_seq. reflexivity.
  - intros k Hk. rewrite length_map in Hk.
    rewrite seq_nth by exact Hk. cbn [Nat.add].
    rewrite (nth_indep _ 0%nat (first_index (0, 0, 0) vs)) by (rewrite length_map; exact Hk).
    rewrite (map_nth (fun v => first_index v vs)).
    apply first_index_distinct; assumption.
Qed.

Lemma kept_all (s len : nat) :
  map (fun p => Nat.eqb (fst p) (snd p)) (combine (seq s len) (seq s len)) = repeat true len.
Proof.
  revert s. induction len as [| len IH]; intros s; [reflexivity |].
  cbn [seq combine map repeat fst snd]. rewrite Nat.eqb_refl, IH. reflexivity.
Qed.

Lemma filter_kept_all {A : Type} (l : list A) :
  map snd (filter (fun p => fst p) (combine (repeat true (length l)) l)) = l.
Proof.
  induction l as [| x l IH]; [reflexivity |].
  cbn [length repeat combine filter fst map snd]. rewrite IH. reflexivity.
Qed.

Lemma count_kept_before (k len : nat) :
  (k <= len)%nat ->
  length (filter (fun b : bool => b) (firstn k (repeat true len))) = k.
Proof.
  revert len. induction k as [| k IH]; intros len Hk; [reflexivity |].
  destruct len as [| len]; [lia |].
  cbn [repeat firstn filter length]. rewrite IH by lia. reflexivity.
Qed.

(** Merging does nothing to a mesh without coincident vertices. *)
Lemma merge_vertices_distinct (vs : list vertex) (fs : list face) :
  distinct_vertices vs ->
  (forall a b c, In (a, b, c) fs ->
     (a < length vs)%nat /\ (b < length vs)%nat /\ (c < length vs)%nat) ->
  merge_vertices {| vertices := vs; faces := fs |} = {| vertices := vs; faces := fs |}.
Proof.
  intros Hd Hfs. unfold merge_vertices. cbn [vertices faces].
  rewrite (canon_distinct vs Hd), kept_all, filter_kept_all. f_equal.
  rewrite <- (map_id fs) at 2. apply map_ext_in. intros [[a b] c] Hin.
  destruct (Hfs a b c Hin) as [Ha [Hb Hc]]. cbn [fst snd].
  assert (Hidx : forall k, (k < length vs)%nat ->
            length (filter (fun b0 : bool => b0)
                      (firstn (nth k (seq 0 (length vs)) k) (repeat true (length vs)))) = k).
  { intros k Hk. rewrite seq_nth by exact Hk. cbn [Nat.add].
    apply count_kept_before. lia. }
  rewrite !Hidx by assumption. reflexivity.
Qed.

(** ** The terrain mesh of a regular grid *)

Lemma flat_bound (height width : nat) (v : cvertex) :
  cvertex_ok height width v -> (flat height width v < 2 * (height * width))%nat.
Proof.
  destruct v as [[l i] j]. unfold cvertex_ok, flat. cbn [fst snd]. intros [Hl [Hi Hj]]. nia.
Qed.

Lemma all_faces_edge_bound (height width a b : nat) :
  (2 <= height)%nat -> (2 <= width)%nat ->
  In (a, b) (edges (all_faces height width)) ->
  (a < 2 * (height * width))%nat /\ (b < 2 * (height * width))%nat.
Proof.
  intros Hh Hw Hin.
  assert (Hs : In (edge_sorted (a, b)) (map (flat2 height width) (all_groups height width))).
  { rewrite <- (all_faces_edges_groups height width Hh Hw). apply in_map. exact Hin. }
  apply in_map_iff in Hs as [x [Hx Hxin]].
  destruct (all_groups_ok height width x Hh Hw Hxin) as [H1 H2].
  apply flat_bound in H1. apply flat_bound in H2.
  unfold flat2, edge_sorted in Hx. cbn [fst snd] in Hx. inversion Hx. lia.
Qed.

Lemma all_faces_index_bound (height width a b c : nat) :
  (2 <= height)%nat -> (2 <= width)%nat ->
  In (a, b, c) (all_faces height width) ->
  (a < 2 * (height * width))%nat /\ (b < 2 * (height * width))%nat
  /\ (c < 2 * (height * width))%nat.
Proof.
  intros Hh Hw Hin.
  assert (Hab : In (a, b) (edges (all_faces height width))).
  { unfold edges. apply in_flat_map. exists (a, b, c). split; [exact Hin | left; reflexivity]. }
  assert (Hbc : In (b, c) (edges (all_faces height width))).
  { unfold edges. apply in_flat_map. exists (a, b, c).
    split; [exact Hin | right; left; reflexivity]. }
  apply all_faces_edge_bound in Hab; [| assumption | assumption].
  apply all_faces_edge_bound in Hbc; [| assumption | assumption].
  tauto.
Qed.

Lemma top_vertices_cells (terrain_e terrain_n terrain_u : ndarray) (todo : list (nat * nat)) :
  wf_ndarray terrain_e -> wf_ndarray terrain_n -> wf_ndarray terrain_u ->
  (forall ij, In ij todo ->
     (fst ij < nrows terrain_e)%nat /\ (snd ij < ncols terrain_e)%nat /\
     (fst ij < nrows terrain_n)%nat /\ (snd ij < ncols terrain_n)%nat /\
     (fst ij < nrows terrain_u)%nat /\ (snd ij < ncols terrain_u)%nat) ->
  top_vertices terrain_e terrain_n terrain_u todo
  = Ok (map (fun ij => (get2 terrain_e (fst ij) (snd ij), get2 terrain_n (fst ij) (snd ij),
                        get2 terrain_u (fst ij) (snd ij))) todo).
Proof.
  intros He Hn Hu. induction todo as [| [i j] rest IH]; intros Hin; [reflexivity |].
  destruct (Hin (i, j) (or_introl eq_refl)) as [H1 [H2 [H3 [H4 [H5 H6]]]]].
  cbn [fst snd] in *. cbn [top_vertices].
  rewrite (getitem2_get2 _ _ _ He H1 H2), (getitem2_get2 _ _ _ Hn H3 H4),
    (getitem2_get2 _ _ _ Hu H5 H6).
  cbn [bind]. rewrite IH by (intros ij Hij; apply Hin; right; exact Hij).
  reflexivity.
Qed.

Lemma Qmin_le_l (a b : Q) : Qmin a b <= a.
Proof.
  unfold Qmin. destruct (Qle_bool a b) eqn:E; [apply Qle_refl |].
  apply Qlt_le_weak. apply Qnot_le_lt. intros Hle. apply Qle_bool_iff in Hle. congruence.
Qed.

Lemma Qmin_le_r (a b : Q) : Qmin a b <= b.
Proof.
  unfold Qmin. destruct (Qle_bool a b) eqn:E; [apply Qle_bool_iff; exact E | apply Qle_refl].
Qed.

Lemma fold_left_Qmin_le (l : list Q) (v : Q) :
  fold_left Qmin l v <= v /\ forall x, In x l -> fold_left Qmin l v <= x.
Proof.
  revert v. induction l as [| y l IH]; intros v.
  - split; [apply Qle_refl | intros x []].
  - cbn [fold_left]. destruct (IH (Qmin v y)) as [H1 H2]. split.
    + eapply Qle_trans; [exact H1 | apply Qmin_le_l].
    + intros x [<- | Hx].
      * eapply Qle_trans; [exact H1 | apply Qmin_le_r].
      * apply H2. exact Hx.
Qed.

Lemma np_min_lower_bound (l : list Q) (m : Q) :
  np_min l = Ok m -> forall x, In x l -> m <= x.
Proof.
  destruct l as [| v t]; [discriminate |]. cbn [np_min]. intros Heq. inversion Heq. subst m.
  destruct (fold_left_Qmin_le t v) as [H1 H2].
  intros x [<- | Hx]; [exact H1 | apply H2; exact Hx].
Qed.

Lemma vertex_eqb_true (p q : vertex) :
  vertex_eqb p q = true ->
  fst (fst p) == fst (fst q) /\ snd (fst p) == snd (fst q) /\ snd p == snd q.
Proof.
  unfold vertex_eqb. rewrite !andb_true_iff. intros [[H1 H2] H3].
  repeat split; apply Qeq_bool_iff; assumption.
Qed.

Lemma mesh_vertices_length (terrain_e terrain_n terrain_u : ndarray) (base_z : Q) :
  length (mesh_vertices terrain_e terrain_n terrain_u base_z)
  = (2 * (nrows terrain_u * ncols terrain_u))%nat.
Proof.
  unfold mesh_vertices. rewrite length_app, !length_map, cells_length. lia.
Qed.

Lemma mesh_vertices_distinct (terrain_e terrain_n terrain_u : ndarray) (base_z : Q) :
  same_shape terrain_e terrain_u -> wf_ndarray terrain_u ->
  regular_grid terrain_e terrain_n ->
  (forall x, In x (ravel terrain_u) -> base_z < x) ->
  distinct_vertices (mesh_vertices terrain_e terrain_n terrain_u base_z).
Proof.
  intros [Hr Hc] Hwf Hreg Hbase.
  set (cs := cells (nrows terrain_u) (ncols terrain_u)).
  set (F := fun ij : nat * nat =>
              (get2 terrain_e (fst ij) (snd ij), get2 terrain_n (fst ij) (snd ij),
               get2 terrain_u (fst ij) (snd ij))).
  set (B := fun v : vertex => (fst (fst v), snd (fst v), base_z)).
  assert (Hlen : length cs = (nrows terrain_u * ncols terrain_u)%nat) by apply cells_length.
  assert (Htop : forall k, (k < length cs)%nat ->
            nth k (mesh_vertices terrain_e terrain_n terrain_u base_z) (0, 0, 0)
            = F (nth k cs (0%nat, 0%nat))).
  { intros k Hk. unfold mesh_vertices. fold cs F B.
    rewrite app_nth1 by (rewrite length_map; exact Hk).
    rewrite (nth_indep _ (0, 0, 0) (F (0%nat, 0%nat))) by (rewrite length_map; exact Hk).
    apply map_nth. }
  assert (Hbot : forall k, (length cs <= k < 2 * length cs)%nat ->
            nth k (mesh_vertices terrain_e terrain_n terrain_u base_z) (0, 0, 0)
            = B (F (nth (k - length cs) cs (0%nat, 0%nat)))).
  { intros k Hk. unfold mesh_vertices. fold cs F B.
    rewrite app_nth2 by (rewrite length_map; lia). rewrite length_map, map_map.
    rewrite (nth_indep _ (0, 0, 0) (B (F (0%nat, 0%nat)))) by (rewrite length_map; lia).
    apply (map_nth (fun x => B (F x))). }
  assert (Hcell : forall k k', (k < length cs)%nat -> (k' < length cs)%nat ->
            fst (fst (F (nth k cs (0%nat, 0%nat)))) == fst (fst (F (nth k' cs (0%nat, 0%nat)))) ->
            snd (fst (F (nth k cs (0%nat, 0%nat)))) == snd (fst (F (nth k' cs (0%nat, 0%nat)))) ->
            k = k').
  { intros k k' Hk Hk' He Hn. unfold F in He, Hn. cbn [fst snd] in He, Hn.
    assert (Heq : nth k cs (0%nat, 0%nat) = nth k' cs (0%nat, 0%nat)).
    { apply Hreg; try assumption; rewrite Hr, Hc; apply nth_In; assumption. }
    apply (proj1 (NoDup_nth cs (0%nat, 0%nat)) (cells_NoDup _ _)); assumption. }
  assert (Hhigh : forall k, (k < length cs)%nat -> base_z < snd (F (nth k cs (0%nat, 0%nat)))).
  { intros k Hk. unfold F. cbn [snd]. apply Hbase.
    assert (Hin : In (nth k cs (0%nat, 0%nat)) cs) by (apply nth_In; exact Hk).
    destruct (nth k cs (0%nat, 0%nat)) as [i j]. apply in_cells in Hin. cbn [fst snd].
    unfold get2. apply nth_In. rewrite Hwf. nia. }
  intros p q Hp Hq Heq. rewrite mesh_vertices_length, <- Hlen in Hp, Hq.
  apply vertex_eqb_true in Heq as [He [Hn Hu]].
  destruct (Nat.lt_ge_cases p (length cs)) as [Hp1 | Hp2],
           (Nat.lt_ge_cases q (length cs)) as [Hq1 | Hq2].
  - rewrite (Htop p Hp1), (Htop q Hq1) in He, Hn. apply Hcell; assumption.
  - exfalso. rewrite (Htop p Hp1), (Hbot q ltac:(lia)) in Hu. unfold B in Hu. cbn [snd] in Hu.
    pose proof (Hhigh p Hp1) as Hlt. rewrite Hu in Hlt. exact (Qlt_irrefl _ Hlt).
  - exfalso. rewrite (Hbot p ltac:(lia)), (Htop q Hq1) in Hu. unfold B in Hu. cbn [snd] in Hu.
    pose proof (Hhigh q Hq1) as Hlt. rewrite <- Hu in Hlt. exact (Qlt_irrefl _ Hlt).
  - rewrite (Hbot p ltac:(lia)), (Hbot q ltac:(lia)) in He, Hn.
    unfold B in He, Hn. cbn [fst snd] in He, Hn.
    assert (Hk : (p - length cs = q - length cs)%nat) by (apply Hcell; try lia; assumption).
    lia.
Qed.

Section TerrainMesh.
Context `{NumLib}.

Lemma create_terrain_mesh_no_route (terrain_e terrain_n terrain_u : ndarray)
    (base_height route_width route_depth : Q) :
  snd (create_terrain_mesh terrain_e terrain_n terrain_u base_height None
         route_width route_depth)
  = build_mesh terrain_e terrain_n terrain_u base_height.
Proof. destruct terrain_u. reflexivity. Qed.

Lemma create_terrain_mesh_route (terrain_e terrain_n terrain_u : ndarray)
    (base_height : Q) (r : RouteArgs) (route_width route_depth : Q) :
  grid_ok terrain_e terrain_n terrain_u -> route_samples_ok r ->
  snd (create_terrain_mesh terrain_e terrain_n terrain_u base_height (Some r)
         route_width route_depth)
  = build_mesh terrain_e terrain_n
      (fst (create_terrain_mesh terrain_e terrain_n terrain_u base_height (Some r)
              route_width route_depth))
      base_height.
Proof.
  intros [He [Hn [Hu [[Her Hec] [Hnr Hnc]]]]] Hroute.
  destruct (carve_loop_effect terrain_e terrain_n (ncols terrain_u) r
              route_width route_depth (cells (nrows terrain_u) (ncols terrain_u)))
    with (u := ravel terrain_u) as [u' [Hloop _]].
  - rewrite cells_index. apply seq_NoDup.
  - intros [i j] Hin. apply in_cells in Hin as [Hi Hj]. cbn [fst snd].
    apply cell_min_dist_ok; auto; lia.
  - intros [i j] Hij. apply in_cells in Hij as [Hi Hj]. cbn [fst snd]. rewrite Hu. nia.
  - unfold create_terrain_mesh. rewrite Hloop. reflexivity.
Qed.

Lemma build_mesh_regular (terrain_e terrain_n terrain_u : ndarray) (base_height : Q) :
  grid_ok terrain_e terrain_n terrain_u ->
  (2 <= nrows terrain_u)%nat -> (2 <= ncols terrain_u)%nat ->
  0 < base_height ->
  regular_grid terrain_e terrain_n ->
  exists min_u,
    np_min (ravel terrain_u) = Ok min_u /\
    build_mesh terrain_e terrain_n terrain_u base_height
    = Ok {| vertices := mesh_vertices terrain_e terrain_n terrain_u (min_u - base_height);
            faces := all_faces (nrows terrain_u) (ncols terrain_u) |}.
Proof.
  intros [He [Hn [Hu [[Her Hec] [Hnr Hnc]]]]] Hh Hw Hbase Hreg.
  assert (Hne : ravel terrain_u <> []).
  { intros Hnil. unfold wf_ndarray in Hu. rewrite Hnil in Hu. simpl in Hu. nia. }
  destruct (np_min (ravel terrain_u)) as [min_u | err] eqn:Hmin;
    [| destruct (ravel terrain_u); [congruence | discriminate]].
  exists min_u. split; [reflexivity |].
  unfold build_mesh.
  rewrite (top_vertices_cells terrain_e terrain_n terrain_u) by
    (try assumption; intros [i j] Hin; apply in_cells in Hin; cbn [fst snd]; lia).
  cbn [bind]. rewrite Hmin. cbn [bind].
  pose proof (top_faces_first _ _ Hh Hw) as Htop.
  destruct (top_faces (nrows terrain_u) (ncols terrain_u)) as [| f0 fs0] eqn:Efs;
    [destruct Htop |].
  cbn [bind]. rewrite <- Efs. rewrite !length_map, cells_length.
  unfold Trimesh_new. rewrite merge_vertices_distinct.
  - reflexivity.
  - apply mesh_vertices_distinct; try assumption; [split; assumption |].
    intros x Hx. pose proof (np_min_lower_bound _ _ Hmin x Hx). lra.
  - intros a b c Hin.
    rewrite length_app, !length_map, cells_length.
    pose proof (all_faces_index_bound _ _ a b c Hh Hw Hin) as Hb. lia.
Qed.

End TerrainMesh.

(** ** Degenerate grids, continued *)

Section DegenerateGrid.
Context `{NumLib}.

Lemma build_mesh_degenerate (terrain_e terrain_n terrain_u : ndarray) (base_height : Q) :
  (nrows terrain_u < 2)%nat \/ (ncols terrain_u < 2)%nat ->
  exists err : PyError,
    build_mesh terrain_e terrain_n terrain_u base_height = Err err
    /\ (grid_ok terrain_e terrain_n terrain_u ->
        err = match ravel terrain_u with [] => ValueError | _ => IndexError end).
Proof.
  intros Hd. unfold build_mesh. rewrite (top_faces_degenerate _ _ Hd).
  destruct (top_vertices terrain_e terrain_n terrain_u
              (cells (nrows terrain_u) (ncols terrain_u))) as [vs | e1] eqn:Evs.
  - cbn [bind]. destruct (ravel terrain_u) as [| v0 buf] eqn:Ebuf.
    + exists ValueError. split; reflexivity.
    + exists IndexError. split; reflexivity.
  - exists e1. split; [reflexivity |].
    intros [He [Hn [Hu [[Her Hec] [Hnr Hnc]]]]].
    rewrite (top_vertices_cells terrain_e terrain_n terrain_u _ He Hn Hu) in Evs;
      [discriminate |].
    intros [i j] Hin. apply in_cells in Hin. cbn [fst snd]. lia.
Qed.

(** C7: for every grid with fewer than 2 rows or fewer than 2 columns,
    [create_terrain_mesh] raises instead of returning a mesh.  On a
    well-formed grid (with a well-formed route, if any) the exception is
    the one of the degenerate shape: no face is generated, and reversing
    the empty face array raises [IndexError]; a grid without any point
    already fails at the minimum of its elevations with [ValueError]. *)
Theorem create_terrain_mesh_degenerate_grid_fails
    (terrain_e terrain_n terrain_u : ndarray) (base_height : Q)
    (route : option RouteArgs) (route_width route_depth : Q) :
  (nrows terrain_u < 2)%nat \/ (ncols terrain_u < 2)%nat ->
  exists err : PyError,
    snd (create_terrain_mesh terrain_e terrain_n terrain_u base_height
           route route_width route_depth) = Err err
    /\ (grid_ok terrain_e terrain_n terrain_u ->
        match route with Some r => route_samples_ok r | None => True end ->
        err = match ravel terrain_u with [] => ValueError | _ => IndexError end).
Proof.
  intros Hd. destruct route as [r |].
  - destruct (snd (create_terrain_mesh terrain_e terrain_n terrain_u base_height
                     (Some r) route_width route_depth)) as [m | err] eqn:Esnd.
    + exfalso. unfold create_terrain_mesh in Esnd.
      destruct (carve_loop _ _ _ _ _ _ _ _) as [buf [e0 |]]; cbn [snd] in Esnd;
        [discriminate |].
      destruct (build_mesh_degenerate terrain_e terrain_n
                  (mk_ndarray (nrows terrain_u) (ncols terrain_u) buf) base_height Hd)
        as [err [Herr _]].
      congruence.
    + exists err. split; [reflexivity |]. intros Hgrid Hroute.
      rewrite (create_terrain_mesh_route _ _ _ _ _ _ _ Hgrid Hroute) in Esnd.
      destruct (create_terrain_mesh_carved_array terrain_e terrain_n terrain_u base_height
                  r route_width route_depth Hgrid Hroute) as [Hr [Hc [Hwf _]]].
      set (after := fst (create_terrain_mesh terrain_e terrain_n terrain_u base_height
                           (Some r) route_width route_depth)) in *.
      destruct (build_mesh_degenerate terrain_e terrain_n after base_height
                  ltac:(rewrite Hr, Hc; exact Hd)) as [err' [Herr' Hkind]].
      assert (Hgrid' : grid_ok terrain_e terrain_n after).
      { destruct Hgrid as [He [Hn [Hu [[Her Hec] [Hnr Hnc]]]]].
        repeat split; try assumption; congruence. }
      specialize (Hkind Hgrid'). rewrite Herr' in Esnd. injection Esnd as Heq.
      rewrite <- Heq, Hkind.
      destruct Hgrid as [_ [_ [Hu _]]]. unfold wf_ndarray in Hu, Hwf.
      rewrite Hr, Hc, <- Hu in Hwf.
      destruct (ravel after), (ravel terrain_u); try reflexivity; discriminate.
  - rewrite create_terrain_mesh_no_route.
    destruct (build_mesh_degenerate terrain_e terrain_n terrain_u base_height Hd)
      as [err [Herr Hkind]].
    exists err. split; [exact Herr |]. intros Hgrid _. apply Hkind. exact Hgrid.
Qed.

End DegenerateGrid.

Lemma create_terrain_mesh_degenerate_grid_fails_witness :
  ((nrows strip_u < 2)%nat \/ (ncols strip_u < 2)%nat) /\
  exists err : PyError,
    snd (@create_terrain_mesh rational_numlib strip_e strip_n strip_u 10 None 2 1)
    = Err err.
Proof.
  assert (Hd : (nrows strip_u < 2)%nat \/ (ncols strip_u < 2)%nat) by (left; simpl; lia).
  split; [exact Hd |].
  destruct (@create_terrain_mesh_degenerate_grid_fails rational_numlib
              strip_e strip_n strip_u 10 None 2 1 Hd) as [err [Herr _]].
  exists err. exact Herr.
Defined.

(** The exceptions on a strip and on an empty grid. *)
Example create_terrain_mesh_strip_run :
  snd (@create_terrain_mesh rational_numlib strip_e strip_n strip_u 10 None 2 1)
  = Err IndexError.
Proof. reflexivity. Qed.

Example create_terrain_mesh_empty_run :
  snd (@create_terrain_mesh rational_numlib (mk_ndarray 0 3 []) (mk_ndarray 0 3 [])
         (mk_ndarray 0 3 []) 10 None 2 1)
  = Err ValueError.
Proof. reflexivity. Qed.

(** ** The terrain mesh is watertight and not oriented *)

(** C1 (violated by the code): on every regular grid with at least 2 rows
    and 2 columns and a positive base height, [create_terrain_mesh] returns
    a mesh in which no two vertices coincide, whose faces are the face list
    of the construction; every edge of it is used by exactly two faces (the
    mesh is watertight), but the mesh is not orientation-consistent: the
    directed edge from vertex 0 to vertex [width] belongs to two faces, a
    top triangle and a wall triangle, so the walls are wound against the
    top surface. *)
Theorem terrain_mesh_watertight_not_oriented `{NumLib}
    (terrain_e terrain_n terrain_u : ndarray) (base_height : Q)
    (route : option RouteArgs) (route_width route_depth : Q) :
  grid_ok terrain_e terrain_n terrain_u ->
  (2 <= nrows terrain_u)%nat -> (2 <= ncols terrain_u)%nat ->
  0 < base_height ->
  regular_grid terrain_e terrain_n ->
  match route with Some r => route_samples_ok r | None => True end ->
  exists m,
    snd (create_terrain_mesh terrain_e terrain_n terrain_u base_height
           route route_width route_depth) = Ok m
    /\ faces m = all_faces (nrows terrain_u) (ncols terrain_u)
    /\ length (vertices m) = (2 * (nrows terrain_u * ncols terrain_u))%nat
    /\ distinct_vertices (vertices m)
    /\ (forall e, In e (edges (faces m)) -> edge_use (faces m) e = 2%nat)
    /\ is_watertight m = true
    /\ is_winding_consistent m = false
    /\ In (0, ncols terrain_u, 1)%nat (faces m)
    /\ In (0, ncols terrain_u, nrows terrain_u * ncols terrain_u)%nat (faces m).
Proof.
  intros Hgrid Hh Hw Hbase Hreg Hroute.
  assert (Hbuilt : exists u', 
            snd (create_terrain_mesh terrain_e terrain_n terrain_u base_height
                   route route_width route_depth)
            = build_mesh terrain_e terrain_n u' base_height
            /\ grid_ok terrain_e terrain_n u'
            /\ nrows u' = nrows terrain_u /\ ncols u' = ncols terrain_u).
  { destruct route as [r |].
    - eexists. split; [apply create_terrain_mesh_route; assumption |].
      destruct (create_terrain_mesh_carved_array terrain_e terrain_n terrain_u base_height
                  r route_width route_depth Hgrid Hroute) as [Hr [Hc [Hwf _]]].
      destruct Hgrid as [He [Hn [Hu [[Her Hec] [Hnr Hnc]]]]].
      repeat split; try assumption; congruence.
    - exists terrain_u. split; [apply create_terrain_mesh_no_route |].
      repeat split; try reflexivity; apply Hgrid. }
  destruct Hbuilt as [u' [Hsnd [Hgrid' [Hr Hc]]]].
  destruct (build_mesh_regular terrain_e terrain_n u' base_height Hgrid'
              ltac:(lia) ltac:(lia) Hbase Hreg) as [min_u [Hmin Hmesh]].
  eexists. split; [rewrite Hsnd; exact Hmesh |]. cbn [faces vertices].
  rewrite Hr, Hc.
  destruct (all_faces_watertight_not_oriented (nrows terrain_u) (ncols terrain_u)
              (mesh_vertices terrain_e terrain_n u' (min_u - base_height)) Hh Hw)
    as [Hwt Hwind].
  destruct (all_faces_edge_twice_same_direction (nrows terrain_u) (ncols terrain_u) Hh Hw)
    as [Hf1 [Hf2 _]].
  split; [reflexivity |].
  split; [rewrite mesh_vertices_length, Hr, Hc; reflexivity |].
  split.
  { destruct Hgrid' as [He [Hn [Hu [Hes Hns]]]].
    apply mesh_vertices_distinct; try assumption.
    intros x Hx. pose proof (np_min_lower_bound _ _ Hmin x Hx). lra. }
  split; [intros e He; apply all_faces_edge_use; assumption |].
  split; [exact Hwt |]. split; [exact Hwind |]. split; assumption.
Qed.

Lemma terrain_mesh_watertight_not_oriented_witness :
  grid_ok patch_e patch_n patch_u /\
  (2 <= nrows patch_u)%nat /\ (2 <= ncols patch_u)%nat /\
  0 < 10 /\
  regular_grid patch_e patch_n /\
  exists m,
    snd (@create_terrain_mesh rational_numlib patch_e patch_n patch_u 10 None 2 1) = Ok m
    /\ is_watertight m = true /\ is_winding_consistent m = false.
Proof.
  assert (Hg : grid_ok patch_e patch_n patch_u).
  { unfold grid_ok, wf_ndarray, same_shape. simpl. repeat split. }
  assert (Hh : (2 <= nrows patch_u)%nat) by (simpl; lia).
  assert (Hw : (2 <= ncols patch_u)%nat) by (simpl; lia).
  assert (Hb : 0 < 10) by reflexivity.
  assert (Hreg : regular_grid patch_e patch_n).
  { intros c c' Hc Hc' He Hn. simpl in Hc, Hc'.
    repeat (destruct Hc as [<- | Hc]; [| try (exfalso; exact Hc)]);
      repeat (destruct Hc' as [<- | Hc']; [| try (exfalso; exact Hc')]);
      try reflexivity; exfalso;
      vm_compute in He; vm_compute in Hn; try discriminate He; discriminate Hn. }
  repeat (split; [assumption |]).
  destruct (@terrain_mesh_watertight_not_oriented rational_numlib
              patch_e patch_n patch_u 10 None 2 1 Hg Hh Hw Hb Hreg I)
    as [m [Hm [_ [_ [_ [_ [Hwt [Hwind _]]]]]]]].
  exists m. repeat split; assumption.
Defined.


(* ===================================================================== *)
(** * Further properties of the code *)
(* ===================================================================== *)

(** ** Tiles *)

Lemma not_Qle_bool_lt (a b : Q) : Qle_bool a b = false -> b < a.
Proof.
  intros E. apply Qnot_le_lt. intros Hle. apply Qle_bool_iff in Hle. congruence.
Qed.

(** Truncation toward zero is monotone. *)
Lemma py_int_mono (a b : Q) : a <= b -> (py_int a <= py_int b)%Z.
Proof.
  intros Hab. unfold py_int.
  destruct (Qle_bool 0 a) eqn:Ea, (Qle_bool 0 b) eqn:Eb.
  - apply Qfloor_resp_le. exact Hab.
  - apply Qle_bool_iff in Ea. apply not_Qle_bool_lt in Eb. lra.
  - apply not_Qle_bool_lt in Ea. apply Qle_bool_iff in Eb.
    assert (Hc1 : (Qceiling a <= Qceiling 0)%Z) by (apply Qceiling_resp_le; lra).
    assert (Hc2 : (Qfloor 0 <= Qfloor b)%Z) by (apply Qfloor_resp_le; exact Eb).
    change (Qceiling 0) with 0%Z in Hc1. change (Qfloor 0) with 0%Z in Hc2. lia.
  - apply Qceiling_resp_le. exact Hab.
Qed.

Lemma pow2_pos (zoom : Z) : 0 < pow2 zoom.
Proof. unfold pow2. apply Qpower_0_lt. reflexivity. Qed.

Lemma NoDup_flat_map_grid {A B C : Type} (f : A -> B -> C) (l1 : list A) (l2 : list B) :
  (forall x y x' y', f x y = f x' y' -> x = x' /\ y = y') ->
  NoDup l1 -> NoDup l2 -> NoDup (flat_map (fun x => map (f x) l2) l1).
Proof.
  intros Hinj H1 H2. induction H1 as [| x l1 Hx H1 IH]; cbn [flat_map].
  - constructor.
  - apply NoDup_app; [| exact IH |].
    + apply NoDup_map_injective; [| exact H2].
      intros y y' Hy. exact (proj2 (Hinj _ _ _ _ Hy)).
    + intros c Hc Hc'. apply in_map_iff in Hc as [y [<- Hy]].
      apply in_flat_map in Hc' as [x' [Hx' Hc']].
      apply in_map_iff in Hc' as [y' [Hy' _]].
      apply Hinj in Hy' as [-> _]. exact (Hx Hx').
Qed.

Lemma range_NoDup (a b : Z) : NoDup (range a b).
Proof.
  unfold range. apply NoDup_map_injective; [intros x y; lia | apply seq_NoDup].
Qed.
Section TileRectangle.
Context `{NumLib}.

Lemma in_tiles_to_cover (b : BBox_LL) (zoom : Z) (t : RasterTile) :
  In t (tiles_to_cover b zoom) <->
  tile_zoom t = zoom /\
  in_tile_rectangle (lonlat_to_tile (min_longitude b) (min_latitude b) zoom)
                    (lonlat_to_tile (max_longitude b) (max_latitude b) zoom) t.
Proof.
  unfold tiles_to_cover, in_tile_rectangle.
  set (t0 := lonlat_to_tile (min_longitude b) (min_latitude b) zoom).
  set (t1 := lonlat_to_tile (max_longitude b) (max_latitude b) zoom).
  rewrite in_flat_map. split.
  - intros [x [Hx Hin]]. apply in_map_iff in Hin as [y [<- Hy]].
    apply in_range in Hx. apply in_range in Hy. cbn [tile_zoom tile_x tile_y].
    split; [reflexivity | lia].
  - intros [Hz [Hx Hy]]. exists (tile_x t). split; [apply in_range; lia |].
    apply in_map_iff. exists (tile_y t). split; [| apply in_range; lia].
    destruct t as [z x y]. cbn in *. subst z. reflexivity.
Qed.

End TileRectangle.

(** X1: [BBox_LL.tiles_to_cover] returns exactly the tiles of the given zoom
    in the inclusive index rectangle spanned by the tiles of the two
    corners, each of them once; both corner tiles are among them (the list
    is never empty), and exchanging the two corners of the box gives the
    same list. *)
Theorem tiles_to_cover_rectangle `{NumLib} (b : BBox_LL) (zoom : Z) :
  let t0 := lonlat_to_tile (min_longitude b) (min_latitude b) zoom in
  let t1 := lonlat_to_tile (max_longitude b) (max_latitude b) zoom in
  (forall t, In t (tiles_to_cover b zoom) <->
     tile_zoom t = zoom /\ in_tile_rectangle t0 t1 t)
  /\ NoDup (tiles_to_cover b zoom)
  /\ In t0 (tiles_to_cover b zoom) /\ In t1 (tiles_to_cover b zoom)
  /\ tiles_to_cover b zoom
     = tiles_to_cover {| min_longitude := max_longitude b; min_latitude := max_latitude b;
                         max_longitude := min_longitude b; max_latitude := min_latitude b |} zoom.
Proof.
  intros t0 t1. split; [| split; [| split; [| split]]].
  - intros t. apply in_tiles_to_cover.
  - unfold tiles_to_cover.
    apply (NoDup_flat_map_grid (fun x y => mk_RasterTile zoom x y)).
    + intros x y x' y' E. injection E. auto.
    + apply range_NoDup.
    + apply range_NoDup.
  - apply in_tiles_to_cover. unfold in_tile_rectangle. fold t0 t1.
    split; [reflexivity | lia].
  - apply in_tiles_to_cover. unfold in_tile_rectangle. fold t0 t1.
    split; [reflexivity | lia].
  - unfold tiles_to_cover. cbn [min_longitude min_latitude max_longitude max_latitude].
    fold t0 t1.
    rewrite (Z.min_comm (tile_x t1)), (Z.max_comm (tile_x t1)),
            (Z.min_comm (tile_y t1)), (Z.max_comm (tile_y t1)).
    reflexivity.
Qed.

Section TileCover.
Context `{NumLib}.

Lemma lonlat_to_tile_x_mono (lon lon' lat lat' : Q) (zoom : Z) :
  lon <= lon' ->
  (tile_x (lonlat_to_tile lon lat zoom) <= tile_x (lonlat_to_tile lon' lat' zoom))%Z.
Proof.
  intros Hle. unfold lonlat_to_tile. cbn [tile_x]. apply py_int_mono.
  pose proof (pow2_pos zoom) as Hn.
  apply Qmult_le_compat_r; [| lra].
  apply Qmult_le_compat_r; [lra |]. 
  apply Qlt_le_weak. apply Qinv_lt_0_compat. reflexivity.
Qed.

Lemma lonlat_to_tile_y_antitone (lon lon' lat lat' : Q) (zoom : Z) :
  0 < np_pi -> mercator lat <= mercator lat' ->
  (tile_y (lonlat_to_tile lon' lat' zoom) <= tile_y (lonlat_to_tile lon lat zoom))%Z.
Proof.
  intros Hpi Hle. unfold lonlat_to_tile. cbn [tile_y]. apply py_int_mono.
  pose proof (pow2_pos zoom) as Hn. unfold mercator in Hle.
  apply Qmult_le_compat_r; [| lra].
  apply Qmult_le_compat_r; [| apply Qlt_le_weak; reflexivity].
  assert (Hq : np_arcsinh (np_tan (np_radians lat)) / np_pi
               <= np_arcsinh (np_tan (np_radians lat')) / np_pi).
  { apply Qmult_le_compat_r; [exact Hle |].
    apply Qlt_le_weak. apply Qinv_lt_0_compat. exact Hpi. }
  lra.
Qed.

End TileCover.

(** X2: the tiles of [BBox_LL.tiles_to_cover] cover the box: when the
    Mercator ordinate does not decrease with the latitude between the
    bounds of the box (and pi is positive), the tile that
    [lonlat_to_tile] gives to any point of the box is in the list. *)
Theorem tiles_to_cover_covers_bbox `{NumLib} (b : BBox_LL) (zoom : Z) (lon lat : Q) :
  0 < np_pi ->
  mercator_monotone (min_latitude b) (max_latitude b) ->
  min_longitude b <= lon <= max_longitude b ->
  min_latitude b <= lat <= max_latitude b ->
  In (lonlat_to_tile lon lat zoom) (tiles_to_cover b zoom).
Proof.
  intros Hpi Hmono [Hx0 Hx1] [Hy0 Hy1].
  apply in_tiles_to_cover. split; [reflexivity |]. unfold in_tile_rectangle.
  pose proof (lonlat_to_tile_x_mono (min_longitude b) lon (min_latitude b) lat zoom Hx0).
  pose proof (lonlat_to_tile_x_mono lon (max_longitude b) lat (max_latitude b) zoom Hx1).
  pose proof (lonlat_to_tile_y_antitone (min_longitude b) lon (min_latitude b) lat zoom Hpi
                (Hmono _ _ (Qle_refl _) Hy0 Hy1)).
  pose proof (lonlat_to_tile_y_antitone lon (max_longitude b) lat (max_latitude b) zoom Hpi
                (Hmono _ _ Hy0 Hy1 (Qle_refl _))).
  lia.
Qed.

Lemma tiles_to_cover_covers_bbox_witness :
  In (@lonlat_to_tile rational_numlib (1 # 2) (1 # 3) 10)
     (@tiles_to_cover rational_numlib
        {| min_longitude := 0; min_latitude := 0; max_longitude := 1; max_latitude := 1 |} 10).
Proof.
  apply (@tiles_to_cover_covers_bbox rational_numlib).
  - reflexivity.
  - intros a c _ Hac _. unfold mercator. cbn [np_arcsinh np_tan np_radians rational_numlib].
    apply Qmult_le_compat_r; [| discriminate].
    apply Qmult_le_compat_r; [exact Hac | discriminate].
  - cbn. split; discriminate.
  - cbn. split; discriminate.
Defined.

Section TileColumn.
Context `{NumLib}.

Lemma py_int_nonneg (q : Q) : 0 <= q -> py_int q = Qfloor q.
Proof.
  intros Hq. unfold py_int.
  apply Qle_bool_iff in Hq. rewrite Hq. reflexivity.
Qed.

End TileColumn.

(** X4: for a zoom of at least 0 and a longitude in [-180, 180], the
    column that [lonlat_to_tile] returns lies in [0, 2**zoom]; at the
    longitude 180 it is [2**zoom], one past the last column of the zoom
    level. *)
Theorem lonlat_to_tile_column_range `{NumLib} (lon lat : Q) (zoom : Z) :
  (0 <= zoom)%Z -> -180 <= lon -> lon <= 180 ->
  let x := tile_x (lonlat_to_tile lon lat zoom) in
  (0 <= x <= 2 ^ zoom)%Z /\ (lon == 180 -> x = (2 ^ zoom)%Z).
Proof.
  intros Hz Hlo Hhi x. pose proof (pow2_pos zoom) as Hn.
  set (f := (lon + 180) / 360 * pow2 zoom).
  assert (Hp : pow2 zoom == inject_Z (2 ^ zoom)).
  { unfold pow2. rewrite Zpower_Qpower by exact Hz. reflexivity. }
  assert (Hinv : 0 < / 360) by reflexivity.
  assert (Hf : 0 <= f).
  { unfold f. apply Qmult_le_0_compat; [| lra].
    apply Qmult_le_0_compat; [lra |]. apply Qlt_le_weak. reflexivity. }
  assert (Hx : x = Qfloor f).
  { unfold x, lonlat_to_tile. cbn [tile_x]. fold f. apply py_int_nonneg. exact Hf. }
  assert (Hfe : f == (lon + 180) * (pow2 zoom / 360)) by (unfold f; field).
  assert (Hs : 0 < pow2 zoom / 360).
  { apply Qmult_lt_0_compat; [exact Hn | exact Hinv]. }
  assert (Htop : inject_Z (2 ^ zoom) == 360 * (pow2 zoom / 360)) by (rewrite <- Hp; field).
  assert (Hle : f <= inject_Z (2 ^ zoom)).
  { rewrite Hfe, Htop. apply Qmult_le_compat_r; [lra | lra]. }
  rewrite Hx. split; [split |].
  - rewrite <- (Qfloor_Z 0). apply Qfloor_resp_le. exact Hf.
  - rewrite <- (Qfloor_Z (2 ^ zoom)). apply Qfloor_resp_le. exact Hle.
  - intros E. assert (Ef : f == inject_Z (2 ^ zoom)).
    { rewrite Hfe, Htop, E. ring. }
    rewrite Ef. apply Qfloor_Z.
Qed.

Lemma lonlat_to_tile_column_range_witness :
  let x := tile_x (@lonlat_to_tile rational_numlib 180 51 3) in
  (0 <= x <= 2 ^ 3)%Z /\ (180 == 180 -> x = (2 ^ 3)%Z).
Proof.
  apply (@lonlat_to_tile_column_range rational_numlib 180 51 3).
  - lia.
  - discriminate.
  - discriminate.
Defined.

(** X6: [ZoomLevel.new] returns a manual zoom as it is given, whatever its
    value; without one it returns the automatic zoom for the budget of 1000
    tiles, which lies in [1, 15]. *)
Theorem ZoomLevel_new_value `{NumLib} (params : GlobalParameters) (b : BBox_LL)
    (manual_zoom : option Z) (model_res : ModelResolution) :
  match manual_zoom with
  | Some z => ZoomLevel_new params b manual_zoom model_res = z
  | None =>
      ZoomLevel_new params b manual_zoom model_res
      = _compute_auto_zoom b params model_res 1000
      /\ (1 <= ZoomLevel_new params b manual_zoom model_res <= 15)%Z
  end.
Proof.
  destruct manual_zoom as [z |]; [reflexivity |].
  split; [reflexivity |]. unfold ZoomLevel_new, _compute_auto_zoom.
  destruct (auto_zoom_scan_result b params model_res 1000 (range 1 16) 15%Z)
    as [E | [Hin _]]; [rewrite E; lia | apply in_range in Hin; lia].
Qed.

(** ** Minimum and maximum of an array *)

Lemma Qmax_ge_l (a b : Q) : a <= Qmax a b.
Proof.
  unfold Qmax. destruct (Qle_bool a b) eqn:E; [apply Qle_bool_iff; exact E | apply Qle_refl].
Qed.

Lemma Qmax_ge_r (a b : Q) : b <= Qmax a b.
Proof.
  unfold Qmax. destruct (Qle_bool a b) eqn:E; [apply Qle_refl |].
  apply Qlt_le_weak. apply not_Qle_bool_lt. exact E.
Qed.

Lemma fold_left_Qmax_ge (l : list Q) (v : Q) :
  v <= fold_left Qmax l v /\ forall x, In x l -> x <= fold_left Qmax l v.
Proof.
  revert v. induction l as [| y l IH]; intros v.
  - split; [apply Qle_refl | intros x []].
  - cbn [fold_left]. destruct (IH (Qmax v y)) as [H1 H2]. split.
    + eapply Qle_trans; [apply Qmax_ge_l | exact H1].
    + intros x [<- | Hx].
      * eapply Qle_trans; [apply Qmax_ge_r | exact H1].
      * apply H2. exact Hx.
Qed.

Lemma fold_left_Qmin_in (l : list Q) (v : Q) : In (fold_left Qmin l v) (v :: l).
Proof.
  revert v. induction l as [| y l IH]; intros v.
  - left. reflexivity.
  - cbn [fold_left]. destruct (IH (Qmin v y)) as [E | Hin].
    + rewrite <- E. unfold Qmin. destruct (Qle_bool v y); [left | right; left]; reflexivity.
    + right. right. exact Hin.
Qed.

Lemma fold_left_Qmax_in (l : list Q) (v : Q) : In (fold_left Qmax l v) (v :: l).
Proof.
  revert v. induction l as [| y l IH]; intros v.
  - left. reflexivity.
  - cbn [fold_left]. destruct (IH (Qmax v y)) as [E | Hin].
    + rewrite <- E. unfold Qmax. destruct (Qle_bool v y); [right; left | left]; reflexivity.
    + right. right. exact Hin.
Qed.

Lemma np_max_upper_bound (l : list Q) (m : Q) :
  np_max l = Ok m -> forall x, In x l -> x <= m.
Proof.
  destruct l as [| v t]; [discriminate |]. cbn [np_max]. intros Heq. inversion Heq. subst m.
  destruct (fold_left_Qmax_ge t v) as [H1 H2].
  intros x [<- | Hx]; [exact H1 | apply H2; exact Hx].
Qed.

Lemma np_min_in (l : list Q) (m : Q) : np_min l = Ok m -> In m l.
Proof.
  destruct l as [| v t]; [discriminate |]. cbn [np_min]. intros Heq. inversion Heq.
  apply fold_left_Qmin_in.
Qed.

Lemma np_max_in (l : list Q) (m : Q) : np_max l = Ok m -> In m l.
Proof.
  destruct l as [| v t]; [discriminate |]. cbn [np_max]. intros Heq. inversion Heq.
  apply fold_left_Qmax_in.
Qed.

Lemma np_min_ok (l : list Q) : l <> [] -> exists m, np_min l = Ok m.
Proof. destruct l as [| v t]; [congruence |]. intros _. eexists. reflexivity. Qed.

Lemma np_max_ok (l : list Q) : l <> [] -> exists m, np_max l = Ok m.
Proof. destruct l as [| v t]; [congruence |]. intros _. eexists. reflexivity. Qed.

(** ** The tiles of a route *)

Lemma Route_LL_bounds_inv (route : Route_LL) (bounds : Bounds) :
  Route_LL_bounds route = Ok bounds ->
  np_min (latitudes route) = Ok (bounds_min_latitude bounds)
  /\ np_min (longitudes route) = Ok (bounds_min_longitude bounds)
  /\ np_max (latitudes route) = Ok (bounds_max_latitude bounds)
  /\ np_max (longitudes route) = Ok (bounds_max_longitude bounds).
Proof.
  unfold Route_LL_bounds.
  destruct (np_min (latitudes route)) as [a |]; [| discriminate].
  destruct (np_min (longitudes route)) as [b |]; [| discriminate].
  destruct (np_max (latitudes route)) as [c |]; [| discriminate].
  destruct (np_max (longitudes route)) as [d |]; [| discriminate].
  cbn [bind]. intros E. inversion E. cbn. auto.
Qed.

(** X5: every sample of a route lies on a fetched tile: with the bounding
    box made by [BBox_LL.new] from [Route_LL.bounds], the tile of each
    sample (lon, lat) of the route is in [tiles_to_cover] of that box, at
    every zoom (the Mercator ordinate not decreasing with the latitude
    between the bounds, pi positive). *)
Theorem route_samples_in_covering_tiles `{NumLib} (route : Route_LL) (bounds : Bounds)
    (zoom : Z) (k : nat) (lat lon : Q) :
  0 < np_pi ->
  Route_LL_bounds route = Ok bounds ->
  mercator_monotone (bounds_min_latitude bounds) (bounds_max_latitude bounds) ->
  nth_error (latitudes route) k = Some lat ->
  nth_error (longitudes route) k = Some lon ->
  In (lonlat_to_tile lon lat zoom) (tiles_to_cover (BBox_LL_new bounds) zoom).
Proof.
  intros Hpi Hb Hmono Hlat Hlon.
  apply Route_LL_bounds_inv in Hb as [H1 [H2 [H3 H4]]].
  apply nth_error_In in Hlat, Hlon.
  apply in_tiles_to_cover. split; [reflexivity |]. unfold in_tile_rectangle.
  cbn [BBox_LL_new min_longitude min_latitude max_longitude max_latitude].
  pose proof (np_min_lower_bound _ _ H1 _ Hlat) as L1.
  pose proof (np_min_lower_bound _ _ H2 _ Hlon) as L2.
  pose proof (np_max_upper_bound _ _ H3 _ Hlat) as L3.
  pose proof (np_max_upper_bound _ _ H4 _ Hlon) as L4.
  pose proof (lonlat_to_tile_x_mono (bounds_min_longitude bounds) lon
                (bounds_min_latitude bounds) lat zoom L2).
  pose proof (lonlat_to_tile_x_mono lon (bounds_max_longitude bounds)
                lat (bounds_max_latitude bounds) zoom L4).
  pose proof (lonlat_to_tile_y_antitone (bounds_min_longitude bounds) lon
                (bounds_min_latitude bounds) lat zoom Hpi
                (Hmono _ _ (Qle_refl _) L1 L3)).
  pose proof (lonlat_to_tile_y_antitone lon (bounds_max_longitude bounds)
                lat (bounds_max_latitude bounds) zoom Hpi
                (Hmono _ _ L1 L3 (Qle_refl _))).
  lia.
Qed.

Lemma rational_mercator_monotone (lo hi : Q) : @mercator_monotone rational_numlib lo hi.
Proof.
  intros a c _ Hac _. unfold mercator. cbn [np_arcsinh np_tan np_radians rational_numlib].
  apply Qmult_le_compat_r; [| discriminate].
  apply Qmult_le_compat_r; [exact Hac | discriminate].
Qed.

Lemma route_samples_in_covering_tiles_witness :
  In (@lonlat_to_tile rational_numlib (-2) 52 12)
     (@tiles_to_cover rational_numlib (BBox_LL_new two_point_bounds) 12).
Proof.
  apply (@route_samples_in_covering_tiles rational_numlib two_point_route two_point_bounds
           12 1 52 (-2)).
  - reflexivity.
  - reflexivity.
  - apply rational_mercator_monotone.
  - reflexivity.
  - reflexivity.
Defined.

(** ** The route in ENU coordinates *)

Section RouteENUFacts.
Context `{Geodesy}.

Lemma lonlat_to_enu_length (t : LonLatToENU) (lat lon ele : list Q) :
  length lon = length lat -> length ele = length lat ->
  length (lonlat_to_enu t lat lon ele) = length lat.
Proof.
  revert lon ele. induction lat as [| la lat IH]; intros lon ele Hlon Hele.
  - reflexivity.
  - destruct lon as [| lo lon]; [discriminate |].
    destruct ele as [| el ele]; [discriminate |].
    cbn [lonlat_to_enu length]. f_equal. apply IH; cbn [length] in *; lia.
Qed.

End RouteENUFacts.

(** X9: with the transform of [LonLatToENU.new] at the origin of the
    route (its first sample), [Route_ENU.new] returns three arrays of the
    length of the route whose first sample is the ENU origin (0, 0, 0). *)
Theorem Route_ENU_new_first_sample_at_origin `{Geodesy} (route : Route_LL)
    (origin : Q * Q * Q) :
  Route_LL_origin route = Ok origin ->
  length (longitudes route) = length (latitudes route) ->
  length (elevations route) = length (latitudes route) ->
  let r := Route_ENU_new route (LonLatToENU_new origin) in
  length (e r) = length (latitudes route)
  /\ length (n r) = length (latitudes route)
  /\ length (u r) = length (latitudes route)
  /\ nth 0 (e r) 0 == 0 /\ nth 0 (n r) 0 == 0 /\ nth 0 (u r) 0 == 0.
Proof.
  intros Horigin Hlon Hele r. unfold r, Route_ENU_new. cbn [e n u].
  rewrite !length_map, lonlat_to_enu_length by assumption.
  split; [reflexivity |]. split; [reflexivity |]. split; [reflexivity |].
  unfold Route_LL_origin, getitem in Horigin.
  destruct (latitudes route) as [| la lats]; [discriminate |].
  destruct (longitudes route) as [| lo lons]; [discriminate |].
  destruct (elevations route) as [| el eles]; [discriminate |].
  cbn in Horigin. inversion Horigin. subst origin.
  cbn [LonLatToENU_new lonlat_to_enu map nth lat0 lon0 h0].
  destruct (geodetic2enu_vertical la lo el el) as [H1 [H2 H3]].
  split; [exact H1 |]. split; [exact H2 |]. rewrite H3. ring.
Qed.

Lemma Route_ENU_new_first_sample_at_origin_witness :
  let r := @Route_ENU_new tangent_plane_geodesy two_point_route
             (LonLatToENU_new (51, -3, 10)) in
  length (e r) = 2%nat /\ length (n r) = 2%nat /\ length (u r) = 2%nat
  /\ nth 0 (e r) 0 == 0 /\ nth 0 (n r) 0 == 0 /\ nth 0 (u r) 0 == 0.
Proof.
  apply (@Route_ENU_new_first_sample_at_origin tangent_plane_geodesy two_point_route
           (51, -3, 10)); reflexivity.
Defined.

(** ** The route ribbon *)

Lemma stride_from_nth_error {A : Type} (step : nat) (l : list A) :
  (1 <= step)%nat ->
  forall skip k,
    nth_error (stride_from skip step l) k = nth_error l (skip + k * step).
Proof.
  intros Hstep. induction l as [| v t IH]; intros skip k.
  - cbn [stride_from]. destruct k; destruct (skip + _)%nat; reflexivity.
  - destruct skip as [| s]; cbn [stride_from].
    + destruct k as [| k]; [reflexivity |].
      cbn [nth_error]. rewrite IH.
      replace (0 + S k * step)%nat with (S (step - 1 + k * step)) by lia.
      reflexivity.
    + rewrite IH. reflexivity.
Qed.

Lemma slice_step_nth_error {A : Type} (l : list A) (step k : nat) :
  (1 <= step)%nat -> nth_error (slice_step l step) k = nth_error l (k * step).
Proof. intros Hstep. unfold slice_step. apply stride_from_nth_error. exact Hstep. Qed.

Lemma slice_step_one {A : Type} (l : list A) : slice_step l 1 = l.
Proof.
  unfold slice_step. induction l as [| v t IH]; [reflexivity |].
  cbn [stride_from Nat.sub]. rewrite IH. reflexivity.
Qed.

Lemma ribbon_downsample_small (route : list Q) (len : nat) :
  (len < 1000)%nat -> ribbon_downsample route len = route.
Proof.
  intros Hlen. unfold ribbon_downsample, ribbon_step.
  assert (Hq : (len / 500 <= 1)%nat).
  { destruct (Nat.le_gt_cases (len / 500) 1) as [Hle | Hgt]; [exact Hle |].
    pose proof (Nat.div_mod_eq len 500). lia. }
  replace (Nat.max 1 (len / 500)) with 1%nat by lia. apply slice_step_one.
Qed.

Lemma ribbon_downsample_at_least_500 (route : list Q) :
  (500 <= length route)%nat ->
  (500 <= length (ribbon_downsample route (length route)))%nat.
Proof.
  intros Hlen. unfold ribbon_downsample.
  rewrite slice_step_length by apply ribbon_step_pos.
  unfold strided_len, ribbon_step. set (n := length route) in *.
  assert (Hs : (1 <= n / 500)%nat) by (apply Nat.div_le_lower_bound; lia).
  rewrite Nat.max_r by lia. set (s := (n / 500)%nat) in *.
  assert (Hn : (500 * s <= n)%nat).
  { pose proof (Nat.div_mod_eq n 500). unfold s. lia. }
  apply Nat.div_le_lower_bound; [lia |]. nia.
Qed.

(** X24: the downsampling of [create_route_ribbon_mesh] keeps the samples
    at the multiples of the stride [max(1, len // 500)]: the k-th kept
    sample is the sample [k * stride] of the route.  A route of fewer than
    1000 samples is kept as it is, and of a route of at least 500 samples
    at least 500 are kept. *)
Theorem ribbon_downsample_kept_samples (route : list Q) (len k : nat) :
  nth_error (ribbon_downsample route len) k = nth_error route (k * ribbon_step len)
  /\ ((len < 1000)%nat -> ribbon_downsample route len = route)
  /\ ((500 <= length route)%nat ->
      (500 <= length (ribbon_downsample route (length route)))%nat).
Proof.
  split; [| split].
  - unfold ribbon_downsample. apply slice_step_nth_error. apply ribbon_step_pos.
  - apply ribbon_downsample_small.
  - apply ribbon_downsample_at_least_500.
Qed.

Example ribbon_downsample_drops_last_sample :
  let route := map (fun k => inject_Z (Z.of_nat k)) (seq 0 1000) in
  last route 0 = 999 /\ last (ribbon_downsample route (length route)) 0 = 998.
Proof. vm_compute. split; reflexivity. Qed.

Section RibbonLoop.
Context `{NumLib}.
Variables (re rn ru : list Q) (n_points : nat) (width height thickness : Q).
Hypothesis Hre : length re = n_points.
Hypothesis Hrn : length rn = n_points.
Hypothesis Hru : length ru = n_points.
Hypothesis Hn : (2 <= n_points)%nat.

Lemma ribbon_section_ok (i : nat) :
  (i < n_points)%nat ->
  exists sec, ribbon_section re rn ru n_points i width height thickness = Ok sec
              /\ length sec = 4%nat.
Proof.
  intros Hi. unfold ribbon_section.
  rewrite (getitem_nth re i), (getitem_nth rn i), (getitem_nth ru i) by lia.
  cbn [bind].
  destruct (Nat.eqb_spec i 0) as [-> | Hi0].
  - rewrite (getitem_nth re 1), (getitem_nth re 0), (getitem_nth rn 1), (getitem_nth rn 0)
      by lia.
    cbn [bind]. eexists. split; reflexivity.
  - destruct (Nat.eqb_spec i (n_points - 1)) as [Hlast | Hmid].
    + rewrite (getitem_nth re (i - 1)), (getitem_nth rn (i - 1)) by lia.
      cbn [bind]. eexists. split; reflexivity.
    + rewrite (getitem_nth re (i + 1)), (getitem_nth re (i - 1)),
        (getitem_nth rn (i + 1)), (getitem_nth rn (i - 1)) by lia.
      cbn [bind]. eexists. split; reflexivity.
Qed.

Lemma ribbon_loop_ok (todo : list nat) :
  (forall i, In i todo -> (i < n_points)%nat) ->
  exists vf, ribbon_loop re rn ru n_points width height thickness todo = Ok vf
             /\ length (fst vf) = (4 * length todo)%nat
             /\ snd vf = flat_map ribbon_segment_faces todo.
Proof.
  induction todo as [| i rest IH]; intros Hin.
  - exists ([], []). repeat split.
  - destruct (ribbon_section_ok i (Hin i (or_introl eq_refl))) as [sec [Hsec Hlen]].
    destruct IH as [more [Hmore [Hl Hf]]]; [intros k Hk; apply Hin; right; exact Hk |].
    cbn [ribbon_loop]. rewrite Hsec, Hmore. cbn [bind].
    eexists. split; [reflexivity |]. cbn [fst snd flat_map length].
    rewrite length_app, Hlen, Hl, Hf. split; [lia | reflexivity].
Qed.

End RibbonLoop.

Section RibbonMesh.
Context `{NumLib}.

Lemma ribbon_downsample_length_ge_2 (route : list Q) :
  (2 <= length route)%nat ->
  (2 <= length (ribbon_downsample route (length route)))%nat.
Proof.
  intros H2.
  destruct (Nat.lt_ge_cases (length route) 1000) as [Hlt | Hge].
  - rewrite ribbon_downsample_small by exact Hlt. exact H2.
  - pose proof (ribbon_downsample_at_least_500 route). lia.
Qed.

Lemma ribbon_downsample_same_length (route route' : list Q) (len : nat) :
  length route = length route' ->
  length (ribbon_downsample route len) = length (ribbon_downsample route' len).
Proof.
  intros Hlen. unfold ribbon_downsample.
  rewrite !slice_step_length by apply ribbon_step_pos. rewrite Hlen. reflexivity.
Qed.

Lemma ribbon_vertices_ok (route_e route_n route_u : list Q) (width height thickness : Q) :
  (2 <= length route_e)%nat ->
  length route_n = length route_e -> length route_u = length route_e ->
  let n_points := length (ribbon_downsample route_e (length route_e)) in
  exists vs,
    ribbon_vertices route_e route_n route_u width height thickness = Ok vs
    /\ length vs = (4 * n_points)%nat
    /\ create_route_ribbon_mesh route_e route_n route_u width height thickness
       = Ok (merge_vertices (Trimesh_new vs (ribbon_faces n_points))).
Proof.
  intros H2 Hn Hu n_points.
  pose proof (ribbon_downsample_length_ge_2 route_e H2) as Hge. fold n_points in Hge.
  destruct (ribbon_loop_ok (ribbon_downsample route_e (length route_e))
              (ribbon_downsample route_n (length route_e))
              (ribbon_downsample route_u (length route_e))
              n_points width height thickness eq_refl
              (ribbon_downsample_same_length _ _ _ Hn)
              (ribbon_downsample_same_length _ _ _ Hu) Hge (seq 0 n_points))
    as [vf [Hloop [Hlen Hfaces]]].
  { intros i Hi. apply in_seq in Hi. lia. }
  exists (fst vf). unfold ribbon_vertices, create_route_ribbon_mesh. fold n_points.
  rewrite Hloop. cbn [bind]. rewrite length_seq in Hlen.
  split; [reflexivity |]. split; [exact Hlen |].
  destruct (Nat.ltb_spec n_points 2); [lia |].
  unfold ribbon_faces, ribbon_caps. rewrite Hfaces. reflexivity.
Qed.

Lemma create_route_ribbon_mesh_short (route_e route_n route_u : list Q)
    (width height thickness : Q) :
  (length route_e < 2)%nat ->
  create_route_ribbon_mesh route_e route_n route_u width height thickness = Err ValueError.
Proof.
  intros Hlen. unfold create_route_ribbon_mesh.
  rewrite (ribbon_downsample_small route_e) by lia.
  destruct (Nat.ltb_spec (length route_e) 2); [reflexivity | lia].
Qed.

End RibbonMesh.

(** X25: [create_route_ribbon_mesh] raises [ValueError] when the
    route has fewer than 2 samples, whatever the other arguments; for three
    arrays of one length of at least 2 it returns a mesh. *)
Theorem create_route_ribbon_mesh_needs_two_points `{NumLib}
    (route_e route_n route_u : list Q) (width height thickness : Q) :
  ((length route_e < 2)%nat ->
     create_route_ribbon_mesh route_e route_n route_u width height thickness
     = Err ValueError)
  /\ ((2 <= length route_e)%nat ->
      length route_n = length route_e -> length route_u = length route_e ->
      exists m,
        create_route_ribbon_mesh route_e route_n route_u width height thickness = Ok m).
Proof.
  split.
  - apply create_route_ribbon_mesh_short.
  - intros H2 Hn Hu.
    destruct (ribbon_vertices_ok route_e route_n route_u width height thickness H2 Hn Hu)
      as [vs [_ [_ Hm]]].
    eexists. exact Hm.
Qed.

(** *** Topology of the ribbon *)

Lemma ribbon_fams_double_cover (n_points : nat) (f : fam) (i j : nat) :
  (2 <= n_points)%nat -> In f (ribbon_fams n_points) ->
  (i < fst (snd f))%nat -> (j < snd (snd f))%nat ->
  list_sum (map (fam_hit (fam_gen f (i, j))) (ribbon_fams n_points)) = 2%nat.
Proof.
  intros Hn Hin Hi Hj.
  unfold ribbon_fams, ribbon_segment_fams, ribbon_cap_fams in Hin.
  simpl in Hin.
  repeat (destruct Hin as [<- | Hin]);
    try (exfalso; exact Hin);
    cbn -[Nat.ltb Nat.leb Nat.eqb Nat.add Nat.sub] in *;
    unfold fam_hit, fam_gen, hit, gen; cbn [fst snd]; lia.
Qed.

Lemma flat_map_seq_shift {A : Type} (f : nat -> list A) (s n : nat) :
  flat_map f (seq (S s) n) = flat_map (fun i => f (S i)) (seq s n).
Proof.
  revert s. induction n as [| n IH]; intros s; [reflexivity |].
  cbn [seq flat_map]. rewrite IH. reflexivity.
Qed.

Lemma ribbon_faces_segments (n_points : nat) :
  (1 <= n_points)%nat ->
  ribbon_faces n_points
  = flat_map ribbon_faces_between (seq 0 (n_points - 1)) ++ ribbon_caps n_points.
Proof.
  intros Hn. unfold ribbon_faces. f_equal.
  destruct n_points as [| n]; [lia |].
  cbn [seq flat_map]. replace (S n - 1)%nat with n by lia.
  rewrite flat_map_seq_shift. reflexivity.
Qed.

Section RibbonEdges.
Variable n_points : nat.
Hypothesis Hn : (2 <= n_points)%nat.

Lemma ribbon_segment_edges_group :
  map edge_sorted (edges (flat_map ribbon_faces_between (seq 0 (n_points - 1))))
  = map (flat2 n_points 4)
        (group (ribbon_segment_fams n_points) (cells (n_points - 1) 1)).
Proof.
  unfold group. rewrite flat_map_cells, grid_flat_map_map, grid_flat_map_one_col.
  unfold edges. rewrite flat_map_flat_map, map_flat_map.
  apply flat_map_ext_seq. intros i Hi.
  unfold ribbon_faces_between, ribbon_segment_faces.
  replace (0 <? S i)%nat with true by reflexivity.
  cbn [flat_map face_edges app map ribbon_segment_fams].
  unfold edge_sorted, flat2, flat, fam_gen, gen. cbn [fst snd]. edge_lists.
Qed.

Lemma ribbon_cap_edges_group :
  map edge_sorted (edges (ribbon_caps n_points))
  = map (flat2 n_points 4) (group (ribbon_cap_fams n_points) (cells 1 1)).
Proof.
  unfold group, cells, ribbon_caps, ribbon_cap_fams, edges.
  cbn [seq flat_map map app face_edges].
  unfold edge_sorted, flat2, flat, fam_gen, gen. cbn [fst snd]. edge_lists.
Qed.

Lemma ribbon_faces_edges_groups :
  map edge_sorted (edges (ribbon_faces n_points))
  = map (flat2 n_points 4) (ribbon_groups n_points).
Proof.
  rewrite ribbon_faces_segments by lia. unfold ribbon_groups.
  rewrite edges_app, !map_app, ribbon_segment_edges_group, ribbon_cap_edges_group.
  reflexivity.
Qed.

Lemma count_ribbon_groups (x : cedge) :
  count_cedge x (ribbon_groups n_points)
  = list_sum (map (fam_hit x) (ribbon_fams n_points)).
Proof.
  unfold ribbon_groups, ribbon_fams. rewrite count_cedge_app, map_app, list_sum_app.
  f_equal; apply count_group_hits; intros f Hf;
    unfold ribbon_segment_fams, ribbon_cap_fams in Hf; fam_cases Hf; reflexivity.
Qed.

Lemma in_ribbon_groups (x : cedge) :
  In x (ribbon_groups n_points) ->
  exists f i j, In f (ribbon_fams n_points)
    /\ (i < fst (snd f))%nat /\ (j < snd (snd f))%nat /\ x = fam_gen f (i, j).
Proof.
  unfold ribbon_groups, ribbon_fams. rewrite !in_app_iff.
  intros Hin.
  destruct Hin as [Hin | Hin];
    apply in_group in Hin as [f [[i j] [Hf [Hc ->]]]];
    exists f, i, j; rewrite !in_app_iff;
    (split; [tauto |]);
    apply in_cells in Hc;
    unfold ribbon_segment_fams, ribbon_cap_fams in Hf;
    fam_cases Hf; cbn [fst snd]; tauto.
Qed.

Lemma ribbon_groups_double (x : cedge) :
  In x (ribbon_groups n_points) -> count_cedge x (ribbon_groups n_points) = 2%nat.
Proof.
  intros Hin. rewrite count_ribbon_groups.
  apply in_ribbon_groups in Hin as [f [i [j [Hf [Hi [Hj ->]]]]]].
  apply ribbon_fams_double_cover; assumption.
Qed.

Lemma ribbon_groups_ok (x : cedge) :
  In x (ribbon_groups n_points) -> cedge_ok n_points 4 x.
Proof.
  intros Hin.
  apply in_ribbon_groups in Hin as [f [i [j [Hf [Hi [Hj ->]]]]]].
  unfold ribbon_fams, ribbon_segment_fams, ribbon_cap_fams in Hf.
  rewrite !in_app_iff in Hf.
  repeat (destruct Hf as [Hf | Hf]); try (exfalso; exact Hf); subst f;
    unfold cedge_ok, cvertex_ok, fam_gen, gen; cbn [fst snd] in *; lia.
Qed.

(** Every edge of the ribbon's face list is used by exactly two faces. *)
Lemma ribbon_faces_edge_use (e : edge) :
  In e (edges (ribbon_faces n_points)) -> edge_use (ribbon_faces n_points) e = 2%nat.
Proof.
  intros Hin. unfold edge_use. rewrite ribbon_faces_edges_groups.
  assert (Hs : In (edge_sorted e) (map (flat2 n_points 4) (ribbon_groups n_points))).
  { rewrite <- ribbon_faces_edges_groups. apply in_map. exact Hin. }
  apply in_map_iff in Hs as [x [Hx Hxin]]. rewrite <- Hx.
  rewrite count_edge_flat2.
  - apply ribbon_groups_double; assumption.
  - apply ribbon_groups_ok; assumption.
  - apply Forall_forall. intros y Hy. apply ribbon_groups_ok; assumption.
Qed.

End RibbonEdges.

Lemma ribbon_faces_index_bound (n_points a b c : nat) :
  (2 <= n_points)%nat -> In (a, b, c) (ribbon_faces n_points) ->
  (a < 4 * n_points)%nat /\ (b < 4 * n_points)%nat /\ (c < 4 * n_points)%nat.
Proof.
  intros Hn Hin. rewrite ribbon_faces_segments in Hin by lia.
  apply in_app_or in Hin as [Hin | Hin].
  - apply in_flat_map in Hin as [i [Hi Hin]]. apply in_seq in Hi.
    unfold ribbon_faces_between, ribbon_segment_faces in Hin.
    replace (0 <? S i)%nat with true in Hin by reflexivity.
    cbn [In] in Hin.
    repeat (destruct Hin as [Hin | Hin]; [inversion Hin; lia |]). destruct Hin.
  - unfold ribbon_caps in Hin. cbn [In] in Hin.
    repeat (destruct Hin as [Hin | Hin]; [inversion Hin; lia |]). destruct Hin.
Qed.

Lemma ribbon_faces_length (n_points : nat) :
  (1 <= n_points)%nat -> length (ribbon_faces n_points) = (8 * (n_points - 1) + 4)%nat.
Proof.
  intros Hn. rewrite ribbon_faces_segments by exact Hn.
  rewrite length_app. cbn [ribbon_caps length]. f_equal.
  assert (Hl : forall l, length (flat_map ribbon_faces_between l) = (8 * length l)%nat).
  { induction l as [| i l IH]; [reflexivity |].
    cbn [flat_map]. rewrite length_app, IH.
    unfold ribbon_faces_between, ribbon_segment_faces.
    replace (0 <? S i)%nat with true by reflexivity. cbn [length]. lia. }
  rewrite Hl, length_seq. reflexivity.
Qed.

(** The first top triangle and the first triangle of the start cap both run
    from vertex 1 to vertex 0; the last top triangle and the first triangle
    of the end cap both run from the last top-left to the last top-right
    vertex. *)
Lemma ribbon_caps_same_direction (n_points : nat) :
  (2 <= n_points)%nat ->
  let l := ((n_points - 1) * 4)%nat in
  In (0, 4, 1)%nat (ribbon_faces n_points)
  /\ In (0, 2, 1)%nat (ribbon_faces n_points)
  /\ In (l - 4 + 1, l, l + 1)%nat (ribbon_faces n_points)
  /\ In (l, l + 1, l + 2)%nat (ribbon_faces n_points)
  /\ (2 <= count_edge (1, 0)%nat (edges (ribbon_faces n_points)))%nat
  /\ (2 <= count_edge (l, l + 1)%nat (edges (ribbon_faces n_points)))%nat.
Proof.
  intros Hn l.
  assert (Hseg : forall i f, (i < n_points - 1)%nat -> In f (ribbon_faces_between i) ->
            In f (ribbon_faces n_points)).
  { intros i f Hi Hf. rewrite ribbon_faces_segments by lia. apply in_or_app. left.
    apply in_flat_map. exists i. split; [apply in_seq; lia | exact Hf]. }
  assert (Hcap : forall f, In f (ribbon_caps n_points) -> In f (ribbon_faces n_points)).
  { intros f Hf. unfold ribbon_faces. apply in_or_app. right. exact Hf. }
  assert (H1 : In (0, 4, 1)%nat (ribbon_faces n_points)).
  { apply (Hseg 0%nat); [lia |]. left. reflexivity. }
  assert (H2 : In (0, 2, 1)%nat (ribbon_faces n_points)).
  { apply Hcap. left. reflexivity. }
  assert (H3 : In (l - 4 + 1, l, l + 1)%nat (ribbon_faces n_points)).
  { apply (Hseg (n_points - 2)%nat); [lia |].
    unfold ribbon_faces_between, ribbon_segment_faces.
    replace (0 <? S (n_points - 2))%nat with true by reflexivity.
    right. left. unfold l. repeat first [apply pair_eq | reflexivity]; lia. }
  assert (H4 : In (l, l + 1, l + 2)%nat (ribbon_faces n_points)).
  { apply Hcap. right. right. left. reflexivity. }
  repeat (split; [assumption |]).
  assert (Hsplit : forall (f g : face) (x : edge), f <> g ->
            In f (ribbon_faces n_points) -> In g (ribbon_faces n_points) ->
            In x (face_edges f) -> In x (face_edges g) ->
            (2 <= count_edge x (edges (ribbon_faces n_points)))%nat).
  { intros f g x Hne Hf Hg Hxf Hxg.
    apply in_split in Hf as [l1 [l2 E]]. rewrite E in Hg |- *.
    assert (Hg' : In g (l1 ++ l2)).
    { apply in_app_or in Hg as [Hg | [Hg | Hg]];
        [apply in_or_app; left; exact Hg | congruence | apply in_or_app; right; exact Hg]. }
    rewrite edges_app, count_edge_app. unfold edges at 2. cbn [flat_map].
    rewrite count_edge_app. fold (edges l2).
    pose proof (count_edge_in x (face_edges f) Hxf) as C1.
    assert (C2 : (1 <= count_edge x (edges l1) + count_edge x (edges l2))%nat).
    { rewrite <- count_edge_app, <- edges_app. apply count_edge_in.
      unfold edges. apply in_flat_map. exists g. split; assumption. }
    lia. }
  split.
  - apply (Hsplit (0, 4, 1)%nat (0, 2, 1)%nat); try assumption.
    + discriminate.
    + right. right. left. reflexivity.
    + right. right. left. reflexivity.
  - apply (Hsplit (l - 4 + 1, l, l + 1)%nat (l, l + 1, l + 2)%nat); try assumption.
    + intros E. inversion E. lia.
    + right. left. reflexivity.
    + left. reflexivity.
Qed.

(** The ribbon's face list is closed and its caps are wound like the
    tube, whatever the vertices. *)
Lemma ribbon_faces_watertight_not_oriented (n_points : nat) (vs : list vertex) :
  (2 <= n_points)%nat ->
  is_watertight {| vertices := vs; faces := ribbon_faces n_points |} = true
  /\ is_winding_consistent {| vertices := vs; faces := ribbon_faces n_points |} = false.
Proof.
  intros Hn.
  assert (Hwt : is_watertight {| vertices := vs; faces := ribbon_faces n_points |} = true).
  { unfold is_watertight. cbn [faces]. apply forallb_forall. intros e He.
    apply Nat.eqb_eq. apply ribbon_faces_edge_use; assumption. }
  split; [exact Hwt |].
  unfold is_winding_consistent. rewrite Hwt. cbn [andb faces].
  destruct (ribbon_caps_same_direction n_points Hn) as [Hin [_ [_ [_ [Hcount _]]]]].
  destruct (forallb _ (edges (ribbon_faces n_points))) eqn:E; [| reflexivity].
  exfalso. rewrite forallb_forall in E.
  specialize (E (1, 0)%nat). cbn beta in E.
  assert (He : In (1, 0)%nat (edges (ribbon_faces n_points))).
  { unfold edges. apply in_flat_map. exists (0, 4, 1)%nat.
    split; [exact Hin | right; right; left; reflexivity]. }
  specialize (E He). apply andb_true_iff in E as [E1 _].
  apply Nat.eqb_eq in E1. lia.
Qed.

(** X26: for route arrays of one length of at least 2,
    [create_route_ribbon_mesh] builds 4 vertices per kept sample and
    8 (n - 1) + 4 faces, in which every edge is used by exactly two faces.
    The first top triangle (0, 4, 1) and the start cap (0, 2, 1) traverse
    the edge 1 -> 0 in the same direction, and so do the last top triangle
    and the end cap: when no two vertices coincide the returned mesh has
    these vertices and faces, is watertight and is not winding-consistent. *)
Theorem create_route_ribbon_mesh_closed_caps_inverted `{NumLib}
    (route_e route_n route_u : list Q) (width height thickness : Q) :
  (2 <= length route_e)%nat ->
  length route_n = length route_e -> length route_u = length route_e ->
  let n_points := length (ribbon_downsample route_e (length route_e)) in
  let l := ((n_points - 1) * 4)%nat in
  exists vs,
    ribbon_vertices route_e route_n route_u width height thickness = Ok vs
    /\ length vs = (4 * n_points)%nat
    /\ length (ribbon_faces n_points) = (8 * (n_points - 1) + 4)%nat
    /\ (forall e, In e (edges (ribbon_faces n_points)) ->
          edge_use (ribbon_faces n_points) e = 2%nat)
    /\ In (0, 4, 1)%nat (ribbon_faces n_points)
    /\ In (0, 2, 1)%nat (ribbon_faces n_points)
    /\ In (l - 4 + 1, l, l + 1)%nat (ribbon_faces n_points)
    /\ In (l, l + 1, l + 2)%nat (ribbon_faces n_points)
    /\ (distinct_vertices vs ->
        exists m,
          create_route_ribbon_mesh route_e route_n route_u width height thickness = Ok m
          /\ vertices m = vs /\ faces m = ribbon_faces n_points
          /\ is_watertight m = true /\ is_winding_consistent m = false).
Proof.
  intros H2 Hn Hu n_points l.
  pose proof (ribbon_downsample_length_ge_2 route_e H2) as Hge. fold n_points in Hge.
  destruct (ribbon_vertices_ok route_e route_n route_u width height thickness H2 Hn Hu)
    as [vs [Hvs [Hlen Hmesh]]]. fold n_points in Hlen, Hmesh.
  destruct (ribbon_caps_same_direction n_points Hge) as [F1 [F2 [F3 [F4 _]]]].
  exists vs. split; [exact Hvs |]. split; [exact Hlen |].
  split; [apply ribbon_faces_length; lia |].
  split; [intros e0 He; apply ribbon_faces_edge_use; assumption |].
  repeat (split; [assumption |]).
  intros Hd.
  assert (Hidx : forall a b c, In (a, b, c) (ribbon_faces n_points) ->
            (a < length vs)%nat /\ (b < length vs)%nat /\ (c < length vs)%nat).
  { intros a b c Hin. rewrite Hlen. apply ribbon_faces_index_bound; assumption. }
  unfold Trimesh_new in Hmesh.
  rewrite !(merge_vertices_distinct vs (ribbon_faces n_points) Hd Hidx) in Hmesh.
  eexists. split; [exact Hmesh |]. cbn [vertices faces].
  split; [reflexivity |]. split; [reflexivity |].
  apply ribbon_faces_watertight_not_oriented. exact Hge.
Qed.

Lemma create_route_ribbon_mesh_closed_caps_inverted_witness :
  exists m,
    @create_route_ribbon_mesh rational_numlib
      straight_route_e straight_route_n straight_route_u 2 1 1 = Ok m
    /\ length (vertices m) = 8%nat /\ faces m = ribbon_faces 2
    /\ is_watertight m = true /\ is_winding_consistent m = false.
Proof.
  destruct (@create_route_ribbon_mesh_closed_caps_inverted rational_numlib
              straight_route_e straight_route_n straight_route_u 2 1 1)
    as [vs [Hvs [Hlen [_ [_ [_ [_ [_ [_ Hmesh]]]]]]]]]; [simpl; lia | reflexivity | reflexivity |].
  destruct Hmesh as [m [Hm [Hv [Hf [Hw Ho]]]]].
  { vm_compute in Hvs. inversion Hvs. subst vs.
    intros i j Hi Hj. cbn [length] in Hi, Hj.
    do 8 (destruct i as [| i]; [do 8 (destruct j as [| j]; [vm_compute; try discriminate; reflexivity |]); exfalso; lia |]).
    exfalso. lia. }
  exists m. split; [exact Hm |]. rewrite Hv. split; [exact Hlen |].
  split; [exact Hf |]. split; assumption.
Defined.

(** On the straight route going east, the top of the ribbon faces up, the
    start cap (at the west end) faces east and the end cap faces west:
    both caps face into the ribbon. *)
Example ribbon_caps_face_inward :
  exists vs,
    @ribbon_vertices rational_numlib straight_route_e straight_route_n straight_route_u 2 1 1
    = Ok vs
    /\ 0 < snd (face_normal vs (0, 4, 1)%nat)
    /\ 0 < fst (fst (face_normal vs (0, 2, 1)%nat))
    /\ fst (fst (face_normal vs (4, 5, 6)%nat)) < 0.
Proof. eexists. split; [vm_compute; reflexivity |]. vm_compute. repeat split. Qed.

(** ** Scaling for printing *)

Lemma np_min_scale (l : list Q) (s m : Q) :
  0 <= s -> np_min l = Ok m ->
  exists m', np_min (map (fun x => x * s) l) = Ok m' /\ m' == m * s.
Proof.
  intros Hs Hm.
  assert (Hne : map (fun x => x * s) l <> []).
  { destruct l; [discriminate | discriminate]. }
  destruct (np_min_ok _ Hne) as [m' Hm']. exists m'. split; [exact Hm' |].
  pose proof (np_min_in _ _ Hm') as Hin'. apply in_map_iff in Hin' as [x [Hx Hxin]].
  pose proof (np_min_in _ _ Hm) as Hin.
  pose proof (np_min_lower_bound _ _ Hm x Hxin) as L1.
  pose proof (np_min_lower_bound _ _ Hm' (m * s)) as L2.
  assert (L3 : m' <= m * s).
  { apply L2. apply in_map_iff. exists m. split; [reflexivity | exact Hin]. }
  apply Qle_antisym; [exact L3 |]. rewrite <- Hx.
  apply Qmult_le_compat_r; assumption.
Qed.

Lemma np_max_scale (l : list Q) (s m : Q) :
  0 <= s -> np_max l = Ok m ->
  exists m', np_max (map (fun x => x * s) l) = Ok m' /\ m' == m * s.
Proof.
  intros Hs Hm.
  assert (Hne : map (fun x => x * s) l <> []).
  { destruct l; [discriminate | discriminate]. }
  destruct (np_max_ok _ Hne) as [m' Hm']. exists m'. split; [exact Hm' |].
  pose proof (np_max_in _ _ Hm') as Hin'. apply in_map_iff in Hin' as [x [Hx Hxin]].
  pose proof (np_max_in _ _ Hm) as Hin.
  pose proof (np_max_upper_bound _ _ Hm x Hxin) as L1.
  pose proof (np_max_upper_bound _ _ Hm' (m * s)) as L2.
  assert (L3 : m * s <= m').
  { apply L2. apply in_map_iff. exists m. split; [reflexivity | exact Hin]. }
  apply Qle_antisym; [| exact L3]. rewrite <- Hx.
  apply Qmult_le_compat_r; assumption.
Qed.

Lemma Qmax_scale (a b a' b' s : Q) :
  0 <= s -> a' == a * s -> b' == b * s -> Qmax a' b' == Qmax a b * s.
Proof.
  intros Hs Ha Hb. unfold Qmax.
  destruct (Qle_bool a b) eqn:E, (Qle_bool a' b') eqn:E'.
  - exact Hb.
  - apply Qle_bool_iff in E. apply not_Qle_bool_lt in E'.
    pose proof (Qmult_le_compat_r _ _ s E Hs). rewrite Ha, Hb in E'. lra.
  - apply not_Qle_bool_lt in E. apply Qle_bool_iff in E'.
    pose proof (Qmult_le_compat_r _ _ s (Qlt_le_weak _ _ E) Hs). rewrite Ha, Hb in E'.
    rewrite Hb. lra.
  - exact Ha.
Qed.

Lemma bounds_inv (m : Trimesh) (b : vertex * vertex) :
  bounds m = Ok b ->
  np_min (map (fun v => fst (fst v)) (vertices m)) = Ok (fst (fst (fst b)))
  /\ np_min (map (fun v => snd (fst v)) (vertices m)) = Ok (snd (fst (fst b)))
  /\ np_min (map (fun v => snd v) (vertices m)) = Ok (snd (fst b))
  /\ np_max (map (fun v => fst (fst v)) (vertices m)) = Ok (fst (fst (snd b)))
  /\ np_max (map (fun v => snd (fst v)) (vertices m)) = Ok (snd (fst (snd b)))
  /\ np_max (map (fun v => snd v) (vertices m)) = Ok (snd (snd b)).
Proof.
  unfold bounds. destruct (vertices m) as [| v vs]; [discriminate |].
  cbn [map np_min np_max bind]. intros E. inversion E. cbn [fst snd]. repeat split.
Qed.

Lemma bounds_of_parts (m : Trimesh) (x0 y0 z0 x1 y1 z1 : Q) :
  np_min (map (fun v => fst (fst v)) (vertices m)) = Ok x0 ->
  np_min (map (fun v => snd (fst v)) (vertices m)) = Ok y0 ->
  np_min (map (fun v => snd v) (vertices m)) = Ok z0 ->
  np_max (map (fun v => fst (fst v)) (vertices m)) = Ok x1 ->
  np_max (map (fun v => snd (fst v)) (vertices m)) = Ok y1 ->
  np_max (map (fun v => snd v) (vertices m)) = Ok z1 ->
  bounds m = Ok ((x0, y0, z0), (x1, y1, z1)).
Proof.
  intros H1 H2 H3 H4 H5 H6. unfold bounds.
  destruct (vertices m) as [| v vs] eqn:E; [discriminate |].
  rewrite H1, H2, H3, H4, H5, H6. reflexivity.
Qed.

Lemma bounds_apply_scale (m : Trimesh) (s : Q) (b : vertex * vertex) :
  0 <= s -> bounds m = Ok b ->
  exists b', bounds (apply_scale m s) = Ok b'
    /\ longest_side b' == longest_side b * s.
Proof.
  intros Hs Hb. apply bounds_inv in Hb as [H1 [H2 [H3 [H4 [H5 H6]]]]].
  destruct (np_min_scale _ s _ Hs H1) as [x0 [X0 E0]].
  destruct (np_min_scale _ s _ Hs H2) as [y0 [Y0 F0]].
  destruct (np_min_scale _ s _ Hs H3) as [z0 [Z0 G0]].
  destruct (np_max_scale _ s _ Hs H4) as [x1 [X1 E1]].
  destruct (np_max_scale _ s _ Hs H5) as [y1 [Y1 F1]].
  destruct (np_max_scale _ s _ Hs H6) as [z1 [Z1 G1]].
  rewrite map_map in X0, Y0, Z0, X1, Y1, Z1.
  exists ((x0, y0, z0), (x1, y1, z1)). split.
  - apply bounds_of_parts; unfold apply_scale; cbn [vertices]; rewrite map_map;
      cbn [fst snd]; assumption.
  - unfold longest_side, vsub. cbn [fst snd].
    apply Qmax_scale; [exact Hs | apply Qmax_scale; [exact Hs | |] |].
    + rewrite E1, E0. ring.
    + rewrite F1, F0. ring.
    + rewrite G1, G0. ring.
Qed.

(** X21: for a mesh of positive extent and a target size of at least 0,
    [scale_mesh_for_printing] returns the factor
    [target_size_mm / (max_size_m * 1000)] with a mesh of the same faces
    and as many vertices, and the longest side of the bounding box of that
    mesh is [target_size_mm / 1000]. *)
Theorem scale_mesh_for_printing_longest_side (mesh : Trimesh) (target_size_mm : Q)
    (b : vertex * vertex) :
  bounds mesh = Ok b -> 0 < longest_side b -> 0 <= target_size_mm ->
  exists scaled b',
    scale_mesh_for_printing mesh target_size_mm = Ok scaled
    /\ snd scaled == target_size_mm / (longest_side b * 1000)
    /\ faces (fst scaled) = faces mesh
    /\ length (vertices (fst scaled)) = length (vertices mesh)
    /\ bounds (fst scaled) = Ok b'
    /\ longest_side b' == target_size_mm / 1000.
Proof.
  intros Hb Hpos Htarget.
  set (s := print_scale_factor (vsub (snd b) (fst b)) target_size_mm).
  assert (Es : s == target_size_mm / (longest_side b * 1000)) by reflexivity.
  assert (Hs : 0 <= s).
  { rewrite Es. apply Qmult_le_0_compat; [exact Htarget |].
    apply Qlt_le_weak. apply Qinv_lt_0_compat. lra. }
  destruct (bounds_apply_scale mesh s b Hs Hb) as [b' [Hb' Hl]].
  exists (apply_scale mesh s, s), b'.
  split; [unfold scale_mesh_for_printing; rewrite Hb; reflexivity |].
  cbn [fst snd]. split; [exact Es |]. split; [reflexivity |].
  split; [unfold apply_scale; cbn [vertices]; apply length_map |].
  split; [exact Hb' |]. rewrite Hl, Es. field. lra.
Qed.

Lemma scale_mesh_for_printing_longest_side_witness :
  exists scaled b',
    scale_mesh_for_printing one_triangle 100 = Ok scaled
    /\ snd scaled == 100 / (longest_side ((0, 0, 0), (2, 1, 0)) * 1000)
    /\ faces (fst scaled) = faces one_triangle
    /\ length (vertices (fst scaled)) = length (vertices one_triangle)
    /\ bounds (fst scaled) = Ok b'
    /\ longest_side b' == 100 / 1000.
Proof.
  apply (scale_mesh_for_printing_longest_side one_triangle 100 ((0, 0, 0), (2, 1, 0))).
  - reflexivity.
  - reflexivity.
  - discriminate.
Defined.

(** ** Route carving, continued *)

Lemma carve_value_bounds (route_width route_depth d elevation : Q) :
  0 <= d ->
  (0 <= route_depth ->
     elevation - route_depth <= carve_value route_width route_depth d elevation
     /\ carve_value route_width route_depth d elevation <= elevation)
  /\ (route_depth <= 0 ->
     elevation <= carve_value route_width route_depth d elevation
     /\ carve_value route_width route_depth d elevation <= elevation - route_depth).
Proof.
  intros Hd. unfold carve_value.
  destruct (Qlt_bool d (route_width / 2)) eqn:E.
  - apply Qlt_bool_iff in E.
    assert (Hhalf : 0 < route_width / 2) by lra.
    assert (Hq : 0 <= d / (route_width / 2)).
    { apply Qmult_le_0_compat; [exact Hd |].
      apply Qlt_le_weak. apply Qinv_lt_0_compat. exact Hhalf. }
    assert (Hq1 : d / (route_width / 2) < 1).
    { apply Qlt_shift_div_r; [exact Hhalf | lra]. }
    set (f := 1 - d / (route_width / 2)).
    assert (Hf : 0 <= f /\ f <= 1) by (unfold f; split; lra).
    destruct Hf as [Hf0 Hf1]. split; intros Hdepth.
    + pose proof (Qmult_le_0_compat _ _ Hdepth Hf0) as P1.
      assert (P2 : route_depth * f <= route_depth * 1).
      { rewrite !(Qmult_comm route_depth). apply Qmult_le_compat_r; assumption. }
      lra.
    + assert (Hneg : 0 <= - route_depth) by lra.
      pose proof (Qmult_le_0_compat _ _ Hneg Hf0) as P1.
      assert (P2 : - route_depth * f <= - route_depth * 1).
      { rewrite !(Qmult_comm (- route_depth)). apply Qmult_le_compat_r; assumption. }
      assert (P3 : - route_depth * f == - (route_depth * f)) by ring.
      lra.
  - split; intros Hdepth; lra.
Qed.

Section CarvingBounds.
Context `{NumLib}.

Lemma cell_min_dist_is_sqrt (terrain_e terrain_n : ndarray) (r : RouteArgs)
    (i j : nat) (d : Q) :
  cell_min_dist terrain_e terrain_n r i j = Ok d -> exists x, d = np_sqrt x.
Proof.
  unfold cell_min_dist.
  destruct (getitem2 terrain_e i j) as [te |]; [| discriminate].
  destruct (getitem2 terrain_n i j) as [tn |]; [| discriminate].
  cbn [bind].
  destruct (broadcast2 Qplus _ _) as [sums |]; [| discriminate].
  cbn [bind]. intros Hmin. apply np_min_in in Hmin.
  apply in_map_iff in Hmin as [x [Hx _]]. exists x. symmetry. exact Hx.
Qed.

End CarvingBounds.

(** X22: the carving of [create_terrain_mesh], for a route of at least
    one sample, changes no elevation by more than the route depth (the
    square root being non-negative): for a
    depth of at least 0 every cell ends between its elevation minus the
    depth and its elevation, for a depth of at most 0 between its elevation
    and its elevation minus the depth; a corridor width of at most 0 leaves
    every cell as it was. *)
Theorem create_terrain_mesh_carving_bounded `{NumLib}
    (terrain_e terrain_n terrain_u : ndarray) (base_height : Q)
    (r : RouteArgs) (route_width route_depth : Q) :
  (forall x, 0 <= np_sqrt x) ->
  grid_ok terrain_e terrain_n terrain_u ->
  route_samples_ok r ->
  let after := fst (create_terrain_mesh terrain_e terrain_n terrain_u base_height
                      (Some r) route_width route_depth) in
  forall i j, (i < nrows terrain_u)%nat -> (j < ncols terrain_u)%nat ->
    (0 <= route_depth ->
       get2 terrain_u i j - route_depth <= get2 after i j
       /\ get2 after i j <= get2 terrain_u i j)
    /\ (route_depth <= 0 ->
       get2 terrain_u i j <= get2 after i j
       /\ get2 after i j <= get2 terrain_u i j - route_depth)
    /\ (route_width <= 0 -> get2 after i j = get2 terrain_u i j).
Proof.
  intros Hsqrt Hgrid Hroute after i j Hi Hj.
  destruct (create_terrain_mesh_carved_array terrain_e terrain_n terrain_u base_height
              r route_width route_depth Hgrid Hroute) as [_ [_ [_ Hcell]]].
  destruct (Hcell i j Hi Hj) as [d [Hd Hv]]. fold after in Hv. rewrite Hv.
  assert (Hd0 : 0 <= d).
  { apply cell_min_dist_is_sqrt in Hd as [x ->]. apply Hsqrt. }
  destruct (carve_value_bounds route_width route_depth d (get2 terrain_u i j) Hd0)
    as [Hpos Hneg].
  split; [exact Hpos |]. split; [exact Hneg |].
  intros Hw. apply carve_value_outside.
  assert (Hhalf : route_width / 2 == route_width * (1 # 2)) by reflexivity.
  rewrite Hhalf. lra.
Qed.

Lemma Qsqrt_exact_nonneg (q : Q) : 0 <= Qsqrt_exact q.
Proof.
  unfold Qsqrt_exact, Qle. cbn [Qnum Qden]. rewrite Z.mul_1_r. cbn [Z.mul].
  apply Z.sqrt_nonneg.
Qed.

Lemma create_terrain_mesh_carving_bounded_witness :
  let after := fst (@create_terrain_mesh rational_numlib patch_e patch_n patch_u 10
                      (Some route_at_origin) 2 1) in
  (0 <= 1 ->
     get2 patch_u 0 0 - 1 <= get2 after 0 0 /\ get2 after 0 0 <= get2 patch_u 0 0)
  /\ (1 <= 0 ->
     get2 patch_u 0 0 <= get2 after 0 0 /\ get2 after 0 0 <= get2 patch_u 0 0 - 1)
  /\ (2 <= 0 -> get2 after 0 0 = get2 patch_u 0 0).
Proof.
  apply (@create_terrain_mesh_carving_bounded rational_numlib
           patch_e patch_n patch_u 10 route_at_origin 2 1).
  - apply Qsqrt_exact_nonneg.
  - unfold grid_ok, wf_ndarray, same_shape. simpl. repeat split.
  - unfold route_samples_ok. simpl. split; [discriminate | reflexivity].
  - simpl. lia.
  - simpl. lia.
Defined.

Section CarvingErrors.
Context `{NumLib}.

Lemma cell_min_dist_empty_route (terrain_e terrain_n : ndarray) (r : RouteArgs) (i j : nat) :
  wf_ndarray terrain_e -> wf_ndarray terrain_n ->
  (i < nrows terrain_e)%nat -> (j < ncols terrain_e)%nat ->
  (i < nrows terrain_n)%nat -> (j < ncols terrain_n)%nat ->
  route_e r = [] \/ route_n r = [] ->
  cell_min_dist terrain_e terrain_n r i j = Err ValueError.
Proof.
  intros He Hn Hie Hje Hin Hjn Hempty. unfold cell_min_dist.
  rewrite (getitem2_get2 _ _ _ He Hie Hje), (getitem2_get2 _ _ _ Hn Hin Hjn).
  cbn [bind]. unfold broadcast2. rewrite !length_map.
  destruct (route_e r) as [| e0 [| e1 re]], (route_n r) as [| n0 [| n1 rn]];
    cbn; try reflexivity; destruct Hempty; discriminate.
Qed.

End CarvingErrors.

(** X23: [create_terrain_mesh] with a route whose E or N array is empty,
    on a grid with at least one point, raises [ValueError] (the minimum of
    an empty array of distances) and leaves the caller's elevation array
    as it was. *)
Theorem create_terrain_mesh_empty_route_fails `{NumLib}
    (terrain_e terrain_n terrain_u : ndarray) (base_height : Q)
    (r : RouteArgs) (route_width route_depth : Q) :
  grid_ok terrain_e terrain_n terrain_u ->
  (1 <= nrows terrain_u)%nat -> (1 <= ncols terrain_u)%nat ->
  route_e r = [] \/ route_n r = [] ->
  create_terrain_mesh terrain_e terrain_n terrain_u base_height (Some r)
    route_width route_depth
  = (terrain_u, Err ValueError).
Proof.
  intros [He [Hn [Hu [[Her Hec] [Hnr Hnc]]]]] Hh Hw Hempty.
  unfold create_terrain_mesh.
  destruct (nrows terrain_u) as [| h] eqn:Eh; [lia |].
  destruct (ncols terrain_u) as [| w] eqn:Ew; [lia |].
  assert (Hc : cells (S h) (S w) = (0%nat, 0%nat) :: tl (cells (S h) (S w))) by reflexivity.
  rewrite Hc. cbn [carve_loop carve_cell].
  rewrite cell_min_dist_empty_route by (try assumption; lia).
  cbn [bind]. destruct terrain_u as [nr nc buf]. cbn in Eh, Ew. subst nr nc. reflexivity.
Qed.

Lemma create_terrain_mesh_empty_route_fails_witness :
  @create_terrain_mesh rational_numlib patch_e patch_n patch_u 10
    (Some {| route_e := []; route_n := []; route_u := [] |}) 2 1
  = (patch_u, Err ValueError).
Proof.
  apply (@create_terrain_mesh_empty_route_fails rational_numlib).
  - unfold grid_ok, wf_ndarray, same_shape. simpl. repeat split.
  - simpl. lia.
  - simpl. lia.
  - left. reflexivity.
Defined.

(** ** Strided slices of a grid *)

Lemma strided_len_one (len : nat) : strided_len len 1 = len.
Proof. unfold strided_len. rewrite Nat.div_1_r. lia. Qed.

Lemma strided_index_bound (len step i : nat) :
  (1 <= step)%nat -> (i < strided_len len step)%nat -> (i * step < len)%nat.
Proof.
  unfold strided_len. intros Hs Hi.
  pose proof (Nat.div_mod_eq (len + step - 1) step) as Hdm.
  pose proof (Nat.mod_upper_bound (len + step - 1) step ltac:(lia)) as Hm.
  nia.
Qed.

Lemma strided_len_ge_2 (len step : nat) :
  (1 <= step)%nat -> ((2 <= strided_len len step)%nat <-> (step < len)%nat).
Proof.
  unfold strided_len. intros Hs.
  pose proof (Nat.div_mod_eq (len + step - 1) step) as Hdm.
  pose proof (Nat.mod_upper_bound (len + step - 1) step ltac:(lia)) as Hm.
  split; intros H; nia.
Qed.

(** With the stride [max(1, m // target)] an axis of length at most [m]
    keeps at most [2 * target - 1] entries. *)
Lemma strided_len_bound (len m target : nat) :
  (1 <= target)%nat -> (len <= m)%nat ->
  (strided_len len (Nat.max 1 (m / target)) <= 2 * target - 1)%nat.
Proof.
  intros Ht Hlen. unfold strided_len.
  pose proof (Nat.div_mod_eq m target) as Hdm.
  pose proof (Nat.mod_upper_bound m target ltac:(lia)) as Hm.
  set (s := Nat.max 1 (m / target)).
  assert (Hs : (1 <= s)%nat) by (unfold s; lia).
  assert (Hms : (m < target * (s + 1))%nat).
  { unfold s. destruct (Nat.max_spec 1 (m / target)) as [[Hq ->] | [Hq ->]]; nia. }
  assert (Hlt : ((len + s - 1) / s < 2 * target)%nat).
  { apply Nat.Div0.div_lt_upper_bound. nia. }
  lia.
Qed.

Lemma map_nth_seq {A : Type} (l : list A) (d : A) :
  map (fun k => nth k l d) (seq 0 (length l)) = l.
Proof.
  apply (nth_ext _ _ d d).
  - rewrite length_map, length_seq. reflexivity.
  - intros k Hk. rewrite length_map, length_seq in Hk.
    rewrite (nth_indep _ d (nth 0 l d)) by (rewrite length_map, length_seq; exact Hk).
    rewrite (map_nth (fun k => nth k l d) (seq 0 (length l)) 0%nat).
    rewrite seq_nth by exact Hk. reflexivity.
Qed.

(** The buffer of a well-formed array lists its entries in the order of
    the loops. *)
Lemma ravel_cells (a : ndarray) :
  wf_ndarray a ->
  map (fun ij => get2 a (fst ij) (snd ij)) (cells (nrows a) (ncols a)) = ravel a.
Proof.
  intros Hwf. unfold get2.
  rewrite <- (map_map (fun ij => (fst ij * ncols a + snd ij)%nat)
                      (fun k => nth k (ravel a) 0)).
  rewrite cells_index, <- Hwf. apply map_nth_seq.
Qed.

Lemma slice2_wf (a : ndarray) (step : nat) : wf_ndarray (slice2 a step).
Proof.
  unfold wf_ndarray, slice2. cbn [ravel nrows ncols].
  rewrite length_map. apply cells_length.
Qed.

Lemma slice2_get2 (a : ndarray) (step i j : nat) :
  (i < nrows (slice2 a step))%nat -> (j < ncols (slice2 a step))%nat ->
  get2 (slice2 a step) i j = get2 a (i * step) (j * step).
Proof.
  intros Hi Hj. unfold slice2 in *. cbn [nrows ncols] in Hi, Hj.
  unfold get2 at 1. cbn [ravel ncols].
  set (h := strided_len (nrows a) step) in *.
  set (w := strided_len (ncols a) step) in *.
  set (f := fun ij : nat * nat => get2 a (fst ij * step) (snd ij * step)).
  pose proof (cells_nth_error h w i j Hi Hj) as Hc.
  apply (map_nth_error f) in Hc. apply nth_error_nth with (d := 0) in Hc.
  exact Hc.
Qed.

Lemma slice2_one (a : ndarray) : wf_ndarray a -> slice2 a 1 = a.
Proof.
  intros Hwf. unfold slice2. rewrite !strided_len_one.
  pose proof (ravel_cells a Hwf) as E.
  destruct a as [h w buf]. cbn [nrows ncols ravel] in *. f_equal.
  etransitivity; [| exact E].
  apply map_ext. intros [i j]. cbn [fst snd]. rewrite !Nat.mul_1_r. reflexivity.
Qed.

Lemma slice2_grid_ok (e0 n0 u0 : ndarray) (step : nat) :
  grid_ok e0 n0 u0 -> grid_ok (slice2 e0 step) (slice2 n0 step) (slice2 u0 step).
Proof.
  intros [_ [_ [_ [[Her Hec] [Hnr Hnc]]]]].
  unfold grid_ok, same_shape. repeat split; try apply slice2_wf;
    unfold slice2; cbn [nrows ncols]; congruence.
Qed.

Lemma slice2_regular (e0 n0 : ndarray) (step : nat) :
  (1 <= step)%nat -> same_shape n0 e0 ->
  regular_grid e0 n0 -> regular_grid (slice2 e0 step) (slice2 n0 step).
Proof.
  intros Hs [Hr Hc] Hreg [i j] [i' j'] Hin Hin' He Hn.
  apply in_cells in Hin as [Hi Hj]. apply in_cells in Hin' as [Hi' Hj'].
  cbn [fst snd] in He, Hn.
  assert (Hni : forall k, (k < nrows (slice2 e0 step))%nat -> (k < nrows (slice2 n0 step))%nat).
  { intros k. unfold slice2. cbn [nrows]. rewrite Hr. auto. }
  assert (Hnj : forall k, (k < ncols (slice2 e0 step))%nat -> (k < ncols (slice2 n0 step))%nat).
  { intros k. unfold slice2. cbn [ncols]. rewrite Hc. auto. }
  rewrite !slice2_get2 in He, Hn by auto.
  unfold slice2 in Hi, Hj, Hi', Hj'. cbn [nrows ncols] in Hi, Hj, Hi', Hj'.
  assert (Heq : (i * step, j * step)%nat = (i' * step, j' * step)%nat).
  { apply Hreg; cbn [fst snd]; try assumption;
      apply in_cells; split; apply strided_index_bound; assumption. }
  inversion Heq. f_equal; nia.
Qed.

Lemma slice2_strided_view (a : ndarray) (step : nat) :
  (1 <= step)%nat -> strided_view (slice2 a step) a step.
Proof.
  intros Hs. split; [reflexivity |]. split; [reflexivity |].
  intros i j Hi Hj.
  split; [apply strided_index_bound; assumption |].
  split; [apply strided_index_bound; assumption |].
  apply slice2_get2; assumption.
Qed.

(** ** The terrain *)

(** X17: [Terrain_ENU.downsample] raises [ZeroDivisionError] exactly for
    the target size 0.  Otherwise each grid of the result is the view
    [a[::step, ::step]] of the grid it comes from, with
    [step = max(1, max(height, width) // target_size)]: for a target size
    of at least 1 it has at most [2 * target_size - 1] rows and columns,
    and it is the terrain itself when [max(height, width)] is below twice
    the target size or the target size is negative. *)
Theorem Terrain_ENU_downsample_grid (t : Terrain_ENU) (target_size : Z) :
  let m := Nat.max (nrows (e_grid t)) (ncols (e_grid t)) in
  let step := Z.to_nat (Z.max 1 (Z.of_nat m / target_size)) in
  match Terrain_ENU_downsample t target_size with
  | inl err => target_size = 0%Z
  | inr t' =>
      target_size <> 0%Z
      /\ strided_view (e_grid t') (e_grid t) step
      /\ strided_view (n_grid t') (n_grid t) step
      /\ strided_view (u_grid t') (u_grid t) step
      /\ ((1 <= target_size)%Z ->
          (Z.of_nat (nrows (e_grid t')) <= 2 * target_size - 1)%Z
          /\ (Z.of_nat (ncols (e_grid t')) <= 2 * target_size - 1)%Z)
      /\ ((Z.of_nat m < 2 * target_size)%Z \/ (target_size < 0)%Z ->
          terrain_ok t -> t' = t)
  end.
Proof.
  intros m step. unfold Terrain_ENU_downsample, Terrain_ENU_shape.
  destruct (Z.eqb_spec target_size 0) as [E0 | Hne]; [exact E0 |].
  fold m. fold step.
  assert (Hstep : (1 <= step)%nat) by (unfold step; lia).
  split; [exact Hne |]. cbn [e_grid n_grid u_grid].
  split; [apply slice2_strided_view; exact Hstep |].
  split; [apply slice2_strided_view; exact Hstep |].
  split; [apply slice2_strided_view; exact Hstep |].
  split.
  - intros Ht.
    assert (Es : step = Nat.max 1 (m / Z.to_nat target_size)).
    { unfold step. rewrite <- (Z2Nat.id target_size) at 1 by lia.
      rewrite <- Nat2Z.inj_div. lia. }
    unfold slice2. cbn [nrows ncols]. rewrite Es.
    pose proof (strided_len_bound (nrows (e_grid t)) m (Z.to_nat target_size)
                  ltac:(lia) ltac:(unfold m; lia)).
    pose proof (strided_len_bound (ncols (e_grid t)) m (Z.to_nat target_size)
                  ltac:(lia) ltac:(unfold m; lia)).
    lia.
  - intros Hsmall [He [Hn [Hu _]]].
    assert (Es : step = 1%nat).
    { unfold step. destruct Hsmall as [Hlt | Hneg].
      - assert (Hq : (Z.of_nat m / target_size < 2)%Z).
        { apply Z.div_lt_upper_bound; lia. }
        lia.
      - assert (Hq : (Z.of_nat m / target_size <= 0)%Z).
        { pose proof (Z.div_mod (Z.of_nat m) target_size ltac:(lia)) as Hdm.
          pose proof (Z.mod_neg_bound (Z.of_nat m) target_size Hneg) as Hr.
          nia. }
        lia. }
    rewrite Es, !slice2_one by assumption. destruct t. reflexivity.
Qed.

Lemma encloses_min_max (l : list Q) (lo hi : Q) :
  np_min l = Ok lo -> np_max l = Ok hi -> encloses (lo, hi) l.
Proof.
  intros Hlo Hhi. unfold encloses. cbn [fst snd].
  split; [apply (np_min_in _ _ Hlo) |]. split; [apply (np_max_in _ _ Hhi) |].
  intros x Hx. split; [apply (np_min_lower_bound _ _ Hlo _ Hx) |
                       apply (np_max_upper_bound _ _ Hhi _ Hx)].
Qed.

Lemma np_min_empty (l : list Q) (err : PyError) : np_min l = Err err -> l = [] /\ err = ValueError.
Proof. destruct l; cbn [np_min]; intros E; inversion E. split; reflexivity. Qed.

Lemma np_max_empty (l : list Q) (err : PyError) : np_max l = Err err -> l = [] /\ err = ValueError.
Proof. destruct l; cbn [np_max]; intros E; inversion E. split; reflexivity. Qed.

(** X16: [Terrain_ENU.bounds] raises [ValueError] exactly when one of
    the three grids has no entry; otherwise each pair it returns consists
    of two entries of the grid that enclose all its entries. *)
Theorem Terrain_ENU_bounds_enclose (t : Terrain_ENU) :
  match Terrain_ENU_bounds t with
  | Ok (eb, nb, ub) =>
      encloses eb (ravel (e_grid t)) /\ encloses nb (ravel (n_grid t))
      /\ encloses ub (ravel (u_grid t))
  | Err err =>
      err = ValueError
      /\ (ravel (e_grid t) = [] \/ ravel (n_grid t) = [] \/ ravel (u_grid t) = [])
  end.
Proof.
  unfold Terrain_ENU_bounds.
  destruct (np_min (ravel (e_grid t))) as [e0 | err] eqn:E0;
    [| apply np_min_empty in E0 as [E0 ->]; cbn [bind]; auto].
  destruct (np_max (ravel (e_grid t))) as [e1 | err] eqn:E1;
    [| apply np_max_empty in E1 as [E1 ->]; cbn [bind]; auto].
  destruct (np_min (ravel (n_grid t))) as [n0 | err] eqn:N0;
    [| apply np_min_empty in N0 as [N0 ->]; cbn [bind]; auto].
  destruct (np_max (ravel (n_grid t))) as [n1 | err] eqn:N1;
    [| apply np_max_empty in N1 as [N1 ->]; cbn [bind]; auto].
  destruct (np_min (ravel (u_grid t))) as [u0 | err] eqn:U0;
    [| apply np_min_empty in U0 as [U0 ->]; cbn [bind]; auto].
  destruct (np_max (ravel (u_grid t))) as [u1 | err] eqn:U1;
    [| apply np_max_empty in U1 as [U1 ->]; cbn [bind]; auto].
  cbn [bind]. repeat split; try (apply encloses_min_max; assumption).
  all: first [ apply (np_min_in _ _ E0) | apply (np_max_in _ _ E1)
             | apply (np_min_in _ _ N0) | apply (np_max_in _ _ N1)
             | apply (np_min_in _ _ U0) | apply (np_max_in _ _ U1)
             | idtac ].
  all: cbn [fst snd];
    first [ apply (np_min_lower_bound _ _ E0); assumption
          | apply (np_max_upper_bound _ _ E1); assumption
          | apply (np_min_lower_bound _ _ N0); assumption
          | apply (np_max_upper_bound _ _ N1); assumption
          | apply (np_min_lower_bound _ _ U0); assumption
          | apply (np_max_upper_bound _ _ U1); assumption ].
Qed.

(** ** The face count of the terrain mesh *)

Lemma flat_map_length_const {A B : Type} (f : A -> list B) (l : list A) (c : nat) :
  (forall x, length (f x) = c) -> length (flat_map f l) = (c * length l)%nat.
Proof.
  intros Hc. induction l as [| x l IH]; cbn [flat_map length]; [lia |].
  rewrite length_app, Hc, IH. lia.
Qed.

Lemma all_faces_length (height width : nat) :
  (1 <= height)%nat -> (1 <= width)%nat ->
  length (all_faces height width) = (4 * (height * width - 1))%nat.
Proof.
  intros Hh Hw.
  assert (Htop : length (top_faces height width) = (2 * ((height - 1) * (width - 1)))%nat).
  { unfold top_faces.
    rewrite (flat_map_length_const _ _ (2 * (width - 1))).
    - rewrite length_seq. lia.
    - intros i. rewrite (flat_map_length_const _ _ 2); [rewrite length_seq; lia |].
      intros j. reflexivity. }
  unfold all_faces, side_faces, bottom_faces, side_top_edge, side_right_edge,
    side_bottom_edge, side_left_edge.
  rewrite !length_app, !length_map, !Htop.
  rewrite !(flat_map_length_const _ _ 2) by (intros; reflexivity).
  rewrite !length_seq.
  destruct height as [| h]; [lia |]. destruct width as [| w]; [lia |].
  assert (Htop' : @length (nat * nat * nat) (top_faces (S h) (S w))
                  = (2 * ((S h - 1) * (S w - 1)))%nat) by exact Htop.
  rewrite ?Htop'.
  replace (S h - 1)%nat with h by lia. replace (S w - 1)%nat with w by lia.
  replace (S h * S w - 1)%nat with (h * w + h + w)%nat
    by (rewrite Nat.mul_succ_l, Nat.mul_succ_r; lia).
  lia.
Qed.

(** ** The mesh of the generator *)

Section GeneratorMesh.
Context `{NumLib}.

Lemma MeshGenerator_create_terrain_mesh_build (self : MeshGenerator)
    (base_height : Q) (max_resolution : nat) :
  let h := nrows (e_grid (terrain self)) in
  let w := ncols (e_grid (terrain self)) in
  let step := Nat.max 1 (Nat.max h w / max_resolution) in
  MeshGenerator_create_terrain_mesh self base_height max_resolution
  = build_mesh (slice2 (e_grid (terrain self)) step) (slice2 (n_grid (terrain self)) step)
      (slice2 (u_grid (terrain self)) step) base_height.
Proof.
  intros h w step. unfold MeshGenerator_create_terrain_mesh, Terrain_ENU_shape.
  fold h w step. apply create_terrain_mesh_no_route.
Qed.

End GeneratorMesh.

(** X19: [MeshGenerator.create_terrain_mesh] on a regular terrain,
    with a positive base height, a maximal resolution of at least 1 and
    [step = max(1, max(height, width) // max_resolution)]: the mesh
    grid has at most [2 * max_resolution - 1] rows and columns; when the
    step is below both dimensions the method returns the watertight mesh of
    the strided grids, with 2 h' w' vertices and 4 (h' w' - 1) faces; when
    a dimension is at most the step, fewer than 2 rows or columns are left
    and it raises ([IndexError], or [ValueError] for an empty terrain). *)
Theorem MeshGenerator_create_terrain_mesh_downsampled `{NumLib} (self : MeshGenerator)
    (base_height : Q) (max_resolution : nat) :
  terrain_ok (terrain self) ->
  regular_grid (e_grid (terrain self)) (n_grid (terrain self)) ->
  0 < base_height -> (1 <= max_resolution)%nat ->
  let h := nrows (e_grid (terrain self)) in
  let w := ncols (e_grid (terrain self)) in
  let step := Nat.max 1 (Nat.max h w / max_resolution) in
  let h' := strided_len h step in
  let w' := strided_len w step in
  let e' := slice2 (e_grid (terrain self)) step in
  let n' := slice2 (n_grid (terrain self)) step in
  let u' := slice2 (u_grid (terrain self)) step in
  (h' <= 2 * max_resolution - 1)%nat /\ (w' <= 2 * max_resolution - 1)%nat
  /\ ((step < h)%nat -> (step < w)%nat ->
      exists m min_u,
        MeshGenerator_create_terrain_mesh self base_height max_resolution = Ok m
        /\ np_min (ravel u') = Ok min_u
        /\ vertices m = mesh_vertices e' n' u' (min_u - base_height)
        /\ length (vertices m) = (2 * (h' * w'))%nat
        /\ faces m = all_faces h' w'
        /\ length (faces m) = (4 * (h' * w' - 1))%nat
        /\ is_watertight m = true)
  /\ ((h <= step)%nat \/ (w <= step)%nat ->
      MeshGenerator_create_terrain_mesh self base_height max_resolution
      = Err (match ravel u' with [] => ValueError | _ => IndexError end)).
Proof.
  intros Hok Hreg Hbase HR h w step h' w' e' n' u'.
  assert (Hstep : (1 <= step)%nat) by (unfold step; lia).
  pose proof Hok as [He [Hn [Hu [[Her Hec] [Hnr Hnc]]]]].
  assert (Hgrid : grid_ok e' n' u') by (apply slice2_grid_ok; exact Hok).
  assert (Hrows : nrows u' = h').
  { unfold u', slice2, h', h. cbn [nrows]. rewrite Her. reflexivity. }
  assert (Hcols : ncols u' = w').
  { unfold u', slice2, w', w. cbn [ncols]. rewrite Hec. reflexivity. }
  rewrite MeshGenerator_create_terrain_mesh_build. fold h w step e' n' u'.
  split; [apply strided_len_bound; [exact HR | lia] |].
  split; [apply strided_len_bound; [exact HR | lia] |].
  split.
  - intros Hh Hw.
    assert (Hh2 : (2 <= nrows u')%nat) by (rewrite Hrows; apply strided_len_ge_2; assumption).
    assert (Hw2 : (2 <= ncols u')%nat) by (rewrite Hcols; apply strided_len_ge_2; assumption).
    assert (Hreg' : regular_grid e' n').
    { apply slice2_regular; [exact Hstep | split; congruence | exact Hreg]. }
    destruct (build_mesh_regular e' n' u' base_height Hgrid Hh2 Hw2 Hbase Hreg')
      as [min_u [Hmin Hmesh]].
    eexists. exists min_u. split; [exact Hmesh |]. cbn [vertices faces].
    split; [exact Hmin |]. split; [reflexivity |].
    split; [rewrite mesh_vertices_length, Hrows, Hcols; reflexivity |].
    rewrite Hrows, Hcols. split; [reflexivity |].
    split; [apply all_faces_length; rewrite <- ?Hrows, <- ?Hcols; lia |].
    apply all_faces_watertight_not_oriented; rewrite <- ?Hrows, <- ?Hcols; assumption.
  - intros Hsmall.
    assert (Hd : (nrows u' < 2)%nat \/ (ncols u' < 2)%nat).
    { rewrite Hrows, Hcols.
      pose proof (strided_len_ge_2 h step Hstep). pose proof (strided_len_ge_2 w step Hstep).
      destruct Hsmall; [left | right]; lia. }
    destruct (build_mesh_degenerate e' n' u' base_height Hd) as [err [Herr Hkind]].
    rewrite Herr, (Hkind Hgrid). reflexivity.
Qed.

Lemma small_terrain_regular : regular_grid (e_grid small_terrain) (n_grid small_terrain).
Proof.
  intros c c' Hc Hc' He Hn. simpl in Hc, Hc'.
  repeat (destruct Hc as [<- | Hc]; [| try (exfalso; exact Hc)]);
    repeat (destruct Hc' as [<- | Hc']; [| try (exfalso; exact Hc')]);
    try reflexivity; exfalso;
    vm_compute in He; vm_compute in Hn; try discriminate He; discriminate Hn.
Qed.

Lemma small_terrain_ok : terrain_ok small_terrain.
Proof. unfold terrain_ok, grid_ok, wf_ndarray, same_shape. simpl. repeat split. Qed.

Lemma MeshGenerator_create_terrain_mesh_downsampled_witness :
  exists m,
    @MeshGenerator_create_terrain_mesh rational_numlib small_generator 50 500 = Ok m
    /\ length (vertices m) = 8%nat /\ is_watertight m = true.
Proof.
  destruct (@MeshGenerator_create_terrain_mesh_downsampled rational_numlib
              small_generator 50 500 small_terrain_ok small_terrain_regular)
    as [_ [_ [Hmesh _]]]; [reflexivity | lia |].
  destruct Hmesh as [m [min_u [Hm [_ [_ [Hlen [_ [_ Hwt]]]]]]]]; [simpl; lia | simpl; lia |].
  exists m. split; [exact Hm |]. split; [exact Hlen | exact Hwt].
Defined.

(** ** The two scale factors of the export *)

Lemma np_min_char (l : list Q) (m : Q) :
  In m l -> (forall x, In x l -> m <= x) ->
  exists m', np_min l = Ok m' /\ m' == m.
Proof.
  intros Hin Hlow.
  assert (Hne : l <> []) by (intros ->; destruct Hin).
  destruct (np_min_ok l Hne) as [m' Hm']. exists m'. split; [exact Hm' |].
  apply Qle_antisym.
  - apply (np_min_lower_bound _ _ Hm'). exact Hin.
  - apply Hlow. apply (np_min_in _ _ Hm').
Qed.

Lemma np_max_char (l : list Q) (m : Q) :
  In m l -> (forall x, In x l -> x <= m) ->
  exists m', np_max l = Ok m' /\ m' == m.
Proof.
  intros Hin Hup.
  assert (Hne : l <> []) by (intros ->; destruct Hin).
  destruct (np_max_ok l Hne) as [m' Hm']. exists m'. split; [exact Hm' |].
  apply Qle_antisym.
  - apply Hup. apply (np_max_in _ _ Hm').
  - apply (np_max_upper_bound _ _ Hm'). exact Hin.
Qed.

Lemma Qmax_compat (a b a' b' : Q) : a' == a -> b' == b -> Qmax a' b' == Qmax a b.
Proof.
  intros Ha Hb.
  rewrite (Qmax_scale a b a' b' 1); [ring | discriminate | rewrite Ha; ring | rewrite Hb; ring].
Qed.

Lemma Qmax_le_iff (a b c : Q) : Qmax a b <= c <-> a <= c /\ b <= c.
Proof.
  pose proof (Qmax_ge_l a b). pose proof (Qmax_ge_r a b).
  split.
  - intros Hc. split; lra.
  - intros [Ha Hb]. unfold Qmax. destruct (Qle_bool a b); assumption.
Qed.

Lemma Qmax_absorb (a b : Q) : b <= a -> Qmax a b == a.
Proof.
  intros Hle. apply Qle_antisym; [apply Qmax_le_iff; split; [apply Qle_refl | exact Hle] |
                                  apply Qmax_ge_l].
Qed.

Lemma Qmax_take_r (a b : Q) : a <= b -> Qmax a b == b.
Proof.
  intros Hle. apply Qle_antisym; [apply Qmax_le_iff; split; [exact Hle | apply Qle_refl] |
                                  apply Qmax_ge_r].
Qed.

(** The bounding box of the vertices handed to trimesh: the extent of the
    grid, with the base below it. *)
Lemma mesh_vertices_bounds (terrain_e terrain_n terrain_u : ndarray) (base_height : Q)
    (fs : list face) (e0 e1 n0 n1 u0 u1 : Q) :
  grid_ok terrain_e terrain_n terrain_u ->
  0 <= base_height ->
  np_min (ravel terrain_e) = Ok e0 -> np_max (ravel terrain_e) = Ok e1 ->
  np_min (ravel terrain_n) = Ok n0 -> np_max (ravel terrain_n) = Ok n1 ->
  np_min (ravel terrain_u) = Ok u0 -> np_max (ravel terrain_u) = Ok u1 ->
  exists b,
    bounds {| vertices := mesh_vertices terrain_e terrain_n terrain_u (u0 - base_height);
              faces := fs |} = Ok b
    /\ longest_side b == Qmax (Qmax (e1 - e0) (n1 - n0)) (u1 - u0 + base_height).
Proof.
  intros [He [Hn [Hu [[Her Hec] [Hnr Hnc]]]]] Hbase E0 E1 N0 N1 U0 U1.
  set (base_z := u0 - base_height).
  set (cs := cells (nrows terrain_u) (ncols terrain_u)).
  set (F := fun ij : nat * nat =>
              (get2 terrain_e (fst ij) (snd ij), get2 terrain_n (fst ij) (snd ij),
               get2 terrain_u (fst ij) (snd ij))).
  set (B := fun v : vertex => (fst (fst v), snd (fst v), base_z)).
  assert (Hvs : mesh_vertices terrain_e terrain_n terrain_u base_z
                = map F cs ++ map B (map F cs)) by reflexivity.
  assert (Hxs : map (fun v : Q * Q * Q => fst (fst v)) (map F cs ++ map B (map F cs))
                = ravel terrain_e ++ ravel terrain_e).
  { rewrite map_app, !map_map. unfold F, B. cbn [fst snd].
    unfold cs. rewrite <- Her, <- Hec. rewrite (ravel_cells terrain_e He). reflexivity. }
  assert (Hys : map (fun v : Q * Q * Q => snd (fst v)) (map F cs ++ map B (map F cs))
                = ravel terrain_n ++ ravel terrain_n).
  { rewrite map_app, !map_map. unfold F, B. cbn [fst snd].
    unfold cs. rewrite <- Hnr, <- Hnc. rewrite (ravel_cells terrain_n Hn). reflexivity. }
  assert (Hzs : map (fun v : Q * Q * Q => snd v) (map F cs ++ map B (map F cs))
                = ravel terrain_u ++ map (fun _ => base_z) cs).
  { rewrite map_app, !map_map. unfold F, B. cbn [fst snd].
    unfold cs. rewrite (ravel_cells terrain_u Hu). reflexivity. }
  assert (Hcs : cs <> []).
  { intros Hnil. assert (Hl : length (ravel terrain_u) = 0%nat).
    { rewrite Hu, <- (cells_length (nrows terrain_u) (ncols terrain_u)).
      fold cs. rewrite Hnil. reflexivity. }
    destruct (ravel terrain_u); [discriminate U0 | discriminate Hl]. }
  assert (Hbz : In base_z (map (fun _ : nat * nat => base_z) cs)).
  { destruct cs as [| c cs']; [congruence | left; reflexivity]. }
  destruct (np_min_char (ravel terrain_e ++ ravel terrain_e) e0) as [x0 [X0 EX0]].
  { apply in_or_app. left. apply (np_min_in _ _ E0). }
  { intros x Hx. apply (np_min_lower_bound _ _ E0). apply in_app_or in Hx. tauto. }
  destruct (np_max_char (ravel terrain_e ++ ravel terrain_e) e1) as [x1 [X1 EX1]].
  { apply in_or_app. left. apply (np_max_in _ _ E1). }
  { intros x Hx. apply (np_max_upper_bound _ _ E1). apply in_app_or in Hx. tauto. }
  destruct (np_min_char (ravel terrain_n ++ ravel terrain_n) n0) as [y0 [Y0 EY0]].
  { apply in_or_app. left. apply (np_min_in _ _ N0). }
  { intros x Hx. apply (np_min_lower_bound _ _ N0). apply in_app_or in Hx. tauto. }
  destruct (np_max_char (ravel terrain_n ++ ravel terrain_n) n1) as [y1 [Y1 EY1]].
  { apply in_or_app. left. apply (np_max_in _ _ N1). }
  { intros x Hx. apply (np_max_upper_bound _ _ N1). apply in_app_or in Hx. tauto. }
  pose proof (np_min_in _ _ U0) as Hu0in.
  pose proof (np_max_upper_bound _ _ U1 _ Hu0in) as Hu01.
  destruct (np_min_char (ravel terrain_u ++ map (fun _ => base_z) cs) base_z)
    as [z0 [Z0 EZ0]].
  { apply in_or_app. right. exact Hbz. }
  { intros x Hx. apply in_app_or in Hx as [Hx | Hx].
    - pose proof (np_min_lower_bound _ _ U0 _ Hx). unfold base_z. lra.
    - apply in_map_iff in Hx as [c [<- _]]. apply Qle_refl. }
  destruct (np_max_char (ravel terrain_u ++ map (fun _ => base_z) cs) u1)
    as [z1 [Z1 EZ1]].
  { apply in_or_app. left. apply (np_max_in _ _ U1). }
  { intros x Hx. apply in_app_or in Hx as [Hx | Hx].
    - apply (np_max_upper_bound _ _ U1 _ Hx).
    - apply in_map_iff in Hx as [c [<- _]]. unfold base_z. lra. }
  exists ((x0, y0, z0), (x1, y1, z1)). split.
  - apply bounds_of_parts; cbn [vertices]; rewrite Hvs;
      rewrite ?Hxs, ?Hys, ?Hzs; assumption.
  - unfold longest_side, vsub. cbn [fst snd].
    apply Qmax_compat; [apply Qmax_compat |].
    + rewrite EX0, EX1. reflexivity.
    + rewrite EY0, EY1. reflexivity.
    + rewrite EZ0, EZ1. unfold base_z. ring.
Qed.

Lemma get2_in_ravel (a : ndarray) (i j : nat) :
  wf_ndarray a -> (i < nrows a)%nat -> (j < ncols a)%nat -> In (get2 a i j) (ravel a).
Proof.
  intros Hwf Hi Hj. unfold get2. apply nth_In. rewrite Hwf. nia.
Qed.

(** A regular grid with two columns has a positive horizontal extent. *)
Lemma regular_grid_extent (terrain_e terrain_n : ndarray) (e0 e1 n0 n1 : Q) :
  wf_ndarray terrain_e -> wf_ndarray terrain_n -> same_shape terrain_n terrain_e ->
  (1 <= nrows terrain_e)%nat -> (2 <= ncols terrain_e)%nat ->
  regular_grid terrain_e terrain_n ->
  np_min (ravel terrain_e) = Ok e0 -> np_max (ravel terrain_e) = Ok e1 ->
  np_min (ravel terrain_n) = Ok n0 -> np_max (ravel terrain_n) = Ok n1 ->
  0 < Qmax (e1 - e0) (n1 - n0).
Proof.
  intros He Hn [Hr Hc] Hh Hw Hreg E0 E1 N0 N1.
  apply Qnot_le_lt. intros Hle. apply Qmax_le_iff in Hle as [HE HN].
  assert (Hbad : (0%nat, 0%nat) = (0%nat, 1%nat)); [| discriminate].
  assert (He00 : In (get2 terrain_e 0 0) (ravel terrain_e)) by (apply get2_in_ravel; [assumption | lia | lia]).
  assert (He01 : In (get2 terrain_e 0 1) (ravel terrain_e)) by (apply get2_in_ravel; [assumption | lia | lia]).
  assert (Hn00 : In (get2 terrain_n 0 0) (ravel terrain_n)) by (apply get2_in_ravel; [assumption | lia | lia]).
  assert (Hn01 : In (get2 terrain_n 0 1) (ravel terrain_n)) by (apply get2_in_ravel; [assumption | lia | lia]).
  pose proof (np_min_lower_bound _ _ E0 _ He00). pose proof (np_max_upper_bound _ _ E1 _ He00).
  pose proof (np_min_lower_bound _ _ E0 _ He01). pose proof (np_max_upper_bound _ _ E1 _ He01).
  pose proof (np_min_lower_bound _ _ N0 _ Hn00). pose proof (np_max_upper_bound _ _ N1 _ Hn00).
  pose proof (np_min_lower_bound _ _ N0 _ Hn01). pose proof (np_max_upper_bound _ _ N1 _ Hn01).
  apply Hreg; cbn [fst snd]; try (apply in_cells; lia); apply Qle_antisym; lra.
Qed.

Lemma scale_factor_lt (target a b : Q) :
  0 < target -> 0 < b -> b < a -> target / (a * 1000) < target / (b * 1000).
Proof.
  intros Ht Hb Hab.
  assert (Ha : 0 < a) by lra.
  assert (E : target / (b * 1000) - target / (a * 1000)
              == target * (a - b) * / (a * b * 1000)) by (field; split; lra).
  assert (Hpos : 0 < target * (a - b) * / (a * b * 1000)).
  { apply Qmult_lt_0_compat; [apply Qmult_lt_0_compat; lra |].
    apply Qinv_lt_0_compat.
    apply Qmult_lt_0_compat; [apply Qmult_lt_0_compat; assumption | reflexivity]. }
  lra.
Qed.

(** X20: the two scale factors of [MeshGenerator.export_meshes] on a
    regular terrain of at least 2 and fewer than 1000 rows and columns
    (which is meshed without downsampling), with a positive base height
    and a route of at least 2 samples: the route is
    scaled by [target / (1000 * max(E, N, U))] and the terrain mesh by
    [target / (1000 * max(E, N, U + base_height))], E, N and U being the
    extents of the terrain grids.  The two are equal when the vertical
    extent with the base is at most the horizontal one; otherwise, for a
    positive target size, the terrain factor is the smaller one. *)
Theorem export_meshes_scale_factors `{NumLib} (self : MeshGenerator)
    (target_size_mm base_height route_height_ratio : Q) :
  terrain_ok (terrain self) ->
  regular_grid (e_grid (terrain self)) (n_grid (terrain self)) ->
  (2 <= nrows (e_grid (terrain self)))%nat ->
  (2 <= ncols (e_grid (terrain self)))%nat ->
  (Nat.max (nrows (e_grid (terrain self))) (ncols (e_grid (terrain self))) < 1000)%nat ->
  0 < base_height ->
  (2 <= length (e (route_enu self)))%nat ->
  length (n (route_enu self)) = length (e (route_enu self)) ->
  length (route_terrain_elevation self) = length (e (route_enu self)) ->
  exists out eb nb ub,
    export_meshes self target_size_mm base_height route_height_ratio = Ok out
    /\ Terrain_ENU_bounds (terrain self) = Ok (eb, nb, ub)
    /\ (let horizontal := Qmax (snd eb - fst eb) (snd nb - fst nb) in
        let vertical := snd ub - fst ub in
        0 < horizontal /\ 0 <= vertical
        /\ route_scale_factor out
           == target_size_mm / (Qmax horizontal vertical * 1000)
        /\ terrain_scale_factor out
           == target_size_mm / (Qmax horizontal (vertical + base_height) * 1000)
        /\ (vertical + base_height <= horizontal ->
            terrain_scale_factor out == route_scale_factor out)
        /\ (horizontal < vertical + base_height -> 0 < target_size_mm ->
            terrain_scale_factor out < route_scale_factor out)).
Proof.
  intros Hok Hreg Hh Hw Hsmall Hbase Hlen Hn Hu.
  pose proof Hok as [Hwe [Hwn [Hwu [[Her Hec] [Hnr Hnc]]]]].
  set (te := e_grid (terrain self)) in *.
  set (tn := n_grid (terrain self)) in *.
  set (tu := u_grid (terrain self)) in *.
  assert (Hne : forall a, wf_ndarray a -> nrows a = nrows tu -> ncols a = ncols tu ->
                  ravel a <> []).
  { intros a Hwf Hr Hc Hnil. unfold wf_ndarray in Hwf. rewrite Hnil, Hr, Hc in Hwf.
    cbn [length] in Hwf. nia. }
  destruct (np_min_ok (ravel te)) as [e0 E0]; [apply Hne; assumption |].
  destruct (np_max_ok (ravel te)) as [e1 E1]; [apply Hne; assumption |].
  destruct (np_min_ok (ravel tn)) as [n0 N0]; [apply Hne; assumption |].
  destruct (np_max_ok (ravel tn)) as [n1 N1]; [apply Hne; assumption |].
  destruct (np_min_ok (ravel tu)) as [u0 U0]; [apply Hne; auto |].
  destruct (np_max_ok (ravel tu)) as [u1 U1]; [apply Hne; auto |].
  (* the terrain mesh *)
  assert (Hstep : Nat.max 1 (Nat.max (nrows te) (ncols te) / 500) = 1%nat).
  { assert (Hq : (Nat.max (nrows te) (ncols te) / 500 < 2)%nat)
      by (apply Nat.Div0.div_lt_upper_bound; lia).
    lia. }
  assert (Hmesh : MeshGenerator_create_terrain_mesh self base_height 500
                  = build_mesh te tn tu base_height).
  { rewrite MeshGenerator_create_terrain_mesh_build. fold te tn tu.
    rewrite Hstep, !slice2_one by assumption. reflexivity. }
  destruct (build_mesh_regular te tn tu base_height Hok ltac:(lia) ltac:(lia) Hbase Hreg)
    as [min_u [Hmin Hbuilt]].
  assert (min_u = u0) by congruence. subst min_u.
  destruct (mesh_vertices_bounds te tn tu base_height (all_faces (nrows tu) (ncols tu))
              e0 e1 n0 n1 u0 u1 Hok (Qlt_le_weak _ _ Hbase) E0 E1 N0 N1 U0 U1)
    as [b [Hb Hlong]].
  (* the route mesh *)
  destruct (ribbon_vertices_ok (e (route_enu self)) (n (route_enu self))
              (route_terrain_elevation self) 20 (base_height * route_height_ratio) 20
              Hlen Hn Hu) as [vs [_ [_ Hribbon]]].
  eexists. exists (e0, e1), (n0, n1), (u0, u1).
  split.
  { unfold export_meshes. rewrite Hmesh, Hbuilt. cbn [bind].
    unfold scale_mesh_for_printing. rewrite Hb. cbn [bind].
    unfold MeshGenerator_create_route_mesh. rewrite Hribbon. cbn [bind].
    unfold export_route_scale_factor. fold te tn tu.
    rewrite E0, N0, U0, E1, N1, U1. cbn [bind]. reflexivity. }
  split.
  { unfold Terrain_ENU_bounds. fold te tn tu.
    rewrite E0, E1, N0, N1, U0, U1. reflexivity. }
  cbn [fst snd terrain_scale_factor route_scale_factor].
  assert (Hhor : 0 < Qmax (e1 - e0) (n1 - n0)).
  { apply (regular_grid_extent te tn); try assumption; [split; congruence | lia]. }
  assert (Hver : 0 <= u1 - u0).
  { pose proof (np_max_upper_bound _ _ U1 _ (np_min_in _ _ U0)). lra. }
  assert (Eroute : target_size_mm
                   / (Qmax (Qmax (fst (fst (vsub (e1, n1, u1) (e0, n0, u0))))
                                  (snd (fst (vsub (e1, n1, u1) (e0, n0, u0)))))
                            (snd (vsub (e1, n1, u1) (e0, n0, u0))) * 1000)
                   == target_size_mm / (Qmax (Qmax (e1 - e0) (n1 - n0)) (u1 - u0) * 1000))
    by reflexivity.
  assert (Eterrain : print_scale_factor (vsub (snd b) (fst b)) target_size_mm
                     == target_size_mm
                        / (Qmax (Qmax (e1 - e0) (n1 - n0)) (u1 - u0 + base_height) * 1000)).
  { change (print_scale_factor (vsub (snd b) (fst b)) target_size_mm)
      with (target_size_mm / (longest_side b * 1000)).
    rewrite Hlong. reflexivity. }
  split; [exact Hhor |]. split; [exact Hver |].
  split; [exact Eroute |]. split; [exact Eterrain |].
  split.
  - intros Hflat. rewrite Eterrain, Eroute.
    rewrite (Qmax_absorb _ (u1 - u0 + base_height)) by exact Hflat.
    rewrite (Qmax_absorb _ (u1 - u0)) by lra. reflexivity.
  - intros Htall Htarget. rewrite Eterrain, Eroute.
    rewrite (Qmax_take_r _ (u1 - u0 + base_height)) by lra.
    apply scale_factor_lt; [exact Htarget | |].
    + pose proof (Qmax_ge_l (Qmax (e1 - e0) (n1 - n0)) (u1 - u0)). lra.
    + apply Qnot_le_lt. intros Hc.
      pose proof (Qmax_le_iff (Qmax (e1 - e0) (n1 - n0)) (u1 - u0)
                    (Qmax (Qmax (e1 - e0) (n1 - n0)) (u1 - u0))) as [Hm _].
      destruct (Hm (Qle_refl _)) as [_ _].
      assert (Hup : Qmax (Qmax (e1 - e0) (n1 - n0)) (u1 - u0) < u1 - u0 + base_height).
      { unfold Qmax at 1. destruct (Qle_bool _ _); lra. }
      lra.
Qed.

Lemma export_meshes_scale_factors_witness :
  exists out,
    @export_meshes rational_numlib small_generator 100 50 (1 # 5) = Ok out
    /\ terrain_scale_factor out < route_scale_factor out.
Proof.
  destruct (@export_meshes_scale_factors rational_numlib small_generator 100 50 (1 # 5)
              small_terrain_ok small_terrain_regular)
    as [out [eb [nb [ub [Hout [Hb [_ [_ [_ [_ [_ Htall]]]]]]]]]]];
    [simpl; lia | simpl; lia | simpl; lia | reflexivity | simpl; lia | reflexivity
     | reflexivity |].
  exists out. split; [exact Hout |].
  vm_compute in Hb. inversion Hb. subst eb nb ub. apply Htall; reflexivity.
Defined.

(** ** Model resolution and automatic zoom *)

Section ModelResolutionFacts.
Context `{NumLib}.

Lemma meters_per_pixel_pos (params : GlobalParameters) (b : BBox_LL) (zoom : Z) :
  0 < EARTH_CIRCUMFERENCE_M params * np_cos (np_radians (central_latitude b)) ->
  0 < meters_per_pixel params b zoom.
Proof.
  intros Hpos. unfold meters_per_pixel. pose proof (pow2_pos zoom) as Hn.
  apply Qmult_lt_0_compat; [exact Hpos |]. apply Qinv_lt_0_compat.
  apply Qmult_lt_0_compat; [reflexivity | exact Hn].
Qed.

End ModelResolutionFacts.

(** X7: for a bounding box of zero extent (a route that stays at one
    point) and a model size other than 0, [ModelResolution.new] returns a
    resolution of 0 m, which no zoom level reaches (the circumference of
    the earth times the cosine of the central latitude being positive), so
    the automatic zoom of [ZoomLevel.new] is the fallback 15. *)
Theorem auto_zoom_of_point_bbox `{NumLib} (params : GlobalParameters) (b : BBox_LL) :
  ~ SIZE_MM params == 0 ->
  0 < EARTH_CIRCUMFERENCE_M params * np_cos (np_radians (central_latitude b)) ->
  latitude_span b == 0 -> longitude_span b == 0 ->
  exists model_res,
    ModelResolution_new params (latitude_span b) (longitude_span b) (central_latitude b)
    = inr model_res
    /\ meters model_res == 0
    /\ (forall zoom, ~ fine_enough b params model_res zoom)
    /\ ZoomLevel_new params b None model_res = 15%Z.
Proof.
  intros Hsize Hpos Hlat Hlon. unfold ModelResolution_new.
  destruct (Qeq_bool (SIZE_MM params) 0) eqn:E0;
    [apply Qeq_bool_iff in E0; contradiction |].
  eexists. split; [reflexivity |]. cbn [meters].
  assert (Hres : PRINT_RESOLUTION_MM params
                 * (Qmax (latitude_span b * M_PER_DEG_LAT params)
                         (longitude_span b
                          * (M_PER_DEG_LAT params * np_cos (np_radians (central_latitude b))))
                    / SIZE_MM params) == 0).
  { rewrite (Qmax_compat 0 0); [| rewrite Hlat; ring | rewrite Hlon; ring].
    assert (Hz : Qmax 0 0 == 0) by reflexivity. rewrite Hz. field. exact Hsize. }
  split; [exact Hres |].
  assert (Hcoarse : forall zoom,
            ~ fine_enough b params
                {| meters := PRINT_RESOLUTION_MM params
                     * (Qmax (latitude_span b * M_PER_DEG_LAT params)
                             (longitude_span b
                              * (M_PER_DEG_LAT params
                                 * np_cos (np_radians (central_latitude b))))
                        / SIZE_MM params) |} zoom).
  { intros zoom Hfine. unfold fine_enough in Hfine. cbn [meters] in Hfine.
    rewrite Hres in Hfine. pose proof (meters_per_pixel_pos params b zoom Hpos). lra. }
  split; [exact Hcoarse |].
  unfold ZoomLevel_new, _compute_auto_zoom. apply auto_zoom_scan_none.
  intros z _ [Hfine _]. exact (Hcoarse z Hfine).
Qed.

Lemma auto_zoom_of_point_bbox_witness :
  exists model_res,
    @ModelResolution_new rational_numlib default_params
      (latitude_span point_bbox) (longitude_span point_bbox) (central_latitude point_bbox)
    = inr model_res
    /\ @ZoomLevel_new rational_numlib default_params point_bbox None model_res = 15%Z.
Proof.
  destruct (@auto_zoom_of_point_bbox rational_numlib default_params point_bbox)
    as [model_res [Hres [_ [_ Hzoom]]]];
    [discriminate | reflexivity | reflexivity | reflexivity |].
  exists model_res. split; assumption.
Defined.

(** ** The generator *)

Section GeneratorNew.
Context `{NumLib} `{KDTree}.

Lemma sample_at_points_value (t : Terrain_ENU) (e_points n_points : list Q) :
  ravel (e_grid t) <> [] ->
  length (ravel (n_grid t)) = length (ravel (e_grid t)) ->
  length (ravel (u_grid t)) = length (ravel (e_grid t)) ->
  length e_points = length n_points ->
  let pts := combine (ravel (e_grid t)) (ravel (n_grid t)) in
  sample_at_points t e_points n_points
  = Ok (map (fun k => nth k (ravel (u_grid t)) 0)
            (map (kd_query pts) (combine e_points n_points))).
Proof.
  intros Hne Hn Hu Hq pts. unfold sample_at_points, column_stack.
  assert (E1 : (length (ravel (e_grid t)) =? length (ravel (n_grid t)))%nat = true)
    by (apply Nat.eqb_eq; lia).
  assert (E2 : (length e_points =? length n_points)%nat = true)
    by (apply Nat.eqb_eq; lia).
  rewrite E1, E2. cbn [bind]. fold pts.
  assert (Hpts_len : length pts = length (ravel (e_grid t))).
  { unfold pts. rewrite length_combine. lia. }
  assert (Hpts_ne : pts <> []).
  { intros Hnil. apply Hne. apply length_zero_iff_nil.
    rewrite <- Hpts_len, Hnil. reflexivity. }
  apply take_ok.
  apply Forall_forall. intros k Hk. apply in_map_iff in Hk as [q [<- _]].
  rewrite Hu, <- Hpts_len. apply (kd_query_nearest pts q Hpts_ne).
Qed.

Lemma sample_at_points_shape_error (t : Terrain_ENU) (e_points n_points : list Q) :
  length (ravel (n_grid t)) = length (ravel (e_grid t)) ->
  length e_points <> length n_points ->
  sample_at_points t e_points n_points = Err ValueError.
Proof.
  intros Hn Hq. unfold sample_at_points, column_stack.
  assert (E1 : (length (ravel (e_grid t)) =? length (ravel (n_grid t)))%nat = true)
    by (apply Nat.eqb_eq; lia).
  assert (E2 : (length e_points =? length n_points)%nat = false)
    by (apply Nat.eqb_neq; exact Hq).
  rewrite E1, E2. reflexivity.
Qed.

End GeneratorNew.

(** X18: on a terrain with at least one grid point,
    [MeshGenerator.new] raises [ValueError] when the E and N arrays of the
    route differ in length; otherwise it returns a generator with the
    terrain and the route as given and one elevation per route sample, each
    an entry of the terrain's [u_grid].  [create_route_mesh] of that
    generator raises [ValueError] for a route of fewer than 2 samples and
    returns a mesh for any longer route. *)
Theorem MeshGenerator_new_route_mesh `{NumLib} `{KDTree} (terrain0 : Terrain_ENU)
    (route : Route_ENU) (width height_ratio thickness base_height : Q) :
  ravel (e_grid terrain0) <> [] ->
  length (ravel (n_grid terrain0)) = length (ravel (e_grid terrain0)) ->
  length (ravel (u_grid terrain0)) = length (ravel (e_grid terrain0)) ->
  (length (e route) <> length (n route) ->
     MeshGenerator_new terrain0 route = Err ValueError)
  /\ (length (e route) = length (n route) ->
      exists g,
        MeshGenerator_new terrain0 route = Ok g
        /\ terrain g = terrain0 /\ route_enu g = route
        /\ length (route_terrain_elevation g) = length (e route)
        /\ (forall x, In x (route_terrain_elevation g) -> In x (ravel (u_grid terrain0)))
        /\ ((length (e route) < 2)%nat ->
            MeshGenerator_create_route_mesh g width height_ratio thickness base_height
            = Err ValueError)
        /\ ((2 <= length (e route))%nat ->
            exists m,
              MeshGenerator_create_route_mesh g width height_ratio thickness base_height
              = Ok m)).
Proof.
  intros Hne Hn Hu. split.
  - intros Hq. unfold MeshGenerator_new.
    rewrite sample_at_points_shape_error by assumption. reflexivity.
  - intros Hq. unfold MeshGenerator_new.
    rewrite sample_at_points_value by assumption. cbn [bind].
    eexists. split; [reflexivity |].
    cbn [terrain route_enu route_terrain_elevation].
    split; [reflexivity |]. split; [reflexivity |].
    assert (Hlen : length (map (fun k => nth k (ravel (u_grid terrain0)) 0)
                     (map (kd_query (combine (ravel (e_grid terrain0)) (ravel (n_grid terrain0))))
                        (combine (e route) (n route)))) = length (e route)).
    { rewrite !length_map, length_combine. lia. }
    split; [exact Hlen |]. split.
    + intros x Hx. apply in_map_iff in Hx as [k [<- Hk]].
      apply in_map_iff in Hk as [q [<- _]]. apply nth_In.
      assert (Hpts_len : length (combine (ravel (e_grid terrain0)) (ravel (n_grid terrain0)))
                         = length (ravel (e_grid terrain0))).
      { rewrite length_combine. lia. }
      rewrite Hu, <- Hpts_len. apply kd_query_nearest.
      intros Hnil. apply Hne. apply length_zero_iff_nil. rewrite <- Hpts_len, Hnil. reflexivity.
    + unfold MeshGenerator_create_route_mesh. cbn [route_enu route_terrain_elevation].
      split.
      * apply create_route_ribbon_mesh_short.
      * intros H2.
        destruct (ribbon_vertices_ok (e route) (n route)
                    (map (fun k => nth k (ravel (u_grid terrain0)) 0)
                       (map (kd_query (combine (ravel (e_grid terrain0))
                                               (ravel (n_grid terrain0))))
                          (combine (e route) (n route))))
                    width (base_height * height_ratio) thickness H2 (eq_sym Hq) Hlen)
          as [vs [_ [_ Hm]]].
        eexists. exact Hm.
Qed.

Lemma MeshGenerator_new_route_mesh_witness :
  exists g m,
    @MeshGenerator_new linear_scan_tree small_terrain (route_enu small_generator) = Ok g
    /\ route_terrain_elevation g = [100; 100]
    /\ @MeshGenerator_create_route_mesh rational_numlib g 20 (1 # 5) 20 50 = Ok m.
Proof.
  destruct (@MeshGenerator_new_route_mesh rational_numlib linear_scan_tree small_terrain
              (route_enu small_generator) 20 (1 # 5) 20 50)
    as [_ Hnew]; [discriminate | reflexivity | reflexivity |].
  destruct Hnew as [g [Hg [_ [_ [_ [_ [_ Hmesh]]]]]]]; [reflexivity |].
  destruct Hmesh as [m Hm]; [simpl; lia |].
  exists g, m. split; [exact Hg |]. split; [| exact Hm].
  vm_compute in Hg. inversion Hg. reflexivity.
Defined.

(** ** The heightmap *)

Lemma fold_left_Zmin_spec (l : list Z) (v : Z) :
  In (fold_left Z.min l v) (v :: l)
  /\ forall x, In x (v :: l) -> (fold_left Z.min l v <= x)%Z.
Proof.
  revert v. induction l as [| y l IH]; intros v.
  - split; [left; reflexivity |]. intros x [<- | []]. cbn. lia.
  - cbn [fold_left]. destruct (IH (Z.min v y)) as [Hin Hlow]. split.
    + destruct Hin as [E | Hin]; [| right; right; exact Hin].
      rewrite <- E. destruct (Z.min_spec v y) as [[_ ->] | [_ ->]];
        [left | right; left]; reflexivity.
    + intros x [<- | [<- | Hx]].
      * pose proof (Hlow (Z.min v y) (or_introl eq_refl)). lia.
      * pose proof (Hlow (Z.min v y) (or_introl eq_refl)). lia.
      * apply Hlow. right. exact Hx.
Qed.

Lemma fold_left_Zmax_spec (l : list Z) (v : Z) :
  In (fold_left Z.max l v) (v :: l)
  /\ forall x, In x (v :: l) -> (x <= fold_left Z.max l v)%Z.
Proof.
  revert v. induction l as [| y l IH]; intros v.
  - split; [left; reflexivity |]. intros x [<- | []]. cbn. lia.
  - cbn [fold_left]. destruct (IH (Z.max v y)) as [Hin Hup]. split.
    + destruct Hin as [E | Hin]; [| right; right; exact Hin].
      rewrite <- E. destruct (Z.max_spec v y) as [[_ ->] | [_ ->]];
        [right; left | left]; reflexivity.
    + intros x [<- | [<- | Hx]].
      * pose proof (Hup (Z.max v y) (or_introl eq_refl)). lia.
      * pose proof (Hup (Z.max v y) (or_introl eq_refl)). lia.
      * apply Hup. right. exact Hx.
Qed.

Lemma py_min_Z_spec (l : list Z) (m : Z) :
  py_min_Z l = Ok m <-> In m l /\ forall x, In x l -> (m <= x)%Z.
Proof.
  destruct l as [| v t].
  - split; [discriminate | intros [[] _]].
  - cbn [py_min_Z]. destruct (fold_left_Zmin_spec t v) as [Hin Hlow]. split.
    + intros E. inversion E. subst m. split; assumption.
    + intros [Hm Hl]. f_equal. pose proof (Hl _ Hin). pose proof (Hlow _ Hm). lia.
Qed.

Lemma py_max_Z_spec (l : list Z) (m : Z) :
  py_max_Z l = Ok m <-> In m l /\ forall x, In x l -> (x <= m)%Z.
Proof.
  destruct l as [| v t].
  - split; [discriminate | intros [[] _]].
  - cbn [py_max_Z]. destruct (fold_left_Zmax_spec t v) as [Hin Hup]. split.
    + intros E. inversion E. subst m. split; assumption.
    + intros [Hm Hl]. f_equal. pose proof (Hl _ Hin). pose proof (Hup _ Hm). lia.
Qed.

Lemma py_max_Z_ok (l : list Z) : l <> [] -> exists m, py_max_Z l = Ok m.
Proof. destruct l as [| v t]; [congruence | intros _; eexists; reflexivity]. Qed.

Lemma py_min_Z_same (l l' : list Z) (m : Z) :
  (forall x, In x l <-> In x l') -> py_min_Z l = Ok m -> py_min_Z l' = Ok m.
Proof.
  intros Hsame Hm. apply py_min_Z_spec in Hm as [Hin Hlow]. apply py_min_Z_spec.
  split; [apply Hsame; exact Hin |]. intros x Hx. apply Hlow. apply Hsame. exact Hx.
Qed.

Lemma py_max_Z_same (l l' : list Z) (m : Z) :
  (forall x, In x l <-> In x l') -> py_max_Z l = Ok m -> py_max_Z l' = Ok m.
Proof.
  intros Hsame Hm. apply py_max_Z_spec in Hm as [Hin Hup]. apply py_max_Z_spec.
  split; [apply Hsame; exact Hin |]. intros x Hx. apply Hup. apply Hsame. exact Hx.
Qed.

(** *** The dict of tiles *)

Lemma key_eqb_eq (k k' : Z * Z) : key_eqb k k' = true <-> k = k'.
Proof.
  destruct k as [a b], k' as [a' b']. unfold key_eqb. cbn [fst snd].
  rewrite andb_true_iff, !Z.eqb_eq. split; [intros [-> ->]; reflexivity |].
  intros E. inversion E. split; reflexivity.
Qed.

Lemma dict_set_keys (k : Z * Z) (v : ndarray) (d : TileDict) (k' : Z * Z) :
  In k' (dict_keys (dict_set k v d)) <-> k' = k \/ In k' (dict_keys d).
Proof.
  unfold dict_keys. induction d as [| [k0 v0] d IH]; cbn [dict_set map In fst].
  - split; [intros [E | []]; left; congruence | intros [E | []]; left; congruence].
  - destruct (key_eqb k k0) eqn:E; cbn [map In fst].
    + apply key_eqb_eq in E. subst k0. split; [tauto |]. intros [-> | H]; tauto.
    + rewrite IH. tauto.
Qed.

Lemma dict_set_NoDup (k : Z * Z) (v : ndarray) (d : TileDict) :
  NoDup (dict_keys d) -> NoDup (dict_keys (dict_set k v d)).
Proof.
  unfold dict_keys. induction d as [| [k0 v0] d IH]; cbn [dict_set map fst]; intros Hnd.
  - constructor; [intros [] | constructor].
  - destruct (key_eqb k k0) eqn:E; cbn [map fst]; [exact Hnd |].
    apply NoDup_cons_iff in Hnd as [Hnin Hnd]. constructor; [| apply IH; exact Hnd].
    intros Hin. apply (dict_set_keys k v d k0) in Hin as [-> | Hin].
    + assert (Ht : key_eqb k k = true) by (apply key_eqb_eq; reflexivity). congruence.
    + exact (Hnin Hin).
Qed.

Lemma dict_set_items (k : Z * Z) (v : ndarray) (d : TileDict) (k' : Z * Z) (v' : ndarray) :
  NoDup (dict_keys d) ->
  (In (k', v') (dict_set k v d) <-> (k' = k /\ v' = v) \/ (k' <> k /\ In (k', v') d)).
Proof.
  unfold dict_keys. induction d as [| [k0 v0] d IH]; cbn [dict_set map fst In]; intros Hnd.
  - split.
    + intros [E | []]. inversion E. left. split; reflexivity.
    + intros [[-> ->] | [_ []]]. left. reflexivity.
  - apply NoDup_cons_iff in Hnd as [Hnin Hnd].
    destruct (key_eqb k k0) eqn:E; cbn [In].
    + apply key_eqb_eq in E. subst k0. split.
      * intros [E | Hin]; [inversion E; left; split; reflexivity |].
        right. split; [| right; exact Hin]. intros ->.
        apply Hnin. apply in_map_iff. exists (k, v'). split; [reflexivity | exact Hin].
      * intros [[-> ->] | [Hne [E | Hin]]]; [left; reflexivity | | right; exact Hin].
        inversion E. congruence.
    + assert (Hk : k <> k0) by (intros ->; rewrite (proj2 (key_eqb_eq k0 k0) eq_refl) in E;
                                 discriminate).
      rewrite (IH Hnd). split.
      * intros [E' | [H1 | H2]]; [inversion E'; subst; right; split; [congruence | left; reflexivity]
                                 | left; exact H1 | right; split; [tauto | right; tauto]].
      * intros [H1 | [Hne [E' | Hin]]]; [right; left; exact H1 | left; exact E' | right; right; tauto].
Qed.

Lemma fetch_tiles_ok (client : TileSource) (zoom : Z) (tile_coords : list RasterTile)
    (d0 : TileDict) :
  (forall t, In t tile_coords -> tile_zoom t = zoom) ->
  tiles_fetched client tile_coords ->
  NoDup (dict_keys d0) ->
  exists d,
    fetch_tiles client tile_coords d0 = inr d
    /\ NoDup (dict_keys d)
    /\ (forall k, In k (dict_keys d) <->
          In (mk_RasterTile zoom (fst k) (snd k)) tile_coords \/ In k (dict_keys d0))
    /\ (forall k v, In (k, v) d ->
          (In (mk_RasterTile zoom (fst k) (snd k)) tile_coords
           /\ v = tile_data_at client zoom k)
          \/ (~ In (mk_RasterTile zoom (fst k) (snd k)) tile_coords /\ In (k, v) d0)).
Proof.
  revert d0. induction tile_coords as [| t rest IH]; intros d0 Hzoom Havail Hnd.
  - exists d0. split; [reflexivity |]. split; [exact Hnd |]. split.
    + intros k. cbn [In]. tauto.
    + intros k v Hin. right. split; [intros [] | exact Hin].
  - destruct (Havail t (or_introl eq_refl)) as [img Himg].
    assert (Ht : t = mk_RasterTile zoom (tile_x t) (tile_y t)).
    { rewrite <- (Hzoom t (or_introl eq_refl)). destruct t. reflexivity. }
    rewrite (Hzoom t (or_introl eq_refl)) in Himg.
    destruct (IH (dict_set (tile_x t, tile_y t) (decode_terrain_rgb img) d0))
      as [d [Hd [Hnd' [Hkeys Hitems]]]].
    { intros t' Ht'. apply Hzoom. right. exact Ht'. }
    { intros t' Ht'. apply Havail. right. exact Ht'. }
    { apply dict_set_NoDup. exact Hnd. }
    exists d. cbn [fetch_tiles]. rewrite (Hzoom t (or_introl eq_refl)), Himg.
    split; [exact Hd |]. split; [exact Hnd' |].
    assert (Hkey : forall k : Z * Z,
              mk_RasterTile zoom (fst k) (snd k) = t <-> k = (tile_x t, tile_y t)).
    { intros [a b]. cbn [fst snd]. split.
      - intros E. rewrite <- E. reflexivity.
      - intros E. inversion E. symmetry. exact Ht. }
    split.
    + intros k. rewrite Hkeys, dict_set_keys. cbn [In]. rewrite <- Hkey.
      split; [intros [H | [H | H]] | intros [[H | H] | H]]; auto.
    + intros k v Hin. destruct (Hitems k v Hin) as [[Hr Hv] | [Hnr Hin1]].
      * left. split; [right; exact Hr | exact Hv].
      * apply dict_set_items in Hin1 as [[Hk Hv] | [Hk Hin0]]; [| | exact Hnd].
        -- left. split; [left; symmetry; apply Hkey; exact Hk |].
           subst k v. unfold tile_data_at. cbn [fst snd]. rewrite Himg. reflexivity.
        -- right. split; [| exact Hin0]. intros [E | Hr]; [| exact (Hnr Hr)].
           apply Hk. apply Hkey. symmetry. exact E.
Qed.

(** *** Blocks *)

Lemma in_block_iff (row col i j : nat) :
  in_block row col (i, j) = true <-> (i / 256 = row /\ j / 256 = col)%nat.
Proof.
  unfold in_block. cbn [fst snd].
  rewrite !andb_true_iff, !Nat.leb_le, !Nat.ltb_lt.
  pose proof (Nat.div_mod_eq i 256) as Hi.
  pose proof (Nat.mod_upper_bound i 256 ltac:(lia)) as Hi'.
  pose proof (Nat.div_mod_eq j 256) as Hj.
  pose proof (Nat.mod_upper_bound j 256 ltac:(lia)) as Hj'.
  split; [intros [[[H1 H2] H3] H4] | intros [H1 H2]]; nia.
Qed.

Lemma set_block_get2 (heightmap : ndarray) (row col : nat) (tile_data : ndarray) :
  fits_block tile_data = true ->
  exists heightmap',
    set_block heightmap row col tile_data = Ok heightmap'
    /\ nrows heightmap' = nrows heightmap /\ ncols heightmap' = ncols heightmap
    /\ wf_ndarray heightmap'
    /\ forall i j, (i < nrows heightmap)%nat -> (j < ncols heightmap)%nat ->
         get2 heightmap' i j
         = if in_block row col (i, j)
           then broadcast_get tile_data (i - row * 256) (j - col * 256)
           else get2 heightmap i j.
Proof.
  intros Hfit. unfold set_block. rewrite Hfit. eexists. split; [reflexivity |].
  cbn [nrows ncols]. split; [reflexivity |]. split; [reflexivity |].
  split; [unfold wf_ndarray; cbn [ravel nrows ncols]; rewrite length_map; apply cells_length |].
  intros i j Hi Hj. unfold get2 at 1. cbn [ravel ncols].
  pose proof (cells_nth_error (nrows heightmap) (ncols heightmap) i j Hi Hj) as Hc.
  set (f := fun ij : nat * nat =>
              if in_block row col ij
              then broadcast_get tile_data (fst ij - row * 256) (snd ij - col * 256)
              else get2 heightmap (fst ij) (snd ij)).
  apply (map_nth_error f) in Hc. apply nth_error_nth with (d := 0) in Hc.
  exact Hc.
Qed.

Lemma block_disjoint (min_x min_y : Z) (k k' : Z * Z) (i j : nat) :
  (min_x <= fst k)%Z -> (min_y <= snd k)%Z -> (min_x <= fst k')%Z -> (min_y <= snd k')%Z ->
  k <> k' ->
  in_block (block_row min_y k) (block_col min_x k) (i, j) = true ->
  in_block (block_row min_y k') (block_col min_x k') (i, j) = false.
Proof.
  intros H1 H2 H3 H4 Hne Hin.
  destruct (in_block (block_row min_y k') (block_col min_x k') (i, j)) eqn:E; [| reflexivity].
  exfalso. apply in_block_iff in Hin as [R C]. apply in_block_iff in E as [R' C'].
  apply Hne. destruct k as [a b], k' as [a' b']. unfold block_row, block_col in *.
  cbn [fst snd] in *. f_equal; lia.
Qed.

Lemma stitch_pixels (items : TileDict) (min_x min_y : Z) (heightmap : ndarray) :
  NoDup (dict_keys items) ->
  (forall k v, In (k, v) items ->
     fits_block v = true /\ (min_x <= fst k)%Z /\ (min_y <= snd k)%Z) ->
  exists heightmap',
    stitch items min_x min_y heightmap = Ok heightmap'
    /\ nrows heightmap' = nrows heightmap /\ ncols heightmap' = ncols heightmap
    /\ (wf_ndarray heightmap -> wf_ndarray heightmap')
    /\ forall i j, (i < nrows heightmap)%nat -> (j < ncols heightmap)%nat ->
         (forall k v, In (k, v) items ->
            in_block (block_row min_y k) (block_col min_x k) (i, j) = true ->
            get2 heightmap' i j
            = broadcast_get v (i - block_row min_y k * 256) (j - block_col min_x k * 256))
         /\ ((forall k, In k (dict_keys items) ->
                in_block (block_row min_y k) (block_col min_x k) (i, j) = false) ->
             get2 heightmap' i j = get2 heightmap i j).
Proof.
  revert heightmap. induction items as [| [k0 v0] rest IH]; intros heightmap Hnd Hitems.
  - exists heightmap. split; [reflexivity |]. split; [reflexivity |]. split; [reflexivity |].
    split; [auto |]. intros i j Hi Hj. split; [intros k v [] | reflexivity].
  - unfold dict_keys in Hnd. cbn [map fst] in Hnd.
    apply NoDup_cons_iff in Hnd as [Hnin Hnd].
    destruct (Hitems k0 v0 (or_introl eq_refl)) as [Hfit [Hx0 Hy0]].
    destruct (set_block_get2 heightmap (block_row min_y k0) (block_col min_x k0) v0 Hfit)
      as [hm1 [Hset [Hr1 [Hc1 [Hwf1 Hget1]]]]].
    destruct (IH hm1 Hnd (fun k v Hin => Hitems k v (or_intror Hin)))
      as [hm2 [Hst [Hr2 [Hc2 [Hwf2 Hget2]]]]].
    exists hm2. split.
    { destruct k0 as [x0 y0]. cbn [stitch]. unfold block_row, block_col in Hset.
      cbn [fst snd] in Hset. rewrite Hset. cbn [bind]. exact Hst. }
    split; [congruence |]. split; [congruence |]. split; [intros _; apply Hwf2; exact Hwf1 |].
    intros i j Hi Hj.
    destruct (Hget2 i j ltac:(rewrite Hr1; exact Hi) ltac:(rewrite Hc1; exact Hj))
      as [Hcover Hfree].
    split.
    + intros k v [E | Hin] Hblock.
      * inversion E. subst k v. rewrite Hfree.
        -- rewrite (Hget1 i j Hi Hj), Hblock. reflexivity.
        -- intros k' Hk'. apply (block_disjoint min_x min_y k0 k'); try assumption.
           ++ apply in_map_iff in Hk' as [[k1 v1] [E1 Hin1]]. cbn [fst] in E1. subst k1.
              apply (Hitems k' v1 (or_intror Hin1)).
           ++ apply in_map_iff in Hk' as [[k1 v1] [E1 Hin1]]. cbn [fst] in E1. subst k1.
              apply (Hitems k' v1 (or_intror Hin1)).
           ++ intros ->. exact (Hnin Hk').
      * apply (Hcover k v Hin Hblock).
    + intros Hnone. rewrite Hfree.
      * rewrite (Hget1 i j Hi Hj).
        rewrite (Hnone k0 (or_introl eq_refl)). reflexivity.
      * intros k' Hk'. apply Hnone. right. exact Hk'.
Qed.

Lemma NoDup_constant_length {A : Type} (l : list A) (z : A) :
  NoDup l -> (forall x, In x l -> x = z) -> (length l <= 1)%nat.
Proof.
  intros Hnd Hall. destruct l as [| a [| b l]]; cbn [length]; try lia.
  exfalso. apply NoDup_cons_iff in Hnd as [Hnin _]. apply Hnin. left.
  rewrite (Hall a), (Hall b); [reflexivity | right; left; reflexivity | left; reflexivity].
Qed.

Lemma NoDup_two_length {A : Type} (l : list A) (a b : A) :
  In a l -> In b l -> a <> b -> (2 <= length l)%nat.
Proof.
  intros Ha Hb Hne. destruct l as [| x [| y l]]; cbn [length]; try lia.
  - destruct Ha.
  - destruct Ha as [<- | []], Hb as [<- | []]. congruence.
Qed.

Lemma get2_zeros (height width i j : nat) : get2 (zeros height width) i j = 0.
Proof.
  unfold get2, zeros. cbn [ravel ncols].
  generalize (i * width + j)%nat as k. generalize (cells height width) as l.
  induction l as [| c l IH]; intros [| k]; cbn [map nth]; auto.
Qed.

Lemma zeros_wf (height width : nat) : wf_ndarray (zeros height width).
Proof.
  unfold wf_ndarray, zeros. cbn [ravel nrows ncols]. rewrite length_map. apply cells_length.
Qed.

Lemma decode_fits (img : RGBImage) :
  tile_image_ok img ->
  fits_block (decode_terrain_rgb img) = true
  /\ wf_ndarray (decode_terrain_rgb img)
  /\ forall i j, broadcast_get (decode_terrain_rgb img) i j = get2 (decode_terrain_rgb img) i j.
Proof.
  intros [Hr [Hc Hlen]]. unfold fits_block, broadcast_get, wf_ndarray, decode_terrain_rgb.
  cbn [nrows ncols ravel]. rewrite Hr, Hc, length_map, Hlen.
  split; [reflexivity |]. split; reflexivity.
Qed.

Lemma create_heightmap_from_tiles_nonempty (client : TileSource)
    (tile_coords : list RasterTile) :
  tile_coords <> [] ->
  create_heightmap_from_tiles client tile_coords
  = if (1 <? length (nodup Z.eq_dec (map tile_zoom tile_coords)))%nat
    then HeightmapRaises ValueError
    else
      match fetch_tiles client tile_coords [] with
      | inl err => TileRaises err
      | inr tiles =>
          let xs := map (fun item => fst (fst item)) tiles in
          let ys := map (fun item => snd (fst item)) tiles in
          match py_min_Z xs, py_max_Z xs, py_min_Z ys, py_max_Z ys with
          | Ok min_x, Ok max_x, Ok min_y, Ok max_y =>
              let height := Z.to_nat ((max_y - min_y + 1) * 256) in
              let width := Z.to_nat ((max_x - min_x + 1) * 256) in
              match stitch tiles min_x min_y (zeros height width) with
              | Ok heightmap' => Heightmap heightmap'
              | Err e => HeightmapRaises e
              end
          | _, _, _, _ => HeightmapRaises ValueError
          end
      end.
Proof. destruct tile_coords; [congruence | reflexivity]. Qed.

Lemma tiles_available_fetched (client : TileSource) (tile_coords : list RasterTile) :
  tiles_available client tile_coords -> tiles_fetched client tile_coords.
Proof. intros Havail t Ht. destruct (Havail t Ht) as [img [Himg _]]. exists img. exact Himg. Qed.

Section HeightmapStitch.
Variables (client : TileSource) (tile_coords : list RasterTile) (zoom : Z).
Hypothesis Hne : tile_coords <> [].
Hypothesis Hzoom : forall t, In t tile_coords -> tile_zoom t = zoom.
Hypothesis Havail : tiles_available client tile_coords.

Lemma heightmap_zoom_check :
  (1 <? length (nodup Z.eq_dec (map tile_zoom tile_coords)))%nat = false.
Proof.
  apply Nat.ltb_ge. apply (NoDup_constant_length _ zoom); [apply NoDup_nodup |].
  intros z Hz. apply nodup_In in Hz. apply in_map_iff in Hz as [t [<- Ht]].
  apply Hzoom. exact Ht.
Qed.

Lemma create_heightmap_from_tiles_pixels :
  exists heightmap min_x max_x min_y max_y,
    create_heightmap_from_tiles client tile_coords = Heightmap heightmap
    /\ py_min_Z (map tile_x tile_coords) = Ok min_x
    /\ py_max_Z (map tile_x tile_coords) = Ok max_x
    /\ py_min_Z (map tile_y tile_coords) = Ok min_y
    /\ py_max_Z (map tile_y tile_coords) = Ok max_y
    /\ nrows heightmap = Z.to_nat ((max_y - min_y + 1) * 256)
    /\ ncols heightmap = Z.to_nat ((max_x - min_x + 1) * 256)
    /\ wf_ndarray heightmap
    /\ forall i j, (i < nrows heightmap)%nat -> (j < ncols heightmap)%nat ->
         let x := (min_x + Z.of_nat (j / 256))%Z in
         let y := (min_y + Z.of_nat (i / 256))%Z in
         (In (mk_RasterTile zoom x y) tile_coords ->
            exists img, client zoom x y = inr img
              /\ get2 heightmap i j
                 = get2 (decode_terrain_rgb img) (i mod 256) (j mod 256))
         /\ (~ In (mk_RasterTile zoom x y) tile_coords -> get2 heightmap i j = 0).
Proof.
  destruct (fetch_tiles_ok client zoom tile_coords [] Hzoom
              (tiles_available_fetched client tile_coords Havail) (NoDup_nil _))
    as [d [Hfetch [Hnd [Hkeys Hitems]]]].
  assert (Hkeys' : forall k, In k (dict_keys d) <->
                     In (mk_RasterTile zoom (fst k) (snd k)) tile_coords).
  { intros k. rewrite Hkeys. cbn [dict_keys map In]. tauto. }
  assert (Hitems' : forall k v, In (k, v) d ->
                      In (mk_RasterTile zoom (fst k) (snd k)) tile_coords
                      /\ v = tile_data_at client zoom k).
  { intros k v Hin. destruct (Hitems k v Hin) as [H | [_ []]]. exact H. }
  assert (Htile : forall t, In t tile_coords -> t = mk_RasterTile zoom (tile_x t) (tile_y t)).
  { intros t Ht. rewrite <- (Hzoom t Ht). destruct t. reflexivity. }
  assert (Hxs : forall x, In x (map tile_x tile_coords)
                  <-> In x (map (fun item : Z * Z * ndarray => fst (fst item)) d)).
  { intros x. rewrite !in_map_iff. split.
    - intros [t [<- Ht]].
      assert (Hk : In (tile_x t, tile_y t) (dict_keys d)).
      { apply Hkeys'. cbn [fst snd]. rewrite <- (Htile t Ht). exact Ht. }
      apply in_map_iff in Hk as [[k v] [E Hin]]. cbn [fst] in E. subst k.
      exists (tile_x t, tile_y t, v). split; [reflexivity | exact Hin].
    - intros [[k v] [<- Hin]]. destruct (Hitems' k v Hin) as [Ht _].
      eexists. split; [| exact Ht]. reflexivity. }
  assert (Hys : forall y, In y (map tile_y tile_coords)
                  <-> In y (map (fun item : Z * Z * ndarray => snd (fst item)) d)).
  { intros y. rewrite !in_map_iff. split.
    - intros [t [<- Ht]].
      assert (Hk : In (tile_x t, tile_y t) (dict_keys d)).
      { apply Hkeys'. cbn [fst snd]. rewrite <- (Htile t Ht). exact Ht. }
      apply in_map_iff in Hk as [[k v] [E Hin]]. cbn [fst] in E. subst k.
      exists (tile_x t, tile_y t, v). split; [reflexivity | exact Hin].
    - intros [[k v] [<- Hin]]. destruct (Hitems' k v Hin) as [Ht _].
      eexists. split; [| exact Ht]. reflexivity. }
  assert (Hnx : map tile_x tile_coords <> []) by (destruct tile_coords; [congruence | discriminate]).
  assert (Hny : map tile_y tile_coords <> []) by (destruct tile_coords; [congruence | discriminate]).
  destruct (py_min_Z_ok _ Hnx) as [min_x Hminx]. destruct (py_max_Z_ok _ Hnx) as [max_x Hmaxx].
  destruct (py_min_Z_ok _ Hny) as [min_y Hminy]. destruct (py_max_Z_ok _ Hny) as [max_y Hmaxy].
  pose proof (py_min_Z_same _ _ _ Hxs Hminx) as Dminx.
  pose proof (py_max_Z_same _ _ _ Hxs Hmaxx) as Dmaxx.
  pose proof (py_min_Z_same _ _ _ Hys Hminy) as Dminy.
  pose proof (py_max_Z_same _ _ _ Hys Hmaxy) as Dmaxy.
  apply py_min_Z_spec in Hminx as Sminx. apply py_min_Z_spec in Hminy as Sminy.
  set (height := Z.to_nat ((max_y - min_y + 1) * 256)).
  set (width := Z.to_nat ((max_x - min_x + 1) * 256)).
  assert (Hclient : forall k, In (mk_RasterTile zoom (fst k) (snd k)) tile_coords ->
            exists img, client zoom (fst k) (snd k) = inr img /\ tile_image_ok img
                        /\ tile_data_at client zoom k = decode_terrain_rgb img).
  { intros k Hk. destruct (Havail _ Hk) as [img [Himg Hok]]. cbn [tile_zoom tile_x tile_y] in Himg.
    exists img. split; [exact Himg |]. split; [exact Hok |].
    unfold tile_data_at. rewrite Himg. reflexivity. }
  destruct (stitch_pixels d min_x min_y (zeros height width) Hnd)
    as [hm [Hst [Hr [Hc [Hwf Hpix]]]]].
  { intros k v Hin. destruct (Hitems' k v Hin) as [Ht ->].
    destruct (Hclient k Ht) as [img [_ [Hok ->]]].
    split; [apply decode_fits; exact Hok |].
    split; [apply Sminx | apply Sminy]; apply in_map_iff; eexists; (split; [| exact Ht]);
      reflexivity. }
  exists hm, min_x, max_x, min_y, max_y.
  split.
  { rewrite (create_heightmap_from_tiles_nonempty client tile_coords Hne).
    rewrite heightmap_zoom_check, Hfetch. cbv zeta.
    rewrite Dminx, Dmaxx, Dminy, Dmaxy.
    fold height width. rewrite Hst. reflexivity. }
  do 4 (split; [assumption |]).
  split; [exact Hr |]. split; [exact Hc |]. split; [apply Hwf; apply zeros_wf |].
  intros i j Hi Hj x y. rewrite Hr in Hi. rewrite Hc in Hj.
  destruct (Hpix i j Hi Hj) as [Hcover Hfree].
  assert (Hblock : in_block (block_row min_y (x, y)) (block_col min_x (x, y)) (i, j) = true).
  { apply in_block_iff. unfold block_row, block_col, x, y. cbn [fst snd]. lia. }
  split.
  - intros Ht. destruct (Hclient (x, y) Ht) as [img [Himg [Hok Hdata]]].
    cbn [fst snd] in Himg. exists img. split; [exact Himg |].
    assert (Hk : In (x, y) (dict_keys d)) by (apply Hkeys'; exact Ht).
    apply in_map_iff in Hk as [[k v] [E Hin]]. cbn [fst] in E. subst k.
    rewrite (Hcover (x, y) v Hin Hblock).
    destruct (Hitems' (x, y) v Hin) as [_ ->]. rewrite Hdata.
    destruct (decode_fits img Hok) as [_ [_ Hbg]]. rewrite Hbg.
    apply in_block_iff in Hblock as [Rr Rc]. rewrite <- Rr, <- Rc.
    f_equal.
    + pose proof (Nat.div_mod_eq i 256). lia.
    + pose proof (Nat.div_mod_eq j 256). lia.
  - intros Hnt. rewrite Hfree; [apply get2_zeros |].
    intros k Hk.
    destruct (in_block (block_row min_y k) (block_col min_x k) (i, j)) eqn:E; [| reflexivity].
    exfalso. apply Hnt. apply Hkeys' in Hk.
    assert (Ek : k = (x, y)); [| rewrite Ek in Hk; exact Hk].
    apply in_block_iff in E as [Rr Rc].
    assert (Hkx : (min_x <= fst k)%Z).
    { apply Sminx. apply in_map_iff. eexists. split; [| exact Hk]. reflexivity. }
    assert (Hky : (min_y <= snd k)%Z).
    { apply Sminy. apply in_map_iff. eexists. split; [| exact Hk]. reflexivity. }
    destruct k as [a b]. unfold block_row, block_col, x, y in *. cbn [fst snd] in *.
    f_equal; lia.
Qed.

End HeightmapStitch.

(** X10: for a non-empty list of tiles of one zoom whose 256 x 256
    images the client delivers, [create_heightmap_from_tiles] returns a
    heightmap of 256 rows per tile row and 256 columns per tile column of
    the index rectangle of the list.  The pixel (i, j) belongs to the tile
    (min_x + j // 256, min_y + i // 256): it holds the decoded pixel
    (i % 256, j % 256) of that tile when the tile is in the list, and 0
    when it is not. *)
Theorem create_heightmap_from_tiles_stitched (client : TileSource)
    (tile_coords : list RasterTile) (zoom : Z) :
  tile_coords <> [] ->
  (forall t, In t tile_coords -> tile_zoom t = zoom) ->
  tiles_available client tile_coords ->
  exists heightmap min_x max_x min_y max_y,
    create_heightmap_from_tiles client tile_coords = Heightmap heightmap
    /\ py_min_Z (map tile_x tile_coords) = Ok min_x
    /\ py_max_Z (map tile_x tile_coords) = Ok max_x
    /\ py_min_Z (map tile_y tile_coords) = Ok min_y
    /\ py_max_Z (map tile_y tile_coords) = Ok max_y
    /\ nrows heightmap = Z.to_nat ((max_y - min_y + 1) * 256)
    /\ ncols heightmap = Z.to_nat ((max_x - min_x + 1) * 256)
    /\ wf_ndarray heightmap
    /\ forall i j, (i < nrows heightmap)%nat -> (j < ncols heightmap)%nat ->
         let x := (min_x + Z.of_nat (j / 256))%Z in
         let y := (min_y + Z.of_nat (i / 256))%Z in
         (In (mk_RasterTile zoom x y) tile_coords ->
            exists img, client zoom x y = inr img
              /\ get2 heightmap i j
                 = get2 (decode_terrain_rgb img) (i mod 256) (j mod 256))
         /\ (~ In (mk_RasterTile zoom x y) tile_coords -> get2 heightmap i j = 0).
Proof. apply create_heightmap_from_tiles_pixels. Qed.

Lemma sea_level_available (tile_coords : list RasterTile) :
  tiles_available sea_level_client tile_coords.
Proof.
  intros t _. exists sea_level_image. split; [reflexivity |].
  unfold tile_image_ok, sea_level_image. cbn [img_rows img_cols img_pixels].
  rewrite repeat_length. repeat split.
Qed.

Lemma create_heightmap_from_tiles_stitched_witness :
  exists heightmap,
    create_heightmap_from_tiles sea_level_client
      [mk_RasterTile 3 2 5; mk_RasterTile 3 3 6] = Heightmap heightmap
    /\ nrows heightmap = 512%nat /\ ncols heightmap = 512%nat
    /\ get2 heightmap 0 256 = 0.
Proof.
  destruct (create_heightmap_from_tiles_stitched sea_level_client
              [mk_RasterTile 3 2 5; mk_RasterTile 3 3 6] 3)
    as [hm [min_x [max_x [min_y [max_y [Hm [Hx0 [Hx1 [Hy0 [Hy1 [Hr [Hc [_ Hpix]]]]]]]]]]]]].
  - discriminate.
  - intros t [<- | [<- | []]]; reflexivity.
  - apply sea_level_available.
  - cbn in Hx0, Hx1, Hy0, Hy1. inversion Hx0. inversion Hx1. inversion Hy0. inversion Hy1.
    subst min_x max_x min_y max_y. cbn in Hr, Hc.
    exists hm. split; [exact Hm |]. split; [exact Hr |]. split; [exact Hc |].
    destruct (Hpix 0%nat 256%nat) as [_ Hzero]; [lia | lia |].
    apply Hzero. cbn. intros [E | [E | []]]; discriminate.
Defined.

Lemma fetch_tiles_fail (client : TileSource) (before after : list RasterTile)
    (t : RasterTile) (err : TileError) (d0 : TileDict) :
  tiles_fetched client before ->
  client (tile_zoom t) (tile_x t) (tile_y t) = inl err ->
  fetch_tiles client (before ++ t :: after) d0 = inl err.
Proof.
  revert d0. induction before as [| t0 before IH]; intros d0 Hok Hfail.
  - cbn [app fetch_tiles]. rewrite Hfail. reflexivity.
  - cbn [app fetch_tiles]. destruct (Hok t0 (or_introl eq_refl)) as [img ->].
    apply IH; [| exact Hfail]. intros t' Ht'. apply Hok. right. exact Ht'.
Qed.

Lemma stitch_unfit (items : TileDict) (min_x min_y : Z) (heightmap : ndarray) :
  (exists k v, In (k, v) items /\ fits_block v = false) ->
  stitch items min_x min_y heightmap = Err ValueError.
Proof.
  revert heightmap. induction items as [| [[x y] v0] rest IH]; intros heightmap [k [v [Hin Hfit]]].
  - destruct Hin.
  - cbn [stitch]. unfold set_block at 1. destruct (fits_block v0) eqn:E.
    + cbn [bind]. apply IH. destruct Hin as [Heq | Hin].
      * inversion Heq. congruence.
      * exists k, v. split; assumption.
    + reflexivity.
Qed.

(** X11: [create_heightmap_from_tiles] raises [ValueError] for an
    empty list of tiles and for a list with two zoom levels (whatever the
    client does); with one zoom level it passes on the exception of the
    first request that fails, and when all requests succeed it raises
    [ValueError] if a decoded tile cannot be broadcast to a 256 x 256
    block. *)
Theorem create_heightmap_from_tiles_errors (client : TileSource)
    (tile_coords : list RasterTile) :
  (tile_coords = [] ->
     create_heightmap_from_tiles client tile_coords = HeightmapRaises ValueError)
  /\ (forall t1 t2, In t1 tile_coords -> In t2 tile_coords ->
        tile_zoom t1 <> tile_zoom t2 ->
        create_heightmap_from_tiles client tile_coords = HeightmapRaises ValueError)
  /\ (forall zoom before t after err,
        tile_coords = before ++ t :: after ->
        (forall t', In t' tile_coords -> tile_zoom t' = zoom) ->
        tiles_fetched client before ->
        client (tile_zoom t) (tile_x t) (tile_y t) = inl err ->
        create_heightmap_from_tiles client tile_coords = TileRaises err)
  /\ (forall zoom t img,
        (forall t', In t' tile_coords -> tile_zoom t' = zoom) ->
        tiles_fetched client tile_coords ->
        In t tile_coords ->
        client (tile_zoom t) (tile_x t) (tile_y t) = inr img ->
        fits_block (decode_terrain_rgb img) = false ->
        create_heightmap_from_tiles client tile_coords = HeightmapRaises ValueError).
Proof.
  split; [intros ->; reflexivity |]. split; [| split].
  - intros t1 t2 H1 H2 Hne.
    rewrite create_heightmap_from_tiles_nonempty by (intros E; rewrite E in H1; destruct H1).
    assert (Hlen : (2 <= length (nodup Z.eq_dec (map tile_zoom tile_coords)))%nat).
    { apply (NoDup_two_length _ (tile_zoom t1) (tile_zoom t2)).
      - apply nodup_In. apply in_map. exact H1.
      - apply nodup_In. apply in_map. exact H2.
      - exact Hne. }
    destruct (Nat.ltb_spec 1 (length (nodup Z.eq_dec (map tile_zoom tile_coords))));
      [reflexivity | lia].
  - intros zoom before t after err Hcoords Hzoom Hok Hfail.
    rewrite create_heightmap_from_tiles_nonempty
      by (rewrite Hcoords; destruct before; discriminate).
    rewrite (heightmap_zoom_check tile_coords zoom Hzoom).
    rewrite Hcoords, (fetch_tiles_fail client before after t err [] Hok Hfail). reflexivity.
  - intros zoom t img Hzoom Hok Ht Himg Hfit.
    assert (Hne : tile_coords <> []) by (intros E; rewrite E in Ht; destruct Ht).
    rewrite (create_heightmap_from_tiles_nonempty client tile_coords Hne).
    rewrite (heightmap_zoom_check tile_coords zoom Hzoom).
    destruct (fetch_tiles_ok client zoom tile_coords [] Hzoom Hok (NoDup_nil _))
      as [d [Hfetch [Hnd [Hkeys Hitems]]]].
    rewrite Hfetch. cbv zeta.
    assert (Hk : In (tile_x t, tile_y t) (dict_keys d)).
    { apply Hkeys. left. cbn [fst snd]. rewrite <- (Hzoom t Ht). destruct t. exact Ht. }
    apply in_map_iff in Hk as [[k v] [E Hin]]. cbn [fst] in E. subst k.
    assert (Hv : v = decode_terrain_rgb img).
    { destruct (Hitems _ _ Hin) as [[_ ->] | [_ []]].
      unfold tile_data_at. cbn [fst snd]. rewrite <- (Hzoom t Ht), Himg. reflexivity. }
    assert (Hst : forall min_x min_y hm, stitch d min_x min_y hm = Err ValueError).
    { intros min_x min_y hm. apply stitch_unfit.
      exists (tile_x t, tile_y t), v. split; [exact Hin | rewrite Hv; exact Hfit]. }
    destruct (py_min_Z _) as [min_x |]; [| reflexivity].
    destruct (py_max_Z _) as [max_x |]; [| reflexivity].
    destruct (py_min_Z _) as [min_y |]; [| reflexivity].
    destruct (py_max_Z _) as [max_y |]; [| reflexivity].
    rewrite Hst. reflexivity.
Qed.

(** ** From the bounding box to the terrain *)

Section CoverHeightmap.
Context `{NumLib}.

Lemma tiles_to_cover_nonempty (b : BBox_LL) (zoom : Z) : tiles_to_cover b zoom <> [].
Proof.
  intros Hnil. pose proof (tiles_to_cover_length b zoom) as Hlen.
  rewrite Hnil in Hlen. cbn [length] in Hlen. cbv zeta in Hlen. nia.
Qed.

Lemma tiles_to_cover_extremes (b : BBox_LL) (zoom : Z) :
  let t0 := lonlat_to_tile (min_longitude b) (min_latitude b) zoom in
  let t1 := lonlat_to_tile (max_longitude b) (max_latitude b) zoom in
  py_min_Z (map tile_x (tiles_to_cover b zoom)) = Ok (Z.min (tile_x t0) (tile_x t1))
  /\ py_max_Z (map tile_x (tiles_to_cover b zoom)) = Ok (Z.max (tile_x t0) (tile_x t1))
  /\ py_min_Z (map tile_y (tiles_to_cover b zoom)) = Ok (Z.min (tile_y t0) (tile_y t1))
  /\ py_max_Z (map tile_y (tiles_to_cover b zoom)) = Ok (Z.max (tile_y t0) (tile_y t1)).
Proof.
  intros t0 t1.
  assert (Hin : forall x y,
            (Z.min (tile_x t0) (tile_x t1) <= x <= Z.max (tile_x t0) (tile_x t1))%Z ->
            (Z.min (tile_y t0) (tile_y t1) <= y <= Z.max (tile_y t0) (tile_y t1))%Z ->
            In (mk_RasterTile zoom x y) (tiles_to_cover b zoom)).
  { intros x y Hx Hy. apply in_tiles_to_cover. split; [reflexivity |].
    unfold in_tile_rectangle. fold t0 t1. cbn [tile_x tile_y]. split; assumption. }
  assert (Hout : forall t, In t (tiles_to_cover b zoom) -> in_tile_rectangle t0 t1 t).
  { intros t Ht. apply in_tiles_to_cover in Ht. apply Ht. }
  repeat split.
  - apply py_min_Z_spec. split.
    + apply in_map_iff. exists (mk_RasterTile zoom (Z.min (tile_x t0) (tile_x t1))
                                  (Z.min (tile_y t0) (tile_y t1))).
      split; [reflexivity | apply Hin; lia].
    + intros x Hx. apply in_map_iff in Hx as [t [<- Ht]]. apply (Hout t Ht).
  - apply py_max_Z_spec. split.
    + apply in_map_iff. exists (mk_RasterTile zoom (Z.max (tile_x t0) (tile_x t1))
                                  (Z.min (tile_y t0) (tile_y t1))).
      split; [reflexivity | apply Hin; lia].
    + intros x Hx. apply in_map_iff in Hx as [t [<- Ht]]. apply (Hout t Ht).
  - apply py_min_Z_spec. split.
    + apply in_map_iff. exists (mk_RasterTile zoom (Z.min (tile_x t0) (tile_x t1))
                                  (Z.min (tile_y t0) (tile_y t1))).
      split; [reflexivity | apply Hin; lia].
    + intros y Hy. apply in_map_iff in Hy as [t [<- Ht]]. apply (Hout t Ht).
  - apply py_max_Z_spec. split.
    + apply in_map_iff. exists (mk_RasterTile zoom (Z.min (tile_x t0) (tile_x t1))
                                  (Z.max (tile_y t0) (tile_y t1))).
      split; [reflexivity | apply Hin; lia].
    + intros y Hy. apply in_map_iff in Hy as [t [<- Ht]]. apply (Hout t Ht).
Qed.

End CoverHeightmap.

(** X12: on the tiles of [BBox_LL.tiles_to_cover], all delivered as
    256 x 256 images, [create_heightmap_from_tiles] returns a heightmap of
    256 pixels per covered tile row and column in which every pixel comes
    from its tile (nothing is left at 0 for want of a tile), and
    [Terrain_ENU.new] on that heightmap and those tiles returns a terrain
    of the shape of the heightmap, anchored at the same tile (min_x, min_y)
    and with the heightmap as its [u_grid]. *)
Theorem heightmap_of_covering_tiles `{NumLib} `{Geodesy} (client : TileSource)
    (b : BBox_LL) (zoom : Z) (transform : LonLatToENU) :
  tiles_available client (tiles_to_cover b zoom) ->
  let t0 := lonlat_to_tile (min_longitude b) (min_latitude b) zoom in
  let t1 := lonlat_to_tile (max_longitude b) (max_latitude b) zoom in
  let min_x := Z.min (tile_x t0) (tile_x t1) in
  let min_y := Z.min (tile_y t0) (tile_y t1) in
  exists heightmap terrain0,
    create_heightmap_from_tiles client (tiles_to_cover b zoom) = Heightmap heightmap
    /\ nrows heightmap = (256 * Z.to_nat (Z.abs (tile_y t1 - tile_y t0) + 1))%nat
    /\ ncols heightmap = (256 * Z.to_nat (Z.abs (tile_x t1 - tile_x t0) + 1))%nat
    /\ wf_ndarray heightmap
    /\ (forall i j, (i < nrows heightmap)%nat -> (j < ncols heightmap)%nat ->
          exists img,
            client zoom (min_x + Z.of_nat (j / 256))%Z (min_y + Z.of_nat (i / 256))%Z
            = inr img
            /\ get2 heightmap i j
               = get2 (decode_terrain_rgb img) (i mod 256) (j mod 256))
    /\ Terrain_ENU_new heightmap (tiles_to_cover b zoom) zoom transform = Ok terrain0
    /\ py_min_Z (map tile_x (tiles_to_cover b zoom)) = Ok min_x
    /\ py_min_Z (map tile_y (tiles_to_cover b zoom)) = Ok min_y
    /\ Terrain_ENU_shape terrain0 = (nrows heightmap, ncols heightmap)
    /\ u_grid terrain0 = heightmap.
Proof.
  intros Havail t0 t1 min_x min_y.
  destruct (tiles_to_cover_extremes b zoom) as [Ex0 [Ex1 [Ey0 Ey1]]].
  fold t0 t1 in Ex0, Ex1, Ey0, Ey1. fold min_x in Ex0. fold min_y in Ey0.
  destruct (create_heightmap_from_tiles_pixels client (tiles_to_cover b zoom) zoom
              (tiles_to_cover_nonempty b zoom))
    as [hm [mx0 [mx1 [my0 [my1 [Hm [Hx0 [Hx1 [Hy0 [Hy1 [Hr [Hc [Hwf Hpix]]]]]]]]]]]]].
  { intros t Ht. apply in_tiles_to_cover in Ht. apply Ht. }
  { exact Havail. }
  assert (mx0 = min_x) by congruence. assert (my0 = min_y) by congruence.
  assert (mx1 = Z.max (tile_x t0) (tile_x t1)) by congruence.
  assert (my1 = Z.max (tile_y t0) (tile_y t1)) by congruence.
  subst mx0 my0 mx1 my1.
  exists hm. eexists.
  split; [exact Hm |].
  split; [rewrite Hr; unfold min_y; lia |].
  split; [rewrite Hc; unfold min_x; lia |].
  split; [exact Hwf |].
  split.
  { intros i j Hi Hj. destruct (Hpix i j Hi Hj) as [Hin _]. apply Hin.
    apply in_tiles_to_cover. split; [reflexivity |].
    unfold in_tile_rectangle. fold t0 t1. cbn [tile_x tile_y].
    assert (Hi' : (Z.of_nat (i / 256) < Z.max (tile_y t0) (tile_y t1) - min_y + 1)%Z).
    { assert (Hd : (i / 256 < Z.to_nat (Z.max (tile_y t0) (tile_y t1) - min_y + 1))%nat).
      { apply Nat.Div0.div_lt_upper_bound. rewrite Hr in Hi. lia. }
      lia. }
    assert (Hj' : (Z.of_nat (j / 256) < Z.max (tile_x t0) (tile_x t1) - min_x + 1)%Z).
    { assert (Hd : (j / 256 < Z.to_nat (Z.max (tile_x t0) (tile_x t1) - min_x + 1))%nat).
      { apply Nat.Div0.div_lt_upper_bound. rewrite Hc in Hj. lia. }
      lia. }
    unfold min_x, min_y in *. lia. }
  assert (Hrows : (1 <= nrows hm)%nat) by (rewrite Hr; unfold min_y; lia).
  assert (Hcols : (1 <= ncols hm)%nat) by (rewrite Hc; unfold min_x; lia).
  rewrite (Terrain_ENU_new_grids hm (tiles_to_cover b zoom) zoom transform min_x min_y
             Hwf Hrows Hcols Ex0 Ey0).
  split; [reflexivity |]. split; [exact Ex0 |]. split; [exact Ey0 |].
  split; [reflexivity |].
  cbn [u_grid]. destruct hm. reflexivity.
Qed.

Lemma heightmap_of_covering_tiles_witness :
  exists heightmap terrain0,
    create_heightmap_from_tiles sea_level_client
      (@tiles_to_cover rational_numlib (BBox_LL_new two_point_bounds) 8)
    = Heightmap heightmap
    /\ @Terrain_ENU_new rational_numlib tangent_plane_geodesy heightmap
         (@tiles_to_cover rational_numlib (BBox_LL_new two_point_bounds) 8) 8
         (LonLatToENU_new (51, -3, 10)) = Ok terrain0
    /\ u_grid terrain0 = heightmap.
Proof.
  destruct (@heightmap_of_covering_tiles rational_numlib tangent_plane_geodesy
              sea_level_client (BBox_LL_new two_point_bounds) 8
              (LonLatToENU_new (51, -3, 10))
              (sea_level_available _))
    as [hm [t [Hm [_ [_ [_ [_ [Ht [_ [_ [_ Hu]]]]]]]]]]].
  exists hm, t. split; [exact Hm |]. split; [exact Ht | exact Hu].
Defined.

(** ** Decoding Terrain-RGB *)

(** ** float32 *)

Lemma Qlt_bool_false (a b : Q) : Qlt_bool a b = false -> b <= a.
Proof.
  unfold Qlt_bool. intros E. apply negb_false_iff in E.
  apply Qle_bool_iff. exact E.
Qed.

Lemma round_half_even_cases (q : Q) :
  let f := Qfloor q in
  let r := q - inject_Z f in
  0 <= r /\ r < 1
  /\ ((round_half_even q = f /\ (r < 1 # 2 \/ (r == 1 # 2 /\ Z.even f = true)))
      \/ (round_half_even q = (f + 1)%Z
          /\ ((1 # 2) < r \/ (r == 1 # 2 /\ Z.even f = false)))).
Proof.
  intros f r.
  assert (H0 : 0 <= r) by (unfold r, f; pose proof (Qfloor_le q); lra).
  assert (H1 : r < 1).
  { unfold r, f. pose proof (Qlt_floor q) as Hlt.
    rewrite inject_Z_plus in Hlt. change (inject_Z 1) with 1 in Hlt. lra. }
  split; [exact H0 |]. split; [exact H1 |].
  unfold round_half_even. fold f. fold r.
  destruct (Qlt_bool r (1 # 2)) eqn:Ea.
  - left. split; [reflexivity |]. left. apply Qlt_bool_iff. exact Ea.
  - apply Qlt_bool_false in Ea.
    destruct (Qlt_bool (1 # 2) r) eqn:Eb.
    + right. split; [reflexivity |]. left. apply Qlt_bool_iff. exact Eb.
    + apply Qlt_bool_false in Eb.
      assert (Er : r == 1 # 2) by (apply Qle_antisym; assumption).
      destruct (Z.even f) eqn:Ee.
      * left. split; [reflexivity |]. right. split; [exact Er | reflexivity].
      * right. split; [reflexivity |]. right. split; [exact Er | reflexivity].
Qed.

Lemma round_half_even_error (q : Q) :
  - (1 # 2) <= inject_Z (round_half_even q) - q
  /\ inject_Z (round_half_even q) - q <= 1 # 2.
Proof.
  destruct (round_half_even_cases q) as [H0 [H1 [[-> Hc] | [-> Hc]]]].
  - destruct Hc as [Hc | [Hc _]]; lra.
  - rewrite inject_Z_plus. change (inject_Z 1) with 1.
    destruct Hc as [Hc | [Hc _]]; lra.
Qed.

Lemma round_half_even_mono (q1 q2 : Q) :
  q1 <= q2 -> (round_half_even q1 <= round_half_even q2)%Z.
Proof.
  intros Hq. pose proof (Qfloor_resp_le _ _ Hq) as Hf.
  destruct (round_half_even_cases q1) as [H10 [H11 C1]].
  destruct (round_half_even_cases q2) as [H20 [H21 C2]].
  destruct (Z.eq_dec (Qfloor q1) (Qfloor q2)) as [E | NE].
  - rewrite E in *.
    destruct C1 as [[-> _] | [-> C1]]; destruct C2 as [[-> C2] | [-> _]]; try lia.
    exfalso.
    destruct C1 as [C1 | [C1 O1]]; destruct C2 as [C2 | [C2 O2]]; try lra.
    congruence.
  - destruct C1 as [[-> _] | [-> _]]; destruct C2 as [[-> _] | [-> _]]; lia.
Qed.

Lemma round_half_even_Z (z : Z) : round_half_even (inject_Z z) = z.
Proof.
  destruct (round_half_even_cases (inject_Z z)) as [_ [_ C]].
  rewrite Qfloor_Z in C.
  destruct C as [[-> _] | [_ [C | [C _]]]]; [reflexivity | lra | lra].
Qed.

#[export] Instance round_half_even_comp : Proper (Qeq ==> eq) round_half_even.
Proof.
  intros x y E. apply Z.le_antisymm; apply round_half_even_mono; rewrite E; apply Qle_refl.
Qed.

(** Powers of two. *)

Lemma pow2_add (a b : Z) : pow2 (a + b) == pow2 a * pow2 b.
Proof. unfold pow2. apply Qpower_plus. discriminate. Qed.

Lemma pow2_inject (k : Z) : (0 <= k)%Z -> pow2 k == inject_Z (2 ^ k).
Proof. intros Hk. unfold pow2. rewrite Zpower_Qpower by exact Hk. reflexivity. Qed.

Lemma pow2_ge_1 (k : Z) : (0 <= k)%Z -> 1 <= pow2 k.
Proof.
  intros Hk. rewrite pow2_inject by exact Hk.
  change 1 with (inject_Z 1). rewrite <- Zle_Qle.
  pose proof (Z.pow_pos_nonneg 2 k). lia.
Qed.

Lemma pow2_le (a b : Z) : (a <= b)%Z -> pow2 a <= pow2 b.
Proof.
  intros Hab. replace b with (a + (b - a))%Z by lia. rewrite pow2_add.
  pose proof (pow2_pos a) as Ha. pose proof (pow2_ge_1 (b - a)) as Hb.
  assert (H1 : pow2 a * 1 <= pow2 a * pow2 (b - a)).
  { apply Qmult_le_l; [exact Ha | apply Hb; lia]. }
  lra.
Qed.

Lemma pow2_lt (a b : Z) : (a < b)%Z -> pow2 a < pow2 b.
Proof.
  intros Hab. pose proof (pow2_le (a + 1) b) as H. pose proof (pow2_succ a) as Hs.
  pose proof (pow2_pos a). assert (Hle : pow2 (a + 1) <= pow2 b) by (apply H; lia).
  lra.
Qed.

Lemma pow2_exponent_le (a b : Z) (x : Q) : pow2 a <= x -> x < pow2 (b + 1) -> (a <= b)%Z.
Proof.
  intros Ha Hb. destruct (Z_le_gt_dec a b) as [Hle | Hgt]; [exact Hle |].
  exfalso. pose proof (pow2_le (b + 1) a). assert (pow2 (b + 1) <= pow2 a) by (apply H; lia).
  lra.
Qed.

Lemma pow2_multiple (k e : Z) :
  (e <= k)%Z -> pow2 k == inject_Z (2 ^ (k - e)) * pow2 e.
Proof.
  intros Hk. rewrite <- pow2_inject by lia. rewrite <- pow2_add.
  replace (k - e + e)%Z with k by lia. reflexivity.
Qed.

(** The exponent. *)

Lemma binade_spec (q : Q) :
  ~ q == 0 -> pow2 (binade q) <= Qabs q /\ Qabs q < pow2 (binade q + 1).
Proof.
  intros Hq. destruct q as [n d].
  set (a := Z.abs n). set (b := Zpos d).
  assert (Ha : (0 < a)%Z).
  { unfold a. assert (n <> 0)%Z; [| lia]. intros ->. apply Hq. reflexivity. }
  assert (Hb : (0 < b)%Z) by (unfold b; lia).
  pose proof (Z.log2_spec a Ha) as [Ha1 Ha2].
  pose proof (Z.log2_spec b Hb) as [Hb1 Hb2].
  pose proof (Z.log2_nonneg a) as Hla. pose proof (Z.log2_nonneg b) as Hlb.
  set (la := Z.log2 a) in *. set (lb := Z.log2 b) in *.
  assert (Ex : Qabs (n # d) * inject_Z b == inject_Z a).
  { unfold Qabs. cbn [Qnum Qden]. fold a. unfold b, Qeq, Qmult, inject_Z.
    cbn [Qnum Qden]. rewrite Pos.mul_1_r. lia. }
  set (x := Qabs (n # d)) in *.
  assert (HB : 0 < inject_Z b) by (change 0 with (inject_Z 0); rewrite <- Zlt_Qlt; exact Hb).
  assert (QA1 : pow2 la <= inject_Z a) by (rewrite pow2_inject by exact Hla; rewrite <- Zle_Qle; exact Ha1).
  assert (QA2 : inject_Z a < pow2 (la + 1)).
  { rewrite pow2_inject by lia. rewrite <- Zlt_Qlt.
    replace (la + 1)%Z with (Z.succ la) by lia. exact Ha2. }
  assert (QB1 : pow2 lb <= inject_Z b) by (rewrite pow2_inject by exact Hlb; rewrite <- Zle_Qle; exact Hb1).
  assert (QB2 : inject_Z b < pow2 (lb + 1)).
  { rewrite pow2_inject by lia. rewrite <- Zlt_Qlt.
    replace (lb + 1)%Z with (Z.succ lb) by lia. exact Hb2. }
  set (e0 := (la - lb)%Z).
  assert (Ee : pow2 la == pow2 e0 * pow2 lb).
  { rewrite <- pow2_add. unfold e0. replace (la - lb + lb)%Z with la by lia. reflexivity. }
  pose proof (pow2_pos e0) as Pe. pose proof (pow2_pos lb) as Pb.
  pose proof (pow2_succ la) as Sa. pose proof (pow2_succ lb) as Sb.
  pose proof (pow2_succ e0) as Se.
  assert (Sm : pow2 e0 == 2 * pow2 (e0 - 1)).
  { rewrite <- pow2_succ. replace (e0 - 1 + 1)%Z with e0 by lia. reflexivity. }
  (* x < 2 * pow2 e0 *)
  assert (U : x < pow2 (e0 + 1)).
  { apply (Qmult_lt_r _ _ (inject_Z b) HB). rewrite Ex.
    assert (H1 : pow2 (e0 + 1) * pow2 lb <= pow2 (e0 + 1) * inject_Z b).
    { apply Qmult_le_l; [apply pow2_pos | exact QB1]. }
    assert (H2 : pow2 (e0 + 1) * pow2 lb == pow2 (la + 1)).
    { rewrite Se, Sa, Ee. ring. }
    lra. }
  assert (L : pow2 (e0 - 1) <= x).
  { apply (Qmult_le_r _ _ (inject_Z b) HB). rewrite Ex.
    assert (H1 : pow2 (e0 - 1) * inject_Z b <= pow2 (e0 - 1) * pow2 (lb + 1)).
    { apply Qmult_le_l; [apply pow2_pos | lra]. }
    assert (H2 : pow2 (e0 - 1) * pow2 (lb + 1) == pow2 la).
    { rewrite Sb, Ee, Sm. ring. }
    lra. }
  unfold binade. cbn [Qnum Qden]. fold a b la lb e0. fold x.
  destruct (Qle_bool (pow2 e0) x) eqn:T.
  - apply Qle_bool_iff in T. split; [exact T | exact U].
  - apply not_Qle_bool_lt in T. split; [exact L |].
    replace (e0 - 1 + 1)%Z with e0 by lia. exact T.
Qed.

Lemma f32_exponent_spec (q : Q) :
  ~ q == 0 ->
  (-126 <= f32_exponent q)%Z
  /\ Qabs q < pow2 (f32_exponent q + 1)
  /\ ((-126 < f32_exponent q)%Z -> pow2 (f32_exponent q) <= Qabs q).
Proof.
  intros Hq. destruct (binade_spec q Hq) as [Hl Hu]. unfold f32_exponent.
  split; [lia |]. split.
  - pose proof (pow2_le (binade q + 1) (Z.max (binade q) (-126) + 1)) as H.
    assert (pow2 (binade q + 1) <= pow2 (Z.max (binade q) (-126) + 1)) by (apply H; lia).
    lra.
  - intros Hgt. replace (Z.max (binade q) (-126)) with (binade q) by lia. exact Hl.
Qed.

Lemma f32_exponent_le (q : Q) (k : Z) :
  ~ q == 0 -> (-126 <= k)%Z -> Qabs q < pow2 (k + 1) -> (f32_exponent q <= k)%Z.
Proof.
  intros Hq Hk Hlt. destruct (binade_spec q Hq) as [Hl _].
  pose proof (pow2_exponent_le _ _ _ Hl Hlt). unfold f32_exponent. lia.
Qed.

Lemma f32_exponent_mono (q1 q2 : Q) :
  ~ q1 == 0 -> ~ q2 == 0 -> Qabs q1 <= Qabs q2 -> (f32_exponent q1 <= f32_exponent q2)%Z.
Proof.
  intros H1 H2 Hle. destruct (f32_exponent_spec q2 H2) as [Hm [Hu _]].
  apply f32_exponent_le; [exact H1 | exact Hm | lra].
Qed.

(** Rounding at an exponent. *)

Lemma round_at_mono (e : Z) (q1 q2 : Q) : q1 <= q2 -> round_at e q1 <= round_at e q2.
Proof.
  intros Hq. unfold round_at. pose proof (pow2_pos (e - 23)) as Hu.
  apply Qmult_le_compat_r; [| lra].
  rewrite <- Zle_Qle. apply round_half_even_mono.
  apply Qmult_le_compat_r; [exact Hq |].
  apply Qlt_le_weak. apply Qinv_lt_0_compat. exact Hu.
Qed.

Lemma round_at_fix (e m : Z) (q : Q) :
  q == inject_Z m * pow2 (e - 23) -> round_at e q == q.
Proof.
  intros E. unfold round_at.
  assert (Hq : q / pow2 (e - 23) == inject_Z m).
  { rewrite E. field. apply pow2_nonzero. }
  rewrite Hq, round_half_even_Z. symmetry. exact E.
Qed.

Lemma round_at_error (e : Z) (q : Q) :
  - pow2 (e - 24) <= round_at e q - q /\ round_at e q - q <= pow2 (e - 24).
Proof.
  unfold round_at. pose proof (pow2_pos (e - 23)) as Hu.
  assert (Hs : pow2 (e - 23) == 2 * pow2 (e - 24)).
  { rewrite <- pow2_succ. replace (e - 24 + 1)%Z with (e - 23)%Z by lia. reflexivity. }
  destruct (round_half_even_error (q / pow2 (e - 23))) as [Hl Hh].
  set (z := inject_Z (round_half_even (q / pow2 (e - 23)))) in *.
  set (u := pow2 (e - 23)) in *.
  assert (Eq : q == q / u * u) by (field; apply pow2_nonzero).
  assert (Ed : z * u - q == (z - q / u) * u) by (rewrite Eq at 1; ring).
  rewrite Ed.
  assert (H1 : - (1 # 2) * u <= (z - q / u) * u).
  { apply Qmult_le_compat_r; [exact Hl | lra]. }
  assert (H2 : (z - q / u) * u <= (1 # 2) * u).
  { apply Qmult_le_compat_r; [exact Hh | lra]. }
  lra.
Qed.

(** float32 *)

Lemma float32_nonzero (q : Q) : ~ q == 0 -> float32 q = round_at (f32_exponent q) q.
Proof.
  intros Hq. unfold float32. destruct (Qeq_bool q 0) eqn:E; [| reflexivity].
  apply Qeq_bool_iff in E. contradiction.
Qed.

Lemma float32_zero (q : Q) : q == 0 -> float32 q = 0.
Proof. intros Hq. unfold float32. apply Qeq_bool_iff in Hq. rewrite Hq. reflexivity. Qed.

Lemma round_at_zero (e : Z) : round_at e 0 == 0.
Proof. apply (round_at_fix e 0). ring. Qed.

Lemma float32_nonneg (q : Q) : 0 <= q -> 0 <= float32 q.
Proof.
  intros Hq. destruct (Qeq_dec q 0) as [E | NE].
  - rewrite (float32_zero q E). apply Qle_refl.
  - rewrite (float32_nonzero q NE). rewrite <- (round_at_zero (f32_exponent q)).
    apply round_at_mono. exact Hq.
Qed.

Lemma float32_nonpos (q : Q) : q <= 0 -> float32 q <= 0.
Proof.
  intros Hq. destruct (Qeq_dec q 0) as [E | NE].
  - rewrite (float32_zero q E). apply Qle_refl.
  - rewrite (float32_nonzero q NE). rewrite <- (round_at_zero (f32_exponent q)).
    apply round_at_mono. exact Hq.
Qed.

Lemma round_at_pow2 (e k : Z) : (e - 23 <= k)%Z -> round_at e (pow2 k) == pow2 k.
Proof. intros Hk. apply (round_at_fix e (2 ^ (k - (e - 23)))). apply pow2_multiple. exact Hk. Qed.

Lemma round_at_opp_pow2 (e k : Z) : (e - 23 <= k)%Z -> round_at e (- pow2 k) == - pow2 k.
Proof.
  intros Hk. apply (round_at_fix e (- 2 ^ (k - (e - 23)))).
  rewrite inject_Z_opp. rewrite (pow2_multiple k (e - 23) Hk) at 1. ring.
Qed.

Lemma float32_pos_bounds (q : Q) :
  0 < q ->
  float32 q <= pow2 (f32_exponent q + 1)
  /\ ((-126 < f32_exponent q)%Z -> pow2 (f32_exponent q) <= float32 q).
Proof.
  intros Hq. assert (NE : ~ q == 0) by lra.
  destruct (f32_exponent_spec q NE) as [Hm [Hu Hl]].
  rewrite Qabs_pos in Hu, Hl by lra.
  rewrite (float32_nonzero q NE). set (e := f32_exponent q) in *. split.
  - rewrite <- (round_at_pow2 e (e + 1)) by lia. apply round_at_mono. lra.
  - intros Hgt. rewrite <- (round_at_pow2 e e) by lia. apply round_at_mono. apply Hl. exact Hgt.
Qed.

Lemma float32_neg_bounds (q : Q) :
  q < 0 ->
  - pow2 (f32_exponent q + 1) <= float32 q
  /\ ((-126 < f32_exponent q)%Z -> float32 q <= - pow2 (f32_exponent q)).
Proof.
  intros Hq. assert (NE : ~ q == 0) by lra.
  destruct (f32_exponent_spec q NE) as [Hm [Hu Hl]].
  rewrite Qabs_neg in Hu, Hl by lra.
  rewrite (float32_nonzero q NE). set (e := f32_exponent q) in *. split.
  - rewrite <- (round_at_opp_pow2 e (e + 1)) by lia. apply round_at_mono. lra.
  - intros Hgt. rewrite <- (round_at_opp_pow2 e e) by lia. apply round_at_mono.
    specialize (Hl Hgt). lra.
Qed.

(** Rounding to float32 is monotone. *)
Lemma float32_mono (q1 q2 : Q) : q1 <= q2 -> float32 q1 <= float32 q2.
Proof.
  intros Hq.
  destruct (Qlt_le_dec 0 q1) as [P1 | N1].
  - (* 0 < q1 <= q2 *)
    assert (P2 : 0 < q2) by lra.
    assert (NE1 : ~ q1 == 0) by lra. assert (NE2 : ~ q2 == 0) by lra.
    assert (He : (f32_exponent q1 <= f32_exponent q2)%Z).
    { apply f32_exponent_mono; [exact NE1 | exact NE2 |]. rewrite !Qabs_pos by lra. exact Hq. }
    destruct (Z.eq_dec (f32_exponent q1) (f32_exponent q2)) as [E | NE].
    + rewrite (float32_nonzero q1 NE1), (float32_nonzero q2 NE2), E.
      apply round_at_mono. exact Hq.
    + destruct (float32_pos_bounds q1 P1) as [Hu1 _].
      destruct (float32_pos_bounds q2 P2) as [_ Hl2].
      destruct (f32_exponent_spec q1 NE1) as [Hm1 _].
      assert (Hp : pow2 (f32_exponent q1 + 1) <= pow2 (f32_exponent q2)) by (apply pow2_le; lia).
      assert (pow2 (f32_exponent q2) <= float32 q2) by (apply Hl2; lia).
      lra.
  - destruct (Qlt_le_dec q2 0) as [N2 | P2].
    + (* q1 <= q2 < 0 *)
      assert (N1' : q1 < 0) by lra.
      assert (NE1 : ~ q1 == 0) by lra. assert (NE2 : ~ q2 == 0) by lra.
      assert (He : (f32_exponent q2 <= f32_exponent q1)%Z).
      { apply f32_exponent_mono; [exact NE2 | exact NE1 |]. rewrite !Qabs_neg by lra. lra. }
      destruct (Z.eq_dec (f32_exponent q1) (f32_exponent q2)) as [E | NE].
      * rewrite (float32_nonzero q1 NE1), (float32_nonzero q2 NE2), E.
        apply round_at_mono. exact Hq.
      * destruct (float32_neg_bounds q1 N1') as [_ Hu1].
        destruct (float32_neg_bounds q2 N2) as [Hl2 _].
        destruct (f32_exponent_spec q2 NE2) as [Hm2 _].
        assert (Hp : pow2 (f32_exponent q2 + 1) <= pow2 (f32_exponent q1)) by (apply pow2_le; lia).
        assert (float32 q1 <= - pow2 (f32_exponent q1)) by (apply Hu1; lia).
        lra.
    + pose proof (float32_nonpos q1 N1). pose proof (float32_nonneg q2 P2). lra.
Qed.

#[export] Instance float32_comp : Proper (Qeq ==> Qeq) float32.
Proof.
  intros x y E. apply Qle_antisym; apply float32_mono; rewrite E; apply Qle_refl.
Qed.

(** A number of at most 24 significant bits at its exponent is a float32. *)
Lemma float32_fix (q : Q) (m k : Z) :
  q == inject_Z m * pow2 k -> (-149 <= k)%Z -> Qabs q < pow2 (k + 24) -> float32 q == q.
Proof.
  intros E Hk Hlt. destruct (Qeq_dec q 0) as [Z0 | NE].
  - rewrite (float32_zero q Z0). symmetry. exact Z0.
  - rewrite (float32_nonzero q NE).
    destruct (f32_exponent_spec q NE) as [Hm [Hu Hl]].
    assert (He : (f32_exponent q - 23 <= k)%Z \/ (k < f32_exponent q - 23)%Z) by lia.
    destruct He as [He | He].
    + apply (round_at_fix _ (m * 2 ^ (k - (f32_exponent q - 23)))).
      etransitivity; [exact E |].
      rewrite inject_Z_mult. rewrite (pow2_multiple k (f32_exponent q - 23) He) at 1. ring.
    + exfalso. assert (Hgt : (-126 < f32_exponent q)%Z) by lia. specialize (Hl Hgt).
      assert (Hp : pow2 (k + 24) <= pow2 (f32_exponent q)) by (apply pow2_le; lia).
      lra.
Qed.

Lemma float32_int (z : Z) : (Z.abs z < 2 ^ 24)%Z -> float32 (inject_Z z) == inject_Z z.
Proof.
  intros Hz. apply (float32_fix _ z 0); [change (pow2 0) with 1; ring | lia |].
  change (0 + 24)%Z with 24%Z. rewrite pow2_inject by lia.
  change (Qabs (inject_Z z)) with (inject_Z (Z.abs z)). rewrite <- Zlt_Qlt. exact Hz.
Qed.

Lemma float32_error (q : Q) (k : Z) :
  (-126 <= k)%Z -> Qabs q < pow2 (k + 1) ->
  - pow2 (k - 24) <= float32 q - q /\ float32 q - q <= pow2 (k - 24).
Proof.
  intros Hk Hlt. pose proof (pow2_pos (k - 24)) as Hp.
  destruct (Qeq_dec q 0) as [Z0 | NE].
  - rewrite (float32_zero q Z0). rewrite Z0. split; lra.
  - rewrite (float32_nonzero q NE).
    pose proof (f32_exponent_le q k NE Hk Hlt) as He.
    destruct (round_at_error (f32_exponent q) q) as [Hl Hh].
    assert (Hle : pow2 (f32_exponent q - 24) <= pow2 (k - 24)) by (apply pow2_le; lia).
    split; lra.
Qed.

(** ** The decoded elevations *)

Lemma float32_int_eq (q : Q) (z : Z) :
  q == inject_Z z -> (Z.abs z < 2 ^ 24)%Z -> float32 q == inject_Z z.
Proof. intros E Hz. rewrite E. apply float32_int. exact Hz. Qed.

(** The integer part of the decoding is exact in float32. *)
Lemma decode_pixel_value (p : Byte.byte * Byte.byte * Byte.byte) :
  (0 <= pixel_value p < 2 ^ 24)%Z
  /\ decode_pixel p
     == float32 (-10000 + float32 (inject_Z (pixel_value p) * float32 (1 # 10))).
Proof.
  destruct p as [[R G] B]. unfold decode_pixel, pixel_value, f32_add, f32_mul, channel.
  pose proof (Byte.to_N_bounded R) as HR. pose proof (Byte.to_N_bounded G) as HG.
  pose proof (Byte.to_N_bounded B) as HB.
  set (r := Z.of_N (Byte.to_N R)). set (g := Z.of_N (Byte.to_N G)).
  set (b := Z.of_N (Byte.to_N B)).
  assert (Hr : (0 <= r <= 255)%Z) by (unfold r; lia).
  assert (Hg : (0 <= g <= 255)%Z) by (unfold g; lia).
  assert (Hb : (0 <= b <= 255)%Z) by (unfold b; lia).
  change (2 ^ 24)%Z with 16777216%Z. split; [lia |].
  assert (E1 : float32 (inject_Z r) == inject_Z r)
    by (apply float32_int; change (2 ^ 24)%Z with 16777216%Z; lia).
  assert (E2 : float32 (inject_Z g) == inject_Z g)
    by (apply float32_int; change (2 ^ 24)%Z with 16777216%Z; lia).
  assert (E3 : float32 (inject_Z b) == inject_Z b)
    by (apply float32_int; change (2 ^ 24)%Z with 16777216%Z; lia).
  rewrite E1, E2, E3.
  assert (E4 : float32 (inject_Z r * 256) == inject_Z (r * 256)).
  { apply float32_int_eq; [rewrite inject_Z_mult; reflexivity |].
    change (2 ^ 24)%Z with 16777216%Z. lia. }
  rewrite E4.
  assert (E5 : float32 (inject_Z (r * 256) * 256) == inject_Z (r * 65536)).
  { apply float32_int_eq.
    - rewrite !inject_Z_mult. change (inject_Z 65536) with (256 * 256).
      change (inject_Z 256) with 256. ring.
    - change (2 ^ 24)%Z with 16777216%Z. lia. }
  rewrite E5.
  assert (E6 : float32 (inject_Z g * 256) == inject_Z (g * 256)).
  { apply float32_int_eq; [rewrite inject_Z_mult; reflexivity |].
    change (2 ^ 24)%Z with 16777216%Z. lia. }
  rewrite E6.
  assert (E7 : float32 (inject_Z (r * 65536) + inject_Z (g * 256))
               == inject_Z (r * 65536 + g * 256)).
  { apply float32_int_eq; [rewrite <- inject_Z_plus; reflexivity |].
    change (2 ^ 24)%Z with 16777216%Z. lia. }
  rewrite E7.
  assert (E8 : float32 (inject_Z (r * 65536 + g * 256) + inject_Z b)
               == inject_Z (r * 65536 + g * 256 + b)).
  { apply float32_int_eq; [rewrite <- inject_Z_plus; reflexivity |].
    change (2 ^ 24)%Z with 16777216%Z. lia. }
  rewrite E8. reflexivity.
Qed.

(** The float32 nearest to 0.1. *)
Lemma float32_tenth : float32 (1 # 10) == 13421773 # 134217728.
Proof. vm_compute. reflexivity. Qed.

(** Below 22768 m (pixel values under 327680) the decoding is within
    2.5 mm of the encoded elevation. *)
Lemma decode_pixel_close (p : Byte.byte * Byte.byte * Byte.byte) :
  (pixel_value p < 327680)%Z ->
  Qabs (decode_pixel p - (-10000 + inject_Z (pixel_value p) / 10)) <= 1 # 400.
Proof.
  intros Hlt. destruct (decode_pixel_value p) as [Hn E]. rewrite E. clear E.
  set (n := pixel_value p) in *.
  assert (Hq0 : 0 <= inject_Z n) by (change 0 with (inject_Z 0); rewrite <- Zle_Qle; lia).
  assert (Hq1 : inject_Z n <= 327679)
    by (change 327679 with (inject_Z 327679); rewrite <- Zle_Qle; lia).
  rewrite float32_tenth.
  set (x := inject_Z n * (13421773 # 134217728)).
  assert (Ex : x == inject_Z n * (13421773 # 134217728)) by reflexivity.
  assert (Hx0 : 0 <= x) by lra.
  assert (Hx1 : x <= 32768) by lra.
  assert (Hx2 : x < 32768) by lra.
  assert (Hy0 : 0 <= float32 x) by (apply float32_nonneg; exact Hx0).
  assert (Hy1 : float32 x <= 32768).
  { assert (Ec : float32 32768 == 32768) by (vm_compute; reflexivity).
    rewrite <- Ec. apply float32_mono. exact Hx1. }
  assert (P10 : pow2 (14 - 24) == 1 # 1024) by reflexivity.
  assert (P15 : pow2 (14 + 1) == 32768) by reflexivity.
  destruct (float32_error x 14) as [Hyl Hyh]; [lia | |].
  { rewrite P15. apply Qabs_Qlt_condition. split; lra. }
  rewrite P10 in Hyl, Hyh.
  set (y := float32 x) in *.
  destruct (float32_error (-10000 + y) 14) as [Hvl Hvh]; [lia | |].
  { rewrite P15. apply Qabs_Qlt_condition. split; lra. }
  rewrite P10 in Hvl, Hvh.
  apply Qabs_Qle_condition.
  assert (Ed : inject_Z n / 10 == inject_Z n * (1 # 10)) by reflexivity.
  rewrite Ed. split; lra.
Qed.

Lemma decode_pixel_range (p : Byte.byte * Byte.byte * Byte.byte) :
  -10000 <= decode_pixel p /\ decode_pixel p <= 16677215 # 10
  /\ Qabs (decode_pixel p - (-10000 + inject_Z (pixel_value p) / 10)) <= 3 # 20.
Proof.
  destruct (decode_pixel_value p) as [Hn E]. rewrite E. clear E.
  set (n := pixel_value p) in *. change (2 ^ 24)%Z with 16777216%Z in Hn.
  assert (Hq0 : 0 <= inject_Z n) by (change 0 with (inject_Z 0); rewrite <- Zle_Qle; lia).
  assert (Hq1 : inject_Z n <= 16777215)
    by (change 16777215 with (inject_Z 16777215); rewrite <- Zle_Qle; lia).
  rewrite float32_tenth.
  set (x := inject_Z n * (13421773 # 134217728)).
  assert (Ex : x == inject_Z n * (13421773 # 134217728)) by reflexivity.
  assert (Hx0 : 0 <= x) by lra.
  assert (Hx1 : x <= 16777215 * (13421773 # 134217728)) by lra.
  (* the product *)
  assert (Hy0 : 0 <= float32 x) by (apply float32_nonneg; exact Hx0).
  assert (Hy1 : float32 x <= 3355443 # 2).
  { assert (Ec : float32 (16777215 * (13421773 # 134217728)) == 3355443 # 2)
      by (vm_compute; reflexivity).
    rewrite <- Ec. apply float32_mono. exact Hx1. }
  assert (P16 : pow2 (20 - 24) == 1 # 16) by reflexivity.
  assert (P21 : pow2 (20 + 1) == 2097152) by reflexivity.
  destruct (float32_error x 20) as [Hyl Hyh]; [lia | |].
  { rewrite P21. apply Qabs_Qlt_condition. split; lra. }
  rewrite P16 in Hyl, Hyh.
  (* the sum *)
  set (y := float32 x) in *.
  assert (Hv0 : -10000 <= float32 (-10000 + y)).
  { assert (Ec : float32 (-10000) == -10000) by (vm_compute; reflexivity).
    rewrite <- Ec at 1. apply float32_mono. lra. }
  assert (Hv1 : float32 (-10000 + y) <= 16677215 # 10).
  { assert (Ec : float32 (-10000 + (3355443 # 2)) == 16677215 # 10)
      by (vm_compute; reflexivity).
    rewrite <- Ec. apply float32_mono. lra. }
  destruct (float32_error (-10000 + y) 20) as [Hvl Hvh]; [lia | |].
  { rewrite P21. apply Qabs_Qlt_condition. split; lra. }
  rewrite P16 in Hvl, Hvh.
  split; [exact Hv0 |]. split; [exact Hv1 |].
  apply Qabs_Qle_condition.
  assert (Ed : inject_Z n / 10 == inject_Z n * (1 # 10)) by reflexivity.
  rewrite Ed. split; lra.
Qed.

(** The float32 arithmetic is not exact: the 24-bit value 100001 stands
    for 0.1 m and is decoded to 0.1005859375 m; sea level (100000) is
    decoded to 0 m. *)
Example decode_pixel_rounds :
  decode_pixel (Byte.x01, Byte.x86, Byte.xa1) == 103 # 1024
  /\ decode_pixel (Byte.x01, Byte.x86, Byte.xa0) == 0.
Proof. split; vm_compute; reflexivity. Qed.

(** X13: [decode_terrain_rgb] keeps the shape of the image, and the
    elevation it returns for a pixel, computed in float32, lies between
    -10000 m and 1667721.5 m and within 0.15 m of [-10000 + n / 10] for
    the 24-bit value [n = R * 65536 + G * 256 + B] of that pixel; within
    2.5 mm of it when [n] is below 327680 (elevations under 22768 m). *)
Theorem decode_terrain_rgb_range (img : RGBImage) :
  nrows (decode_terrain_rgb img) = img_rows img
  /\ ncols (decode_terrain_rgb img) = img_cols img
  /\ length (ravel (decode_terrain_rgb img)) = length (img_pixels img)
  /\ forall k p, nth_error (img_pixels img) k = Some p ->
       exists v, nth_error (ravel (decode_terrain_rgb img)) k = Some v
         /\ -10000 <= v /\ v <= 16677215 # 10
         /\ Qabs (v - (-10000 + inject_Z (pixel_value p) / 10)) <= 3 # 20
         /\ ((pixel_value p < 327680)%Z ->
             Qabs (v - (-10000 + inject_Z (pixel_value p) / 10)) <= 1 # 400).
Proof.
  split; [reflexivity |]. split; [reflexivity |].
  split; [unfold decode_terrain_rgb; cbn [ravel]; apply length_map |].
  intros k p Hp. exists (decode_pixel p). split.
  - unfold decode_terrain_rgb. cbn [ravel]. rewrite nth_error_map, Hp. reflexivity.
  - destruct (decode_pixel_range p) as [H0 [H1 H2]].
    split; [exact H0 |]. split; [exact H1 |]. split; [exact H2 |].
    apply decode_pixel_close.
Qed.

(** ** The route from GPX points *)

(** X8: the array part of [Route_LL.new] raises [ValueError] exactly for
    an empty list of points.  Otherwise the route holds the coordinates of
    the points in order, its origin is the first point, the extremes it
    stores are those that [Route_LL.bounds] computes, they are attained and
    enclose every sample, and the centroid lies within them. *)
Theorem Route_LL_of_points_bounds (points : list (Q * Q * Q)) :
  match Route_LL_of_points points with
  | Err err => err = ValueError /\ points = []
  | Ok route =>
      latitudes route = map (fun p => fst (fst p)) points
      /\ longitudes route = map (fun p => snd (fst p)) points
      /\ elevations route = map (fun p => snd p) points
      /\ Route_LL_origin route = Ok (hd (0, 0, 0) points)
      /\ Route_LL_bounds route
         = Ok {| bounds_min_latitude := route_min_latitude route;
                 bounds_max_latitude := route_max_latitude route;
                 bounds_min_longitude := route_min_longitude route;
                 bounds_max_longitude := route_max_longitude route |}
      /\ encloses (route_min_latitude route, route_max_latitude route) (latitudes route)
      /\ encloses (route_min_longitude route, route_max_longitude route) (longitudes route)
      /\ route_min_latitude route <= latitude (Route_LL_centroid route)
      /\ latitude (Route_LL_centroid route) <= route_max_latitude route
      /\ route_min_longitude route <= longitude (Route_LL_centroid route)
      /\ longitude (Route_LL_centroid route) <= route_max_longitude route
  end.
Proof.
  destruct points as [| p points]; [split; reflexivity |].
  unfold Route_LL_of_points.
  set (lats := map (fun q : Q * Q * Q => fst (fst q)) (p :: points)).
  set (lons := map (fun q : Q * Q * Q => snd (fst q)) (p :: points)).
  destruct (np_min_ok lons) as [lon0 Hlon0]; [discriminate |].
  destruct (np_max_ok lons) as [lon1 Hlon1]; [discriminate |].
  destruct (np_min_ok lats) as [lat0 Hlat0]; [discriminate |].
  destruct (np_max_ok lats) as [lat1 Hlat1]; [discriminate |].
  rewrite Hlon0, Hlon1, Hlat0, Hlat1. cbn [bind].
  cbn [latitudes longitudes elevations route_min_latitude route_max_latitude
       route_min_longitude route_max_longitude].
  split; [reflexivity |]. split; [reflexivity |]. split; [reflexivity |].
  split; [destruct p as [[la lo] el]; reflexivity |].
  split.
  { unfold Route_LL_bounds. cbn [latitudes longitudes]. fold lats lons.
    rewrite Hlat0, Hlon0, Hlat1, Hlon1. reflexivity. }
  pose proof (encloses_min_max _ _ _ Hlat0 Hlat1) as Elat.
  pose proof (encloses_min_max _ _ _ Hlon0 Hlon1) as Elon.
  split; [exact Elat |]. split; [exact Elon |].
  unfold Route_LL_centroid.
  cbn [latitude longitude route_min_latitude route_max_latitude
       route_min_longitude route_max_longitude].
  destruct Elat as [Hin0 [_ Hb]]. destruct (Hb _ Hin0) as [_ Hlat01].
  destruct Elon as [Hin0' [_ Hb']]. destruct (Hb' _ Hin0') as [_ Hlon01].
  cbn [fst snd] in *.
  assert (Ha : forall a c, (a + c) / 2 == (a + c) * (1 # 2)) by (intros; reflexivity).
  rewrite !Ha. repeat split; lra.
Qed.


(** ** The tile client *)

Lemma tile_key_eqb_eq (k k' : Z * Z * Z) : tile_key_eqb k k' = true <-> k = k'.
Proof.
  destruct k as [[a b] c], k' as [[a' b'] c']. unfold tile_key_eqb. cbn [fst snd].
  rewrite !andb_true_iff, !Z.eqb_eq. split; [intros [[-> ->] ->]; reflexivity |].
  intros E. inversion E. repeat split.
Qed.

Lemma cache_hit_after_set (c : TileCache) (z x y : Z) (data : Bytes) :
  data <> [] -> cache_hit (Some (TileCache_set c z x y data)) z x y = Some data.
Proof.
  intros Hne. unfold cache_hit, TileCache_get, TileCache_set.
  rewrite (proj2 (tile_key_eqb_eq (z, x, y) (z, x, y)) eq_refl).
  destruct data; [congruence | reflexivity].
Qed.

Lemma cache_hit_inv (cache : option TileCache) (z x y : Z) (data : Bytes) :
  cache_hit cache z x y = Some data ->
  data <> [] /\ exists c, cache = Some c /\ c (z, x, y) = Some data.
Proof.
  unfold cache_hit, TileCache_get. destruct cache as [c |]; [| discriminate].
  destruct (c (z, x, y)) as [[| b d] |] eqn:E; try discriminate.
  intros H. inversion H. subst data. split; [discriminate |]. exists c. split; [reflexivity | exact E].
Qed.

(** X14: when [MapboxTileClient.fetch_tile] of a client with a cache
    returns non-empty data, the cache holds that data for the tile
    afterwards and its other entries are as before, the replies that were
    not consumed are left, and every later [fetch_tile] of the same tile
    returns the same data without any request. *)
Theorem fetch_tile_serves_from_cache (c : TileCache) (z x y : Z) (replies : list Reply)
    (data : Bytes) (cache' : option TileCache) (replies' : list Reply) :
  fetch_tile (Some c) z x y replies = (Returns data, cache', replies') ->
  data <> [] ->
  exists c',
    cache' = Some c'
    /\ c' (z, x, y) = Some data
    /\ (forall k, k <> (z, x, y) -> c' k = c k)
    /\ (exists used, replies = used ++ replies')
    /\ forall later, fetch_tile (Some c') z x y later = (Returns data, Some c', later).
Proof.
  revert data cache' replies'.
  induction replies as [| reply rest IH]; intros data cache' replies' Hfetch Hne.
  - cbn [fetch_tile] in Hfetch.
    destruct (cache_hit (Some c) z x y) as [cached |] eqn:Ehit; [| discriminate].
    inversion Hfetch. subst cached cache' replies'.
    destruct (cache_hit_inv _ _ _ _ _ Ehit) as [_ [c0 [E0 Hc0]]]. inversion E0. subst c0.
    exists c. split; [reflexivity |]. split; [exact Hc0 |]. split; [reflexivity |].
    split; [exists []; reflexivity |].
    intros later. destruct later; cbn [fetch_tile]; rewrite Ehit; reflexivity.
  - cbn [fetch_tile] in Hfetch.
    destruct (cache_hit (Some c) z x y) as [cached |] eqn:Ehit.
    + inversion Hfetch. subst cached cache' replies'.
      destruct (cache_hit_inv _ _ _ _ _ Ehit) as [_ [c0 [E0 Hc0]]]. inversion E0. subst c0.
      exists c. split; [reflexivity |]. split; [exact Hc0 |]. split; [reflexivity |].
      split; [exists []; reflexivity |].
      intros later. destruct later; cbn [fetch_tile]; rewrite Ehit; reflexivity.
    + destruct reply as [response |]; [| discriminate].
      destruct (status_code response =? 429)%Z.
      * assert (Hrec : fetch_tile (Some c) z x y rest = (Returns data, cache', replies')).
        { destruct (retry_after response) as [[seconds |] |]; try discriminate;
            [destruct (seconds <? 0)%Z; [discriminate | exact Hfetch] | exact Hfetch]. }
        destruct (IH _ _ _ Hrec Hne) as [c' [E1 [E2 [E3 [[used E4] E5]]]]].
        exists c'. repeat (split; [assumption |]).
        split; [exists (Responds response :: used); rewrite E4; reflexivity | exact E5].
      * destruct (negb (status_code response =? 200)%Z); [discriminate |].
        inversion Hfetch. subst data cache' replies'.
        exists (TileCache_set c z x y (content response)).
        split; [reflexivity |].
        pose proof (cache_hit_after_set c z x y (content response) Hne) as Hhit.
        split.
        { unfold TileCache_set.
          rewrite (proj2 (tile_key_eqb_eq (z, x, y) (z, x, y)) eq_refl). reflexivity. }
        split.
        { intros k Hk. unfold TileCache_set.
          destruct (tile_key_eqb k (z, x, y)) eqn:E; [| reflexivity].
          apply tile_key_eqb_eq in E. contradiction. }
        split; [exists [Responds response]; reflexivity |].
        intros later. destruct later; cbn [fetch_tile]; rewrite Hhit; reflexivity.
Qed.

Lemma fetch_tile_serves_from_cache_witness :
  exists c',
    fetch_tile (Some empty_cache) 12 2048 1361 [Responds too_many_requests; Responds ok_response]
    = (Returns (content ok_response), Some c', [])
    /\ forall later,
         fetch_tile (Some c') 12 2048 1361 later
         = (Returns (content ok_response), Some c', later).
Proof.
  destruct (fetch_tile_serves_from_cache empty_cache 12 2048 1361
              [Responds too_many_requests; Responds ok_response]
              (content ok_response)
              (Some (TileCache_set empty_cache 12 2048 1361 (content ok_response))) [])
    as [c' [E [_ [_ [_ Hlater]]]]]; [reflexivity | discriminate |].
  exists c'. split; [rewrite <- E; reflexivity | exact Hlater].
Defined.

Lemma cache_miss_hit (cache : option TileCache) (z x y : Z) :
  cache = None
  \/ (exists c, cache = Some c /\ (c (z, x, y) = None \/ c (z, x, y) = Some [])) ->
  cache_hit cache z x y = None.
Proof.
  intros [-> | [c [-> [E | E]]]]; unfold cache_hit, TileCache_get; [reflexivity | |];
    rewrite E; reflexivity.
Qed.

(** X15: on a cache miss (no cache, no file, or an empty file), after the
    rate-limit replies that come first (status 429 with no Retry-After or
    a non-negative one), [MapboxTileClient.fetch_tile] returns the content of
    a reply of status 200 and stores it in the cache, if there is one; for
    any other status it raises [RuntimeError] and leaves the cache as it
    was. *)
Theorem fetch_tile_on_miss (cache : option TileCache) (z x y : Z)
    (waits : list Response) (response : Response) (rest : list Reply) :
  cache = None
  \/ (exists c, cache = Some c /\ (c (z, x, y) = None \/ c (z, x, y) = Some [])) ->
  (forall w, In w waits ->
     status_code w = 429%Z
     /\ (retry_after w = None \/ exists s, retry_after w = Some (Some s) /\ (0 <= s)%Z)) ->
  status_code response <> 429%Z ->
  fetch_tile cache z x y (map Responds waits ++ Responds response :: rest)
  = if (status_code response =? 200)%Z
    then (Returns (content response),
          option_map (fun c => TileCache_set c z x y (content response)) cache,
          rest)
    else (Raises RuntimeError, cache, rest).
Proof.
  intros Hmiss Hwaits Hstatus. apply cache_miss_hit in Hmiss.
  induction waits as [| w waits IH].
  - cbn [map app fetch_tile]. rewrite Hmiss.
    destruct (Z.eqb_spec (status_code response) 429) as [E | _]; [contradiction |].
    destruct (status_code response =? 200)%Z; cbn [negb]; [| reflexivity].
    destruct cache; reflexivity.
  - cbn [map app fetch_tile]. rewrite Hmiss.
    destruct (Hwaits w (or_introl eq_refl)) as [E429 Hretry].
    rewrite E429. cbn [Z.eqb Pos.eqb].
    assert (IH' := IH (fun w' Hw' => Hwaits w' (or_intror Hw'))).
    destruct Hretry as [-> | [s [-> Hs]]]; [exact IH' |].
    destruct (Z.ltb_spec s 0); [lia | exact IH'].
Qed.

Lemma fetch_tile_on_miss_witness :
  fetch_tile (Some empty_cache) 12 2048 1361
    (map Responds [too_many_requests] ++ Responds ok_response :: [])
  = (Returns (content ok_response),
     option_map (fun c => TileCache_set c 12 2048 1361 (content ok_response))
       (Some empty_cache),
     []).
Proof.
  apply (fetch_tile_on_miss (Some empty_cache) 12 2048 1361 [too_many_requests]
           ok_response []).
  - right. exists empty_cache. split; [reflexivity | left; reflexivity].
  - intros w [<- | []]. split; [reflexivity |]. right. exists 1%Z. split; [reflexivity | lia].
  - discriminate.
Defined.
